(** * calculadoraLogica: scanner, parser, AST and truth-table generator

    A shallow embedding of the JavaScript sources

      - the AST node types (evaluate / toString),
      - the scanner (scan, preliminaryScan, numberVariables, ...),
      - the parser (parse, addOperand, priorityOf, ...),
      - the truth-table generator (generateTruthTable, nextAssignment),
      - the renderer (prettyPrintTruthTable, displayCompileError, go, ...),

    followed by the properties of the specification that concern them
    and by further properties of the code. *)

From Stdlib Require Import String Ascii.
From Stdlib Require Import List Bool Arith NArith ZArith Lia.
From Stdlib Require Import Sorting.Sorted Sorting.Permutation.
Import ListNotations.

Set Implicit Arguments.

(* ================================================================== *)
(** ** JavaScript strings *)
(* ================================================================== *)

(** A JavaScript string is a sequence of UTF-16 code units; [length] is
    the [.length] of the source.  Every character the program treats
    specially lies in the Basic Multilingual Plane, one code unit each. *)
Abbreviation jschar := N (only parsing).
Abbreviation jsstring := (list N) (only parsing).

(** String literals of the source are written in UTF-8 in this file and
    decoded to code units by [js]. *)
Fixpoint utf8 (bs : list N) : jsstring :=
  match bs with
  | [] => []
  | b1 :: rest =>
      if (b1 <? 128)%N then b1 :: utf8 rest
      else if (b1 <? 224)%N then
        match rest with
        | b2 :: rest' => ((b1 - 192) * 64 + (b2 - 128))%N :: utf8 rest'
        | [] => [b1]
        end
      else
        match rest with
        | b2 :: b3 :: rest' =>
            ((b1 - 224) * 4096 + (b2 - 128) * 64 + (b3 - 128))%N :: utf8 rest'
        | _ => [b1]
        end
  end.

Definition js (s : string) : jsstring :=
  utf8 (map N_of_ascii (list_ascii_of_string s)).

Fixpoint jseqb (a b : jsstring) : bool :=
  match a, b with
  | [], [] => true
  | x :: a', y :: b' => (x =? y)%N && jseqb a' b'
  | _, _ => false
  end.

(** [a === s] for a string literal [s] *)
Notation "a === s" := (jseqb a (js s)) (at level 35, no associativity).

Lemma jseqb_eq : forall a b, jseqb a b = true <-> a = b.
Proof.
  induction a as [|x a IH]; destruct b as [|y b]; simpl; split; intro H;
    try reflexivity; try discriminate.
  - apply andb_true_iff in H. destruct H as [H1 H2].
    apply N.eqb_eq in H1. apply IH in H2. congruence.
  - inversion H; subst. rewrite N.eqb_refl. simpl. apply IH. reflexivity.
Qed.

Lemma jseqb_refl : forall a, jseqb a a = true.
Proof. intro a. apply jseqb_eq. reflexivity. Qed.

Lemma jseqb_neq : forall a b, jseqb a b = false <-> a <> b.
Proof.
  intros a b. split.
  - intros H E. apply jseqb_eq in E. congruence.
  - intro H. destruct (jseqb a b) eqn:E; [apply jseqb_eq in E; contradiction | reflexivity].
Qed.

(** [s.charAt(i)]: the one-character string at [i], or the empty string
    (here [None]) when [i] is out of range. *)
Definition charAt (s : jsstring) (i : nat) : option jschar := nth_error s i.

(** [s.substring(a, b)] for [a <= b]; both ends are clamped to the length. *)
Definition substring (s : jsstring) (a b : nat) : jsstring :=
  firstn (b - a) (skipn a s).

(** Lexicographic comparison by code units, the order of [Array.prototype.sort]
    without a comparator. *)
Fixpoint jsltb (a b : jsstring) : bool :=
  match a, b with
  | _, [] => false
  | [], _ :: _ => true
  | x :: a', y :: b' => (x <? y)%N || ((x =? y)%N && jsltb a' b')
  end.

Definition jsleb (a b : jsstring) : bool := negb (jsltb b a).

(* ------------------------------------------------------------------ *)
(** *** Character classes of the regular expressions *)

Definition inRange (lo hi c : N) : bool := ((lo <=? c) && (c <=? hi))%N.

(** [/[A-Za-z_]/] *)
Definition isVariableStartChar (c : jschar) : bool :=
  inRange 65 90 c || inRange 97 122 c || (c =? 95)%N.

(** [/[A-Za-z_0-9]/] *)
Definition isVariableChar (c : jschar) : bool :=
  inRange 65 90 c || inRange 97 122 c || (c =? 95)%N || inRange 48 57 c.

(** [/\s/]: the WhiteSpace and LineTerminator code points of ECMAScript. *)
Definition isWhitespaceChar (c : jschar) : bool :=
  inRange 9 13 c || (c =? 32)%N || (c =? 160)%N || (c =? 5760)%N ||
  inRange 8192 8202 c || (c =? 8232)%N || (c =? 8233)%N || (c =? 8239)%N ||
  (c =? 8287)%N || (c =? 12288)%N || (c =? 65279)%N.

(** The unicode glyphs of the operator alphabet:
    U+2227, U+2228, U+2192, U+2194, U+22A4, U+22A5, U+00AC. *)
Definition isGlyph (c : jschar) : bool :=
  (c =? 8743)%N || (c =? 8744)%N || (c =? 8594)%N || (c =? 8596)%N ||
  (c =? 8868)%N || (c =? 8869)%N || (c =? 172)%N.

(** The class of [tryReadOperator]'s last case: [( ) ~ T F ^ !] and the glyphs. *)
Definition isSingleCharOperator (c : jschar) : bool :=
  (c =? 40)%N || (c =? 41)%N || (c =? 126)%N || (c =? 84)%N || (c =? 70)%N ||
  (c =? 94)%N || (c =? 33)%N || isGlyph c.

(** [okayChars] of [checkIntegrity]:
    letters, digits, underscore, [\ / < > - ~ ^ ( )], whitespace, [& | = !]
    and the glyphs. *)
Definition okayChars (c : jschar) : bool :=
  isVariableChar c ||
  (c =? 92)%N || (c =? 47)%N || (c =? 60)%N || (c =? 62)%N || (c =? 45)%N ||
  (c =? 126)%N || (c =? 94)%N || (c =? 40)%N || (c =? 41)%N ||
  isWhitespaceChar c ||
  (c =? 38)%N || (c =? 124)%N || (c =? 61)%N || (c =? 33)%N || isGlyph c.

(* ================================================================== *)
(** ** Outcomes of a call *)
(* ================================================================== *)

(** The object thrown by [scannerFail] and [parseError]. *)
Record error := mkError
  { description : jsstring;
    start_ : nat;
    end_ : nat }.

(** What makes a call end without a result or a structured error:
    a failed [assert], a call of [unreachable] (both [throw new Error]),
    a property read on [null], a [pop] of an empty operand stack, or a
    loop that does not finish within the rounds granted to it.

    In JavaScript the [pop] of an empty array yields [undefined] and the
    execution goes on with it; the embedding stops there, so that a
    theorem which excludes [Failure] says that no such [pop] happens. *)
Inductive failure :=
| AssertionFailed
| Unreachable
| TypeError
| OperandUnderflow
| OutOfFuel.

Inductive outcome (A : Type) :=
| Return (a : A)
| Throw (e : error)
| Failure (f : failure).

Arguments Return {A} a.
Arguments Throw {A} e.
Arguments Failure {A} f.

Definition bind {A B} (m : outcome A) (k : A -> outcome B) : outcome B :=
  match m with
  | Return a => k a
  | Throw e => Throw e
  | Failure f => Failure f
  end.

Notation "x <- m ;; k" := (bind m (fun x => k))
  (at level 61, m at next level, right associativity).
Notation "m ;;; k" := (bind m (fun _ => k))
  (at level 61, right associativity).

Definition scannerFail {A} (why : jsstring) (start end' : nat) : outcome A :=
  Throw {| description := why; start_ := start; end_ := end' |}.

Definition parseError {A} (why : jsstring) (start end' : nat) : outcome A :=
  Throw {| description := why; start_ := start; end_ := end' |}.

Definition assert (expr : bool) : outcome unit :=
  if expr then Return tt else Failure AssertionFailed.

Definition unreachable {A} : outcome A := Failure Unreachable.

(* ================================================================== *)
(** ** Property values *)
(* ================================================================== *)

(** The values that can be read out of the [variableSet] object:
    [true] (stored by [scanVariable]), a number (stored by
    [numberVariables]), or, for a name that is not an own property, what
    [Object.prototype] gives: itself for [__proto__], a function for its
    methods, [undefined] otherwise. *)
Inductive propval :=
| PTrue
| PNum (n : nat)
| PObjectPrototype
| PFunction
| PUndefined.

(** [arr[index]] on an array: an element when [index] is a number in
    range, [undefined] (here [None]) otherwise.  The other property
    values convert to keys that are no element of an array. *)
Definition arrayGet {A} (arr : list A) (index : propval) : option A :=
  match index with
  | PNum n => nth_error arr n
  | _ => None
  end.

(* ================================================================== *)
(** ** AST nodes *)
(* ================================================================== *)

Inductive node :=
| trueNode
| falseNode
| negateNode (underlying : node)
| andNode (lhs rhs : node)
| orNode (lhs rhs : node)
| impliesNode (lhs rhs : node)
| iffNode (lhs rhs : node)
| variableNode (index : propval).

(** A JavaScript truth value as [evaluate] can return it: [Some b] is the
    boolean [b], [None] is [undefined] (read from an assignment at an
    index it does not have). *)
Definition jsbool := option bool.

Definition truthy (v : jsbool) : bool :=
  match v with Some b => b | None => false end.

(** [!v] *)
Definition jsnot (v : jsbool) : jsbool := Some (negb (truthy v)).
(** [a && b] *)
Definition jsand (a b : jsbool) : jsbool := if truthy a then b else a.
(** [a || b] *)
Definition jsor (a b : jsbool) : jsbool := if truthy a then a else b.
(** [a === b] *)
Definition jsstricteq (a b : jsbool) : jsbool :=
  match a, b with
  | Some x, Some y => Some (Bool.eqb x y)
  | None, None => Some true
  | _, _ => Some false
  end.

Fixpoint evaluate (n : node) (assignment : list bool) : jsbool :=
  match n with
  | trueNode => Some true
  | falseNode => Some false
  | negateNode underlying => jsnot (evaluate underlying assignment)
  | andNode lhs rhs => jsand (evaluate lhs assignment) (evaluate rhs assignment)
  | orNode lhs rhs => jsor (evaluate lhs assignment) (evaluate rhs assignment)
  | impliesNode lhs rhs =>
      jsor (jsnot (evaluate lhs assignment)) (evaluate rhs assignment)
  | iffNode lhs rhs =>
      jsstricteq (evaluate lhs assignment) (evaluate rhs assignment)
  | variableNode index => arrayGet assignment index
  end.

(** A string operand of [+]; [undefined] is converted to its name. *)
Definition toStr (v : option jsstring) : jsstring :=
  match v with Some s => s | None => js "undefined" end.

Fixpoint toString (n : node) (variables : list jsstring) : option jsstring :=
  match n with
  | trueNode => Some (js "&#8868;")
  | falseNode => Some (js "&#8869;")
  | negateNode underlying =>
      Some (js "&not;" ++ toStr (toString underlying variables))
  | andNode lhs rhs =>
      Some (js "(" ++ toStr (toString lhs variables) ++ js " &and; "
                 ++ toStr (toString rhs variables) ++ js ")")
  | orNode lhs rhs =>
      Some (js "(" ++ toStr (toString lhs variables) ++ js " &or; "
                 ++ toStr (toString rhs variables) ++ js ")")
  | impliesNode lhs rhs =>
      Some (js "(" ++ toStr (toString lhs variables) ++ js " &rarr; "
                 ++ toStr (toString rhs variables) ++ js ")")
  | iffNode lhs rhs =>
      Some (js "(" ++ toStr (toString lhs variables) ++ js " &harr; "
                 ++ toStr (toString rhs variables) ++ js ")")
  | variableNode index => arrayGet variables index
  end.

(* ================================================================== *)
(** ** Truth-table generation *)
(* ================================================================== *)

Record parseResult := mkParseResult
  { ast : node;
    variables : list jsstring }.

(** [arr[i] = v] for an index of the array.  [nextAssignment] writes at
    [flipIndex] and at the indices after it up to the length, all of them
    indices of the array, so the extension JavaScript performs for a
    write past the end is not needed. *)
Fixpoint arraySet {A} (arr : list A) (i : nat) (v : A) : list A :=
  match arr, i with
  | [], _ => []
  | _ :: rest, 0 => v :: rest
  | x :: rest, S j => x :: arraySet rest j v
  end.

(** The loop [while (flipIndex >= 0 && assignment[flipIndex]) flipIndex--],
    started at [flipIndex = k - 1]; the result is the final [flipIndex]. *)
Fixpoint findFlipIndex (assignment : list bool) (k : nat) : Z :=
  match k with
  | 0 => (-1)%Z
  | S j => if truthy (nth_error assignment j)
           then findFlipIndex assignment j
           else Z.of_nat j
  end.

(** [nextAssignment] mutates its argument and returns a flag; here it
    returns the flag and the array after the call. *)
Definition nextAssignment (assignment : list bool) : bool * list bool :=
  let flipIndex := findFlipIndex assignment (length assignment) in
  if (flipIndex =? -1)%Z then (false, assignment)
  else
    let flipIndex := Z.to_nat flipIndex in
    let assignment := arraySet assignment flipIndex true in
    (true,
     fold_left (fun a i => arraySet a i false)
               (seq (flipIndex + 1) (length assignment - (flipIndex + 1)))
               assignment).

(** The callback receives the (one, shared) assignment array as it is at
    the time of the call, and the value of the formula.  It is a state
    transformer on the caller's state [St]; like [outputRow] it reads the
    array and does not write to it. *)
Section Generate.
Variable St : Type.
Variable callback : list bool -> jsbool -> St -> St.

(** The [do ... while (nextAssignment(assignment))] loop. *)
Fixpoint truthTableLoop (fuel : nat) (a : node) (assignment : list bool)
         (st : St) : outcome St :=
  match fuel with
  | 0 => Failure OutOfFuel
  | S fuel' =>
      let st' := callback assignment (evaluate a assignment) st in
      let (more, assignment') := nextAssignment assignment in
      if more then truthTableLoop fuel' a assignment' st'
      else Return st'
  end.

(** [fuel] bounds the number of rounds of the loop. *)
Definition generateTruthTable (fuel : nat) (pr : parseResult) (st : St)
  : outcome St :=
  let assignment := map (fun _ => false) (variables pr) in
  truthTableLoop fuel (ast pr) assignment st.
End Generate.

(* ================================================================== *)
(** ** Scanner *)
(* ================================================================== *)

Module kScannerConstants.
(** ["$"] *)
Definition EOF : jsstring := [36%N].
End kScannerConstants.

(** A token: [type], the optional [index] field, and the character range.
    In the preliminary scan the [index] of a variable token is its name;
    [numberVariables] replaces it by what the variable set holds for that
    name. *)
Record token (I : Type) := mkToken
  { type : jsstring;
    index : option I;
    start : nat;
    end' : nat }.

Arguments mkToken {I} type index start end'.

(** The object [variableSet]: its own enumerable properties in order of
    creation.  (Property names that are array indices would be enumerated
    first; a variable name starts with a letter or an underscore and is
    none.) *)
Definition jsobject := list (jsstring * propval).

Fixpoint ownProperty (o : jsobject) (k : jsstring) : option propval :=
  match o with
  | [] => None
  | (k', v) :: rest => if jseqb k' k then Some v else ownProperty rest k
  end.

(** The properties every object inherits from [Object.prototype]. *)
Definition objectPrototypeMethods : list jsstring :=
  [ js "constructor"; js "hasOwnProperty"; js "isPrototypeOf";
    js "propertyIsEnumerable"; js "toLocaleString"; js "toString";
    js "valueOf"; js "__defineGetter__"; js "__defineSetter__";
    js "__lookupGetter__"; js "__lookupSetter__" ].

(** [o[k]]: the own property, or else the one of [Object.prototype]. *)
Definition objGet (o : jsobject) (k : jsstring) : propval :=
  match ownProperty o k with
  | Some v => v
  | None =>
      if jseqb k (js "__proto__") then PObjectPrototype
      else if existsb (jseqb k) objectPrototypeMethods then PFunction
      else PUndefined
  end.

Fixpoint objUpdate (o : jsobject) (k : jsstring) (v : propval) : jsobject :=
  match o with
  | [] => [(k, v)]
  | (k', v') :: rest =>
      if jseqb k' k then (k', v) :: rest else (k', v') :: objUpdate rest k v
  end.

(** [o[k] = v] for a primitive [v].  [__proto__] is an accessor of
    [Object.prototype] whose setter ignores a value that is neither an
    object nor null: no own property is created.  Any other name becomes
    (or stays) an own property. *)
Definition objSet (o : jsobject) (k : jsstring) (v : propval) : jsobject :=
  if jseqb k (js "__proto__") then o else objUpdate o k v.

(** [for (var key in o)] *)
Definition forIn (o : jsobject) : list jsstring := map fst o.

(** [translate] *)
Definition translate (input : jsstring) : jsstring :=
  if input === "&&" || input === "and" || input === "∧"
     || input === "\land" || input === "\wedge" || input === "^"
  then js "/\"
  else if input === "||" || input === "or" || input === "∨"
          || input === "\lor" || input === "\vee"
  then js "\/"
  else if input === "=>" || input === "→" || input === "implies"
          || input === "\to" || input === "\rightarrow" || input === "\Rightarrow"
  then js "->"
  else if input === "<=>" || input === "↔" || input === "iff"
          || input === "\leftrightarrow" || input === "\Leftrightarrow"
  then js "<->"
  else if input === "not" || input === "!" || input === "¬"
          || input === "\lnot" || input === "\neg"
  then js "~"
  else if input === "⊤" || input === "true" || input === "\top" then js "T"
  else if input === "⊥" || input === "false" || input === "\bot" then js "F"
  else input.

Definition makeIdentityToken {I} (str : jsstring) (idx : nat) : token I :=
  {| type := translate str;
     index := None;
     start := idx;
     end' := idx + length str |}.

Definition makeVariableToken {I} (varIndex : I) (start end'' : nat) : token I :=
  {| type := js "variable";
     index := Some varIndex;
     start := start;
     end' := end'' |}.

Definition isReservedWord (tok : jsstring) : bool :=
  tok === "T" || tok === "F" || tok === "and" || tok === "or" ||
  tok === "not" || tok === "iff" || tok === "implies" ||
  tok === "true" || tok === "false".

(** The loop [while (/[A-Za-z_0-9]/.test(input.charAt(index)))] of
    [tryReadVariableName], on the characters from [index] on. *)
Fixpoint readVariableChars (rest : jsstring) : jsstring :=
  match rest with
  | c :: rest' => if isVariableChar c then c :: readVariableChars rest' else []
  | [] => []
  end.

Definition tryReadVariableName (input : jsstring) (idx : nat) : option jsstring :=
  match charAt input idx with
  | Some c =>
      if negb (isVariableStartChar c) then None
      else
        let result := readVariableChars (skipn idx input) in
        if isReservedWord result then None else Some result
  | None => None
  end.

Definition isVariableStart (input : jsstring) (idx : nat) : bool :=
  match tryReadVariableName input idx with Some _ => true | None => false end.

(** [scanVariable] returns the name and the variable set after the call.
    By contract a variable starts at [idx]; [null] cannot be the name. *)
Definition scanVariable (input : jsstring) (idx : nat) (variableSet : jsobject)
  : option (jsstring * jsobject) :=
  match tryReadVariableName input idx with
  | Some variableName => Some (variableName, objSet variableSet variableName PTrue)
  | None => None
  end.

(** One of the cases 1 to 8 of [tryReadOperator]:
    [if (index < input.length - (n - 1)) {
       var chars = input.substring(index, index + n);
       if (chars === s1 || chars === s2 || ...) return chars; }] *)
Definition operatorCase (n : nat) (spellings : list string)
           (input : jsstring) (idx : nat) : option jsstring :=
  if (Z.of_nat idx <? Z.of_nat (length input) - (Z.of_nat n - 1))%Z then
    let chars := substring input idx (idx + n) in
    if existsb (fun s => chars === s) spellings then Some chars else None
  else None.

(** The cases 1 to 8 in the order of the source: the number of
    characters read and the spellings compared with. *)
Definition operatorSpellings : list (nat * list string) :=
  [ (15, ["\leftrightarrow"; "\Leftrightarrow"]);
    (11, ["\rightarrow"; "\Rightarrow"]);
    (7, ["implies"]);
    (6, ["\wedge"]);
    (5, ["false"; "\lnot"; "\lneg"; "\land"]);
    (4, ["true"; "\top"; "\bot"; "\lor"; "\vee"; "\neg"]);
    (3, ["<->"; "and"; "<=>"; "not"; "iff"; "\to"]);
    (2, ["/\"; "\/"; "->"; "&&"; "||"; "or"; "=>"]) ]%string.

(** The first case that returns decides. *)
Fixpoint firstCase (cases : list (nat * list string))
         (input : jsstring) (idx : nat) : option jsstring :=
  match cases with
  | [] => None
  | (n, spellings) :: rest =>
      match operatorCase n spellings input idx with
      | Some chars => Some chars
      | None => firstCase rest input idx
      end
  end.

(** Case 9, one character. *)
Definition singleCharCase (input : jsstring) (idx : nat) : option jsstring :=
  match charAt input idx with
  | Some c => if isSingleCharOperator c then Some [c] else None
  | None => None
  end.

Definition tryReadOperator (input : jsstring) (idx : nat) : option jsstring :=
  match firstCase operatorSpellings input idx with
  | Some chars => Some chars
  | None => singleCharCase input idx
  end.

Definition isOperatorStart (input : jsstring) (idx : nat) : bool :=
  match tryReadOperator input idx with Some _ => true | None => false end.

Definition isWhitespace (c : option jschar) : bool :=
  match c with Some c => isWhitespaceChar c | None => false end.

(** A one-character string in a concatenation. *)
Definition charStr (c : option jschar) : jsstring :=
  match c with Some c => [c] | None => [] end.

(** The [while (true)] loop of [preliminaryScan]; [input] already ends
    with the EOF marker. *)
Fixpoint preliminaryScanLoop (fuel : nat) (input : jsstring) (i : nat)
         (variableSet : jsobject) (tokens : list (token jsstring))
  : outcome (list (token jsstring) * jsobject) :=
  match fuel with
  | 0 => Failure OutOfFuel
  | S fuel' =>
      let curr := charAt input i in
      if jseqb (charStr curr) kScannerConstants.EOF then
        Return (tokens ++ [makeIdentityToken (charStr curr) i], variableSet)
      else if isVariableStart input i then
        match scanVariable input i variableSet with
        | Some (variable, variableSet') =>
            preliminaryScanLoop fuel' input (i + length variable) variableSet'
              (tokens ++ [makeVariableToken variable i (i + length variable)])
        | None => Failure TypeError
        end
      else if isOperatorStart input i then
        match tryReadOperator input i with
        | Some tok =>
            preliminaryScanLoop fuel' input (i + length tok) variableSet
              (tokens ++ [makeIdentityToken tok i])
        | None => Failure TypeError
        end
      else if isWhitespace (charAt input i) then
        preliminaryScanLoop fuel' input (i + 1) variableSet tokens
      else
        scannerFail (js "O carácter " ++ charStr (charAt input i)
                        ++ js " não deveria estar aqui.") i (i + 1)
  end.

(** Every round but the last moves [i] forward, and [i] past the end
    fails: one round per character and one more always suffice. *)
Definition preliminaryScan (input : jsstring)
  : outcome (list (token jsstring) * jsobject) :=
  let input := input ++ kScannerConstants.EOF in
  preliminaryScanLoop (S (length input)) input 0 [] [].

(** The loop of [checkIntegrity], on the characters from [i] on. *)
Fixpoint checkIntegrityFrom (rest : jsstring) (i : nat) : outcome unit :=
  match rest with
  | [] => Return tt
  | c :: rest' =>
      if negb (okayChars c) then scannerFail (js "Illegal character") i (i + 1)
      else checkIntegrityFrom rest' (i + 1)
  end.

Definition checkIntegrity (input : jsstring) : outcome unit :=
  checkIntegrityFrom input 0.

(** [variables.sort()]: insertion sort by code units.  The names are the
    property names of one object, hence pairwise different, and the order
    is total: every sorting algorithm gives this result. *)
Fixpoint insertSorted (x : jsstring) (l : list jsstring) : list jsstring :=
  match l with
  | [] => [x]
  | y :: l' => if jsleb x y then x :: y :: l' else y :: insertSorted x l'
  end.

Fixpoint sort (l : list jsstring) : list jsstring :=
  match l with
  | [] => []
  | x :: l' => insertSorted x (sort l')
  end.

(** [for (i = 0; i < variables.length; i++) variableSet[variables[i]] = i],
    from index [i] on. *)
Fixpoint invertVariables (vars : list jsstring) (i : nat) (variableSet : jsobject)
  : jsobject :=
  match vars with
  | [] => variableSet
  | v :: rest => invertVariables rest (i + 1) (objSet variableSet v (PNum i))
  end.

Definition renumberToken (variableSet : jsobject) (t : token jsstring)
  : token propval :=
  if jseqb (type t) (js "variable") then
    {| type := type t;
       index := Some (match index t with
                      | Some name => objGet variableSet name
                      | None => objGet variableSet (js "undefined")
                      end);
       start := start t;
       end' := end' t |}
  else
    {| type := type t; index := None; start := start t; end' := end' t |}.

Definition numberVariables (preliminary : list (token jsstring) * jsobject)
  : list (token propval) * list jsstring :=
  let (tokens, variableSet) := preliminary in
  let variables := sort (forIn variableSet) in
  let variableSet := invertVariables variables 0 variableSet in
  (map (renumberToken variableSet) tokens, variables).

Definition scan (input : jsstring)
  : outcome (list (token propval) * list jsstring) :=
  checkIntegrity input ;;;
  preliminary <- preliminaryScan input ;;
  Return (numberVariables preliminary).

(* ================================================================== *)
(** ** Parser *)
(* ================================================================== *)

Definition tok := token propval.

(** The two stacks are arrays used with [push] and [pop]; here the top
    of a stack is the head of the list. *)
Definition topOf {A} (array : list A) : outcome A :=
  match array with
  | [] => Failure AssertionFailed
  | x :: _ => Return x
  end.

(** [operands.pop()] *)
Definition popOperand (operands : list node) : outcome (node * list node) :=
  match operands with
  | [] => Failure OperandUnderflow
  | x :: rest => Return (x, rest)
  end.

(** [addOperand] returns the two stacks as they are after the call. *)
Fixpoint addOperand (n : node) (operands : list node) (operators : list tok)
  : list node * list tok :=
  match operators with
  | top :: rest =>
      if type top === "~" then addOperand (negateNode n) operands rest
      else (n :: operands, operators)
  | [] => (n :: operands, operators)
  end.

Definition isOperand (t : tok) : bool :=
  type t === "T" || type t === "F" || type t === "variable".

Definition wrapOperand (t : tok) : outcome node :=
  if type t === "T" then Return trueNode
  else if type t === "F" then Return falseNode
  else if type t === "variable" then
    Return (variableNode (match index t with Some v => v | None => PUndefined end))
  else unreachable.

Definition isBinaryOperator (t : tok) : bool :=
  type t === "<->" || type t === "->" || type t === "/\" || type t === "\/".

Definition isEOF (t : tok) : bool := jseqb (type t) kScannerConstants.EOF.

Definition priorityOf (t : tok) : outcome Z :=
  if isEOF t then Return (-1)%Z
  else if type t === "<->" then Return 0%Z
  else if type t === "->" then Return 1%Z
  else if type t === "\/" then Return 2%Z
  else if type t === "/\" then Return 3%Z
  else unreachable.

Definition createOperatorNode (lhs : node) (t : tok) (rhs : node) : outcome node :=
  if type t === "<->" then Return (iffNode lhs rhs)
  else if type t === "->" then Return (impliesNode lhs rhs)
  else if type t === "\/" then Return (orNode lhs rhs)
  else if type t === "/\" then Return (andNode lhs rhs)
  else unreachable.

(** The loop that evaluates the operators of higher priority than
    [currToken] on top of the stack.  Every round pops an operator. *)
Fixpoint evaluateHigherPriority (fuel : nat) (currToken : tok)
         (operators : list tok) (operands : list node)
  : outcome (list tok * list node) :=
  match fuel with
  | 0 => Failure OutOfFuel
  | S fuel' =>
      match operators with
      | [] => Return (operators, operands)
      | top :: rest =>
          if type top === "(" then Return (operators, operands)
          else
            pTop <- priorityOf top ;;
            pCurr <- priorityOf currToken ;;
            if (pTop <=? pCurr)%Z then Return (operators, operands)
            else
              (* var operator = operators.pop() *)
              r <- popOperand operands ;;
              let (rhs, operands) := r in
              l <- popOperand operands ;;
              let (lhs, operands) := l in
              n <- createOperatorNode lhs top rhs ;;
              let (operands, operators) := addOperand n operands rest in
              evaluateHigherPriority fuel' currToken operators operands
      end
  end.

(** The loop of the close parenthesis.  Every round pops an operator. *)
Fixpoint popUntilOpenParenthesis (fuel : nat) (currToken : tok)
         (operators : list tok) (operands : list node)
  : outcome (list tok * list node) :=
  match fuel with
  | 0 => Failure OutOfFuel
  | S fuel' =>
      match operators with
      | [] =>
          parseError
            (js "Este parêntesis fechado não corresponde a nenhum parêntesis aberto.")
            (start currToken) (end' currToken)
      | currOp :: rest =>
          if type currOp === "(" then Return (rest, operands)
          else if type currOp === "~" then
            parseError (js "Nada é negado por este operador.")
                       (start currOp) (end' currOp)
          else
            r <- popOperand operands ;;
            let (rhs, operands) := r in
            l <- popOperand operands ;;
            let (lhs, operands) := l in
            n <- createOperatorNode lhs currOp rhs ;;
            let (operands, operators) := addOperand n operands rest in
            popUntilOpenParenthesis fuel' currToken operators operands
      end
  end.

Record parserState := mkState
  { operators : list tok;
    operands : list node;
    needOperand : bool }.

Inductive loopControl := Continue | Break.

(** The body of [for (var i in tokens)]. *)
Definition parseToken (currToken : tok) (st : parserState)
  : outcome (loopControl * parserState) :=
  let operators := operators st in
  let operands := operands st in
  if needOperand st then
    if isOperand currToken then
      n <- wrapOperand currToken ;;
      let (operands, operators) := addOperand n operands operators in
      Return (Continue, mkState operators operands false)
    else if type currToken === "(" || type currToken === "~" then
      Return (Continue, mkState (currToken :: operators) operands true)
    else if isEOF currToken then
      match operators with
      | [] => parseError [] 0 0
      | _ :: _ =>
          top <- topOf operators ;;
          if type top === "(" then
            parseError
              (js "Este parêntesis aberto não tem parêntesis fechado correspondente.")
              (start top) (end' top)
          else
            parseError (js "Falta um operando a este operador.")
                       (start top) (end' top)
      end
    else
      parseError
        (js "Esperávamos aqui uma variável, uma constante ou um parêntesis aberto.")
        (start currToken) (end' currToken)
  else
    if isBinaryOperator currToken || isEOF currToken then
      r <- evaluateHigherPriority (S (length operators)) currToken operators operands ;;
      let (operators, operands) := r in
      let operators := currToken :: operators in
      Return (if isEOF currToken then Break else Continue,
              mkState operators operands true)
    else if type currToken === ")" then
      r <- popUntilOpenParenthesis (S (length operators)) currToken operators operands ;;
      let (operators, operands) := r in
      e <- popOperand operands ;;
      let (expr, operands) := e in
      let (operands, operators) := addOperand expr operands operators in
      Return (Continue, mkState operators operands false)
    else
      parseError
        (js "Esperávamos aqui um parêntesis fechado ou um conectivo binário.")
        (start currToken) (end' currToken).

Fixpoint parseLoop (tokens : list tok) (st : parserState) : outcome parserState :=
  match tokens with
  | [] => Return st
  | currToken :: rest =>
      r <- parseToken currToken st ;;
      match r with
      | (Continue, st') => parseLoop rest st'
      | (Break, st') => Return st'
      end
  end.

Definition initialState : parserState := mkState [] [] true.

(** What [parse] does with the result of [scan]. *)
Definition parseTokens (tokens : list tok) (variables : list jsstring)
  : outcome parseResult :=
  st <- parseLoop tokens initialState ;;
  assert (negb (length (operators st) =? 0)) ;;;
  match operators st with
  | [] => Failure TypeError
  | top :: operators =>
      assert (isEOF top) ;;;
      match operators with
      | mismatchedOp :: _ =>
          assert (type mismatchedOp === "(") ;;;
          parseError
            (js "Não há parêntesis fechado correspondente para este parêntesis aberto.")
            (start mismatchedOp) (end' mismatchedOp)
      | [] =>
          r <- popOperand (operands st) ;;
          Return {| ast := fst r; variables := variables |}
      end
  end.

Definition parse (input : jsstring) : outcome parseResult :=
  scanResult <- scan input ;;
  parseTokens (fst scanResult) (snd scanResult).

(* ================================================================== *)
(** ** The words of the specification *)
(* ================================================================== *)

(** The vector read as a binary number, index 0 most significant. *)
Definition binaryValue (v : list bool) : nat :=
  fold_left (fun acc (b : bool) => 2 * acc + Nat.b2n b) v 0.

(** The [n] binary digits of [k], most significant first. *)
Fixpoint bitsMSB (n k : nat) : list bool :=
  match n with
  | 0 => []
  | S n' => bitsMSB n' (k / 2) ++ [Nat.odd k]
  end.

(** Counting upward from 0 to 2^n - 1. *)
Definition binaryCounterOrder (n : nat) : list (list bool) :=
  map (bitsMSB n) (seq 0 (2 ^ n)).

(** The calls of the sink, one after the other, on the caller's state. *)
Definition sinkCalls {St} (callback : list bool -> jsbool -> St -> St)
           (a : node) (rows : list (list bool)) (st : St) : St :=
  fold_left (fun st v => callback v (evaluate a v) st) rows st.

(** The translation table of section 4.1.  The canonical kinds and, or,
    implies, iff, not, true, false and the two parentheses are the token
    types [/\], [\/], [->], [<->], [~], [T], [F] and the parentheses
    themselves. *)
Definition spellingTable : list (string * list string) :=
  [ ("/\", ["/\"; "&&"; "and"; "^"; "∧"; "\land"; "\wedge"]);
    ("\/", ["\/"; "||"; "or"; "∨"; "\lor"; "\vee"]);
    ("->", ["->"; "=>"; "implies"; "→"; "\to"; "\rightarrow"; "\Rightarrow"]);
    ("<->", ["<->"; "<=>"; "iff"; "↔"; "\leftrightarrow"; "\Leftrightarrow"]);
    ("~", ["~"; "!"; "not"; "¬"; "\lnot"; "\neg"]);
    ("T", ["T"; "true"; "⊤"; "\top"]);
    ("F", ["F"; "false"; "⊥"; "\bot"]);
    ("(", ["("]);
    (")", [")"]) ]%string.

(** The spelling occurs in [input] at [idx]. *)
Definition occursAt (spelling : jsstring) (input : jsstring) (idx : nat) : Prop :=
  substring input idx (idx + length spelling) = spelling.

(** Every variable reference of the tree is a number below [n]. *)
Fixpoint indicesBelow (n : nat) (a : node) : Prop :=
  match a with
  | trueNode | falseNode => True
  | negateNode u => indicesBelow n u
  | andNode l r | orNode l r | impliesNode l r | iffNode l r =>
      indicesBelow n l /\ indicesBelow n r
  | variableNode (PNum i) => i < n
  | variableNode _ => False
  end.

(** The truth-functional semantics of section 4.2. *)
Fixpoint truthValue (a : node) (assignment : list bool) : bool :=
  match a with
  | trueNode => true
  | falseNode => false
  | negateNode u => negb (truthValue u assignment)
  | andNode l r => truthValue l assignment && truthValue r assignment
  | orNode l r => truthValue l assignment || truthValue r assignment
  | impliesNode l r => negb (truthValue l assignment) || truthValue r assignment
  | iffNode l r => Bool.eqb (truthValue l assignment) (truthValue r assignment)
  | variableNode (PNum i) => nth i assignment false
  | variableNode _ => false
  end.

Unset Implicit Arguments.

(* ================================================================== *)
(** ** The page *)
(* ================================================================== *)

(** What was last assigned to [innerHTML] or to [textContent] of an
    element, if anything. *)
Inductive content :=
| NoContent
| InnerHTML (html : jsstring)
| TextContent (text : jsstring).

(** An element as the renderer builds it: the tag it was created with,
    its class name, its content and the children appended to it. *)
#[local] Unset Elimination Schemes.
Inductive element :=
| Element (tagName : jsstring) (className : jsstring) (body : content)
          (children : list element).
#[local] Set Elimination Schemes.

Definition children (el : element) : list element :=
  match el with Element _ _ _ ch => ch end.

(** [document.createElement(tagName)] *)
Definition createElement (tagName : jsstring) : element :=
  Element tagName [] NoContent [].

(** [el.className = name] *)
Definition setClassName (el : element) (name : jsstring) : element :=
  match el with Element t _ b ch => Element t name b ch end.

(** [el.innerHTML = html]; [undefined] is converted to its name.  The
    assignment replaces what the element held. *)
Definition setInnerHTML (el : element) (html : option jsstring) : element :=
  match el with Element t c _ _ => Element t c (InnerHTML (toStr html)) [] end.

(** [el.textContent = text] *)
Definition setTextContent (el : element) (text : jsstring) : element :=
  match el with Element t c _ _ => Element t c (TextContent text) [] end.

(** [parent.appendChild(child)] for a child that is in no tree yet, as
    every element the renderer appends. *)
Definition appendChild (parent child : element) : element :=
  match parent with Element t c b ch => Element t c b (ch ++ [child]) end.

(** The two elements of the page the program uses: the value of the
    input field [expressionInput] and the element [table-target]. *)
Record document := mkDocument
  { expressionInput : jsstring;
    tableTarget : element }.

Definition createTableElement : element :=
  setClassName (createElement (js "table")) (js "truthTable").

Definition createTableHeader (table : element) (pr : parseResult) : element :=
  let header := setClassName (createElement (js "tr")) (js "header") in
  let header :=
    fold_left
      (fun header i =>
         let cell := setClassName (createElement (js "th")) (js "variable") in
         let cell := setInnerHTML cell (nth_error (variables pr) i) in
         appendChild header cell)
      (seq 0 (length (variables pr))) header in
  let lastCell := setClassName (createElement (js "th")) (js "expression") in
  let lastCell := setInnerHTML lastCell (toString (ast pr) (variables pr)) in
  let header := appendChild header lastCell in
  appendChild table header.

(** The callback [outputRow(table)], on the table as the state. *)
Definition outputRow (assignment : list bool) (result : jsbool) (table : element)
  : element :=
  let row := createElement (js "tr") in
  let row :=
    fold_left
      (fun row i =>
         let cell := createElement (js "td") in
         let cell :=
           setInnerHTML cell (Some (if truthy (nth_error assignment i)
                                    then js "T" else js "F")) in
         appendChild row cell)
      (seq 0 (length assignment)) row in
  let lastCell := createElement (js "td") in
  let lastCell :=
    setInnerHTML lastCell (Some (if truthy result then js "T" else js "F")) in
  let row := appendChild row lastCell in
  appendChild table row.

(** The loop [while (target.children.length !== 0)
    target.removeChild(target.children[0])] *)
Fixpoint removeChildren (ch : list element) : list element :=
  match ch with
  | [] => []
  | _ :: rest => removeChildren rest
  end.

Definition showObject (object : element) (doc : document) : document :=
  let target := tableTarget doc in
  let target :=
    match target with Element t c b ch => Element t c b (removeChildren ch) end in
  {| expressionInput := expressionInput doc;
     tableTarget := appendChild target object |}.

Definition displayTable (table : element) (doc : document) : document :=
  let holder := setClassName (createElement (js "div")) (js "truth-table-holder") in
  let holder := appendChild holder table in
  showObject holder doc.

Definition prettyPrintTruthTable (fuel : nat) (pr : parseResult) (doc : document)
  : outcome document :=
  let table := createTableElement in
  let table := createTableHeader table pr in
  table <- generateTruthTable outputRow fuel pr table ;;
  Return (displayTable table doc).

(** [s.substring(a, b)]: the arguments are swapped when [a > b]. *)
Definition substring2 (s : jsstring) (a b : nat) : jsstring :=
  substring s (Nat.min a b) (Nat.max a b).

(** [s.substring(a)] *)
Definition substringFrom (s : jsstring) (a : nat) : jsstring := skipn a s.

Definition createHighlightedErrorBox (input : jsstring) (e : error) : element :=
  let box := setClassName (createElement (js "div")) (js "syntax-error-holder") in
  let prefix := setClassName (createElement (js "span")) (js "syntax-okay") in
  let prefix := setTextContent prefix (substring2 input 0 (start_ e)) in
  let problem := setClassName (createElement (js "span")) (js "syntax-error") in
  let problem := setTextContent problem (substring2 input (start_ e) (end_ e)) in
  let suffix := setClassName (createElement (js "span")) (js "syntax-okay") in
  let suffix := setTextContent suffix (substringFrom input (end_ e)) in
  let box := appendChild box prefix in
  let box := appendChild box problem in
  appendChild box suffix.

Definition createDescriptionBox (e : error) : element :=
  let box := setClassName (createElement (js "div")) (js "syntax-error-explanation") in
  setTextContent box (description e).

Definition displayCompileError (input : jsstring) (e : error) (doc : document)
  : document :=
  let holder := createElement (js "div") in
  let holder := appendChild holder (createHighlightedErrorBox input e) in
  let holder := appendChild holder (createDescriptionBox e) in
  showObject holder doc.

(** The call stack of the host is bounded: a call for which it has no
    room ends with a [RangeError], an exception without a [description].
    The scanner, the parser and the renderer are loops whose calls nest to
    a fixed depth; the methods [toString] and [evaluate] call themselves
    once for every level of the tree.  A call on the bounded stack ends
    as a call does, or with this exception.  Below, [stack] is the number
    of nested calls of the method for which the stack has room where the
    renderer calls it; the calls of the two methods need not take the
    same space, so each has a bound of its own. *)
Inductive completion (A : Type) :=
| Normal (a : A)
| Thrown (e : error)
| Failed (f : failure)
| RangeError.
Arguments Normal {A} a.
Arguments Thrown {A} e.
Arguments Failed {A} f.
Arguments RangeError {A}.

Definition completed {A} (o : outcome A) : completion A :=
  match o with
  | Return a => Normal a
  | Throw e => Thrown e
  | Failure f => Failed f
  end.

Definition andThen {A B} (m : completion A) (k : A -> completion B) : completion B :=
  match m with
  | Normal a => k a
  | Thrown e => Thrown e
  | Failed f => Failed f
  | RangeError => RangeError
  end.

(** [toString] where the stack has room for [stack] nested calls. *)
Fixpoint toStringOn (stack : nat) (n : node) (variables : list jsstring)
  : completion (option jsstring) :=
  match stack with
  | 0 => RangeError
  | S stack =>
      match n with
      | trueNode => Normal (Some (js "&#8868;"))
      | falseNode => Normal (Some (js "&#8869;"))
      | negateNode underlying =>
          andThen (toStringOn stack underlying variables) (fun u =>
          Normal (Some (js "&not;" ++ toStr u)))
      | andNode lhs rhs =>
          andThen (toStringOn stack lhs variables) (fun l =>
          andThen (toStringOn stack rhs variables) (fun r =>
          Normal (Some (js "(" ++ toStr l ++ js " &and; " ++ toStr r ++ js ")"))))
      | orNode lhs rhs =>
          andThen (toStringOn stack lhs variables) (fun l =>
          andThen (toStringOn stack rhs variables) (fun r =>
          Normal (Some (js "(" ++ toStr l ++ js " &or; " ++ toStr r ++ js ")"))))
      | impliesNode lhs rhs =>
          andThen (toStringOn stack lhs variables) (fun l =>
          andThen (toStringOn stack rhs variables) (fun r =>
          Normal (Some (js "(" ++ toStr l ++ js " &rarr; " ++ toStr r ++ js ")"))))
      | iffNode lhs rhs =>
          andThen (toStringOn stack lhs variables) (fun l =>
          andThen (toStringOn stack rhs variables) (fun r =>
          Normal (Some (js "(" ++ toStr l ++ js " &harr; " ++ toStr r ++ js ")"))))
      | variableNode index => Normal (arrayGet variables index)
      end
  end.

(** [evaluate] where the stack has room for [stack] nested calls; [&&]
    and [||] evaluate their right side only when the left side does not
    decide. *)
Fixpoint evaluateOn (stack : nat) (n : node) (assignment : list bool)
  : completion jsbool :=
  match stack with
  | 0 => RangeError
  | S stack =>
      match n with
      | trueNode => Normal (Some true)
      | falseNode => Normal (Some false)
      | negateNode underlying =>
          andThen (evaluateOn stack underlying assignment) (fun u =>
          Normal (jsnot u))
      | andNode lhs rhs =>
          andThen (evaluateOn stack lhs assignment) (fun l =>
          if truthy l then evaluateOn stack rhs assignment else Normal l)
      | orNode lhs rhs =>
          andThen (evaluateOn stack lhs assignment) (fun l =>
          if truthy l then Normal l else evaluateOn stack rhs assignment)
      | impliesNode lhs rhs =>
          andThen (evaluateOn stack lhs assignment) (fun l =>
          if truthy (jsnot l) then Normal (jsnot l)
          else evaluateOn stack rhs assignment)
      | iffNode lhs rhs =>
          andThen (evaluateOn stack lhs assignment) (fun l =>
          andThen (evaluateOn stack rhs assignment) (fun r =>
          Normal (jsstricteq l r)))
      | variableNode index => Normal (arrayGet assignment index)
      end
  end.

(** [createTableHeader] with the call of [toString] on the bounded stack. *)
Definition createTableHeaderOn (stack : nat) (table : element) (pr : parseResult)
  : completion element :=
  let header := setClassName (createElement (js "tr")) (js "header") in
  let header :=
    fold_left
      (fun header i =>
         let cell := setClassName (createElement (js "th")) (js "variable") in
         let cell := setInnerHTML cell (nth_error (variables pr) i) in
         appendChild header cell)
      (seq 0 (length (variables pr))) header in
  let lastCell := setClassName (createElement (js "th")) (js "expression") in
  andThen (toStringOn stack (ast pr) (variables pr)) (fun text =>
  let lastCell := setInnerHTML lastCell text in
  let header := appendChild header lastCell in
  Normal (appendChild table header)).

(** The loop of [generateTruthTable] with the call of [evaluate] on the
    bounded stack. *)
Fixpoint truthTableLoopOn {St} (callback : list bool -> jsbool -> St -> St)
         (stack fuel : nat) (a : node) (assignment : list bool) (st : St)
  : completion St :=
  match fuel with
  | 0 => Failed OutOfFuel
  | S fuel' =>
      andThen (evaluateOn stack a assignment) (fun value =>
      let st' := callback assignment value st in
      let (more, assignment') := nextAssignment assignment in
      if more then truthTableLoopOn callback stack fuel' a assignment' st'
      else Normal st')
  end.

Definition generateTruthTableOn {St} (callback : list bool -> jsbool -> St -> St)
           (stack fuel : nat) (pr : parseResult) (st : St) : completion St :=
  let assignment := map (fun _ => false) (variables pr) in
  truthTableLoopOn callback stack fuel (ast pr) assignment st.

Definition prettyPrintTruthTableOn (toStringStack evaluateStack fuel : nat)
           (pr : parseResult) (doc : document) : completion document :=
  let table := createTableElement in
  andThen (createTableHeaderOn toStringStack table pr) (fun table =>
  andThen (generateTruthTableOn outputRow evaluateStack fuel pr table) (fun table =>
  Normal (displayTable table doc))).

(** [go], where the stack has room for [toStringStack] nested calls of
    [toString] and [evaluateStack] of [evaluate], and the loop of the
    table is granted [fuel] rounds.  An exception with a [description]
    is displayed; an [Error] (of [assert] or [unreachable]) and a
    [RangeError] have none and are thrown again. *)
Definition go (toStringStack evaluateStack fuel : nat) (doc : document)
  : completion document :=
  let input := expressionInput doc in
  match andThen (completed (parse input))
                (fun r => prettyPrintTruthTableOn toStringStack evaluateStack fuel r doc)
  with
  | Normal doc' => Normal doc'
  | Thrown e => Normal (displayCompileError input e doc)
  | Failed f => Failed f
  | RangeError => RangeError
  end.

(** The character references [toString] writes, with the characters the
    page shows for them: U+2227, U+2228, U+2192, U+2194, U+00AC, U+22A4
    and U+22A5. *)
Definition characterReferences : list (string * jschar) :=
  [ ("&and;", 8743%N); ("&or;", 8744%N); ("&rarr;", 8594%N); ("&harr;", 8596%N);
    ("&not;", 172%N); ("&#8868;", 8868%N); ("&#8869;", 8869%N) ]%string.

(** The reference the markup starts with, if any: its character and its
    length. *)
Definition characterReference (html : jsstring) : option (jschar * nat) :=
  match find (fun r => jseqb (firstn (length (js (fst r))) html) (js (fst r)))
             characterReferences with
  | Some r => Some (snd r, length (js (fst r)))
  | None => None
  end.

(** The text an element shows after [el.innerHTML = html], for markup
    without tags and with no other character reference than these, as
    [toString] writes it: the markup with every reference replaced by its
    character.  [skip] is the number of characters still to be passed
    over of a reference that has been replaced. *)
Fixpoint textFrom (skip : nat) (html : jsstring) : jsstring :=
  match html with
  | [] => []
  | c :: rest =>
      match skip with
      | S skip' => textFrom skip' rest
      | 0 =>
          match characterReference html with
          | Some (ch, n) => ch :: textFrom (n - 1) rest
          | None => c :: textFrom 0 rest
          end
      end
  end.


(* ================================================================== *)
(** ** Definitions used in the statements and proofs *)
(* ================================================================== *)

(** The sink that keeps a copy of every row it is called with. *)
Definition recordRow (v : list bool) (r : jsbool) (rows : list (list bool * jsbool))
  : list (list bool * jsbool) := rows ++ [(v, r)].

(** What the comparison of all the spellings of the cases 1 to 8 shows by
    computation: each has the length of its case, holds no EOF marker, and
    is translated to a type that is neither EOF nor the type of variables. *)
Definition spellingOK (n : nat) (s : string) : bool :=
  (length (js s) =? n) && (1 <=? n)
  && forallb (fun c => negb (c =? 36)%N) (js s)
  && negb (jseqb (translate (js s)) kScannerConstants.EOF)
  && negb (translate (js s) === "variable").

(** A token of the preliminary scan other than the last: its range lies
    in the input and its type is not EOF. *)
Definition innerToken {I} (len : nat) (t : token I) : Prop :=
  start t <= end' t /\ end' t <= len
  /\ jseqb (type t) kScannerConstants.EOF = false.

Definition eofToken {I} (len : nat) : token I :=
  mkToken kScannerConstants.EOF None len (len + 1).

Definition headNotWhitespace (s : string) : bool :=
  match js s with
  | c :: _ => negb (isWhitespaceChar c)
  | [] => false
  end.

(** A variable name: [[A-Za-z_][A-Za-z_0-9]*], not a reserved word. *)
Definition isVariableName (name : jsstring) : bool :=
  match name with
  | c :: _ => isVariableStartChar c && forallb isVariableChar name
              && negb (isReservedWord name)
  | [] => false
  end.

(** The cases are tried from the longest to the shortest. *)
Definition descending (cases : list (nat * list string)) : Prop :=
  Sorted.StronglySorted (fun a b => fst b <= fst a) cases.

(** A spelling of the table of the specification is compared with in one
    of the cases 1 to 8, or is one character of the class of case 9. *)
Definition inSomeCase (s : string) : bool :=
  existsb (fun c => (length (js s) =? fst c)
                    && existsb (fun s' => js s === s') (snd c))
          operatorSpellings.

Definition isCase9 (s : string) : bool :=
  match js s with
  | [c] => isSingleCharOperator c
  | _ => false
  end.

(** Its characters are those of a variable name, or its first one cannot
    start a variable name. *)
Definition variableLike (s : string) : bool :=
  match js s with
  | c :: _ => forallb isVariableChar (js s) || negb (isVariableStartChar c)
  | [] => false
  end.

(** It does not start with the EOF marker. *)
Definition headNotEOF (s : string) : bool :=
  match js s with
  | c :: _ => negb (c =? 36)%N
  | [] => false
  end.

(** The tokens the loop of [parse] leaves on the operator stack. *)
Definition stackToken (t : tok) : bool :=
  isBinaryOperator t || (type t === "(") || (type t === "~").

(** The top of the operator stack is no negation. *)
Definition topNotNegation (operators : list tok) : Prop :=
  match operators with
  | [] => True
  | top :: _ => type top === "~" = false
  end.

Definition countBinary (operators : list tok) : nat :=
  length (filter isBinaryOperator operators).

Section Ranges.

(** A property of the character ranges, such as to lie in the input. *)
Variable R : nat -> nat -> Prop.

Definition goodToken (t : tok) : Prop := R (start t) (end' t).

Definition goodStack (ops : list tok) : Prop :=
  Forall (fun t => stackToken t = true /\ goodToken t) ops.

(** The errors of the parser other than the one of a negation that
    negates nothing: a range of a token read, or the empty range at 0. *)
Definition goodError (e : error) : Prop :=
  R (start_ e) (end_ e)
  /\ description e <> js "Nada é negado por este operador.".

(** The invariant of the loop of [parse]. *)
Definition invariant (st : parserState) : Prop :=
  goodStack (operators st)
  /\ length (operands st)
     = countBinary (operators st) + (if needOperand st then 0 else 1)
  /\ (needOperand st = false -> topNotNegation (operators st)).

(** The state in which the loop is left at the EOF token. *)
Definition atEnd (st : parserState) : Prop :=
  exists top rest,
    operators st = top :: rest
    /\ isEOF top = true
    /\ goodStack rest
    /\ length (operands st) = countBinary rest + 1
    /\ (rest = [] \/ exists m rest', rest = m :: rest' /\ type m === "(" = true).

End Ranges.

Definition withinInput (len : nat) (s e : nat) : Prop := s <= e /\ e <= len.

(** After a first token, an operand is expected only above a pending
    operator, parenthesis or negation. *)
Definition pendingOperator (st : parserState) : Prop :=
  needOperand st = true -> operators st <> [].

Definition connectives : list (string * (node -> node -> node)) :=
  [ ("/\", andNode); ("\/", orNode); ("->", impliesNode); ("<->", iffNode) ]%string.

(** [first op (y1 op (y2 op ...))] *)
Fixpoint rightNested (mk : node -> node -> node) (first : node) (rest : list node)
  : node :=
  match rest with
  | [] => first
  | y :: rest' => mk first (rightNested mk y rest')
  end.

(** The tokens of [x op y1 op y2 ...] and the EOF token. *)
Definition chain (first : tok) (rest : list (tok * tok)) (eof : tok) : list tok :=
  first :: flat_map (fun p => [fst p; snd p]) rest ++ [eof].

(** The states of the loop of [parse]. *)
Inductive reachable : parserState -> Prop :=
| reachable_initial : reachable initialState
| reachable_step : forall st t st',
    reachable st -> parseToken t st = Return (Continue, st') -> reachable st'.

(** The operators of a chain pending on the stack: all of one type. *)
Definition pendingSame (opType : string) (ops : list tok) : Prop :=
  Forall (fun t : tok => type t = js opType) ops.

(** The variable set as the scanner builds it: its names are pairwise
    different, and [__proto__] is none of them. *)
Definition variableSetOK (o : jsobject) : Prop :=
  NoDup (forIn o) /\ ~ In (js "__proto__") (forIn o).

(** A variable token of the preliminary scan carries a name, which is
    [__proto__] or a name of the variable set. *)
Definition namedIn (variableSet : jsobject) (t : token jsstring) : Prop :=
  type t === "variable" = true ->
  exists name, index t = Some name
               /\ (name = js "__proto__" \/ In name (forIn variableSet)).

(** A variable token after [numberVariables] carries the position of its
    name in the variable list, or [Object.prototype]. *)
Definition numbered (vars : list jsstring) (t : tok) : Prop :=
  type t === "variable" = true ->
  exists v, index t = Some v
            /\ (v = PObjectPrototype \/ exists j, v = PNum j /\ j < length vars).

(** Every variable reference of the tree is a number below [n] or is
    [Object.prototype]. *)
Fixpoint numberedOrPrototype (n : nat) (a : node) : Prop :=
  match a with
  | trueNode | falseNode => True
  | negateNode u => numberedOrPrototype n u
  | andNode l r | orNode l r | impliesNode l r | iffNode l r =>
      numberedOrPrototype n l /\ numberedOrPrototype n r
  | variableNode (PNum i) => i < n
  | variableNode PObjectPrototype => True
  | variableNode _ => False
  end.

Section NodeProperty.

(** A property of nodes. *)
Variable Q : node -> Prop.

(** The operand the token is wrapped into has the property. *)
Definition wrapsTo (t : tok) : Prop := forall n, wrapOperand t = Return n -> Q n.

End NodeProperty.


(** What ends a variable name: the end of the string, or a character
    that is none of a variable name. *)
Definition endsName (rest : jsstring) : Prop :=
  match rest with
  | [] => True
  | c :: _ => isVariableChar c = false
  end.

(** The text of the input a token was read from. *)
Definition lexeme {I} (input : jsstring) (t : token I) : jsstring :=
  substring input (start t) (end' t).

(** From position [i] on, the input consists of the tokens in their
    order, each a non-empty range of the input, with whitespace before,
    between and after them and nothing else. *)
Fixpoint tiles {I} (input : jsstring) (i : nat) (tokens : list (token I)) : Prop :=
  match tokens with
  | [] => forallb isWhitespaceChar (skipn i input) = true
  | t :: rest =>
      i <= start t /\ start t < end' t /\ end' t <= length input
      /\ forallb isWhitespaceChar (substring input i (start t)) = true
      /\ tiles input (end' t) rest
  end.

(** A token of the preliminary scan and its text: a variable token
    carries its text, a variable name, as index; any other token has the
    translation of its text, which is no variable name, as type. *)
Definition preliminaryLexeme (input : jsstring) (t : token jsstring) : Prop :=
  if type t === "variable" then
    index t = Some (lexeme input t) /\ isVariableName (lexeme input t) = true
  else
    type t = translate (lexeme input t) /\ index t = None
    /\ isVariableName (lexeme input t) = false.

(** A token of [scan] and its text: a variable token carries the position
    of its text, a variable name, in the variable list ([Object.prototype]
    for the text [__proto__]); any other token has the translation of its
    text, which is no variable name, as type. *)
Definition scannedLexeme (input : jsstring) (vars : list jsstring) (t : tok) : Prop :=
  if type t === "variable" then
    isVariableName (lexeme input t) = true
    /\ ((lexeme input t = js "__proto__" /\ index t = Some PObjectPrototype)
        \/ exists j, index t = Some (PNum j)
                     /\ nth_error vars j = Some (lexeme input t))
  else
    type t = translate (lexeme input t) /\ index t = None
    /\ isVariableName (lexeme input t) = false.

(** No spelling of an operator is a variable name. *)
Definition noVariableName (s : string) : bool := negb (isVariableName (js s)).

(** The characters of the alphabet that start no token by themselves:
    the digits and [\ / < > - & | =]. *)
Definition strayChar (c : jschar) : bool :=
  inRange 48 57 c || (c =? 92)%N || (c =? 47)%N || (c =? 60)%N || (c =? 62)%N
  || (c =? 45)%N || (c =? 38)%N || (c =? 124)%N || (c =? 61)%N.

(** The error of [scan] on the input [p - q]. *)
Definition strayExample : error :=
  {| description := js "O carácter - não deveria estar aqui.";
     start_ := 2; end_ := 3 |}.

(** The character is the first one of a spelling of the cases 1 to 8. *)
Definition startsSpelling (c : jschar) : bool :=
  existsb (fun cs => existsb (fun s => match js s with
                                       | h :: _ => (h =? c)%N
                                       | [] => false
                                       end) (snd cs))
          operatorSpellings.

(** The loop of [preliminaryScan] at position [i] with the variable set
    and the tokens read so far. *)
Definition scanState : Type := nat * jsobject * list (token jsstring).

Definition scanFrom (fuel : nat) (input : jsstring) (st : scanState)
  : outcome (list (token jsstring) * jsobject) :=
  let '(i, variableSet, tokens) := st in
  preliminaryScanLoop fuel input i variableSet tokens.

(** [k] rounds of the loop lead from the first state to the second. *)
Definition runs (input : jsstring) (k : nat) (st st' : scanState) : Prop :=
  forall fuel, scanFrom (k + fuel) input st = scanFrom fuel input st'.

(** [k] negations around a node. *)
Fixpoint negations (k : nat) (n : node) : node :=
  match k with
  | 0 => n
  | S k' => negateNode (negations k' n)
  end.

(** What a syntax tree is made of, read from left to right: operands,
    negation signs and connectives (by token type). *)
Inductive symbol :=
| SOperand (n : node)
| SNegation
| SConnective (opType : jsstring).

(** The tree in infix order, without parentheses. *)
Fixpoint infix (a : node) : list symbol :=
  match a with
  | trueNode | falseNode | variableNode _ => [SOperand a]
  | negateNode u => SNegation :: infix u
  | andNode l r => infix l ++ SConnective (js "/\") :: infix r
  | orNode l r => infix l ++ SConnective (js "\/") :: infix r
  | impliesNode l r => infix l ++ SConnective (js "->") :: infix r
  | iffNode l r => infix l ++ SConnective (js "<->") :: infix r
  end.

(** What a token contributes to the tree: an operand token the node it
    is wrapped into, a negation or a connective itself, a parenthesis or
    the EOF token nothing. *)
Definition symbolOf (t : tok) : list symbol :=
  if isOperand t then
    match wrapOperand t with
    | Return n => [SOperand n]
    | _ => []
    end
  else if type t === "~" then [SNegation]
  else if isBinaryOperator t then [SConnective (type t)]
  else [].

(** The symbols held by the two stacks, in the order they were read: every
    connective of the operator stack follows the operand it was read
    after. *)
Fixpoint pendingBefore (ops : list tok) (rands : list node) : list symbol :=
  match ops with
  | [] => []
  | o :: ops' =>
      if isBinaryOperator o then
        match rands with
        | a :: rands' =>
            pendingBefore ops' rands' ++ infix a ++ [SConnective (type o)]
        | [] => pendingBefore ops' [] ++ [SConnective (type o)]
        end
      else pendingBefore ops' rands ++ symbolOf o
  end.

(** When an operator is expected, the top of the operand stack is the
    operand read last. *)
Definition pendingSymbols (st : parserState) : list symbol :=
  if needOperand st then pendingBefore (operators st) (operands st)
  else
    match operands st with
    | a :: rands => pendingBefore (operators st) rands ++ infix a
    | [] => pendingBefore (operators st) []
    end.

(** The result of [scan] and of [parse] on the input [~(p -> q) /\ p]. *)
Definition infixExampleTokens : list tok :=
  [ mkToken (js "~") None 0 1;
    mkToken (js "(") None 1 2;
    mkToken (js "variable") (Some (PNum 0)) 2 3;
    mkToken (js "->") None 4 6;
    mkToken (js "variable") (Some (PNum 1)) 7 8;
    mkToken (js ")") None 8 9;
    mkToken (js "/\") None 10 12;
    mkToken (js "variable") (Some (PNum 0)) 13 14;
    mkToken kScannerConstants.EOF None 14 15 ].

Definition infixExampleResult : parseResult :=
  {| ast := andNode (negateNode (impliesNode (variableNode (PNum 0))
                                             (variableNode (PNum 1))))
                    (variableNode (PNum 0));
     variables := [js "p"; js "q"] |}.

(** The tokens of [p \/ q] without the EOF token, and parentheses. *)
Definition parenthesesExample : list tok :=
  [ mkToken (js "variable") (Some (PNum 0)) 1 2;
    mkToken (js "\/") None 3 5;
    mkToken (js "variable") (Some (PNum 1)) 6 7 ].

Definition openExample : tok := mkToken (js "(") None 0 1.
Definition closeExample : tok := mkToken (js ")") None 7 8.
Definition eofExample : tok := mkToken kScannerConstants.EOF None 8 9.

Definition parenthesesExampleResult : parseResult :=
  {| ast := orNode (variableNode (PNum 0)) (variableNode (PNum 1));
     variables := [js "p"; js "q"] |}.

(** The tokens of the text shown for a tree, without their positions:
    every binary node in parentheses, a negation sign before what it
    negates. *)
Fixpoint shape (a : node) : list tok :=
  match a with
  | trueNode => [mkToken (js "T") None 0 0]
  | falseNode => [mkToken (js "F") None 0 0]
  | negateNode u => mkToken (js "~") None 0 0 :: shape u
  | andNode l r =>
      mkToken (js "(") None 0 0
      :: shape l ++ mkToken (js "/\") None 0 0 :: shape r ++ [mkToken (js ")") None 0 0]
  | orNode l r =>
      mkToken (js "(") None 0 0
      :: shape l ++ mkToken (js "\/") None 0 0 :: shape r ++ [mkToken (js ")") None 0 0]
  | impliesNode l r =>
      mkToken (js "(") None 0 0
      :: shape l ++ mkToken (js "->") None 0 0 :: shape r ++ [mkToken (js ")") None 0 0]
  | iffNode l r =>
      mkToken (js "(") None 0 0
      :: shape l ++ mkToken (js "<->") None 0 0 :: shape r ++ [mkToken (js ")") None 0 0]
  | variableNode i => [mkToken (js "variable") (Some i) 0 0]
  end.

(** What each message of the parser says about the token it marks: the
    kind of the token, as the branch that throws the error has found it. *)
Definition blamed (why : jsstring) (t : tok) : bool :=
  if why === "Este parêntesis fechado não corresponde a nenhum parêntesis aberto."
  then type t === ")"
  else if why === "Este parêntesis aberto não tem parêntesis fechado correspondente."
  then type t === "("
  else if why === "Não há parêntesis fechado correspondente para este parêntesis aberto."
  then type t === "("
  else if why === "Falta um operando a este operador."
  then isBinaryOperator t || (type t === "~")
  else if why === "Esperávamos aqui uma variável, uma constante ou um parêntesis aberto."
  then negb (isOperand t) && negb (type t === "(") && negb (type t === "~")
       && negb (isEOF t)
  else if why === "Esperávamos aqui um parêntesis fechado ou um conectivo binário."
  then negb (isBinaryOperator t) && negb (isEOF t) && negb (type t === ")")
  else false.

(** The error marks the token and its message fits the token. *)
Definition marks (e : error) (t : tok) : Prop :=
  start_ e = start t /\ end_ e = end' t /\ blamed (description e) t = true.

(** The error of the empty input. *)
Definition emptyInputError (e : error) : Prop :=
  description e = [] /\ start_ e = 0 /\ end_ e = 0.

(** The error of a negation that negates nothing. *)
Definition nothingNegated (e : error) : Prop :=
  description e = js "Nada é negado por este operador.".

(** The error of [parse] on the input [p and (q or]. *)
Definition errorExample : error :=
  {| description := js "Falta um operando a este operador.";
     start_ := 9; end_ := 11 |}.

Definition errorExampleTokens : list tok :=
  [ mkToken (js "variable") (Some (PNum 0)) 0 1;
    mkToken (js "/\") None 2 5;
    mkToken (js "(") None 6 7;
    mkToken (js "variable") (Some (PNum 1)) 7 8;
    mkToken (js "\/") None 9 11;
    mkToken kScannerConstants.EOF None 11 12 ].

(** A token without its position. *)
Definition erasePosition (t : tok) : tok := mkToken (type t) (index t) 0 0.

Definition eraseError (e : error) : error :=
  {| description := description e; start_ := 0; end_ := 0 |}.

Definition eraseState (st : parserState) : parserState :=
  mkState (map erasePosition (operators st)) (operands st) (needOperand st).

(** The outcome with the positions erased. *)
Definition eraseOutcome {A B} (f : A -> B) (o : outcome A) : outcome B :=
  match o with
  | Return a => Return (f a)
  | Throw e => Throw (eraseError e)
  | Failure x => Failure x
  end.

(** The tokens of [p and ~q] and of the same formula written with other
    whitespace. *)
Definition textsExampleTokens1 : list tok :=
  [ mkToken (js "variable") (Some (PNum 0)) 0 1;
    mkToken (js "/\") None 2 5;
    mkToken (js "~") None 6 7;
    mkToken (js "variable") (Some (PNum 1)) 7 8;
    mkToken kScannerConstants.EOF None 8 9 ].

Definition textsExampleTokens2 : list tok :=
  [ mkToken (js "variable") (Some (PNum 0)) 2 3;
    mkToken (js "/\") None 4 7;
    mkToken (js "~") None 10 11;
    mkToken (js "variable") (Some (PNum 1)) 12 13;
    mkToken kScannerConstants.EOF None 14 15 ].

(** The token types the parser knows: the operands, the connectives, the
    negation, the parentheses and the EOF marker. *)
Definition knownType (ty : jsstring) : bool :=
  ty === "T" || ty === "F" || ty === "variable"
  || ty === "<->" || ty === "->" || ty === "/\" || ty === "\/"
  || ty === "~" || ty === "(" || ty === ")" || jseqb ty kScannerConstants.EOF.

(** The spelling is translated to a token type, or is [\lneg]. *)
Definition translatedOrLneg (s : string) : bool :=
  knownType (translate (js s)) || (js s === "\lneg").

(** What [toString] gives as an operand of [+]. *)
Definition render (a : node) (vars : list jsstring) : jsstring :=
  toStr (toString a vars).

(** The variable reference [i] occurs in the tree. *)
Fixpoint occursIn (i : nat) (a : node) : Prop :=
  match a with
  | trueNode | falseNode => False
  | negateNode u => occursIn i u
  | andNode l r | orNode l r | impliesNode l r | iffNode l r =>
      occursIn i l \/ occursIn i r
  | variableNode (PNum j) => i = j
  | variableNode _ => False
  end.

(** A cell with the given markup. *)
Definition cellOf (tagName className : string) (html : jsstring) : element :=
  Element (js tagName) (js className) (InnerHTML html) [].

Definition truthLetter (b : bool) : jsstring := if b then js "T" else js "F".

(** The header row: the names of the variables and the formula. *)
Definition headerRow (pr : parseResult) : element :=
  Element (js "tr") (js "header") NoContent
          (map (fun v => cellOf "th" "variable" v) (variables pr)
           ++ [Element (js "th") (js "expression")
                       (InnerHTML (toStr (toString (ast pr) (variables pr)))) []]).

(** The row of an assignment: its truth values and the one of the formula. *)
Definition bodyRow (a : node) (assignment : list bool) : element :=
  Element (js "tr") [] NoContent
          (map (fun b => Element (js "td") [] (InnerHTML (truthLetter b)) []) assignment
           ++ [Element (js "td") []
                       (InnerHTML (truthLetter (truthy (evaluate a assignment)))) []]).

(** The element with the children replaced. *)
Definition withChildren (el : element) (ch : list element) : element :=
  match el with Element t c b _ => Element t c b ch end.

(** A [span] with a class and a text. *)
Definition spanOf (className : string) (text : jsstring) : element :=
  Element (js "span") (js className) (TextContent text) [].

(** The number of nested calls [toString] makes on a tree: its height. *)
Fixpoint depth (a : node) : nat :=
  match a with
  | trueNode | falseNode | variableNode _ => 1
  | negateNode u => S (depth u)
  | andNode l r | orNode l r | impliesNode l r | iffNode l r =>
      S (Nat.max (depth l) (depth r))
  end.

(** The table [prettyPrintTruthTable] builds. *)
Definition truthTable (pr : parseResult) : element :=
  Element (js "table") (js "truthTable") NoContent
          (headerRow pr
           :: map (bodyRow (ast pr)) (binaryCounterOrder (length (variables pr)))).

(** What [displayTable] puts around the table. *)
Definition tableHolder (table : element) : element :=
  Element (js "div") (js "truth-table-holder") NoContent [table].

(** What [displayCompileError] shows: the input in three spans and the
    description. *)
Definition errorHolder (input : jsstring) (e : error) : element :=
  Element (js "div") [] NoContent
          [ Element (js "div") (js "syntax-error-holder") NoContent
                    [ spanOf "syntax-okay" (substring input 0 (start_ e));
                      spanOf "syntax-error" (substring input (start_ e) (end_ e));
                      spanOf "syntax-okay" (skipn (end_ e) input) ];
            Element (js "div") (js "syntax-error-explanation")
                    (TextContent (description e)) [] ].

(** The page with the one element in the output box. *)
Definition showing (doc : document) (object : element) : document :=
  {| expressionInput := expressionInput doc;
     tableTarget := withChildren (tableTarget doc) [object] |}.

(** The result of [parse] on [p -> q] and a page that shows something. *)
Definition tableExample : parseResult :=
  {| ast := impliesNode (variableNode (PNum 0)) (variableNode (PNum 1));
     variables := [js "p"; js "q"] |}.

Definition pageExample : document :=
  {| expressionInput := js "p -> q";
     tableTarget := Element (js "div") [] NoContent
                            [Element (js "p") [] (TextContent (js "old")) []] |}.

(** The error of [parse] on the input [p q]. *)
Definition boxExample : error :=
  {| description := js "Esperávamos aqui um parêntesis fechado ou um conectivo binário.";
     start_ := 2; end_ := 3 |}.

(** The text shown for a tree: what [toString] writes, with the glyphs
    in place of the character references. *)
Fixpoint shown (a : node) (vars : list jsstring) : jsstring :=
  match a with
  | trueNode => [8868%N]
  | falseNode => [8869%N]
  | negateNode u => 172%N :: shown u vars
  | andNode l r =>
      40%N :: shown l vars ++ [32%N; 8743%N; 32%N] ++ shown r vars ++ [41%N]
  | orNode l r =>
      40%N :: shown l vars ++ [32%N; 8744%N; 32%N] ++ shown r vars ++ [41%N]
  | impliesNode l r =>
      40%N :: shown l vars ++ [32%N; 8594%N; 32%N] ++ shown r vars ++ [41%N]
  | iffNode l r =>
      40%N :: shown l vars ++ [32%N; 8596%N; 32%N] ++ shown r vars ++ [41%N]
  | variableNode i => toStr (arrayGet vars i)
  end.

(** Every name of the list is a variable name, and none is [__proto__]. *)
Definition variableNames (vars : list jsstring) : Prop :=
  Forall (fun name => isVariableName name = true) vars
  /\ ~ In (js "__proto__") vars.

(** The names [toString] writes for a tree, in the order of the text. *)
Fixpoint namesOf (a : node) (vars : list jsstring) : list jsstring :=
  match a with
  | trueNode | falseNode => []
  | negateNode u => namesOf u vars
  | andNode l r | orNode l r | impliesNode l r | iffNode l r =>
      namesOf l vars ++ namesOf r vars
  | variableNode i => [toStr (arrayGet vars i)]
  end.

(** A token of the preliminary scan without its position. *)
Definition withoutPosition (t : token jsstring) : token jsstring :=
  mkToken (type t) (index t) 0 0.

(** The tokens of the preliminary scan of the text shown for a tree,
    without their positions. *)
Fixpoint preliminaryShape (a : node) (vars : list jsstring) : list (token jsstring) :=
  match a with
  | trueNode => [mkToken (js "T") None 0 0]
  | falseNode => [mkToken (js "F") None 0 0]
  | negateNode u => mkToken (js "~") None 0 0 :: preliminaryShape u vars
  | andNode l r =>
      mkToken (js "(") None 0 0
      :: preliminaryShape l vars
         ++ mkToken (js "/\") None 0 0
         :: preliminaryShape r vars ++ [mkToken (js ")") None 0 0]
  | orNode l r =>
      mkToken (js "(") None 0 0
      :: preliminaryShape l vars
         ++ mkToken (js "\/") None 0 0
         :: preliminaryShape r vars ++ [mkToken (js ")") None 0 0]
  | impliesNode l r =>
      mkToken (js "(") None 0 0
      :: preliminaryShape l vars
         ++ mkToken (js "->") None 0 0
         :: preliminaryShape r vars ++ [mkToken (js ")") None 0 0]
  | iffNode l r =>
      mkToken (js "(") None 0 0
      :: preliminaryShape l vars
         ++ mkToken (js "<->") None 0 0
         :: preliminaryShape r vars ++ [mkToken (js ")") None 0 0]
  | variableNode i =>
      [mkToken (js "variable") (Some (toStr (arrayGet vars i))) 0 0]
  end.

(** The variable set after the names have been entered into it. *)
Definition enterNames (names : list jsstring) (variableSet : jsobject) : jsobject :=
  fold_left (fun o name => objSet o name PTrue) names variableSet.

(** Where the text shown for the tree occurs in the input, followed by
    what ends a name, the loop reads the tokens of the text and enters
    its names into the variable set. *)
Definition scansTo (vars : list jsstring) (a : node) : Prop :=
  forall (input pre rest : jsstring) variableSet tokens,
    input = pre ++ shown a vars ++ rest ->
    endsName rest ->
    exists k new,
      k <= length (shown a vars)
      /\ runs input k (length pre, variableSet, tokens)
              (length (pre ++ shown a vars),
               enterNames (namesOf a vars) variableSet, tokens ++ new)
      /\ map withoutPosition new = preliminaryShape a vars.



(** The input of [n] negation signs (U+00AC) and the variable [p], and
    what it is parsed to. *)
Definition deepExample (n : nat) : parseResult :=
  {| ast := negations n (variableNode (PNum 0)); variables := [js "p"] |}.

Definition deepInput (n : nat) : jsstring := repeat 172%N n ++ js "p".

(* ================================================================== *)
(** ** The binary counter *)
(* ================================================================== *)

Section BinaryCounter.

Lemma binaryValue_acc : forall v acc,
  fold_left (fun a (b : bool) => 2 * a + Nat.b2n b) v acc
  = acc * 2 ^ length v + binaryValue v.
Proof.
  unfold binaryValue.
  induction v as [|b v IH]; intro acc; cbn [fold_left length].
  - cbn. lia.
  - rewrite IH. rewrite (IH (2 * 0 + Nat.b2n b)). rewrite Nat.pow_succ_r'. nia.
Qed.

Lemma binaryValue_app : forall a b,
  binaryValue (a ++ b) = binaryValue a * 2 ^ length b + binaryValue b.
Proof.
  intros a b. unfold binaryValue at 1. rewrite fold_left_app.
  rewrite binaryValue_acc. reflexivity.
Qed.

Lemma binaryValue_repeat_true : forall m,
  binaryValue (repeat true m) + 1 = 2 ^ m.
Proof.
  induction m as [|m IH].
  - reflexivity.
  - replace (repeat true (S m)) with ([true] ++ repeat true m) by reflexivity.
    rewrite binaryValue_app, repeat_length.
    change (binaryValue [true]) with 1. rewrite Nat.pow_succ_r'. lia.
Qed.

Lemma binaryValue_repeat_false : forall m, binaryValue (repeat false m) = 0.
Proof.
  induction m as [|m IH].
  - reflexivity.
  - replace (repeat false (S m)) with ([false] ++ repeat false m) by reflexivity.
    rewrite binaryValue_app, IH. change (binaryValue [false]) with 0. lia.
Qed.

Lemma binaryValue_bound : forall v, binaryValue v < 2 ^ length v.
Proof.
  induction v as [|b v IH] using rev_ind.
  - cbv. lia.
  - rewrite binaryValue_app, length_app. cbn [length].
    rewrite Nat.pow_1_r, Nat.add_1_r, Nat.pow_succ_r'.
    assert (binaryValue [b] <= 1) by (destruct b; cbv; lia). lia.
Qed.

Lemma bitsMSB_length : forall n k, length (bitsMSB n k) = n.
Proof.
  induction n as [|n IH]; intro k; simpl.
  - reflexivity.
  - rewrite length_app, IH. simpl. lia.
Qed.

Lemma bitsMSB_binaryValue : forall v, bitsMSB (length v) (binaryValue v) = v.
Proof.
  induction v as [|b v IH] using rev_ind.
  - reflexivity.
  - rewrite length_app. cbn [length]. rewrite Nat.add_1_r. cbn [bitsMSB].
    rewrite binaryValue_app. cbn [length]. rewrite Nat.pow_1_r.
    assert (Hb : binaryValue [b] = Nat.b2n b) by (destruct b; reflexivity).
    rewrite Hb.
    replace (binaryValue v * 2 + Nat.b2n b) with (Nat.b2n b + 2 * binaryValue v) by lia.
    rewrite Nat.add_b2n_double_div2.
    rewrite IH. f_equal. f_equal.
    rewrite <- Nat.bit0_odd. apply Nat.add_b2n_double_bit0.
Qed.

Lemma binaryValue_bitsMSB : forall n k, k < 2 ^ n -> binaryValue (bitsMSB n k) = k.
Proof.
  induction n as [|n IH]; intros k Hk.
  - simpl in *. cbv. lia.
  - cbn [bitsMSB]. rewrite binaryValue_app. cbn [length]. rewrite Nat.pow_1_r.
    rewrite Nat.pow_succ_r' in Hk.
    rewrite IH.
    2:{ apply Nat.Div0.div_lt_upper_bound. lia. }
    assert (Hb : binaryValue [Nat.odd k] = Nat.b2n (Nat.odd k))
      by (destruct (Nat.odd k); reflexivity).
    rewrite Hb.
    rewrite (Nat.div2_odd k) at 3. rewrite Nat.div2_div. lia.
Qed.

(** A vector is all true, or ends with a false followed by trues. *)
Lemma last_false_decomposition : forall v : list bool,
  v = repeat true (length v)
  \/ exists pre m, v = pre ++ false :: repeat true m.
Proof.
  induction v as [|b v IH] using rev_ind.
  - left. reflexivity.
  - destruct b.
    + destruct IH as [IH | (pre & m & IH)].
      * left. rewrite length_app. simpl length. rewrite Nat.add_1_r.
        rewrite IH at 1.
        change [true] with (repeat true 1). rewrite <- repeat_app.
        f_equal. lia.
      * right. exists pre, (S m). rewrite IH. rewrite <- app_assoc. simpl.
        f_equal. f_equal. symmetry. apply repeat_cons.
    + right. exists v, 0. reflexivity.
Qed.

Lemma findFlipIndex_all_true : forall m k rest,
  k <= m -> findFlipIndex (repeat true m ++ rest) k = (-1)%Z.
Proof.
  induction k as [|k IH]; intros rest Hk; simpl.
  - reflexivity.
  - rewrite nth_error_app1 by (rewrite repeat_length; lia).
    rewrite nth_error_repeat by lia. simpl. apply IH. lia.
Qed.

Lemma findFlipIndex_last_false : forall pre m k,
  k <= m ->
  findFlipIndex (pre ++ false :: repeat true m) (length pre + 1 + k)
  = Z.of_nat (length pre).
Proof.
  induction k as [|k IH]; intro Hk.
  - rewrite Nat.add_0_r, Nat.add_1_r. simpl.
    rewrite nth_error_app2 by lia. rewrite Nat.sub_diag. reflexivity.
  - replace (length pre + 1 + S k) with (S (length pre + 1 + k)) by lia.
    simpl.
    rewrite nth_error_app2 by lia.
    replace (length pre + 1 + k - length pre) with (S k) by lia. simpl.
    rewrite nth_error_repeat by lia. simpl. apply IH. lia.
Qed.

Lemma arraySet_app : forall (A : Type) (pre : list A) x rest v,
  arraySet (pre ++ x :: rest) (length pre) v = pre ++ v :: rest.
Proof.
  induction pre as [|p pre IH]; intros; simpl.
  - reflexivity.
  - rewrite IH. reflexivity.
Qed.

Lemma arraySet_length : forall (A : Type) (l : list A) i v,
  length (arraySet l i v) = length l.
Proof.
  induction l as [|x l IH]; intros [|i] v; simpl; try reflexivity.
  rewrite IH. reflexivity.
Qed.

(** Writing false at the indices [|pre|, |pre| + |mid|). *)
Lemma clear_suffix : forall mid pre done,
  fold_left (fun a i => arraySet a i false)
            (seq (length (pre ++ done)) (length mid))
            (pre ++ done ++ mid)
  = pre ++ done ++ repeat false (length mid).
Proof.
  induction mid as [|x mid IH]; intros pre done; simpl.
  - reflexivity.
  - rewrite app_assoc. rewrite arraySet_app. rewrite <- app_assoc.
    specialize (IH pre (done ++ [false])).
    rewrite !length_app in IH. simpl length in IH.
    rewrite length_app.
    replace (S (length pre + length done))
      with (length pre + (length done + 1)) by lia.
    rewrite <- !app_assoc in IH. simpl in IH. exact IH.
Qed.

Lemma nextAssignment_all_true : forall m,
  nextAssignment (repeat true m) = (false, repeat true m).
Proof.
  intro m. unfold nextAssignment. rewrite repeat_length.
  rewrite <- (app_nil_r (repeat true m)) at 1.
  rewrite findFlipIndex_all_true by lia. reflexivity.
Qed.

Lemma nextAssignment_last_false : forall pre m,
  nextAssignment (pre ++ false :: repeat true m)
  = (true, pre ++ true :: repeat false m).
Proof.
  intros pre m. unfold nextAssignment.
  rewrite length_app. simpl length. rewrite repeat_length.
  replace (length pre + S m) with (length pre + 1 + m) by lia.
  rewrite findFlipIndex_last_false by lia.
  destruct (Z.of_nat (length pre) =? -1)%Z eqn:E; [apply Z.eqb_eq in E; lia|].
  rewrite Nat2Z.id. rewrite arraySet_app.
  f_equal.
  rewrite length_app. simpl length. rewrite repeat_length.
  replace (length pre + S m - (length pre + 1)) with (length (repeat true m))
    by (rewrite repeat_length; lia).
  pose proof (clear_suffix (repeat true m) pre [true]) as H.
  rewrite length_app in H. simpl length in H. simpl app in H.
  rewrite H. rewrite repeat_length. reflexivity.
Qed.

(** [nextAssignment] is the successor of the binary counter. *)
Lemma nextAssignment_spec : forall v,
  (nextAssignment v = (false, v) /\ binaryValue v + 1 = 2 ^ length v)
  \/ (exists v', nextAssignment v = (true, v')
                 /\ length v' = length v
                 /\ binaryValue v' = binaryValue v + 1).
Proof.
  intro v. destruct (last_false_decomposition v) as [H | (pre & m & H)].
  - left. rewrite H at 1 2. rewrite nextAssignment_all_true. split.
    + rewrite <- H. reflexivity.
    + rewrite H at 1. apply binaryValue_repeat_true.
  - right. exists (pre ++ true :: repeat false m). subst v.
    rewrite nextAssignment_last_false. split; [reflexivity|]. split.
    + rewrite !length_app. cbn [length]. rewrite !repeat_length. reflexivity.
    + rewrite !binaryValue_app.
      replace (true :: repeat false m) with ([true] ++ repeat false m) by reflexivity.
      replace (false :: repeat true m) with ([false] ++ repeat true m) by reflexivity.
      rewrite !binaryValue_app, !length_app, !repeat_length.
      rewrite binaryValue_repeat_false.
      pose proof (binaryValue_repeat_true m).
      change (binaryValue [true]) with 1. change (binaryValue [false]) with 0.
      cbn [length]. rewrite Nat.pow_add_r, Nat.pow_1_r. nia.
Qed.

Variable St : Type.
Variable callback : list bool -> jsbool -> St -> St.

Lemma truthTableLoop_spec : forall a n m fuel v st,
  length v = n ->
  binaryValue v + m + 1 = 2 ^ n ->
  m < fuel ->
  truthTableLoop callback fuel a v st
  = Return (sinkCalls callback a (map (bitsMSB n) (seq (binaryValue v) (m + 1))) st).
Proof.
  intros a n. induction m as [|m IH]; intros fuel v st Hlen Hval Hfuel;
    (destruct fuel as [|fuel]; [lia|]);
    assert (Hbits : bitsMSB n (binaryValue v) = v)
      by (rewrite <- Hlen; apply bitsMSB_binaryValue);
    rewrite Nat.add_1_r; unfold sinkCalls; cbn [truthTableLoop seq map fold_left];
    rewrite Hbits.
  - destruct (nextAssignment_spec v) as [[Hn _] | (v' & Hn & Hl & Hv)].
    + rewrite Hn. reflexivity.
    + pose proof (binaryValue_bound v') as Hb. rewrite Hl, Hlen in Hb. lia.
  - destruct (nextAssignment_spec v) as [[_ Hn] | (v' & Hn & Hl & Hv)].
    + rewrite Hlen in Hn. lia.
    + rewrite Hn. rewrite (IH fuel v') by lia.
      rewrite Hv. unfold sinkCalls. rewrite !Nat.add_1_r. reflexivity.
Qed.

Lemma truthTableLoop_out_of_fuel : forall a n fuel m v st,
  length v = n ->
  binaryValue v + m + 1 = 2 ^ n ->
  fuel <= m ->
  truthTableLoop callback fuel a v st = Failure OutOfFuel.
Proof.
  intros a n. induction fuel as [|fuel IH]; intros m v st Hlen Hval Hfuel.
  - reflexivity.
  - simpl.
    destruct (nextAssignment_spec v) as [[_ Hn] | (v' & Hn & Hl & Hv)].
    + rewrite Hlen in Hn. lia.
    + rewrite Hn. apply (IH (m - 1)); lia.
Qed.

End BinaryCounter.

Lemma binaryCounterOrder_length : forall n, length (binaryCounterOrder n) = 2 ^ n.
Proof. intro n. unfold binaryCounterOrder. rewrite length_map, length_seq. reflexivity. Qed.

Lemma binaryCounterOrder_nth : forall n k,
  k < 2 ^ n -> nth_error (binaryCounterOrder n) k = Some (bitsMSB n k).
Proof.
  intros n k Hk. unfold binaryCounterOrder.
  rewrite nth_error_map, nth_error_seq.
  destruct (Nat.ltb_spec k (2 ^ n)); [reflexivity | lia].
Qed.

Lemma binaryCounterOrder_In : forall n v,
  In v (binaryCounterOrder n) <-> length v = n.
Proof.
  intros n v. unfold binaryCounterOrder. rewrite in_map_iff. split.
  - intros (k & Hk & _). subst v. apply bitsMSB_length.
  - intro Hl. exists (binaryValue v). split.
    + rewrite <- Hl. apply bitsMSB_binaryValue.
    + apply in_seq. pose proof (binaryValue_bound v). rewrite Hl in *. lia.
Qed.

Lemma binaryCounterOrder_NoDup : forall n, NoDup (binaryCounterOrder n).
Proof.
  intro n. unfold binaryCounterOrder.
  apply Finite.Injective_map_NoDup_in; [|apply seq_NoDup].
  intros x y Hx Hy E. apply in_seq in Hx, Hy.
  rewrite <- (binaryValue_bitsMSB n x), <- (binaryValue_bitsMSB n y) by lia.
  rewrite E. reflexivity.
Qed.

Lemma initial_assignment : forall (A : Type) (l : list A),
  map (fun _ => false) l = repeat false (length l).
Proof. induction l as [|x l IH]; simpl; [reflexivity | rewrite IH; reflexivity]. Qed.

(** C1: for every AST and every number n of variables, generateTruthTable
    with nextAssignment calls the sink once per vector of the binary
    counter order: 2^n calls (2^n rounds of the loop are needed and are
    enough), with pairwise different vectors of length n, every vector of
    length n among them, the k-th call made with the vector whose value,
    read as a binary number with index 0 most significant, is k; for
    n = 0 the one call is made with the empty assignment. *)
Theorem generateTruthTable_enumerates :
  forall (St : Type) (callback : list bool -> jsbool -> St -> St) (st : St)
         (pr : parseResult) (fuel : nat),
    2 ^ length (variables pr) <= fuel ->
    generateTruthTable callback fuel pr st
      = Return (sinkCalls callback (ast pr)
                          (binaryCounterOrder (length (variables pr))) st)
    /\ (forall fuel', fuel' < 2 ^ length (variables pr) ->
          generateTruthTable callback fuel' pr st = Failure OutOfFuel)
    /\ length (binaryCounterOrder (length (variables pr)))
         = 2 ^ length (variables pr)
    /\ NoDup (binaryCounterOrder (length (variables pr)))
    /\ (forall v, In v (binaryCounterOrder (length (variables pr)))
                  <-> length v = length (variables pr))
    /\ (forall k, k < 2 ^ length (variables pr) ->
          exists v, nth_error (binaryCounterOrder (length (variables pr))) k = Some v
                    /\ length v = length (variables pr)
                    /\ binaryValue v = k)
    /\ (length (variables pr) = 0 ->
          generateTruthTable callback fuel pr st
            = Return (callback [] (evaluate (ast pr) []) st)).
Proof.
  intros St callback st pr fuel Hfuel.
  set (n := length (variables pr)) in *.
  assert (Hinit : map (fun _ => false) (variables pr) = repeat false n)
    by apply initial_assignment.
  assert (Hpos : 0 < 2 ^ n) by (apply Nat.neq_0_lt_0, Nat.pow_nonzero; lia).
  assert (Hrun : generateTruthTable callback fuel pr st
                 = Return (sinkCalls callback (ast pr) (binaryCounterOrder n) st)).
  { unfold generateTruthTable. rewrite Hinit.
    rewrite (truthTableLoop_spec _ callback (ast pr) n (2 ^ n - 1)).
    - rewrite binaryValue_repeat_false. unfold binaryCounterOrder.
      replace (2 ^ n - 1 + 1) with (2 ^ n) by lia. reflexivity.
    - apply repeat_length.
    - rewrite binaryValue_repeat_false. lia.
    - lia. }
  split; [exact Hrun|]. split; [|split; [|split; [|split; [|split]]]].
  - intros fuel' Hf. unfold generateTruthTable. rewrite Hinit.
    apply (truthTableLoop_out_of_fuel _ callback (ast pr) n fuel' (2 ^ n - 1)).
    + apply repeat_length.
    + rewrite binaryValue_repeat_false. lia.
    + lia.
  - apply binaryCounterOrder_length.
  - apply binaryCounterOrder_NoDup.
  - apply binaryCounterOrder_In.
  - intros k Hk. exists (bitsMSB n k). split; [|split].
    + apply binaryCounterOrder_nth. exact Hk.
    + apply bitsMSB_length.
    + apply binaryValue_bitsMSB. exact Hk.
  - intro H0. rewrite Hrun. rewrite H0. reflexivity.
Qed.

Lemma generateTruthTable_enumerates_witness :
  2 ^ length (variables (mkParseResult (andNode (variableNode (PNum 0))
                                               (variableNode (PNum 1)))
                                      [js "p"; js "q"])) <= 4
  /\ generateTruthTable recordRow 4
       (mkParseResult (andNode (variableNode (PNum 0)) (variableNode (PNum 1)))
                      [js "p"; js "q"]) []
     = Return [ ([false; false], Some false); ([false; true], Some false);
                ([true; false], Some false); ([true; true], Some true) ].
Proof.
  split.
  - apply Nat.le_refl.
  - exact (proj1 (generateTruthTable_enumerates _ recordRow []
                    (mkParseResult (andNode (variableNode (PNum 0))
                                            (variableNode (PNum 1)))
                                   [js "p"; js "q"]) 4 (Nat.le_refl 4))).
Defined.



(* ================================================================== *)
(** ** The scanner *)
(* ================================================================== *)

Lemma skipn_nth_error : forall (A : Type) (l : list A) i c,
  nth_error l i = Some c -> skipn i l = c :: skipn (S i) l.
Proof.
  induction l as [|x l IH]; intros [|i] c H; simpl in *; try discriminate.
  - congruence.
  - apply IH. exact H.
Qed.

Lemma substring_length : forall (s : jsstring) i n,
  i + n <= length s -> length (substring s i (i + n)) = n.
Proof.
  intros s i n H. unfold substring.
  replace (i + n - i) with n by lia.
  rewrite firstn_length_le; [reflexivity|]. rewrite length_skipn. lia.
Qed.

Lemma substring_nth_error : forall (s : jsstring) i n j,
  j < n -> nth_error (substring s i (i + n)) j = nth_error s (i + j).
Proof.
  intros s i n j H. unfold substring.
  replace (i + n - i) with n by lia.
  rewrite nth_error_firstn.
  destruct (Nat.ltb_spec j n); [|lia]. apply nth_error_skipn.
Qed.

Lemma substring_fits : forall (s op : jsstring) i,
  substring s i (i + length op) = op -> i + length op <= length s \/ op = [].
Proof.
  intros s op i H. destruct op as [|c op]; [right; reflexivity|left].
  assert (Hn : nth_error (substring s i (i + length (c :: op))) (length op) <> None).
  { rewrite H. apply nth_error_Some. simpl. lia. }
  rewrite substring_nth_error in Hn by (simpl; lia).
  apply nth_error_Some in Hn. simpl. lia.
Qed.

(* ------------------------------------------------------------------ *)
(** *** checkIntegrity *)

Lemma checkIntegrityFrom_spec : forall rest i,
  match checkIntegrityFrom rest i with
  | Return _ => forallb okayChars rest = true
  | Throw e => description e = js "Illegal character"
               /\ i <= start_ e /\ end_ e = start_ e + 1
               /\ end_ e <= i + length rest
  | Failure _ => False
  end.
Proof.
  induction rest as [|c rest IH]; intro i; simpl.
  - reflexivity.
  - destruct (okayChars c) eqn:Hc; simpl.
    + specialize (IH (i + 1)).
      destruct (checkIntegrityFrom rest (i + 1)) as [u|e|f]; [exact IH| |exact IH].
      destruct IH as (Hd & Hs & He & Hl). repeat split; try assumption; lia.
    + repeat split; lia.
Qed.

Lemma okayChars_not_EOF : forall input,
  forallb okayChars input = true -> ~ In 36%N input.
Proof.
  intros input H Hin. rewrite forallb_forall in H.
  specialize (H _ Hin). discriminate.
Qed.

(* ------------------------------------------------------------------ *)
(** *** Variable names *)

Lemma readVariableChars_sentinel : forall l,
  length (readVariableChars (l ++ [36%N])) <= length l.
Proof.
  induction l as [|c l IH]; simpl.
  - lia.
  - destruct (isVariableChar c); simpl; lia.
Qed.

Lemma readVariableChars_all : forall l,
  forallb isVariableChar (readVariableChars l) = true.
Proof.
  induction l as [|c l IH]; simpl; [reflexivity|].
  destruct (isVariableChar c) eqn:E; simpl; [rewrite E, IH|]; reflexivity.
Qed.

Lemma readVariableChars_prefix : forall l,
  exists rest, l = readVariableChars l ++ rest.
Proof.
  induction l as [|c l [rest IH]]; simpl.
  - exists []. reflexivity.
  - destruct (isVariableChar c).
    + exists rest. simpl. rewrite <- IH. reflexivity.
    + exists (c :: l). reflexivity.
Qed.

Lemma variableStart_is_variableChar : forall c,
  isVariableStartChar c = true -> isVariableChar c = true.
Proof.
  intros c H. unfold isVariableChar. unfold isVariableStartChar in H.
  rewrite H. reflexivity.
Qed.

Lemma tryReadVariableName_Some : forall input i name,
  tryReadVariableName input i = Some name ->
  exists c, charAt input i = Some c /\ isVariableStartChar c = true
            /\ name = readVariableChars (skipn i input)
            /\ isReservedWord name = false
            /\ 1 <= length name.
Proof.
  unfold tryReadVariableName. intros input i name H.
  destruct (charAt input i) as [c|] eqn:Hc; [|discriminate].
  destruct (isVariableStartChar c) eqn:Hs; simpl in H; [|discriminate].
  destruct (isReservedWord (readVariableChars (skipn i input))) eqn:Hr;
    [discriminate|].
  inversion H; subst name. exists c. repeat split; try assumption; try reflexivity.
  unfold charAt in Hc. rewrite (skipn_nth_error _ _ _ _ Hc). simpl.
  rewrite (variableStart_is_variableChar _ Hs). simpl. lia.
Qed.

Lemma tryReadVariableName_bounds : forall (input : jsstring) i name,
  tryReadVariableName (input ++ kScannerConstants.EOF) i = Some name ->
  1 <= length name /\ i + length name <= length input.
Proof.
  intros input i name H.
  destruct (tryReadVariableName_Some _ _ _ H) as (c & Hc & Hs & Hn & _ & Hl).
  split; [exact Hl|].
  unfold charAt in Hc.
  assert (Hi : i < length input).
  { destruct (Nat.lt_ge_cases i (length input)) as [?|Hge]; [assumption|].
    rewrite nth_error_app2 in Hc by exact Hge.
    destruct (i - length input) as [|k] eqn:Hk; simpl in Hc.
    - inversion Hc; subst c. discriminate.
    - destruct k; discriminate. }
  subst name. unfold kScannerConstants.EOF. rewrite skipn_app.
  replace (i - length input) with 0 by lia. simpl skipn at 2.
  pose proof (readVariableChars_sentinel (skipn i input)) as Hb.
  rewrite length_skipn in Hb. lia.
Qed.

(* ------------------------------------------------------------------ *)
(** *** Operators *)

Lemma operatorCase_Some : forall n sps input i op,
  operatorCase n sps input i = Some op ->
  op = substring input i (i + n)
  /\ (1 <= n -> i + n <= length input)
  /\ exists s, In s sps /\ op = js s.
Proof.
  unfold operatorCase. intros n sps input i op H.
  destruct (Z.of_nat i <? Z.of_nat (length input) - (Z.of_nat n - 1))%Z eqn:Hb;
    [|discriminate].
  destruct (existsb (fun s => substring input i (i + n) === s) sps) eqn:He;
    [|discriminate].
  inversion H; subst op. split; [reflexivity|]. split.
  - intro Hn. apply Z.ltb_lt in Hb. lia.
  - apply existsb_exists in He. destruct He as (s & Hin & Hs).
    exists s. split; [exact Hin|]. apply jseqb_eq. exact Hs.
Qed.

Lemma firstCase_Some : forall cases input i op,
  firstCase cases input i = Some op ->
  exists n sps s, In (n, sps) cases /\ In s sps /\ op = js s
                  /\ op = substring input i (i + n)
                  /\ (1 <= n -> i + n <= length input).
Proof.
  induction cases as [|[n sps] cases IH]; intros input i op H; simpl in H.
  - discriminate.
  - destruct (operatorCase n sps input i) as [r|] eqn:Hc.
    + inversion H; subst r.
      destruct (operatorCase_Some _ _ _ _ _ Hc) as (Hsub & Hfit & s & Hin & Hs).
      exists n, sps, s. repeat split; try assumption. left. reflexivity.
    + destruct (IH _ _ _ H) as (n' & sps' & s & Hin & Hrest).
      exists n', sps', s. split; [right; exact Hin | exact Hrest].
Qed.

Lemma operatorSpellings_OK :
  forallb (fun c => forallb (spellingOK (fst c)) (snd c)) operatorSpellings = true.
Proof. vm_compute. reflexivity. Qed.

Lemma spelling_in_table : forall n sps s,
  In (n, sps) operatorSpellings -> In s sps -> spellingOK n s = true.
Proof.
  intros n sps s H1 H2. pose proof operatorSpellings_OK as H.
  rewrite forallb_forall in H. specialize (H _ H1). simpl in H.
  rewrite forallb_forall in H. apply H. exact H2.
Qed.

Lemma singleChar_translate : forall c,
  isSingleCharOperator c = true ->
  jseqb (translate [c]) kScannerConstants.EOF = false
  /\ translate [c] === "variable" = false.
Proof.
  intros c H. unfold translate.
  repeat match goal with
         | |- context [if ?b then _ else _] => destruct b
         end; try (split; reflexivity).
  split.
  - simpl. destruct (c =? 36)%N eqn:E; [|reflexivity].
    apply N.eqb_eq in E. subst c. discriminate.
  - vm_compute (js "variable"). simpl. apply andb_false_r.
Qed.

Lemma tryReadOperator_bounds : forall (input : jsstring) i op,
  ~ In 36%N input ->
  tryReadOperator (input ++ kScannerConstants.EOF) i = Some op ->
  1 <= length op /\ i + length op <= length input
  /\ jseqb (translate op) kScannerConstants.EOF = false
  /\ translate op === "variable" = false.
Proof.
  intros input i op Hno H. unfold tryReadOperator in H.
  destruct (firstCase operatorSpellings (input ++ kScannerConstants.EOF) i) as [r|] eqn:Hf.
  - inversion H; subst r.
    destruct (firstCase_Some _ _ _ _ Hf) as (n & sps & s & Hin & Hs & Hop & Hsub & Hfit).
    pose proof (spelling_in_table _ _ _ Hin Hs) as Hok. unfold spellingOK in Hok.
    rewrite !andb_true_iff in Hok.
    destruct Hok as ((((Hlen & Hn) & Hno36) & Heof) & Hvar).
    apply Nat.eqb_eq in Hlen. apply Nat.leb_le in Hn.
    rewrite <- Hop in Hlen, Hno36, Heof, Hvar.
    apply negb_true_iff in Heof, Hvar.
    specialize (Hfit Hn). rewrite length_app in Hfit. simpl in Hfit.
    repeat split; try assumption; try lia.
    destruct (Nat.eq_dec (i + n) (length input + 1)) as [E|]; [|lia].
    exfalso.
    assert (Hlast : nth_error op (n - 1) = Some 36%N).
    { rewrite Hsub. rewrite substring_nth_error by lia.
      rewrite nth_error_app2 by lia.
      replace (i + (n - 1) - length input) with 0 by lia. reflexivity. }
    apply nth_error_In in Hlast. rewrite forallb_forall in Hno36.
    specialize (Hno36 _ Hlast). cbv in Hno36. discriminate.
  - unfold singleCharCase, charAt in H.
    destruct (nth_error (input ++ kScannerConstants.EOF) i) as [c|] eqn:Hc; [|discriminate].
    destruct (isSingleCharOperator c) eqn:Hs; [|discriminate].
    inversion H; subst op.
    destruct (singleChar_translate _ Hs) as [H1 H2].
    assert (Hi : i < length input).
    { destruct (Nat.lt_ge_cases i (length input)) as [?|Hge]; [assumption|].
      rewrite nth_error_app2 in Hc by exact Hge.
      destruct (i - length input) as [|k] eqn:Hk; simpl in Hc.
      - inversion Hc; subst c. discriminate.
      - destruct k; discriminate. }
    simpl. repeat split; try assumption; lia.
Qed.

(* ------------------------------------------------------------------ *)
(** *** The scanning loop *)

Lemma preliminaryScanLoop_spec : forall input : jsstring,
  ~ In 36%N input ->
  forall fuel i variableSet tokens,
    i <= length input ->
    length input - i < fuel ->
    match preliminaryScanLoop fuel (input ++ kScannerConstants.EOF) i variableSet tokens with
    | Return (tokens', _) =>
        exists new, tokens' = tokens ++ new ++ [eofToken (length input)]
                    /\ Forall (innerToken (length input)) new
                    /\ Forall (fun t => i <= start t) new
                    /\ (new = [] -> forallb isWhitespaceChar (skipn i input) = true)
    | Throw e => i <= start_ e /\ end_ e = start_ e + 1 /\ end_ e <= length input
                 /\ exists c, description e
                              = js "O carácter " ++ c ++ js " não deveria estar aqui."
    | Failure _ => False
    end.
Proof.
  intros input Hno. induction fuel as [|fuel IH]; intros i vs toks Hi Hfuel.
  - lia.
  - cbn [preliminaryScanLoop].
    destruct (Nat.eq_dec i (length input)) as [E|NE].
    + (* at the marker *)
      assert (Hc : charAt (input ++ kScannerConstants.EOF) i = Some 36%N).
      { unfold charAt. rewrite nth_error_app2 by lia.
        replace (i - length input) with 0 by lia. reflexivity. }
      rewrite Hc. cbn [charStr]. rewrite jseqb_refl.
      exists []. subst i. split; [reflexivity|]. split; [constructor|].
      split; [constructor|]. intros _. rewrite skipn_all. reflexivity.
    + assert (Hlt : i < length input) by lia.
      assert (Hc : exists c, charAt (input ++ kScannerConstants.EOF) i = Some c /\ c <> 36%N).
      { unfold charAt. rewrite nth_error_app1 by exact Hlt.
        destruct (nth_error input i) as [c|] eqn:Hc.
        - exists c. split; [reflexivity|]. intro; subst c.
          apply Hno. eapply nth_error_In. exact Hc.
        - apply nth_error_None in Hc. lia. }
      destruct Hc as (c & Hc & Hne). rewrite Hc. cbn [charStr].
      assert (Hnot : jseqb [c] kScannerConstants.EOF = false).
      { apply jseqb_neq. intro E. inversion E. contradiction. }
      rewrite Hnot.
      unfold isVariableStart, scanVariable.
      destruct (tryReadVariableName (input ++ kScannerConstants.EOF) i) as [name|] eqn:Hv.
      * destruct (tryReadVariableName_bounds _ _ _ Hv) as [H1 H2].
        specialize (IH (i + length name) (objSet vs name PTrue)
                       (toks ++ [makeVariableToken name i (i + length name)])).
        destruct (preliminaryScanLoop fuel (input ++ kScannerConstants.EOF) (i + length name) _ _)
          as [[toks' vs']|e|f].
        -- destruct IH as (new & Ht & Hf & Hs & _); [lia|lia|].
           exists (makeVariableToken name i (i + length name) :: new).
           split; [rewrite Ht, <- app_assoc; reflexivity|]. split; [|split].
           ++ constructor; [|exact Hf]. unfold innerToken. simpl.
              repeat split; try lia.
           ++ constructor; [simpl; lia|].
              eapply Forall_impl; [|exact Hs]. simpl. intros; lia.
           ++ discriminate.
        -- destruct IH as (Hs & He & Hl & Hd); [lia|lia|].
           repeat split; try lia. exact Hd.
        -- apply IH; lia.
      * unfold isOperatorStart.
        destruct (tryReadOperator (input ++ kScannerConstants.EOF) i) as [op|] eqn:Ho.
        -- destruct (tryReadOperator_bounds _ _ _ Hno Ho) as (H1 & H2 & H3 & H4).
           specialize (IH (i + length op) vs (toks ++ [makeIdentityToken op i])).
           destruct (preliminaryScanLoop fuel (input ++ kScannerConstants.EOF) (i + length op) _ _)
             as [[toks' vs']|e|f].
           ++ destruct IH as (new & Ht & Hf & Hs & _); [lia|lia|].
              exists (makeIdentityToken op i :: new).
              split; [rewrite Ht, <- app_assoc; reflexivity|]. split; [|split].
              ** constructor; [|exact Hf]. unfold innerToken. simpl.
                 repeat split; try lia. exact H3.
              ** constructor; [simpl; lia|].
                 eapply Forall_impl; [|exact Hs]. simpl. intros; lia.
              ** discriminate.
           ++ destruct IH as (Hs & He & Hl & Hd); [lia|lia|].
              repeat split; try lia. exact Hd.
           ++ apply IH; lia.
        -- destruct (isWhitespace (Some c)) eqn:Hw.
           ++ specialize (IH (i + 1) vs toks).
              destruct (preliminaryScanLoop fuel (input ++ kScannerConstants.EOF) (i + 1) _ _)
                as [[toks' vs']|e|f].
              ** destruct IH as (new & Ht & Hf & Hs & Hw'); [lia|lia|].
                 exists new. split; [exact Ht|]. split; [exact Hf|]. split.
                 --- eapply Forall_impl; [|exact Hs]. simpl. intros; lia.
                 --- intro Hn. specialize (Hw' Hn).
                     unfold charAt in Hc. rewrite nth_error_app1 in Hc by exact Hlt.
                     rewrite (skipn_nth_error _ _ _ _ Hc). simpl.
                     simpl in Hw. rewrite Hw. rewrite Nat.add_1_r in Hw'. exact Hw'.
              ** destruct IH as (Hs & He & Hl & Hd); [lia|lia|].
                 repeat split; try lia. exact Hd.
              ** apply IH; lia.
           ++ simpl. repeat split; try lia. exists [c]. reflexivity.
Qed.

Lemma renumberToken_fields : forall vs t,
  type (renumberToken vs t) = type t
  /\ start (renumberToken vs t) = start t
  /\ end' (renumberToken vs t) = end' t.
Proof.
  intros vs t. unfold renumberToken.
  destruct (type t === "variable"); simpl; repeat split.
Qed.

(** The outcome of [scan]: tokens with ranges in the input, closed by one
    EOF token, or a lexical error with a range in the input. *)
Lemma scan_spec : forall input : jsstring,
  match scan input with
  | Return (tokens, _) =>
      exists inner last, tokens = inner ++ [last]
        /\ Forall (innerToken (length input)) inner
        /\ jseqb (type last) kScannerConstants.EOF = true
        /\ (inner = [] -> forallb isWhitespaceChar input = true)
  | Throw e => start_ e <= end_ e /\ end_ e <= length input
               /\ (description e = js "Illegal character"
                   \/ exists c, description e
                                = js "O carácter " ++ c ++ js " não deveria estar aqui.")
  | Failure _ => False
  end.
Proof.
  intro input. unfold scan, checkIntegrity.
  pose proof (checkIntegrityFrom_spec input 0) as Hci.
  destruct (checkIntegrityFrom input 0) as [u|e|f]; simpl.
  - apply okayChars_not_EOF in Hci.
    unfold preliminaryScan. rewrite length_app. simpl length.
    assert (Hfuel : length input - 0 < S (length input + 1)) by lia.
    pose proof (preliminaryScanLoop_spec input Hci (S (length input + 1)) 0 [] []
                  (Nat.le_0_l _) Hfuel) as Hl.
    destruct (preliminaryScanLoop (S (length input + 1)) (input ++ kScannerConstants.EOF) 0 [] [])
      as [[toks vs]|e|f]; simpl.
    + destruct Hl as (new & Ht & Hf & _ & Hws).
      exists (map (renumberToken (invertVariables (sort (forIn vs)) 0 vs)) new),
             (renumberToken (invertVariables (sort (forIn vs)) 0 vs)
                            (eofToken (length input))).
      split; [|split; [|split]].
      * rewrite Ht. simpl. rewrite map_app. reflexivity.
      * apply Forall_map. eapply Forall_impl; [|exact Hf].
        intros t (H1 & H2 & H3). unfold innerToken.
        destruct (renumberToken_fields (invertVariables (sort (forIn vs)) 0 vs) t)
          as (E1 & E2 & E3).
        rewrite E1, E2, E3. repeat split; assumption.
      * reflexivity.
      * intro Hn. apply Hws. destruct new; [reflexivity | discriminate].
    + destruct Hl as (Hs & He & Hle & Hd). repeat split; try lia. right. exact Hd.
    + exact Hl.
  - destruct Hci as (Hd & Hs & He & Hl). simpl in Hl. repeat split; try lia.
    left. exact Hd.
  - exact Hci.
Qed.



(* ------------------------------------------------------------------ *)
(** *** Whitespace *)

Ltac class_to_prop H :=
  unfold isWhitespaceChar, isVariableStartChar, isVariableChar,
         isSingleCharOperator, isGlyph, okayChars, inRange in H;
  rewrite ?orb_true_iff, ?andb_true_iff, ?N.leb_le, ?N.eqb_eq in H.

Lemma whitespace_facts : forall c,
  isWhitespaceChar c = true ->
  isVariableStartChar c = false /\ isSingleCharOperator c = false
  /\ okayChars c = true /\ c <> 36%N.
Proof.
  intros c H. split; [|split; [|split]].
  - destruct (isVariableStartChar c) eqn:E; [|reflexivity].
    class_to_prop H. class_to_prop E. lia.
  - destruct (isSingleCharOperator c) eqn:E; [|reflexivity].
    class_to_prop H. class_to_prop E. lia.
  - unfold okayChars. rewrite H. rewrite !orb_true_r. reflexivity.
  - intro E. subst c. discriminate.
Qed.

Lemma operatorSpellings_heads :
  forallb (fun c => forallb headNotWhitespace (snd c)) operatorSpellings = true.
Proof. vm_compute. reflexivity. Qed.

Lemma tryReadOperator_whitespace : forall (input : jsstring) i c,
  charAt input i = Some c -> isWhitespaceChar c = true ->
  tryReadOperator input i = None.
Proof.
  intros input i c Hc Hw. unfold tryReadOperator.
  destruct (firstCase operatorSpellings input i) as [op|] eqn:Hf.
  - exfalso.
    destruct (firstCase_Some _ _ _ _ Hf) as (n & sps & s & Hin & Hs & Hop & Hsub & Hfit).
    pose proof (spelling_in_table _ _ _ Hin Hs) as Hok. unfold spellingOK in Hok.
    rewrite !andb_true_iff in Hok.
    destruct Hok as ((((Hlen & Hn) & _) & _) & _).
    apply Nat.eqb_eq in Hlen. apply Nat.leb_le in Hn.
    pose proof operatorSpellings_heads as Hh.
    rewrite forallb_forall in Hh. specialize (Hh _ Hin). simpl in Hh.
    rewrite forallb_forall in Hh. specialize (Hh _ Hs).
    unfold headNotWhitespace in Hh. rewrite <- Hop in Hh.
    assert (H0 : nth_error op 0 = Some c).
    { rewrite Hsub. rewrite substring_nth_error by lia.
      rewrite Nat.add_0_r. exact Hc. }
    destruct op as [|h op]; [discriminate|]. simpl in H0. inversion H0; subst h.
    rewrite Hw in Hh. discriminate.
  - unfold singleCharCase. rewrite Hc.
    destruct (whitespace_facts c Hw) as (_ & H & _). rewrite H. reflexivity.
Qed.

Lemma preliminaryScanLoop_whitespace : forall (input : jsstring) fuel i variableSet tokens,
  i <= length input ->
  length input - i < fuel ->
  forallb isWhitespaceChar (skipn i input) = true ->
  preliminaryScanLoop fuel (input ++ kScannerConstants.EOF) i variableSet tokens
  = Return (tokens ++ [eofToken (length input)], variableSet).
Proof.
  intros input. induction fuel as [|fuel IH]; intros i vs toks Hi Hfuel Hws.
  - lia.
  - cbn [preliminaryScanLoop].
    destruct (Nat.eq_dec i (length input)) as [E|NE].
    + assert (Hc : charAt (input ++ kScannerConstants.EOF) i = Some 36%N).
      { unfold charAt. rewrite nth_error_app2 by lia.
        replace (i - length input) with 0 by lia. reflexivity. }
      rewrite Hc. cbn [charStr]. rewrite jseqb_refl. subst i. reflexivity.
    + assert (Hlt : i < length input) by lia.
      destruct (nth_error input i) as [c|] eqn:Hn;
        [|apply nth_error_None in Hn; lia].
      rewrite (skipn_nth_error _ _ _ _ Hn) in Hws. simpl in Hws.
      apply andb_true_iff in Hws. destruct Hws as [Hw Hws].
      destruct (whitespace_facts c Hw) as (Hv & _ & _ & Hne).
      assert (Hc : charAt (input ++ kScannerConstants.EOF) i = Some c).
      { unfold charAt. rewrite nth_error_app1 by exact Hlt. exact Hn. }
      rewrite Hc. cbn [charStr].
      assert (Hnot : jseqb [c] kScannerConstants.EOF = false).
      { apply jseqb_neq. intro E. inversion E. contradiction. }
      rewrite Hnot.
      unfold isVariableStart, tryReadVariableName. rewrite Hc, Hv. simpl negb.
      cbv iota.
      unfold isOperatorStart. rewrite (tryReadOperator_whitespace _ _ _ Hc Hw).
      simpl isWhitespace. rewrite Hw.
      apply IH; try lia. rewrite Nat.add_1_r. exact Hws.
Qed.

Lemma checkIntegrityFrom_okay : forall rest i,
  forallb okayChars rest = true -> checkIntegrityFrom rest i = Return tt.
Proof.
  induction rest as [|c rest IH]; intros i H; simpl in *.
  - reflexivity.
  - apply andb_true_iff in H. destruct H as [H1 H2]. rewrite H1. simpl.
    apply IH. exact H2.
Qed.

Lemma scan_whitespace : forall input : jsstring,
  forallb isWhitespaceChar input = true ->
  scan input = Return ([eofToken (length input)], []).
Proof.
  intros input Hws. unfold scan, checkIntegrity.
  rewrite checkIntegrityFrom_okay.
  - cbn [bind]. unfold preliminaryScan.
    rewrite preliminaryScanLoop_whitespace.
    + reflexivity.
    + lia.
    + rewrite length_app. simpl. lia.
    + exact Hws.
  - rewrite forallb_forall in *. intros c Hc. apply whitespace_facts. auto.
Qed.

(* ------------------------------------------------------------------ *)
(** *** One variable *)

Lemma readVariableChars_name : forall name rest,
  forallb isVariableChar name = true ->
  readVariableChars (name ++ rest) = name ++ readVariableChars rest.
Proof.
  induction name as [|c name IH]; intros rest H; simpl in *.
  - reflexivity.
  - apply andb_true_iff in H. destruct H as [H1 H2]. rewrite H1, IH by exact H2.
    reflexivity.
Qed.

Lemma variableChar_okay : forall c, isVariableChar c = true -> okayChars c = true.
Proof. intros c H. unfold okayChars. rewrite H. reflexivity. Qed.

Lemma parseTokens_one_variable : forall v s e s' e' vars,
  parseTokens [mkToken (js "variable") (Some v) s e;
               mkToken kScannerConstants.EOF None s' e'] vars
  = Return {| ast := variableNode v; variables := vars |}.
Proof. reflexivity. Qed.

Lemma parse_variable_name : forall name : jsstring,
  isVariableName name = true ->
  name <> js "__proto__" ->
  parse name = Return {| ast := variableNode (PNum 0); variables := [name] |}.
Proof.
  intros name Hname Hproto.
  destruct name as [|c name']; [discriminate|].
  unfold isVariableName in Hname. rewrite !andb_true_iff in Hname.
  destruct Hname as [[Hstart Hall] Hres]. apply negb_true_iff in Hres.
  remember (c :: name') as name eqn:Ename.
  assert (Hlen : 1 <= length name) by (subst name; simpl; lia).
  assert (Hc : charAt (name ++ kScannerConstants.EOF) 0 = Some c)
    by (subst name; reflexivity).
  assert (Hne : c <> 36%N) by (intro; subst c; discriminate).
  unfold parse, scan, checkIntegrity.
  rewrite checkIntegrityFrom_okay.
  2:{ rewrite forallb_forall in *. intros x Hx. apply variableChar_okay. auto. }
  cbn [bind]. unfold preliminaryScan.
  cbn [preliminaryScanLoop]. rewrite Hc. cbn [charStr].
  assert (Hnot : jseqb [c] kScannerConstants.EOF = false).
  { apply jseqb_neq. intro E. inversion E. contradiction. }
  rewrite Hnot.
  assert (Hv : tryReadVariableName (name ++ kScannerConstants.EOF) 0 = Some name).
  { unfold tryReadVariableName. rewrite Hc, Hstart. simpl negb. cbv iota.
    simpl skipn. rewrite readVariableChars_name by exact Hall.
    simpl readVariableChars. rewrite app_nil_r. rewrite Hres. reflexivity. }
  unfold isVariableStart, scanVariable. rewrite Hv.
  rewrite length_app. simpl (length kScannerConstants.EOF).
  replace (length name + 1) with (S (length name - 1 + 1)) by lia.
  cbn [preliminaryScanLoop].
  assert (Hend : charAt (name ++ kScannerConstants.EOF) (0 + length name) = Some 36%N).
  { unfold charAt. rewrite nth_error_app2 by lia.
    replace (0 + length name - length name) with 0 by lia. reflexivity. }
  rewrite Hend. cbn [charStr]. rewrite jseqb_refl. cbn [bind].
  unfold numberVariables, objSet.
  assert (Hp : jseqb name (js "__proto__") = false) by (apply jseqb_neq; exact Hproto).
  rewrite Hp. cbn [objUpdate forIn map fst sort insertSorted invertVariables].
  unfold objSet. rewrite Hp. cbn [objUpdate]. rewrite jseqb_refl.
  cbn [app map]. unfold renumberToken at 1.
  cbn [type makeVariableToken index start end'].
  rewrite jseqb_refl. unfold objGet. cbn [ownProperty]. rewrite jseqb_refl.
  cbn [fst snd].
  apply parseTokens_one_variable.
Qed.



(* ------------------------------------------------------------------ *)
(** *** Longest match *)

Lemma occursAt_skipn : forall (sp input : jsstring) i,
  occursAt sp input i -> exists rest, skipn i input = sp ++ rest.
Proof.
  unfold occursAt, substring. intros sp input i H.
  replace (i + length sp - i) with (length sp) in H by lia.
  exists (skipn (length sp) (skipn i input)).
  rewrite <- H at 1. symmetry. apply firstn_skipn.
Qed.

Lemma occursAt_charAt : forall (sp input : jsstring) i c rest,
  occursAt (c :: rest) input i -> sp = c :: rest -> charAt input i = Some c.
Proof.
  intros sp input i c rest H _. destruct (occursAt_skipn _ _ _ H) as (r & Hr).
  unfold charAt. rewrite <- hd_error_skipn, Hr. reflexivity.
Qed.

Lemma operatorCase_occurs : forall n sps s (input : jsstring) i,
  In s sps -> length (js s) = n -> 1 <= n ->
  occursAt (js s) input i ->
  operatorCase n sps input i = Some (js s).
Proof.
  intros n sps s input i Hin Hlen Hn Hocc. unfold operatorCase.
  assert (Hfit : i + n <= length input).
  { destruct (substring_fits input (js s) i Hocc) as [H|H].
    - lia.
    - rewrite H in Hlen. simpl in Hlen. lia. }
  destruct (Z.of_nat i <? Z.of_nat (length input) - (Z.of_nat n - 1))%Z eqn:Hb.
  2:{ apply Z.ltb_ge in Hb. lia. }
  unfold occursAt in Hocc. rewrite Hlen in Hocc. rewrite Hocc.
  assert (He : existsb (fun s0 => js s === s0) sps = true).
  { apply existsb_exists. exists s. split; [exact Hin | apply jseqb_refl]. }
  rewrite He. reflexivity.
Qed.

Lemma operatorSpellings_descending : descending operatorSpellings.
Proof.
  unfold descending, operatorSpellings.
  repeat (constructor; [|repeat constructor; simpl; lia]). constructor.
Qed.

Lemma firstCase_longest : forall cases,
  descending cases ->
  (forall n sps s, In (n, sps) cases -> In s sps -> length (js s) = n /\ 1 <= n) ->
  forall n sps s (input : jsstring) i,
    In (n, sps) cases -> In s sps ->
    occursAt (js s) input i ->
    exists op, firstCase cases input i = Some op
               /\ n <= length op /\ occursAt op input i.
Proof.
  induction cases as [|[n0 sps0] cases IH]; intros Hdesc Hlen n sps s input i Hin Hs Hocc.
  - destruct Hin.
  - cbn [firstCase].
    inversion Hdesc as [|? ? Htail Hhead]; subst.
    destruct (operatorCase n0 sps0 input i) as [r|] eqn:Hc.
    + destruct (operatorCase_Some _ _ _ _ _ Hc) as (Hsub & Hfit & s0 & Hin0 & Hr).
      destruct (Hlen n0 sps0 s0 (or_introl eq_refl) Hin0) as [Hl0 Hn0].
      exists r. split; [reflexivity|]. split.
      * rewrite Hr, Hl0. destruct Hin as [E|Hin].
        -- inversion E; subst. lia.
        -- rewrite Forall_forall in Hhead. specialize (Hhead _ Hin). simpl in Hhead. lia.
      * unfold occursAt. rewrite Hr at 1. rewrite Hl0. congruence.
    + destruct Hin as [E|Hin].
      * inversion E; subst n0 sps0.
        destruct (Hlen n sps s (or_introl eq_refl) Hs) as [Hl Hn].
        rewrite (operatorCase_occurs n sps s input i Hs Hl Hn Hocc) in Hc.
        discriminate.
      * apply (IH Htail) with (n := n) (sps := sps) (s := s); try assumption.
        intros n' sps' s' H1 H2. apply (Hlen n' sps' s'); [right; exact H1 | exact H2].
Qed.

Lemma operatorSpellings_lengths : forall n sps s,
  In (n, sps) operatorSpellings -> In s sps -> length (js s) = n /\ 1 <= n.
Proof.
  intros n sps s H1 H2. pose proof (spelling_in_table _ _ _ H1 H2) as Hok.
  unfold spellingOK in Hok. rewrite !andb_true_iff in Hok.
  destruct Hok as ((((Hlen & Hn) & _) & _) & _).
  apply Nat.eqb_eq in Hlen. apply Nat.leb_le in Hn. split; assumption.
Qed.

Lemma spellingTable_covered :
  forallb (fun row => forallb (fun s => (inSomeCase s || isCase9 s) && variableLike s
                                        && headNotEOF s)
                              (snd row))
          spellingTable = true.
Proof. vm_compute. reflexivity. Qed.

Lemma inSomeCase_In : forall s,
  inSomeCase s = true ->
  exists n sps s', In (n, sps) operatorSpellings /\ In s' sps /\ js s' = js s.
Proof.
  unfold inSomeCase. intros s H. apply existsb_exists in H.
  destruct H as ([n sps] & Hin & H). apply andb_true_iff in H. destruct H as [_ H].
  apply existsb_exists in H. destruct H as (s' & Hs' & E). apply jseqb_eq in E.
  exists n, sps, s'. repeat split; [exact Hin | exact Hs' | symmetry; exact E].
Qed.

Lemma tryReadOperator_longest : forall kind sps sp (input : jsstring) i,
  In (kind, sps) spellingTable -> In sp sps ->
  occursAt (js sp) input i ->
  exists op, tryReadOperator input i = Some op
             /\ length (js sp) <= length op /\ occursAt op input i.
Proof.
  intros kind sps sp input i Hrow Hsp Hocc.
  pose proof spellingTable_covered as Hcov.
  rewrite forallb_forall in Hcov. specialize (Hcov _ Hrow). simpl in Hcov.
  rewrite forallb_forall in Hcov. specialize (Hcov _ Hsp).
  rewrite !andb_true_iff in Hcov. destruct Hcov as [[Hcase _] _].
  unfold tryReadOperator.
  apply orb_true_iff in Hcase. destruct Hcase as [Hc | Hc].
  - destruct (inSomeCase_In _ Hc) as (n & sps' & s' & Hin & Hs' & E).
    rewrite <- E in Hocc.
    destruct (firstCase_longest operatorSpellings operatorSpellings_descending
                operatorSpellings_lengths n sps' s' input i Hin Hs' Hocc)
      as (op & Hf & Hl & Ho).
    exists op. rewrite Hf. split; [reflexivity|]. split; [|exact Ho].
    rewrite <- E. destruct (operatorSpellings_lengths _ _ _ Hin Hs'). lia.
  - unfold isCase9 in Hc.
    destruct (js sp) as [|c [|? ?]] eqn:Ejs; try discriminate.
    destruct (firstCase operatorSpellings input i) as [op|] eqn:Hf.
    + destruct (firstCase_Some _ _ _ _ Hf) as (n & sps' & s' & Hin & Hs' & Hop & Hsub & Hfit).
      destruct (operatorSpellings_lengths _ _ _ Hin Hs') as [Hl Hn].
      exists op. split; [reflexivity|]. split.
      * rewrite Hop, Hl. simpl. exact Hn.
      * unfold occursAt. rewrite Hop at 1. rewrite Hl. congruence.
    + exists [c]. unfold singleCharCase.
      rewrite (occursAt_charAt [c] input i c [] Hocc eq_refl). rewrite Hc.
      split; [reflexivity|]. split; [simpl; lia | exact Hocc].
Qed.

Lemma tryReadVariableName_longest : forall kind sps sp (input : jsstring) i name,
  In (kind, sps) spellingTable -> In sp sps ->
  occursAt (js sp) input i ->
  tryReadVariableName input i = Some name ->
  length (js sp) <= length name.
Proof.
  intros kind sps sp input i name Hrow Hsp Hocc Hv.
  pose proof spellingTable_covered as Hcov.
  rewrite forallb_forall in Hcov. specialize (Hcov _ Hrow). simpl in Hcov.
  rewrite forallb_forall in Hcov. specialize (Hcov _ Hsp).
  rewrite !andb_true_iff in Hcov. destruct Hcov as [[_ Hlike] _].
  destruct (tryReadVariableName_Some _ _ _ Hv) as (c & Hc & Hs & Hn & _ & _).
  destruct (occursAt_skipn _ _ _ Hocc) as (rest & Hrest).
  unfold variableLike in Hlike.
  destruct (js sp) as [|c' sp'] eqn:Ejs; [discriminate|].
  assert (c' = c).
  { pose proof (occursAt_charAt (c' :: sp') input i c' sp' Hocc eq_refl) as H.
    congruence. }
  subst c'. rewrite Hs in Hlike. simpl negb in Hlike. rewrite orb_false_r in Hlike.
  subst name. rewrite Hrest. rewrite readVariableChars_name by exact Hlike.
  rewrite length_app. lia.
Qed.

(** One round of the scanning loop at a position where a spelling of the
    table occurs: one token is added, which starts at the position and
    is at least as long as the spelling, and the scan goes on after it. *)
Lemma preliminaryScanLoop_longest : forall kind sps sp,
  In (kind, sps) spellingTable -> In sp sps ->
  forall (input : jsstring) i fuel variableSet tokens,
    occursAt (js sp) input i ->
    exists t variableSet',
      start t = i
      /\ i + length (js sp) <= end' t
      /\ occursAt (substring input i (end' t)) input i
      /\ preliminaryScanLoop (S fuel) input i variableSet tokens
         = preliminaryScanLoop fuel input (end' t) variableSet' (tokens ++ [t]).
Proof.
  intros kind sps sp Hrow Hsp input i fuel vs toks Hocc.
  pose proof spellingTable_covered as Hcov.
  rewrite forallb_forall in Hcov. specialize (Hcov _ Hrow). simpl in Hcov.
  rewrite forallb_forall in Hcov. specialize (Hcov _ Hsp).
  rewrite !andb_true_iff in Hcov. destruct Hcov as [_ Hne].
  unfold headNotEOF in Hne.
  cbn [preliminaryScanLoop].
  destruct (js sp) as [|c sp'] eqn:Ejs; [discriminate|].
  pose proof (occursAt_charAt (c :: sp') input i c sp' Hocc eq_refl) as Hc.
  rewrite Hc. cbn [charStr].
  assert (Hnot : jseqb [c] kScannerConstants.EOF = false).
  { simpl. apply negb_true_iff in Hne. rewrite Hne. reflexivity. }
  rewrite Hnot. rewrite <- Ejs in Hocc |- *. clear Ejs Hne.
  unfold isVariableStart, scanVariable.
  destruct (tryReadVariableName input i) as [name|] eqn:Hv.
  - pose proof (tryReadVariableName_longest _ _ _ _ _ _ Hrow Hsp Hocc Hv) as Hl.
    exists (makeVariableToken name i (i + length name)), (objSet vs name PTrue).
    cbn [start end' makeVariableToken]. split; [reflexivity|]. split; [lia|].
    split; [|reflexivity].
    unfold occursAt. rewrite substring_length; [reflexivity|].
    destruct (tryReadVariableName_Some _ _ _ Hv) as (_ & _ & _ & Hn & _ & Hn1).
    destruct (readVariableChars_prefix (skipn i input)) as (rest & Hrest).
    rewrite <- Hn in Hrest.
    assert (length (skipn i input) = length name + length rest)
      by (rewrite Hrest at 1; apply length_app).
    rewrite length_skipn in H. lia.
  - destruct (tryReadOperator_longest _ _ _ _ _ Hrow Hsp Hocc) as (op & Ho & Hl & Hoo).
    unfold isOperatorStart. rewrite Ho.
    exists (makeIdentityToken op i), vs.
    cbn [start end' makeIdentityToken]. split; [reflexivity|]. split; [lia|].
    split; [|reflexivity].
    unfold occursAt in *. rewrite Hoo. rewrite Hoo. reflexivity.
Qed.



(* ================================================================== *)
(** ** The parser *)
(* ================================================================== *)

Lemma binary_cases : forall t : tok,
  isBinaryOperator t = true ->
  type t = js "<->" \/ type t = js "->" \/ type t = js "/\" \/ type t = js "\/".
Proof.
  intros t H. unfold isBinaryOperator in H.
  rewrite !orb_true_iff in H. rewrite !jseqb_eq in H. tauto.
Qed.

Lemma binary_facts : forall t : tok,
  isBinaryOperator t = true ->
  (exists p, priorityOf t = Return p /\ (0 <= p)%Z)
  /\ (forall l r, exists n, createOperatorNode l t r = Return n)
  /\ type t === "(" = false
  /\ type t === "~" = false
  /\ type t === ")" = false
  /\ isEOF t = false
  /\ isOperand t = false.
Proof.
  intros t H.
  destruct (binary_cases t H) as [E | [E | [E | E]]];
    unfold priorityOf, createOperatorNode, isEOF, isOperand; rewrite E;
    (split; [eexists; split; [reflexivity | lia]|]);
    (split; [intros l r; eexists; reflexivity|]);
    repeat split; reflexivity.
Qed.

Lemma eof_facts : forall t : tok,
  isEOF t = true ->
  priorityOf t = Return (-1)%Z
  /\ isBinaryOperator t = false
  /\ isOperand t = false
  /\ type t === "(" = false
  /\ type t === "~" = false.
Proof.
  intros t H. unfold priorityOf. rewrite H. split; [reflexivity|].
  unfold isEOF in H. apply jseqb_eq in H.
  unfold isBinaryOperator, isOperand. rewrite H. repeat split; reflexivity.
Qed.

Lemma stackToken_binary : forall t : tok,
  stackToken t = true -> type t === "(" = false -> type t === "~" = false ->
  isBinaryOperator t = true.
Proof.
  unfold stackToken. intros t H H1 H2. rewrite H1, H2 in H.
  rewrite !orb_false_r in H. exact H.
Qed.

Lemma stackToken_not_EOF : forall t : tok, stackToken t = true -> isEOF t = false.
Proof.
  intros t H. destruct (isEOF t) eqn:E; [|reflexivity].
  destruct (eof_facts t E) as (_ & H1 & _ & H2 & H3).
  unfold stackToken in H. rewrite H1, H2, H3 in H. discriminate.
Qed.

Lemma countBinary_cons_binary : forall t ops,
  isBinaryOperator t = true -> countBinary (t :: ops) = S (countBinary ops).
Proof. intros t ops H. unfold countBinary. simpl. rewrite H. reflexivity. Qed.

Lemma countBinary_cons_other : forall t ops,
  isBinaryOperator t = false -> countBinary (t :: ops) = countBinary ops.
Proof. intros t ops H. unfold countBinary. simpl. rewrite H. reflexivity. Qed.

Lemma negation_not_binary : forall t : tok,
  type t === "~" = true -> isBinaryOperator t = false.
Proof.
  intros t H. apply jseqb_eq in H. unfold isBinaryOperator. rewrite H. reflexivity.
Qed.

Lemma open_not_binary : forall t : tok,
  type t === "(" = true -> isBinaryOperator t = false.
Proof.
  intros t H. apply jseqb_eq in H. unfold isBinaryOperator. rewrite H. reflexivity.
Qed.

(** [addOperand] pops the negations on top of the operator stack, and
    nothing else, and pushes one operand. *)
Lemma addOperand_spec : forall ops n operands,
  exists n' negations ops',
    addOperand n operands ops = (n' :: operands, ops')
    /\ ops = negations ++ ops'
    /\ Forall (fun t : tok => type t === "~" = true) negations
    /\ topNotNegation ops'.
Proof.
  induction ops as [|top rest IH]; intros n operands; simpl.
  - exists n, [], []. repeat split; constructor.
  - destruct (type top === "~") eqn:E.
    + destruct (IH (negateNode n) operands) as (n' & negs & ops' & H1 & H2 & H3 & H4).
      exists n', (top :: negs), ops'. rewrite H1, H2.
      repeat split; try assumption. constructor; assumption.
    + exists n, [], (top :: rest). repeat split; try constructor. exact E.
Qed.

Lemma countBinary_negations : forall negs ops,
  Forall (fun t : tok => type t === "~" = true) negs ->
  countBinary (negs ++ ops) = countBinary ops.
Proof.
  induction negs as [|t negs IH]; intros ops H; simpl.
  - reflexivity.
  - inversion H; subst. rewrite countBinary_cons_other.
    + apply IH. assumption.
    + apply negation_not_binary. assumption.
Qed.

Section ParserInvariant.

(** A property of the character ranges, such as to lie in the input. *)
Variable R : nat -> nat -> Prop.
Hypothesis R_empty : R 0 0.

Lemma goodStack_app : forall a b, goodStack R (a ++ b) -> goodStack R b.
Proof. intros a b H. apply Forall_app in H. tauto. Qed.

Lemma evaluateHigherPriority_spec : forall currToken,
  isBinaryOperator currToken = true \/ isEOF currToken = true ->
  forall fuel ops operands,
    length ops < fuel ->
    goodStack R ops ->
    topNotNegation ops ->
    length operands = countBinary ops + 1 ->
    exists ops' operands',
      evaluateHigherPriority fuel currToken ops operands = Return (ops', operands')
      /\ goodStack R ops'
      /\ length operands' = countBinary ops' + 1
      /\ (isEOF currToken = true ->
          ops' = [] \/ exists m rest, ops' = m :: rest /\ type m === "(" = true).
Proof.
  intros currToken Hcurr.
  assert (Hpc : exists q, priorityOf currToken = Return q /\ (-1 <= q)%Z
                          /\ (isEOF currToken = true -> q = (-1)%Z)).
  { destruct Hcurr as [Hb | He].
    - destruct (binary_facts _ Hb) as ((p & Hp & Hp0) & _ & _ & _ & _ & He & _).
      exists p. split; [exact Hp|]. split; [lia|]. intro. congruence.
    - destruct (eof_facts _ He) as (Hp & _). exists (-1)%Z.
      split; [exact Hp|]. split; [lia|reflexivity]. }
  destruct Hpc as (q & Hq & Hq1 & HqE).
  induction fuel as [|fuel IH]; intros ops operands Hfuel Hgood Htop Hlen.
  - lia.
  - cbn [evaluateHigherPriority]. destruct ops as [|top rest].
    + exists [], operands. repeat split; try assumption. intros _. left. reflexivity.
    + inversion Hgood as [|? ? [Hst Hg] Hgrest]; subst.
      destruct (type top === "(") eqn:Eopen.
      * exists (top :: rest), operands. repeat split; try assumption.
        intros _. right. exists top, rest. split; [reflexivity | exact Eopen].
      * simpl in Htop.
        pose proof (stackToken_binary _ Hst Eopen Htop) as Hbin.
        destruct (binary_facts _ Hbin) as ((p & Hp & Hp0) & Hcreate & _).
        rewrite Hp. cbn [bind]. rewrite Hq. cbn [bind].
        destruct (p <=? q)%Z eqn:Ecmp.
        -- exists (top :: rest), operands. repeat split; try assumption.
           intro HE. apply HqE in HE. apply Z.leb_le in Ecmp. lia.
        -- rewrite countBinary_cons_binary in Hlen by exact Hbin.
           destruct operands as [|rhs [|lhs operands]]; simpl in Hlen; try lia.
           cbn [popOperand bind].
           destruct (Hcreate lhs rhs) as (n & Hn). rewrite Hn. cbn [bind].
           destruct (addOperand_spec rest n operands)
             as (n' & negs & ops' & Ha & Hsplit & Hnegs & Htop').
           rewrite Ha.
           apply IH.
           ++ simpl in Hfuel. rewrite Hsplit, length_app in Hfuel. lia.
           ++ rewrite Hsplit in Hgrest. eapply goodStack_app. exact Hgrest.
           ++ exact Htop'.
           ++ rewrite Hsplit, countBinary_negations in Hlen by exact Hnegs.
              simpl. lia.
Qed.

Lemma popUntilOpenParenthesis_spec : forall currToken,
  goodToken R currToken ->
  forall fuel ops operands,
    length ops < fuel ->
    goodStack R ops ->
    topNotNegation ops ->
    length operands = countBinary ops + 1 ->
    match popUntilOpenParenthesis fuel currToken ops operands with
    | Return (ops', operands') =>
        goodStack R ops' /\ length operands' = countBinary ops' + 1
    | Throw e => goodError R e
    | Failure _ => False
    end.
Proof.
  intros currToken Hcurr.
  induction fuel as [|fuel IH]; intros ops operands Hfuel Hgood Htop Hlen.
  - lia.
  - cbn [popUntilOpenParenthesis]. destruct ops as [|top rest].
    + unfold parseError, goodError. simpl. split; [exact Hcurr|].
      intro E. vm_compute in E. discriminate.
    + inversion Hgood as [|? ? [Hst Hg] Hgrest]; subst.
      destruct (type top === "(") eqn:Eopen.
      * split; [exact Hgrest|].
        rewrite countBinary_cons_other in Hlen by (apply open_not_binary; exact Eopen).
        exact Hlen.
      * simpl in Htop. rewrite Htop.
        pose proof (stackToken_binary _ Hst Eopen Htop) as Hbin.
        destruct (binary_facts _ Hbin) as (_ & Hcreate & _).
        rewrite countBinary_cons_binary in Hlen by exact Hbin.
        destruct operands as [|rhs [|lhs operands]]; simpl in Hlen; try lia.
        cbn [popOperand bind].
        destruct (Hcreate lhs rhs) as (n & Hn). rewrite Hn. cbn [bind].
        destruct (addOperand_spec rest n operands)
          as (n' & negs & ops' & Ha & Hsplit & Hnegs & Htop').
        rewrite Ha.
        apply IH.
        -- simpl in Hfuel. rewrite Hsplit, length_app in Hfuel. lia.
        -- rewrite Hsplit in Hgrest. eapply goodStack_app. exact Hgrest.
        -- exact Htop'.
        -- rewrite Hsplit, countBinary_negations in Hlen by exact Hnegs.
           simpl. lia.
Qed.

Lemma invariant_initial : invariant R initialState.
Proof.
  unfold invariant, initialState. simpl. split; [constructor|].
  split; [reflexivity | discriminate].
Qed.

Lemma parseToken_spec : forall currToken st,
  invariant R st ->
  (isEOF currToken = false -> goodToken R currToken) ->
  match parseToken currToken st with
  | Return (Continue, st') => invariant R st' /\ isEOF currToken = false
  | Return (Break, st') => atEnd R st' /\ isEOF currToken = true
  | Throw e => goodError R e
  | Failure _ => False
  end.
Proof.
  intros currToken [ops rands need] (Hgood & Hlen & Htop) Hcurr.
  simpl in Hgood, Hlen, Htop. unfold parseToken. cbn [needOperand operators operands].
  destruct need.
  - (* an operand is needed *)
    destruct (isOperand currToken) eqn:Eoperand.
    + assert (Hw : exists n, wrapOperand currToken = Return n).
      { unfold wrapOperand. unfold isOperand in Eoperand.
        destruct (type currToken === "T"); [eexists; reflexivity|].
        destruct (type currToken === "F"); [eexists; reflexivity|].
        destruct (type currToken === "variable"); [eexists; reflexivity|].
        discriminate. }
      destruct Hw as (n & Hn). rewrite Hn. cbn [bind].
      destruct (addOperand_spec ops n rands)
        as (n' & negs & ops' & Ha & Hsplit & Hnegs & Htop').
      rewrite Ha. split.
      * repeat split; simpl.
        -- rewrite Hsplit in Hgood. eapply goodStack_app. exact Hgood.
        -- rewrite Hsplit, countBinary_negations in Hlen by exact Hnegs. lia.
        -- intros _. exact Htop'.
      * destruct (isEOF currToken) eqn:E; [|reflexivity].
        destruct (eof_facts _ E) as (_ & _ & H & _). congruence.
    + destruct ((type currToken === "(") || (type currToken === "~")) eqn:Epush.
      * assert (HnotEOF : isEOF currToken = false).
        { apply stackToken_not_EOF. unfold stackToken.
          rewrite <- orb_assoc, Epush. apply orb_true_r. }
        assert (Hnb : isBinaryOperator currToken = false).
        { apply orb_true_iff in Epush. destruct Epush.
          - apply open_not_binary. assumption.
          - apply negation_not_binary. assumption. }
        split; [|exact HnotEOF]. repeat split; simpl.
        -- constructor; [|exact Hgood]. split.
           ++ unfold stackToken. rewrite <- orb_assoc, Epush. apply orb_true_r.
           ++ apply Hcurr. exact HnotEOF.
        -- rewrite countBinary_cons_other by exact Hnb. exact Hlen.
        -- discriminate.
      * destruct (isEOF currToken) eqn:Eeof.
        -- destruct ops as [|top rest].
           ++ unfold parseError, goodError. simpl. split; [exact R_empty|].
              discriminate.
           ++ cbn [topOf bind]. inversion Hgood as [|? ? [Hst Hg] Hgrest]; subst.
              destruct (type top === "("); unfold parseError, goodError; simpl;
                (split; [exact Hg | intro E; vm_compute in E; discriminate]).
        -- unfold parseError, goodError. simpl. split.
           ++ apply Hcurr. reflexivity.
           ++ intro E; vm_compute in E; discriminate.
  - (* an operator is needed *)
    specialize (Htop eq_refl).
    destruct (isBinaryOperator currToken || isEOF currToken) eqn:Eop.
    + apply orb_true_iff in Eop.
      destruct (evaluateHigherPriority_spec currToken Eop (S (length ops)) ops rands)
        as (ops' & operands' & He & Hg' & Hl' & Hend); try assumption; try lia.
      rewrite He. cbn [bind].
      destruct (isEOF currToken) eqn:Eeof.
      * split; [|reflexivity].
        exists currToken, ops'. simpl. repeat split; try assumption.
        apply Hend. reflexivity.
      * destruct Eop as [Hb|]; [|discriminate].
        split; [|reflexivity]. repeat split; simpl.
        -- constructor; [|exact Hg']. split.
           ++ unfold stackToken. rewrite Hb. reflexivity.
           ++ apply Hcurr. reflexivity.
        -- rewrite countBinary_cons_binary by exact Hb. lia.
        -- discriminate.
    + apply orb_false_iff in Eop. destruct Eop as [Hnb Hne].
      destruct (type currToken === ")") eqn:Eclose.
      * pose proof (popUntilOpenParenthesis_spec currToken (Hcurr Hne)
                      (S (length ops)) ops rands) as Hp.
        destruct (popUntilOpenParenthesis (S (length ops)) currToken ops rands)
          as [[ops' operands']|e|f]; cbn [bind].
        -- destruct Hp as (Hg' & Hl'); try assumption; try lia.
           destruct operands' as [|expr operands']; simpl in Hl'; [lia|].
           cbn [popOperand bind].
           destruct (addOperand_spec ops' expr operands')
             as (n' & negs & ops'' & Ha & Hsplit & Hnegs & Htop').
           rewrite Ha. split; [|exact Hne]. repeat split; simpl.
           ++ rewrite Hsplit in Hg'. eapply goodStack_app. exact Hg'.
           ++ rewrite Hsplit, countBinary_negations in Hl' by exact Hnegs. lia.
           ++ intros _. exact Htop'.
        -- apply Hp; try assumption; lia.
        -- apply Hp; try assumption; lia.
      * unfold parseError, goodError. simpl. split.
        -- apply Hcurr. exact Hne.
        -- intro E; vm_compute in E; discriminate.
Qed.

Lemma parseLoop_spec : forall tokens st,
  invariant R st ->
  Forall (fun t => isEOF t = false -> goodToken R t) tokens ->
  match parseLoop tokens st with
  | Return st' => if existsb isEOF tokens then atEnd R st' else invariant R st'
  | Throw e => goodError R e
  | Failure _ => False
  end.
Proof.
  induction tokens as [|t tokens IH]; intros st Hinv Hall.
  - simpl. exact Hinv.
  - inversion Hall as [|? ? Ht Hrest]; subst.
    cbn [parseLoop existsb].
    pose proof (parseToken_spec t st Hinv Ht) as Hstep.
    destruct (parseToken t st) as [[[|] st']|e|f]; cbn [bind].
    + destruct Hstep as [Hinv' Hne]. rewrite Hne. simpl. apply IH; assumption.
    + destruct Hstep as [Hend He]. rewrite He. simpl. exact Hend.
    + exact Hstep.
    + exact Hstep.
Qed.

Lemma parseTokens_spec : forall tokens vars,
  existsb isEOF tokens = true ->
  Forall (fun t => isEOF t = false -> goodToken R t) tokens ->
  match parseTokens tokens vars with
  | Return pr => variables pr = vars
  | Throw e => goodError R e
  | Failure _ => False
  end.
Proof.
  intros tokens vars Heof Hall. unfold parseTokens.
  pose proof (parseLoop_spec tokens initialState invariant_initial Hall) as Hl.
  rewrite Heof in Hl.
  destruct (parseLoop tokens initialState) as [st|e|f]; cbn [bind];
    [|exact Hl|exact Hl].
  destruct Hl as (top & rest & Hops & Htop & Hgood & Hlen & Hrest).
  rewrite Hops. simpl. rewrite Htop. simpl.
  destruct Hrest as [E | (m & rest' & E & Hm)]; subst rest.
  - destruct (operands st) as [|r operands]; simpl in Hlen; [lia|].
    simpl. reflexivity.
  - rewrite Hm. simpl. inversion Hgood as [|? ? [Hst Hg] Hgrest]; subst.
    unfold parseError, goodError. simpl. split; [exact Hg|].
    intro E; vm_compute in E; discriminate.
Qed.

End ParserInvariant.



(* ------------------------------------------------------------------ *)
(** *** [parse] on every input *)

Lemma existsb_isEOF_last : forall (inner : list tok) last,
  isEOF last = true -> existsb isEOF (inner ++ [last]) = true.
Proof.
  intros inner last H. rewrite existsb_app. simpl. rewrite H.
  rewrite orb_true_r. reflexivity.
Qed.

Lemma parse_outcome : forall input : jsstring,
  match parse input with
  | Return pr => True
  | Throw e => start_ e <= end_ e /\ end_ e <= length input
               /\ description e <> js "Nada é negado por este operador."
  | Failure _ => False
  end.
Proof.
  intro input. unfold parse. pose proof (scan_spec input) as Hs.
  destruct (scan input) as [[tokens vars]|e|f]; cbn [bind fst snd].
  - destruct Hs as (inner & last & Ht & Hinner & Hlast & _). subst tokens.
    pose proof (parseTokens_spec (withinInput (length input))
                  (conj (Nat.le_refl 0) (Nat.le_0_l _))
                  (inner ++ [last]) vars (existsb_isEOF_last inner last Hlast)) as Hp.
    assert (Hall : Forall (fun t => isEOF t = false ->
                                    goodToken (withinInput (length input)) t)
                          (inner ++ [last])).
    { apply Forall_app. split.
      - eapply Forall_impl; [|exact Hinner].
        intros t (H1 & H2 & _) _. split; assumption.
      - constructor; [|constructor]. unfold isEOF. rewrite Hlast. discriminate. }
    specialize (Hp Hall).
    destruct (parseTokens (inner ++ [last]) vars) as [pr|e|f].
    + exact I.
    + destruct Hp as [[H1 H2] H3]. repeat split; assumption.
    + exact Hp.
  - destruct Hs as (H1 & H2 & [Hd | (c & Hd)]); repeat split; try assumption;
      rewrite Hd; intro E; vm_compute in E; discriminate.
  - exact Hs.
Qed.

(* ------------------------------------------------------------------ *)
(** *** The error without a description *)

Lemma popUntilOpenParenthesis_description : forall currToken fuel ops rands e,
  popUntilOpenParenthesis fuel currToken ops rands = Throw e ->
  description e <> [].
Proof.
  intros currToken. induction fuel as [|fuel IH]; intros ops rands e H.
  - discriminate.
  - cbn [popUntilOpenParenthesis] in H. destruct ops as [|top rest].
    + inversion H; subst e. simpl. discriminate.
    + destruct (type top === "("); [discriminate|].
      destruct (type top === "~").
      * inversion H; subst e. simpl. discriminate.
      * destruct rands as [|rhs [|lhs r2]]; cbn [popOperand bind] in H; try discriminate.
        destruct (createOperatorNode lhs top rhs) as [n|e'|?] eqn:Hc; cbn [bind] in H;
          try discriminate.
        -- destruct (addOperand n r2 rest) as [r3 o3]. eapply IH. exact H.
        -- exfalso. unfold createOperatorNode, unreachable in Hc.
           repeat match type of Hc with
                  | (if ?b then _ else _) = _ => destruct b
                  end; discriminate.
Qed.

Lemma evaluateHigherPriority_no_throw : forall currToken fuel ops rands e,
  evaluateHigherPriority fuel currToken ops rands <> Throw e.
Proof.
  intros currToken. induction fuel as [|fuel IH]; intros ops rands e H.
  - discriminate.
  - cbn [evaluateHigherPriority] in H. destruct ops as [|top rest]; [discriminate|].
    destruct (type top === "("); [discriminate|].
    assert (Hp : forall t e', priorityOf t <> Throw e').
    { intros t e' Hc. unfold priorityOf, unreachable in Hc.
      repeat match type of Hc with
             | (if ?b then _ else _) = _ => destruct b
             end; discriminate. }
    destruct (priorityOf top) as [p|e'|?] eqn:E1; cbn [bind] in H;
      [|exact (Hp _ _ E1)|discriminate].
    destruct (priorityOf currToken) as [q|e'|?] eqn:E2; cbn [bind] in H;
      [|exact (Hp _ _ E2)|discriminate].
    destruct (p <=? q)%Z; [discriminate|].
    destruct rands as [|rhs [|lhs r2]]; cbn [popOperand bind] in H; try discriminate.
    destruct (createOperatorNode lhs top rhs) as [n|e'|?] eqn:Hc; cbn [bind] in H;
      try discriminate.
    + destruct (addOperand n r2 rest) as [r3 o3]. eapply IH. exact H.
    + unfold createOperatorNode, unreachable in Hc.
      repeat match type of Hc with
             | (if ?b then _ else _) = _ => destruct b
             end; discriminate.
Qed.

Lemma parseToken_pending : forall t st st',
  parseToken t st = Return (Continue, st') -> pendingOperator st'.
Proof.
  intros t [ops rands need] st' H. unfold parseToken in H.
  cbn [needOperand operators operands] in H.
  destruct need.
  - destruct (isOperand t).
    + destruct (wrapOperand t) as [n|?|?]; cbn [bind] in H; try discriminate.
      destruct (addOperand n rands ops) as [r o]. inversion H; subst st'.
      intro Hn. discriminate.
    + destruct ((type t === "(") || (type t === "~")).
      * inversion H; subst st'. intros _. discriminate.
      * destruct (isEOF t).
        -- destruct ops; [discriminate|]. cbn [topOf bind] in H.
           destruct (type t0 === "("); discriminate.
        -- discriminate.
  - destruct (isBinaryOperator t || isEOF t).
    + destruct (evaluateHigherPriority (S (length ops)) t ops rands)
        as [[o r]|?|?]; cbn [bind] in H; try discriminate.
      inversion H; subst st'. intros _. discriminate.
    + destruct (type t === ")").
      * destruct (popUntilOpenParenthesis (S (length ops)) t ops rands)
          as [[o r]|?|?]; cbn [bind] in H; try discriminate.
        destruct (popOperand r) as [[x r']|?|?]; cbn [bind] in H; try discriminate.
        destruct (addOperand x r' o) as [r'' o'']. inversion H; subst st'.
        intro Hn. discriminate.
      * discriminate.
Qed.

Lemma parseToken_empty_description : forall t st e,
  parseToken t st = Throw e -> description e = [] ->
  needOperand st = true /\ operators st = [] /\ isEOF t = true.
Proof.
  intros t [ops rands need] e H Hd. unfold parseToken in H.
  cbn [needOperand operators operands] in H.
  destruct need.
  - destruct (isOperand t) eqn:Eo.
    + exfalso. unfold wrapOperand, unreachable, isOperand in *.
      destruct (type t === "T"); [cbn [bind] in H;
        destruct (addOperand trueNode rands ops); discriminate|].
      destruct (type t === "F"); [cbn [bind] in H;
        destruct (addOperand falseNode rands ops); discriminate|].
      destruct (type t === "variable"); [|discriminate].
      cbn [bind] in H.
      destruct (addOperand _ rands ops); discriminate.
    + destruct ((type t === "(") || (type t === "~")); [discriminate|].
      destruct (isEOF t).
      * destruct ops as [|top rest]; [repeat split|].
        exfalso. cbn [topOf bind] in H.
        destruct (type top === "("); inversion H; subst e; discriminate.
      * exfalso. inversion H; subst e. discriminate.
  - exfalso. destruct (isBinaryOperator t || isEOF t).
    + destruct (evaluateHigherPriority (S (length ops)) t ops rands)
        as [[o r]|e'|?] eqn:E; cbn [bind] in H; try discriminate.
      exact (evaluateHigherPriority_no_throw _ _ _ _ _ E).
    + destruct (type t === ")").
      * destruct (popUntilOpenParenthesis (S (length ops)) t ops rands)
          as [[o r]|e'|?] eqn:E; cbn [bind] in H; try discriminate.
        -- destruct r as [|x r']; cbn [popOperand bind] in H; try discriminate.
           destruct (addOperand x r' o); discriminate.
        -- inversion H; subst e'.
           exact (popUntilOpenParenthesis_description _ _ _ _ _ E Hd).
      * inversion H; subst e. discriminate.
Qed.

Lemma parseLoop_pending_description : forall tokens st e,
  pendingOperator st ->
  parseLoop tokens st = Throw e -> description e <> [].
Proof.
  induction tokens as [|t tokens IH]; intros st e Hp H Hd.
  - discriminate.
  - cbn [parseLoop] in H.
    destruct (parseToken t st) as [[[|] st']|e'|?] eqn:E; cbn [bind] in H;
      try discriminate.
    + eapply IH; [|exact H|exact Hd]. eapply parseToken_pending. exact E.
    + inversion H; subst e'.
      destruct (parseToken_empty_description _ _ _ E Hd) as (H1 & H2 & _).
      apply (Hp H1 H2).
Qed.

Lemma parseTokens_empty_description : forall tokens vars e,
  parseTokens tokens vars = Throw e -> description e = [] ->
  exists t rest, tokens = t :: rest /\ isEOF t = true.
Proof.
  intros tokens vars e H Hd. unfold parseTokens in H.
  destruct (parseLoop tokens initialState) as [st|e'|?] eqn:El; cbn [bind] in H;
    try discriminate.
  - exfalso. unfold assert in H.
    destruct (negb (length (operators st) =? 0)); cbn [bind] in H; [|discriminate].
    destruct (operators st) as [|top rest]; [discriminate|].
    destruct (isEOF top); cbn [bind] in H; [|discriminate].
    destruct rest as [|m rest].
    + destruct (operands st); discriminate.
    + destruct (type m === "("); cbn [bind] in H; [|discriminate].
      inversion H; subst e. discriminate.
  - inversion H; subst e'. destruct tokens as [|t tokens]; [discriminate|].
    cbn [parseLoop] in El.
    destruct (parseToken t initialState) as [[[|] st']|e'|?] eqn:E; cbn [bind] in El;
      try discriminate.
    + exfalso. eapply parseLoop_pending_description; [|exact El|exact Hd].
      eapply parseToken_pending. exact E.
    + inversion El; subst e'.
      destruct (parseToken_empty_description _ _ _ E Hd) as (_ & _ & H3).
      exists t, tokens. split; [reflexivity | exact H3].
Qed.

Lemma parse_empty_description : forall (input : jsstring) e,
  parse input = Throw e -> description e = [] ->
  forallb isWhitespaceChar input = true.
Proof.
  intros input e H Hd. unfold parse in H. pose proof (scan_spec input) as Hs.
  destruct (scan input) as [[tokens vars]|e'|?]; cbn [bind fst snd] in H.
  - destruct Hs as (inner & last & Ht & Hinner & Hlast & Hws).
    destruct (parseTokens_empty_description _ _ _ H Hd) as (t & rest & Et & Heof).
    apply Hws. destruct inner as [|t' inner]; [reflexivity|]. exfalso.
    subst tokens. inversion Et; subst t'.
    inversion Hinner as [|? ? (_ & _ & Hne) _]; subst.
    unfold isEOF in Heof. congruence.
  - inversion H; subst e'. exfalso.
    destruct Hs as (_ & _ & [Hdesc | (c & Hdesc)]); rewrite Hdesc in Hd.
    + vm_compute in Hd. discriminate.
    + apply (f_equal (@length _)) in Hd. rewrite !length_app in Hd.
      vm_compute (length (js "O carácter ")) in Hd. simpl in Hd. lia.
  - discriminate.
Qed.

Lemma parse_whitespace : forall input : jsstring,
  forallb isWhitespaceChar input = true ->
  parse input = Throw {| description := []; start_ := 0; end_ := 0 |}.
Proof.
  intros input H. unfold parse. rewrite (scan_whitespace input H). reflexivity.
Qed.



(* ------------------------------------------------------------------ *)
(** *** Chains of one connective *)

Lemma connective_facts : forall opType mk,
  In (opType, mk) connectives ->
  exists p, (0 <= p)%Z /\
    forall t : tok, type t = js opType ->
      priorityOf t = Return p
      /\ (forall l r, createOperatorNode l t r = Return (mk l r))
      /\ isBinaryOperator t = true
      /\ type t === "(" = false
      /\ type t === "~" = false
      /\ isEOF t = false.
Proof.
  intros opType mk Hin. simpl in Hin.
  destruct Hin as [E | [E | [E | [E | []]]]]; inversion E; subst;
    [exists 3%Z | exists 2%Z | exists 1%Z | exists 0%Z];
    (split; [lia|]); intros t Ht;
    unfold priorityOf, createOperatorNode, isBinaryOperator, isEOF; rewrite Ht;
    repeat split; reflexivity.
Qed.

Lemma wrapOperand_isOperand : forall t n,
  wrapOperand t = Return n -> isOperand t = true.
Proof.
  unfold wrapOperand, isOperand, unreachable. intros t n H.
  destruct (type t === "T"); [reflexivity|].
  destruct (type t === "F"); [reflexivity|].
  destruct (type t === "variable"); [reflexivity | discriminate].
Qed.

Section Chain.

Variable opType : string.
Variable mk : node -> node -> node.
Hypothesis Hconn : In (opType, mk) connectives.

Lemma addOperand_pending : forall ops n rands,
  pendingSame opType ops -> addOperand n rands ops = (n :: rands, ops).
Proof.
  intros ops n rands H. destruct ops as [|top rest]; [reflexivity|].
  inversion H; subst. destruct (connective_facts _ _ Hconn) as (p & _ & Hf).
  destruct (Hf top H2) as (_ & _ & _ & _ & Hneg & _).
  simpl. rewrite Hneg. reflexivity.
Qed.

Lemma evaluateHigherPriority_same : forall o ops rands fuel,
  type o = js opType -> pendingSame opType ops ->
  evaluateHigherPriority (S fuel) o ops rands = Return (ops, rands).
Proof.
  intros o ops rands fuel Ho H. destruct ops as [|top rest]; [reflexivity|].
  inversion H; subst. destruct (connective_facts _ _ Hconn) as (p & _ & Hf).
  destruct (Hf top H2) as (Hp & _ & _ & Hopen & _).
  destruct (Hf o Ho) as (Hq & _).
  cbn [evaluateHigherPriority]. rewrite Hopen, Hp. cbn [bind]. rewrite Hq. cbn [bind].
  rewrite Z.leb_refl. reflexivity.
Qed.

Lemma evaluateHigherPriority_collapse : forall eof,
  isEOF eof = true ->
  forall ops top below fuel,
    pendingSame opType ops -> length below = length ops -> length ops < fuel ->
    evaluateHigherPriority fuel eof ops (top :: below)
    = Return ([], [fold_left (fun acc l => mk l acc) below top]).
Proof.
  intros eof Heof. destruct (eof_facts eof Heof) as (Hq & _).
  destruct (connective_facts _ _ Hconn) as (p & Hp0 & Hf).
  induction ops as [|o ops IH]; intros top below fuel Hpend Hlen Hfuel;
    (destruct fuel as [|fuel]; [simpl in Hfuel; lia|]).
  - destruct below; [reflexivity | discriminate].
  - destruct below as [|l below]; [discriminate|].
    inversion Hpend; subst.
    destruct (Hf o H1) as (Hp & Hmk & _ & Hopen & _).
    cbn [evaluateHigherPriority]. rewrite Hopen, Hp. cbn [bind]. rewrite Hq. cbn [bind].
    destruct (p <=? -1)%Z eqn:E; [apply Z.leb_le in E; lia|].
    cbn [popOperand bind]. rewrite Hmk. cbn [bind].
    rewrite addOperand_pending by assumption.
    rewrite IH; [reflexivity | assumption | simpl in Hlen; lia | simpl in Hfuel; lia].
Qed.

Lemma parseLoop_chain : forall eof,
  isEOF eof = true ->
  forall rest nodes ops top below,
    Forall2 (fun (p : tok * tok) ny =>
               type (fst p) = js opType /\ wrapOperand (snd p) = Return ny)
            rest nodes ->
    pendingSame opType ops -> length below = length ops ->
    parseLoop (flat_map (fun p => [fst p; snd p]) rest ++ [eof])
              (mkState ops (top :: below) false)
    = Return (mkState [eof]
                      [fold_left (fun acc l => mk l acc) below
                                 (rightNested mk top nodes)]
                      true).
Proof.
  intros eof Heof. destruct (eof_facts eof Heof) as (_ & Hnb & _).
  induction rest as [|[o y] rest IH]; intros nodes ops top below Hall Hpend Hlen;
    inversion Hall; subst.
  - cbn [flat_map app parseLoop]. unfold parseToken.
    cbn [needOperand operators operands]. rewrite Heof, orb_true_r.
    rewrite (evaluateHigherPriority_collapse eof Heof) by (try assumption; lia).
    reflexivity.
  - destruct H1 as [Ho Hy]. simpl in Ho, Hy.
    destruct (connective_facts _ _ Hconn) as (p & _ & Hf).
    destruct (Hf o Ho) as (_ & _ & Hbin & _ & _ & Hne).
    cbn [flat_map app fst snd parseLoop]. unfold parseToken at 1.
    cbn [needOperand operators operands]. rewrite Hbin. cbn [orb].
    rewrite evaluateHigherPriority_same by assumption.
    cbn [bind]. rewrite Hne.
    unfold parseToken at 1. cbn [needOperand operators operands].
    rewrite (wrapOperand_isOperand _ _ Hy), Hy. cbn [bind].
    rewrite addOperand_pending by (constructor; assumption). cbn [bind].
    rewrite (IH l' (o :: ops) y0 (top :: below)); try assumption.
    + reflexivity.
    + constructor; assumption.
    + simpl. lia.
Qed.

Lemma parseTokens_chain : forall first n rest nodes eof vars,
  wrapOperand first = Return n ->
  Forall2 (fun (p : tok * tok) ny =>
             type (fst p) = js opType /\ wrapOperand (snd p) = Return ny)
          rest nodes ->
  isEOF eof = true ->
  parseTokens (chain first rest eof) vars
  = Return {| ast := rightNested mk n nodes; variables := vars |}.
Proof.
  intros first n rest nodes eof vars Hfirst Hall Heof.
  unfold parseTokens, chain. cbn [parseLoop]. unfold parseToken at 1.
  cbn [needOperand operators operands initialState].
  rewrite (wrapOperand_isOperand _ _ Hfirst), Hfirst. cbn [bind addOperand].
  rewrite (parseLoop_chain eof Heof rest nodes [] n []); try assumption.
  - cbn [bind operators operands length Nat.eqb negb assert]. rewrite Heof.
    reflexivity.
  - constructor.
  - reflexivity.
Qed.

End Chain.

Lemma reachable_topNotNegation : forall st,
  reachable st -> needOperand st = false -> topNotNegation (operators st).
Proof.
  intros st Hr Hn. destruct Hr as [|st t st' _ Hstep]; [discriminate|].
  destruct st as [ops rands need]. unfold parseToken in Hstep.
  cbn [needOperand operators operands] in Hstep.
  destruct need.
  - destruct (isOperand t).
    + destruct (wrapOperand t) as [n|?|?]; cbn [bind] in Hstep; try discriminate.
      destruct (addOperand_spec ops n rands) as (n' & negs & ops' & Ha & _ & _ & Htop).
      rewrite Ha in Hstep. inversion Hstep; subst st'. exact Htop.
    + destruct ((type t === "(") || (type t === "~")).
      * inversion Hstep; subst st'. discriminate.
      * destruct (isEOF t).
        -- destruct ops; [discriminate|]. cbn [topOf bind] in Hstep.
           destruct (type t0 === "("); discriminate.
        -- discriminate.
  - destruct (isBinaryOperator t || isEOF t).
    + destruct (evaluateHigherPriority (S (length ops)) t ops rands)
        as [[o r]|?|?]; cbn [bind] in Hstep; try discriminate.
      inversion Hstep; subst st'. discriminate.
    + destruct (type t === ")").
      * destruct (popUntilOpenParenthesis (S (length ops)) t ops rands)
          as [[o r]|?|?]; cbn [bind] in Hstep; try discriminate.
        destruct r as [|x r']; cbn [popOperand bind] in Hstep; try discriminate.
        destruct (addOperand_spec o x r') as (n' & negs & ops' & Ha & _ & _ & Htop).
        rewrite Ha in Hstep. inversion Hstep; subst st'. exact Htop.
      * discriminate.
Qed.



(* ================================================================== *)
(** ** The variable table *)
(* ================================================================== *)

(* ------------------------------------------------------------------ *)
(** *** The order of the names *)

Lemma jsltb_irrefl : forall a, jsltb a a = false.
Proof.
  induction a as [|x a IH]; simpl; [reflexivity|].
  rewrite N.ltb_irrefl, N.eqb_refl, IH. reflexivity.
Qed.

Lemma jsltb_cons : forall x a y b,
  jsltb (x :: a) (y :: b) = true <-> (x < y)%N \/ (x = y /\ jsltb a b = true).
Proof.
  intros. simpl. rewrite orb_true_iff, andb_true_iff, N.ltb_lt, N.eqb_eq. tauto.
Qed.

Lemma jsltb_trans : forall a b c,
  jsltb a b = true -> jsltb b c = true -> jsltb a c = true.
Proof.
  induction a as [|x a IH]; intros [|y b] [|z c] H1 H2; try discriminate;
    try reflexivity.
  apply jsltb_cons in H1. apply jsltb_cons in H2. apply jsltb_cons.
  destruct H1 as [H1 | [E1 H1]]; destruct H2 as [H2 | [E2 H2]]; subst.
  - left. lia.
  - left. exact H1.
  - left. exact H2.
  - right. split; [reflexivity|]. eapply IH; eassumption.
Qed.

Lemma jsltb_total : forall a b,
  jsltb a b = false -> jsltb b a = false -> a = b.
Proof.
  induction a as [|x a IH]; intros [|y b] H1 H2; try discriminate;
    try reflexivity.
  simpl in H1, H2.
  apply orb_false_iff in H1. destruct H1 as [H1 H1'].
  apply orb_false_iff in H2. destruct H2 as [H2 H2'].
  apply N.ltb_ge in H1. apply N.ltb_ge in H2.
  assert (x = y) by lia. subst y.
  rewrite N.eqb_refl in H1', H2'. simpl in H1', H2'.
  f_equal. apply IH; assumption.
Qed.

Lemma jsleb_trans : forall a b c,
  jsleb a b = true -> jsleb b c = true -> jsleb a c = true.
Proof.
  unfold jsleb. intros a b c H1 H2.
  apply negb_true_iff in H1. apply negb_true_iff in H2. apply negb_true_iff.
  destruct (jsltb c a) eqn:Hca; [exfalso|reflexivity].
  destruct (jsltb a b) eqn:Hab.
  - rewrite (jsltb_trans c a b Hca Hab) in H2. discriminate.
  - rewrite (jsltb_total a b Hab H1) in Hca. congruence.
Qed.

Lemma jsleb_total : forall a b, jsleb a b = false -> jsleb b a = true.
Proof.
  unfold jsleb. intros a b H. apply negb_false_iff in H.
  apply negb_true_iff. destruct (jsltb a b) eqn:E; [|reflexivity].
  pose proof (jsltb_trans a b a E H) as Haa. rewrite jsltb_irrefl in Haa.
  discriminate.
Qed.

Lemma insertSorted_perm : forall x l, Permutation (insertSorted x l) (x :: l).
Proof.
  induction l as [|y l IH]; simpl.
  - apply Permutation_refl.
  - destruct (jsleb x y).
    + apply Permutation_refl.
    + eapply perm_trans; [apply perm_skip; exact IH | apply perm_swap].
Qed.

Lemma sort_perm : forall l, Permutation (sort l) l.
Proof.
  induction l as [|x l IH]; simpl.
  - apply perm_nil.
  - eapply perm_trans; [apply insertSorted_perm | apply perm_skip; exact IH].
Qed.

Lemma insertSorted_sorted : forall x l,
  StronglySorted (fun a b => jsleb a b = true) l ->
  StronglySorted (fun a b => jsleb a b = true) (insertSorted x l).
Proof.
  induction l as [|y l IH]; intro H; simpl.
  - constructor; constructor.
  - inversion H as [|? ? Hl Hy]; subst.
    destruct (jsleb x y) eqn:E.
    + constructor; [exact H|]. constructor; [exact E|].
      eapply Forall_impl; [|exact Hy]. intros z Hz. simpl in Hz.
      eapply jsleb_trans; eassumption.
    + constructor; [apply IH; exact Hl|].
      apply jsleb_total in E.
      eapply Permutation_Forall; [apply Permutation_sym, insertSorted_perm|].
      constructor; assumption.
Qed.

Lemma sort_sorted : forall l, StronglySorted (fun a b => jsleb a b = true) (sort l).
Proof.
  induction l as [|x l IH]; simpl.
  - constructor.
  - apply insertSorted_sorted. exact IH.
Qed.

(** Sorted names that are pairwise different are strictly sorted. *)
Lemma sorted_strict : forall l,
  NoDup l ->
  StronglySorted (fun a b => jsleb a b = true) l ->
  StronglySorted (fun a b => jsltb a b = true) l.
Proof.
  induction l as [|x l IH]; intros Hnd Hs.
  - constructor.
  - inversion Hnd; subst. inversion Hs as [|? ? Hl Hx]; subst.
    constructor; [apply IH; assumption|].
    rewrite Forall_forall in *. intros y Hy. specialize (Hx y Hy). simpl in Hx.
    unfold jsleb in Hx. apply negb_true_iff in Hx.
    destruct (jsltb x y) eqn:E; [reflexivity|].
    pose proof (jsltb_total x y E Hx). subst y. contradiction.
Qed.

(* ------------------------------------------------------------------ *)
(** *** The variable set *)

Lemma jseqb_sym : forall a b, jseqb a b = jseqb b a.
Proof.
  intros a b. destruct (jseqb a b) eqn:E.
  - apply jseqb_eq in E. subst. symmetry. apply jseqb_refl.
  - symmetry. apply jseqb_neq. apply jseqb_neq in E. congruence.
Qed.

Lemma objUpdate_keys : forall o k v,
  forIn (objUpdate o k v) = if existsb (jseqb k) (forIn o) then forIn o
                            else forIn o ++ [k].
Proof.
  unfold forIn. induction o as [|[k' v'] o IH]; intros k v; simpl.
  - reflexivity.
  - rewrite (jseqb_sym k k'). destruct (jseqb k' k); simpl.
    + reflexivity.
    + rewrite IH. destruct (existsb (jseqb k) (map fst o)); reflexivity.
Qed.

Lemma existsb_jseqb_In : forall k l, existsb (jseqb k) l = true <-> In k l.
Proof.
  intros k l. rewrite existsb_exists. split.
  - intros (x & Hx & E). apply jseqb_eq in E. subst. exact Hx.
  - intro H. exists k. split; [exact H | apply jseqb_refl].
Qed.

Lemma objUpdate_In : forall o k v k',
  In k' (forIn (objUpdate o k v)) <-> k' = k \/ In k' (forIn o).
Proof.
  intros o k v k'. rewrite objUpdate_keys.
  destruct (existsb (jseqb k) (forIn o)) eqn:E.
  - apply existsb_jseqb_In in E. split; [tauto|]. intros [H|H]; subst; assumption.
  - rewrite in_app_iff. simpl. split; intros [H|H]; try tauto.
    + destruct H as [H|[]]. left. congruence.
    + right. left. congruence.
Qed.

Lemma objUpdate_NoDup : forall o k v,
  NoDup (forIn o) -> NoDup (forIn (objUpdate o k v)).
Proof.
  intros o k v H. rewrite objUpdate_keys.
  destruct (existsb (jseqb k) (forIn o)) eqn:E; [exact H|].
  apply NoDup_app; [exact H | constructor; [intros []|constructor] |].
  intros x Hx [Hk|[]]. subst x.
  apply existsb_jseqb_In in Hx. congruence.
Qed.

Lemma objUpdate_same : forall o k v, ownProperty (objUpdate o k v) k = Some v.
Proof.
  induction o as [|[k' v'] o IH]; intros k v; simpl.
  - rewrite jseqb_refl. reflexivity.
  - destruct (jseqb k' k) eqn:E; simpl; rewrite E; [reflexivity | apply IH].
Qed.

Lemma objUpdate_other : forall o k v k',
  k' <> k -> ownProperty (objUpdate o k v) k' = ownProperty o k'.
Proof.
  induction o as [|[k0 v0] o IH]; intros k v k' Hne; simpl.
  - destruct (jseqb k k') eqn:E; [|reflexivity].
    apply jseqb_eq in E. congruence.
  - destruct (jseqb k0 k) eqn:E; simpl.
    + apply jseqb_eq in E. subst k0.
      destruct (jseqb k k') eqn:E'; [|reflexivity].
      apply jseqb_eq in E'. congruence.
    + rewrite IH by exact Hne. reflexivity.
Qed.

Lemma ownProperty_None : forall o k, ~ In k (forIn o) -> ownProperty o k = None.
Proof.
  unfold forIn. induction o as [|[k' v'] o IH]; intros k H; simpl in *.
  - reflexivity.
  - destruct (jseqb k' k) eqn:E.
    + apply jseqb_eq in E. tauto.
    + apply IH. tauto.
Qed.

Lemma objSet_OK : forall o k v, variableSetOK o -> variableSetOK (objSet o k v).
Proof.
  intros o k v [H1 H2]. unfold objSet.
  destruct (k === "__proto__") eqn:E; [split; assumption|].
  split; [apply objUpdate_NoDup; exact H1|].
  rewrite objUpdate_In. intros [H|H]; [|contradiction].
  rewrite <- H in E. rewrite jseqb_refl in E. discriminate.
Qed.

Lemma objSet_In : forall o k v k',
  In k' (forIn o) -> In k' (forIn (objSet o k v)).
Proof.
  intros o k v k' H. unfold objSet. destruct (k === "__proto__"); [exact H|].
  apply objUpdate_In. right. exact H.
Qed.

Lemma objSet_added : forall o k v,
  k <> js "__proto__" -> In k (forIn (objSet o k v)).
Proof.
  intros o k v H. unfold objSet.
  destruct (k === "__proto__") eqn:E; [apply jseqb_eq in E; contradiction|].
  apply objUpdate_In. left. reflexivity.
Qed.

Lemma objSet_keys_of_present : forall o k v,
  In k (forIn o) -> forIn (objSet o k v) = forIn o.
Proof.
  intros o k v H. unfold objSet. destruct (k === "__proto__"); [reflexivity|].
  rewrite objUpdate_keys. apply existsb_jseqb_In in H. rewrite H. reflexivity.
Qed.

Lemma invertVariables_keys : forall vars i o,
  (forall v, In v vars -> In v (forIn o)) ->
  forIn (invertVariables vars i o) = forIn o.
Proof.
  induction vars as [|v vars IH]; intros i o H; simpl.
  - reflexivity.
  - rewrite IH.
    + apply objSet_keys_of_present. apply H. left. reflexivity.
    + intros x Hx. apply objSet_In. apply H. right. exact Hx.
Qed.

Lemma invertVariables_other : forall vars i o k,
  ~ In k vars ->
  ownProperty (invertVariables vars i o) k = ownProperty o k.
Proof.
  induction vars as [|v vars IH]; intros i o k H; simpl.
  - reflexivity.
  - rewrite IH by (simpl in H; tauto). unfold objSet.
    destruct (v === "__proto__"); [reflexivity|].
    apply objUpdate_other. simpl in H. intro E. subst. tauto.
Qed.

(** After the loop over the sorted names, the variable set holds for
    every name its position. *)
Lemma invertVariables_position : forall vars i o j name,
  NoDup vars ->
  ~ In (js "__proto__") vars ->
  nth_error vars j = Some name ->
  ownProperty (invertVariables vars i o) name = Some (PNum (i + j)).
Proof.
  induction vars as [|v vars IH]; intros i o j name Hnd Hp Hn.
  - destruct j; discriminate.
  - inversion Hnd; subst. simpl. destruct j as [|j]; simpl in Hn.
    + inversion Hn; subst v. rewrite invertVariables_other by assumption.
      unfold objSet.
      destruct (name === "__proto__") eqn:E.
      * apply jseqb_eq in E. exfalso. apply Hp. left. exact E.
      * rewrite Nat.add_0_r. apply objUpdate_same.
    + rewrite (IH (i + 1) _ j name); try assumption.
      * f_equal. f_equal. lia.
      * intro H. apply Hp. right. exact H.
Qed.



(* ------------------------------------------------------------------ *)
(** *** The names of the variable tokens *)

Lemma tryReadOperator_type : forall (input : jsstring) i op,
  tryReadOperator input i = Some op -> translate op === "variable" = false.
Proof.
  intros input i op H. unfold tryReadOperator in H.
  destruct (firstCase operatorSpellings input i) as [r|] eqn:Hf.
  - inversion H; subst r.
    destruct (firstCase_Some _ _ _ _ Hf) as (n & sps & s & Hin & Hs & Hop & _).
    pose proof (spelling_in_table _ _ _ Hin Hs) as Hok. unfold spellingOK in Hok.
    rewrite !andb_true_iff in Hok. destruct Hok as [_ Hvar].
    apply negb_true_iff in Hvar. rewrite Hop. exact Hvar.
  - unfold singleCharCase in H.
    destruct (charAt input i) as [c|]; [|discriminate].
    destruct (isSingleCharOperator c) eqn:Hs; [|discriminate].
    inversion H; subst op. apply (singleChar_translate _ Hs).
Qed.

Lemma namedIn_objSet : forall vs k v t, namedIn vs t -> namedIn (objSet vs k v) t.
Proof.
  intros vs k v t H Ht. destruct (H Ht) as (name & Hn & [Hp | Hin]).
  - exists name. split; [exact Hn | left; exact Hp].
  - exists name. split; [exact Hn | right; apply objSet_In; exact Hin].
Qed.

Lemma preliminaryScanLoop_names : forall fuel input i vs toks toks' vs',
  variableSetOK vs -> Forall (namedIn vs) toks ->
  preliminaryScanLoop fuel input i vs toks = Return (toks', vs') ->
  variableSetOK vs' /\ Forall (namedIn vs') toks'.
Proof.
  induction fuel as [|fuel IH]; intros input i vs toks toks' vs' Hok Hall H.
  - discriminate.
  - cbn [preliminaryScanLoop] in H.
    destruct (jseqb (charStr (charAt input i)) kScannerConstants.EOF) eqn:Eeof.
    + inversion H; subst toks' vs'. split; [exact Hok|].
      apply Forall_app. split; [exact Hall|]. constructor; [|constructor].
      intro Ht. exfalso. apply jseqb_eq in Eeof.
      cbn [type makeIdentityToken] in Ht. rewrite Eeof in Ht. discriminate.
    + unfold isVariableStart, scanVariable in H.
      destruct (tryReadVariableName input i) as [name|] eqn:Hv.
      * apply IH in H; [exact H | apply objSet_OK; exact Hok |].
        apply Forall_app. split.
        -- eapply Forall_impl; [|exact Hall]. intros t. apply namedIn_objSet.
        -- constructor; [|constructor]. intros _. exists name.
           split; [reflexivity|].
           destruct (jseqb name (js "__proto__")) eqn:E.
           ++ left. apply jseqb_eq. exact E.
           ++ right. apply objSet_added. apply jseqb_neq. exact E.
      * unfold isOperatorStart in H.
        destruct (tryReadOperator input i) as [op|] eqn:Ho.
        -- apply IH in H; [exact H | exact Hok |].
           apply Forall_app. split; [exact Hall|]. constructor; [|constructor].
           intro Ht. cbn [type makeIdentityToken] in Ht.
           rewrite (tryReadOperator_type _ _ _ Ho) in Ht. discriminate.
        -- destruct (isWhitespace (charAt input i)).
           ++ apply IH in H; assumption.
           ++ discriminate.
Qed.

Lemma sorted_names : forall vs,
  variableSetOK vs ->
  NoDup (sort (forIn vs)) /\ ~ In (js "__proto__") (sort (forIn vs)).
Proof.
  intros vs [H1 H2]. split.
  - eapply Permutation_NoDup; [apply Permutation_sym, sort_perm | exact H1].
  - intro H. apply H2. eapply Permutation_in; [apply sort_perm | exact H].
Qed.

Lemma renumberToken_numbered : forall vs t,
  variableSetOK vs -> namedIn vs t ->
  type t === "variable" = true ->
  exists name v,
    index t = Some name
    /\ index (renumberToken (invertVariables (sort (forIn vs)) 0 vs) t) = Some v
    /\ ((name = js "__proto__" /\ v = PObjectPrototype)
        \/ exists j, v = PNum j /\ nth_error (sort (forIn vs)) j = Some name).
Proof.
  intros vs t Hok Hnamed Ht.
  destruct (sorted_names vs Hok) as [Hnd Hnp]. destruct Hok as [Hk Hp].
  destruct (Hnamed Ht) as (name & Hn & Hcase).
  unfold renumberToken. rewrite Ht, Hn. cbn [index].
  exists name. eexists. split; [reflexivity|]. split; [reflexivity|].
  unfold objGet.
  destruct (jseqb name (js "__proto__")) eqn:E.
  - apply jseqb_eq in E. subst name. left. split; [reflexivity|].
    rewrite invertVariables_other by exact Hnp.
    rewrite ownProperty_None by exact Hp. reflexivity.
  - destruct Hcase as [Hc | Hin]; [subst name; rewrite jseqb_refl in E; discriminate|].
    assert (Hin' : In name (sort (forIn vs)))
      by (eapply Permutation_in; [apply Permutation_sym, sort_perm | exact Hin]).
    destruct (In_nth_error _ _ Hin') as (j & Hj).
    right. exists j. split; [|exact Hj].
    rewrite (invertVariables_position _ 0 vs j name Hnd Hnp Hj). reflexivity.
Qed.

Lemma numberVariables_numbered : forall toks vs,
  variableSetOK vs -> Forall (namedIn vs) toks ->
  Forall (numbered (snd (numberVariables (toks, vs))))
         (fst (numberVariables (toks, vs))).
Proof.
  intros toks vs Hok Hall. cbn [numberVariables fst snd].
  apply Forall_map. eapply Forall_impl; [|exact Hall].
  intros t Hnamed Ht.
  destruct (renumberToken_fields (invertVariables (sort (forIn vs)) 0 vs) t)
    as (E1 & _). rewrite E1 in Ht.
  destruct (renumberToken_numbered vs t Hok Hnamed Ht)
    as (name & v & _ & Hv & [[_ Hp] | (j & Hj & Hnth)]).
  - exists v. split; [exact Hv | left; exact Hp].
  - exists v. split; [exact Hv|]. right. exists j. split; [exact Hj|].
    apply nth_error_Some. congruence.
Qed.

(* ------------------------------------------------------------------ *)
(** *** The nodes the parser builds *)

Section Nodes.

(** A property of nodes that every connective preserves. *)
Variable Q : node -> Prop.
Hypothesis Q_true : Q trueNode.
Hypothesis Q_false : Q falseNode.
Hypothesis Q_negate : forall u, Q u -> Q (negateNode u).
Hypothesis Q_and : forall l r, Q l -> Q r -> Q (andNode l r).
Hypothesis Q_or : forall l r, Q l -> Q r -> Q (orNode l r).
Hypothesis Q_implies : forall l r, Q l -> Q r -> Q (impliesNode l r).
Hypothesis Q_iff : forall l r, Q l -> Q r -> Q (iffNode l r).

Lemma addOperand_nodes : forall ops n rands,
  Q n -> Forall Q rands -> Forall Q (fst (addOperand n rands ops)).
Proof.
  induction ops as [|top rest IH]; intros n rands Hn Hr; simpl.
  - constructor; assumption.
  - destruct (type top === "~").
    + apply IH; [apply Q_negate; exact Hn | exact Hr].
    + constructor; assumption.
Qed.

Lemma createOperatorNode_nodes : forall l t r n,
  createOperatorNode l t r = Return n -> Q l -> Q r -> Q n.
Proof.
  unfold createOperatorNode, unreachable. intros l t r n H Hl Hr.
  repeat match type of H with
         | (if ?b then _ else _) = _ => destruct b
         end; inversion H; subst; auto.
Qed.

Lemma evaluateHigherPriority_nodes : forall currToken fuel ops rands ops' rands',
  Forall Q rands ->
  evaluateHigherPriority fuel currToken ops rands = Return (ops', rands') ->
  Forall Q rands'.
Proof.
  intros currToken. induction fuel as [|fuel IH]; intros ops rands ops' rands' Hr H.
  - discriminate.
  - cbn [evaluateHigherPriority] in H. destruct ops as [|top rest].
    + inversion H; subst. exact Hr.
    + destruct (type top === "("); [inversion H; subst; exact Hr|].
      destruct (priorityOf top) as [p|?|?]; cbn [bind] in H; try discriminate.
      destruct (priorityOf currToken) as [q|?|?]; cbn [bind] in H; try discriminate.
      destruct (p <=? q)%Z; [inversion H; subst; exact Hr|].
      destruct rands as [|rhs [|lhs r2]]; cbn [popOperand bind] in H; try discriminate.
      inversion Hr as [|? ? Hrhs Hr1]; subst. inversion Hr1 as [|? ? Hlhs Hr2]; subst.
      destruct (createOperatorNode lhs top rhs) as [n|?|?] eqn:Hc; cbn [bind] in H;
        try discriminate.
      pose proof (addOperand_nodes rest n r2
                    (createOperatorNode_nodes _ _ _ _ Hc Hlhs Hrhs) Hr2) as Ha.
      destruct (addOperand n r2 rest) as [r3 o3]. eapply IH; [|exact H]. exact Ha.
Qed.

Lemma popUntilOpenParenthesis_nodes : forall currToken fuel ops rands ops' rands',
  Forall Q rands ->
  popUntilOpenParenthesis fuel currToken ops rands = Return (ops', rands') ->
  Forall Q rands'.
Proof.
  intros currToken. induction fuel as [|fuel IH]; intros ops rands ops' rands' Hr H.
  - discriminate.
  - cbn [popUntilOpenParenthesis] in H. destruct ops as [|top rest]; [discriminate|].
    destruct (type top === "("); [inversion H; subst; exact Hr|].
    destruct (type top === "~"); [discriminate|].
    destruct rands as [|rhs [|lhs r2]]; cbn [popOperand bind] in H; try discriminate.
    inversion Hr as [|? ? Hrhs Hr1]; subst. inversion Hr1 as [|? ? Hlhs Hr2]; subst.
    destruct (createOperatorNode lhs top rhs) as [n|?|?] eqn:Hc; cbn [bind] in H;
      try discriminate.
    pose proof (addOperand_nodes rest n r2
                  (createOperatorNode_nodes _ _ _ _ Hc Hlhs Hrhs) Hr2) as Ha.
    destruct (addOperand n r2 rest) as [r3 o3]. eapply IH; [|exact H]. exact Ha.
Qed.

Lemma parseToken_nodes : forall t st c st',
  wrapsTo Q t -> Forall Q (operands st) ->
  parseToken t st = Return (c, st') -> Forall Q (operands st').
Proof.
  intros t [ops rands need] c st' Ht Hr H. unfold parseToken in H.
  cbn [needOperand operators operands] in *.
  destruct need.
  - destruct (isOperand t).
    + destruct (wrapOperand t) as [n|?|?] eqn:Hw; cbn [bind] in H; try discriminate.
      pose proof (addOperand_nodes ops n rands (Ht n Hw) Hr) as Ha.
      destruct (addOperand n rands ops) as [r o]. inversion H; subst. exact Ha.
    + destruct ((type t === "(") || (type t === "~")).
      * inversion H; subst. exact Hr.
      * destruct (isEOF t).
        -- destruct ops; [discriminate|]. cbn [topOf bind] in H.
           destruct (type t0 === "("); discriminate.
        -- discriminate.
  - destruct (isBinaryOperator t || isEOF t).
    + destruct (evaluateHigherPriority (S (length ops)) t ops rands)
        as [[o r]|?|?] eqn:E; cbn [bind] in H; try discriminate.
      inversion H; subst. cbn [operands].
      eapply evaluateHigherPriority_nodes; [exact Hr | exact E].
    + destruct (type t === ")").
      * destruct (popUntilOpenParenthesis (S (length ops)) t ops rands)
          as [[o r]|?|?] eqn:E; cbn [bind] in H; try discriminate.
        pose proof (popUntilOpenParenthesis_nodes _ _ _ _ _ _ Hr E) as Hr'.
        destruct r as [|x r']; cbn [popOperand bind] in H; try discriminate.
        inversion Hr' as [|? ? Hx Hr'']; subst.
        pose proof (addOperand_nodes o x r' Hx Hr'') as Ha.
        destruct (addOperand x r' o) as [r'' o'']. inversion H; subst. exact Ha.
      * discriminate.
Qed.

Lemma parseLoop_nodes : forall tokens st st',
  Forall (wrapsTo Q) tokens -> Forall Q (operands st) ->
  parseLoop tokens st = Return st' -> Forall Q (operands st').
Proof.
  induction tokens as [|t tokens IH]; intros st st' Hall Hr H.
  - inversion H; subst. exact Hr.
  - inversion Hall; subst. cbn [parseLoop] in H.
    destruct (parseToken t st) as [[c st1]|?|?] eqn:E; cbn [bind] in H;
      try discriminate.
    pose proof (parseToken_nodes _ _ _ _ H2 Hr E) as Hr1.
    destruct c.
    + eapply IH; eassumption.
    + inversion H; subst. exact Hr1.
Qed.

Lemma parseTokens_nodes : forall tokens vars r,
  Forall (wrapsTo Q) tokens ->
  parseTokens tokens vars = Return r ->
  Q (ast r) /\ variables r = vars.
Proof.
  intros tokens vars r Hall H. unfold parseTokens in H.
  destruct (parseLoop tokens initialState) as [st|?|?] eqn:El; cbn [bind] in H;
    try discriminate.
  pose proof (parseLoop_nodes tokens initialState st Hall (Forall_nil _) El) as Hr.
  unfold assert in H.
  destruct (negb (length (operators st) =? 0)); cbn [bind] in H; [|discriminate].
  destruct (operators st) as [|top rest]; [discriminate|].
  destruct (isEOF top); cbn [bind] in H; [|discriminate].
  destruct rest as [|m rest].
  - destruct (operands st) as [|x rands]; cbn [popOperand bind] in H; [discriminate|].
    inversion H; subst. inversion Hr; subst. split; [assumption | reflexivity].
  - destruct (type m === "("); cbn [bind] in H; discriminate.
Qed.

End Nodes.

Lemma numbered_wrapsTo : forall vars t,
  numbered vars t -> wrapsTo (numberedOrPrototype (length vars)) t.
Proof.
  intros vars t Hn n Hw. unfold wrapOperand, unreachable in Hw.
  destruct (type t === "T"); [inversion Hw; subst; exact I|].
  destruct (type t === "F"); [inversion Hw; subst; exact I|].
  destruct (type t === "variable") eqn:Ev; [|discriminate].
  inversion Hw; subst n.
  destruct (Hn Ev) as (v & Hv & [Hp | (j & Hj & Hlt)]); rewrite Hv; subst v.
  - exact I.
  - exact Hlt.
Qed.

(** For every accepted input: the variable list is strictly sorted, and
    every variable reference is a number below its length or is
    [Object.prototype]. *)
Lemma parse_variables : forall (input : jsstring) r,
  parse input = Return r ->
  StronglySorted (fun a b => jsltb a b = true) (variables r)
  /\ numberedOrPrototype (length (variables r)) (ast r).
Proof.
  intros input r H. unfold parse, scan in H.
  destruct (checkIntegrity input) as [[]|?|?]; cbn [bind] in H; try discriminate.
  unfold preliminaryScan in H.
  destruct (preliminaryScanLoop (S (length (input ++ kScannerConstants.EOF)))
              (input ++ kScannerConstants.EOF) 0 [] [])
    as [[toks vs]|?|?] eqn:El; cbn [bind fst snd] in H; try discriminate.
  assert (Hok0 : variableSetOK []) by (split; [constructor | intros []]).
  destruct (preliminaryScanLoop_names _ _ _ _ _ _ _ Hok0 (Forall_nil _) El)
    as [Hok Hnamed].
  pose proof (numberVariables_numbered toks vs Hok Hnamed) as Hnum.
  destruct (parseTokens_nodes
              (numberedOrPrototype (length (snd (numberVariables (toks, vs)))))
              (fun _ H => H) (fun _ _ Hl Hr => conj Hl Hr)
              (fun _ _ Hl Hr => conj Hl Hr) (fun _ _ Hl Hr => conj Hl Hr)
              (fun _ _ Hl Hr => conj Hl Hr)
              (fst (numberVariables (toks, vs))) (snd (numberVariables (toks, vs))) r)
    as [Hq Hv].
  - eapply Forall_impl; [|exact Hnum]. intros t. apply numbered_wrapsTo.
  - exact H.
  - rewrite Hv. split; [|exact Hq].
    cbn [numberVariables snd]. destruct (sorted_names vs Hok) as [Hnd _].
    apply sorted_strict; [exact Hnd | apply sort_sorted].
Qed.



(* ================================================================== *)
(** ** The claims *)
(* ================================================================== *)

(** C2: at the input [__proto__] parse succeeds, the variable list it
    returns is empty (the assignment [variableSet["__proto__"] = true] of
    scanVariable creates no property), and the one variable reference of
    the AST carries [Object.prototype] instead of a number below the
    length of the list.  That name is the only way the numbering misses:
    for every accepted input the variable list is strictly sorted, every
    variable reference of the AST is a number below the length of the
    list or is [Object.prototype], and numberVariables gives a variable
    token the position of its name in the list unless the name is
    [__proto__]. *)
Theorem parse_proto_variable :
  (exists r, parse (js "__proto__") = Return r
             /\ variables r = []
             /\ ast r = variableNode PObjectPrototype
             /\ ~ indicesBelow (length (variables r)) (ast r))
  /\ (forall (input : jsstring) r,
        parse input = Return r ->
        StronglySorted (fun a b => jsltb a b = true) (variables r)
        /\ numberedOrPrototype (length (variables r)) (ast r))
  /\ (forall (input : jsstring) ptoks vs k pt,
        preliminaryScan input = Return (ptoks, vs) ->
        nth_error ptoks k = Some pt ->
        type pt === "variable" = true ->
        exists name t v,
          index pt = Some name
          /\ nth_error (fst (numberVariables (ptoks, vs))) k = Some t
          /\ index t = Some v
          /\ ((name = js "__proto__" /\ v = PObjectPrototype)
              \/ exists j, v = PNum j
                           /\ nth_error (snd (numberVariables (ptoks, vs))) j
                              = Some name)).
Proof.
  split; [|split].
  - eexists. split; [vm_compute; reflexivity|]. simpl. repeat split. tauto.
  - exact parse_variables.
  - intros input ptoks vs k pt Hscan Hk Ht. unfold preliminaryScan in Hscan.
    assert (Hok0 : variableSetOK []) by (split; [constructor | intros []]).
    destruct (preliminaryScanLoop_names _ _ _ _ _ _ _ Hok0 (Forall_nil _) Hscan)
      as [Hok Hnamed].
    rewrite Forall_forall in Hnamed.
    destruct (renumberToken_numbered vs pt Hok
                (Hnamed pt (nth_error_In _ _ Hk)) Ht)
      as (name & v & Hn & Hv & Hcase).
    exists name, (renumberToken (invertVariables (sort (forIn vs)) 0 vs) pt), v.
    split; [exact Hn|]. split; [|split; [exact Hv | exact Hcase]].
    cbn [numberVariables fst]. rewrite nth_error_map, Hk. reflexivity.
Qed.

(** C3: the loop that evaluates the operators of higher priority pops
    nothing when the incoming operator and the operators on the stack are
    one connective (the priorities are equal); so a chain
    [x op y1 op y2 ...] of one connective is parsed to the right-nested
    tree [x op (y1 op (y2 op ...))]; the input [p and q and r] is parsed
    to And(p, And(q, r)) and not to And(And(p, q), r). *)
Theorem equal_priority_groups_right :
  (forall opType mk, In (opType, mk) connectives ->
     forall o ops rands fuel,
       type o = js opType -> pendingSame opType ops ->
       evaluateHigherPriority (S fuel) o ops rands = Return (ops, rands))
  /\ (forall opType mk, In (opType, mk) connectives ->
        forall first n rest nodes eof vars,
          wrapOperand first = Return n ->
          Forall2 (fun (p : tok * tok) ny =>
                     type (fst p) = js opType /\ wrapOperand (snd p) = Return ny)
                  rest nodes ->
          isEOF eof = true ->
          parseTokens (chain first rest eof) vars
          = Return {| ast := rightNested mk n nodes; variables := vars |})
  /\ parse (js "p and q and r")
     = Return {| ast := andNode (variableNode (PNum 0))
                                (andNode (variableNode (PNum 1))
                                         (variableNode (PNum 2)));
                 variables := [js "p"; js "q"; js "r"] |}
  /\ parse (js "p and q and r")
     <> Return {| ast := andNode (andNode (variableNode (PNum 0))
                                          (variableNode (PNum 1)))
                                 (variableNode (PNum 2));
                  variables := [js "p"; js "q"; js "r"] |}.
Proof.
  split; [|split; [|split]].
  - intros opType mk Hin o ops rands fuel Ho Hp.
    apply (evaluateHigherPriority_same opType mk Hin); assumption.
  - intros opType mk Hin first n rest nodes eof vars H1 H2 H3.
    apply (parseTokens_chain opType mk Hin); assumption.
  - vm_compute. reflexivity.
  - vm_compute. discriminate.
Qed.

Lemma equal_priority_groups_right_witness :
  parseTokens
    (chain (mkToken (js "variable") (Some (PNum 0)) 0 1)
           [ (mkToken (js "/\") None 2 5, mkToken (js "variable") (Some (PNum 1)) 6 7);
             (mkToken (js "/\") None 8 11, mkToken (js "variable") (Some (PNum 2)) 12 13) ]
           (mkToken kScannerConstants.EOF None 13 14))
    [js "p"; js "q"; js "r"]
  = Return {| ast := rightNested andNode (variableNode (PNum 0))
                                 [variableNode (PNum 1); variableNode (PNum 2)];
              variables := [js "p"; js "q"; js "r"] |}.
Proof.
  apply (proj1 (proj2 equal_priority_groups_right) "/\"%string andNode).
  - left. reflexivity.
  - reflexivity.
  - repeat constructor.
  - reflexivity.
Defined.

Lemma evaluate_indicesBelow : forall a assignment,
  indicesBelow (length assignment) a ->
  evaluate a assignment = Some (truthValue a assignment).
Proof.
  induction a as [| |u IHu|l IHl r IHr|l IHl r IHr|l IHl r IHr|l IHl r IHr|i];
    intros assignment H; simpl in *; try reflexivity.
  - rewrite (IHu _ H). reflexivity.
  - destruct H as [H1 H2]. rewrite (IHl _ H1), (IHr _ H2).
    unfold jsand. simpl. destruct (truthValue l assignment); reflexivity.
  - destruct H as [H1 H2]. rewrite (IHl _ H1), (IHr _ H2).
    unfold jsor. simpl. destruct (truthValue l assignment); reflexivity.
  - destruct H as [H1 H2]. rewrite (IHl _ H1), (IHr _ H2).
    unfold jsor, jsnot. simpl. destruct (truthValue l assignment); reflexivity.
  - destruct H as [H1 H2]. rewrite (IHl _ H1), (IHr _ H2). reflexivity.
  - destruct i; try contradiction. simpl.
    apply nth_error_nth'. exact H.
Qed.

(** C4: on an assignment that covers the variable references of the
    tree, evaluate returns the boolean given by the truth-functional
    semantics: the literal of a constant, assignment[index] for a
    variable, the complement for Not, the conjunction and disjunction for
    And and Or, (not lhs) or rhs for Implies, lhs == rhs for Iff; and
    [~p \/ q] and [p -> q] are parsed, over the variables p and q, to
    trees with the same value, a boolean, on each of the 4 assignments. *)
Theorem evaluate_truth_functional :
  (forall a assignment,
     indicesBelow (length assignment) a ->
     evaluate a assignment = Some (truthValue a assignment))
  /\ (exists r1 r2,
        parse (js "~p \/ q") = Return r1
        /\ parse (js "p -> q") = Return r2
        /\ variables r1 = [js "p"; js "q"]
        /\ variables r2 = [js "p"; js "q"]
        /\ forall assignment,
             In assignment (binaryCounterOrder 2) ->
             evaluate (ast r1) assignment = evaluate (ast r2) assignment
             /\ evaluate (ast r1) assignment
                = Some (truthValue (ast r2) assignment)).
Proof.
  split; [exact evaluate_indicesBelow|].
  eexists. eexists.
  split; [vm_compute; reflexivity|]. split; [vm_compute; reflexivity|].
  split; [reflexivity|]. split; [reflexivity|].
  intros assignment H. simpl in H.
  destruct H as [H | [H | [H | [H | []]]]]; subst assignment; split; reflexivity.
Qed.

Lemma evaluate_truth_functional_witness :
  evaluate (iffNode (variableNode (PNum 0)) (negateNode (variableNode (PNum 1))))
           [true; false]
  = Some (truthValue (iffNode (variableNode (PNum 0))
                              (negateNode (variableNode (PNum 1))))
                     [true; false]).
Proof.
  apply (proj1 evaluate_truth_functional). simpl. lia.
Defined.

Lemma spellingTable_scanned :
  Forall (fun row : string * list string =>
            Forall (fun sp =>
                      scan (js sp)
                      = Return ([ mkToken (js (fst row)) None 0 (length (js sp));
                                  mkToken kScannerConstants.EOF None
                                          (length (js sp)) (length (js sp) + 1) ],
                                []))
                   (snd row))
         spellingTable.
Proof.
  unfold spellingTable.
  repeat (constructor; [cbn [fst snd];
                        repeat (constructor; [vm_compute; reflexivity|]);
                        constructor|]).
  constructor.
Qed.

(** C5: scanning a spelling of the translation table alone gives one
    token of its canonical kind, over the whole spelling, and the EOF
    token; and at a position where a spelling of the table occurs the
    scanning loop adds one token that starts there and is at least as long
    as the spelling, and goes on after it: the spelling is not split. *)
Theorem operator_spellings_scanned :
  (forall kind sps sp,
     In (kind, sps) spellingTable -> In sp sps ->
     scan (js sp)
     = Return ([ mkToken (js kind) None 0 (length (js sp));
                 mkToken kScannerConstants.EOF None
                         (length (js sp)) (length (js sp) + 1) ],
               []))
  /\ (forall kind sps sp,
        In (kind, sps) spellingTable -> In sp sps ->
        forall (input : jsstring) i fuel variableSet tokens,
          occursAt (js sp) input i ->
          exists (t : token jsstring) variableSet',
            start t = i
            /\ i + length (js sp) <= end' t
            /\ occursAt (substring input i (end' t)) input i
            /\ preliminaryScanLoop (S fuel) input i variableSet tokens
               = preliminaryScanLoop fuel input (end' t) variableSet' (tokens ++ [t])).
Proof.
  split.
  - intros kind sps sp Hrow Hsp. pose proof spellingTable_scanned as H.
    rewrite Forall_forall in H. specialize (H _ Hrow). cbn [fst snd] in H.
    rewrite Forall_forall in H. exact (H _ Hsp).
  - exact preliminaryScanLoop_longest.
Qed.

Lemma operator_spellings_scanned_witness :
  scan (js "implies")
  = Return ([ mkToken (js "->") None 0 (length (js "implies"));
              mkToken kScannerConstants.EOF None
                      (length (js "implies")) (length (js "implies") + 1) ],
            []).
Proof.
  apply (proj1 operator_spellings_scanned "->"%string
               ["->"; "=>"; "implies"; "→"; "\to"; "\rightarrow"; "\Rightarrow"]%string).
  - right. right. left. reflexivity.
  - right. right. left. reflexivity.
Defined.

(** C6: on every input parse returns a result or throws a structured
    error.  It never ends in a failure: no assertion fails, unreachable is
    not called (priorityOf, createOperatorNode and wrapOperand only get
    tokens they handle), no operand is popped from an empty stack, and
    every loop ends. *)
Theorem parse_never_fails :
  forall input : jsstring,
    ((exists r, parse input = Return r) \/ (exists e, parse input = Throw e))
    /\ forall f, parse input <> Failure f.
Proof.
  intro input. pose proof (parse_outcome input) as H.
  destruct (parse input) as [r|e|f].
  - split; [left; exists r; reflexivity | discriminate].
  - split; [right; exists e; reflexivity | discriminate].
  - contradiction.
Qed.

(** C7: every error parse throws, from the scanner or from the parser,
    has 0 <= start <= end <= input.length for the input as given. *)
Theorem error_range_within_input :
  forall (input : jsstring) e,
    parse input = Throw e ->
    0 <= start_ e /\ start_ e <= end_ e /\ end_ e <= length input.
Proof.
  intros input e H. pose proof (parse_outcome input) as Ho. rewrite H in Ho.
  destruct Ho as (H1 & H2 & _). repeat split; [lia | exact H1 | exact H2].
Qed.

Lemma error_range_within_input_witness :
  parse (js "(p")
  = Throw {| description :=
               js "Não há parêntesis fechado correspondente para este parêntesis aberto.";
             start_ := 0; end_ := 1 |}
  /\ 0 <= 0 /\ 0 <= 1 /\ 1 <= length (js "(p").
Proof.
  assert (H : parse (js "(p")
              = Throw {| description :=
                           js "Não há parêntesis fechado correspondente para este parêntesis aberto.";
                         start_ := 0; end_ := 1 |})
    by (vm_compute; reflexivity).
  split; [exact H|].
  exact (error_range_within_input _ _ H).
Defined.

(** C8, as the claim states it, fails on the empty input: the error
    thrown has the empty description. *)
Lemma empty_input_description_counterexample :
  ~ (exists e, parse [] = Throw e /\ description e <> []).
Proof.
  intros (e & H & Hd). vm_compute in H. inversion H; subst e. apply Hd. reflexivity.
Qed.

(** C8, amended: on the empty input and on every input of whitespace
    only, parse throws the error with the empty description and the range
    from 0 to 0; every other error parse throws has a description that is
    not empty. *)
Theorem whitespace_input_error :
  (forall input : jsstring,
     forallb isWhitespaceChar input = true ->
     parse input = Throw {| description := []; start_ := 0; end_ := 0 |})
  /\ (forall (input : jsstring) e,
        parse input = Throw e ->
        forallb isWhitespaceChar input = false ->
        description e <> []).
Proof.
  split.
  - exact parse_whitespace.
  - intros input e H Hws Hd.
    rewrite (parse_empty_description input e H Hd) in Hws. discriminate.
Qed.

Lemma whitespace_input_error_witness :
  parse (js "  ") = Throw {| description := []; start_ := 0; end_ := 0 |}.
Proof.
  apply (proj1 whitespace_input_error). reflexivity.
Defined.

(** C9 is proved at the end of the file, in the section on the round trip
    through the page: its proof rests on the lemmas about the tokens and
    the parentheses that come before it. *)

(** C10: addOperand leaves no negation on top of the operator stack; so
    in every state of the loop of parse in which an operator is expected,
    the top of the operator stack is no negation; and on no input parse
    throws the error of the close parenthesis for a negation that negates
    nothing. *)
Theorem negation_never_on_top :
  (forall n rands ops, topNotNegation (snd (addOperand n rands ops)))
  /\ (forall st, reachable st -> needOperand st = false ->
                 topNotNegation (operators st))
  /\ (forall (input : jsstring) e,
        parse input = Throw e ->
        description e <> js "Nada é negado por este operador.").
Proof.
  split; [|split].
  - intros n rands ops.
    destruct (addOperand_spec ops n rands) as (n' & negs & ops' & Ha & _ & _ & Htop).
    rewrite Ha. exact Htop.
  - exact reachable_topNotNegation.
  - intros input e H. pose proof (parse_outcome input) as Ho. rewrite H in Ho.
    apply Ho.
Qed.

Lemma negation_never_on_top_witness :
  parse (js "(~)")
  = Throw {| description :=
               js "Esperávamos aqui uma variável, uma constante ou um parêntesis aberto.";
             start_ := 2; end_ := 3 |}
  /\ description
       {| description :=
            js "Esperávamos aqui uma variável, uma constante ou um parêntesis aberto.";
          start_ := 2; end_ := 3 |}
     <> js "Nada é negado por este operador.".
Proof.
  assert (H : parse (js "(~)")
              = Throw {| description :=
                           js "Esperávamos aqui uma variável, uma constante ou um parêntesis aberto.";
                         start_ := 2; end_ := 3 |})
    by (vm_compute; reflexivity).
  split; [exact H|].
  exact (proj2 (proj2 negation_never_on_top) _ _ H).
Defined.



(* ================================================================== *)
(** ** Further properties *)
(* ================================================================== *)

(* ------------------------------------------------------------------ *)
(** *** Tokens and their texts *)

Lemma substring_sentinel : forall (input : jsstring) i n,
  i + n <= length input ->
  substring (input ++ kScannerConstants.EOF) i (i + n) = substring input i (i + n).
Proof.
  intros input i n H. unfold substring.
  replace (i + n - i) with n by lia.
  rewrite skipn_app. rewrite firstn_app.
  replace (n - length (skipn i input)) with 0 by (rewrite length_skipn; lia).
  rewrite firstn_0, app_nil_r. reflexivity.
Qed.

Lemma substring_prefix : forall (s : jsstring) i (name rest : jsstring),
  skipn i s = name ++ rest -> substring s i (i + length name) = name.
Proof.
  intros s i name rest H. unfold substring.
  replace (i + length name - i) with (length name) by lia.
  rewrite H. rewrite firstn_app, Nat.sub_diag, firstn_0, app_nil_r.
  apply firstn_all.
Qed.

Lemma tryReadVariableName_text : forall (input : jsstring) i name,
  tryReadVariableName (input ++ kScannerConstants.EOF) i = Some name ->
  substring input i (i + length name) = name /\ isVariableName name = true.
Proof.
  intros input i name H.
  destruct (tryReadVariableName_bounds _ _ _ H) as [Hl Hb].
  destruct (tryReadVariableName_Some _ _ _ H) as (c & Hc & Hs & Hn & Hr & _).
  split.
  - rewrite <- substring_sentinel by exact Hb.
    destruct (readVariableChars_prefix (skipn i (input ++ kScannerConstants.EOF)))
      as [rest Hrest].
    rewrite <- Hn in Hrest. eapply substring_prefix. exact Hrest.
  - unfold isVariableName.
    unfold charAt in Hc. rewrite (skipn_nth_error _ _ _ _ Hc) in Hn.
    simpl in Hn. rewrite (variableStart_is_variableChar _ Hs) in Hn.
    rewrite Hn at 1. rewrite Hs, Hr. simpl.
    rewrite andb_true_r.
    replace name with (readVariableChars (c :: skipn (S i) (input ++ kScannerConstants.EOF))).
    + apply readVariableChars_all.
    + simpl. rewrite (variableStart_is_variableChar _ Hs). symmetry. exact Hn.
Qed.

Lemma tryReadOperator_text : forall (input : jsstring) i op,
  ~ In 36%N input ->
  tryReadOperator (input ++ kScannerConstants.EOF) i = Some op ->
  substring input i (i + length op) = op.
Proof.
  intros input i op Hno H.
  destruct (tryReadOperator_bounds _ _ _ Hno H) as (Hl & Hb & _).
  rewrite <- substring_sentinel by exact Hb.
  unfold tryReadOperator in H.
  destruct (firstCase operatorSpellings (input ++ kScannerConstants.EOF) i) as [r|] eqn:Hf.
  - inversion H; subst r.
    destruct (firstCase_Some _ _ _ _ Hf) as (n & sps & s & Hin & Hs & Hop & Hsub & Hfit).
    pose proof (spelling_in_table _ _ _ Hin Hs) as Hok. unfold spellingOK in Hok.
    rewrite !andb_true_iff in Hok.
    destruct Hok as ((((Hlen & _) & _) & _) & _).
    apply Nat.eqb_eq in Hlen. rewrite <- Hop in Hlen. rewrite Hlen.
    symmetry. exact Hsub.
  - unfold singleCharCase, charAt in H.
    destruct (nth_error (input ++ kScannerConstants.EOF) i) as [c|] eqn:Hc; [|discriminate].
    destruct (isSingleCharOperator c); [|discriminate].
    inversion H; subst op. simpl length.
    unfold substring. replace (i + 1 - i) with 1 by lia.
    rewrite (skipn_nth_error _ _ _ _ Hc). reflexivity.
Qed.

Lemma operatorSpellings_no_names :
  forallb (fun c => forallb noVariableName (snd c)) operatorSpellings = true.
Proof. vm_compute. reflexivity. Qed.

Lemma singleCharOperator_no_name : forall c,
  isSingleCharOperator c = true -> isVariableName [c] = false.
Proof.
  intros c H. unfold isVariableName.
  destruct (isVariableStartChar c) eqn:Hs; [|reflexivity].
  unfold isSingleCharOperator, isGlyph in H.
  rewrite !orb_true_iff, !N.eqb_eq in H.
  repeat match type of H with _ \/ _ => destruct H as [H | H] end;
    subst c; try discriminate; reflexivity.
Qed.

Lemma tryReadOperator_not_name : forall (input : jsstring) i op,
  tryReadOperator input i = Some op -> isVariableName op = false.
Proof.
  intros input i op H. unfold tryReadOperator in H.
  destruct (firstCase operatorSpellings input i) as [r|] eqn:Hf.
  - inversion H; subst r.
    destruct (firstCase_Some _ _ _ _ Hf) as (n & sps & s & Hin & Hs & Hop & _).
    pose proof operatorSpellings_no_names as Hall.
    rewrite forallb_forall in Hall. specialize (Hall _ Hin). simpl in Hall.
    rewrite forallb_forall in Hall. specialize (Hall _ Hs).
    unfold noVariableName in Hall. apply negb_true_iff in Hall.
    rewrite Hop. exact Hall.
  - unfold singleCharCase in H.
    destruct (charAt input i) as [c|]; [|discriminate].
    destruct (isSingleCharOperator c) eqn:Hs; [|discriminate].
    inversion H; subst op. apply singleCharOperator_no_name. exact Hs.
Qed.

Lemma variableName_chars : forall name : jsstring,
  isVariableName name = true ->
  forallb isVariableChar name = true
  /\ exists c rest, name = c :: rest /\ isVariableStartChar c = true.
Proof.
  intros [|c rest] H; [discriminate|]. unfold isVariableName in H.
  rewrite !andb_true_iff in H. destruct H as [[Hs Hall] _].
  split; [exact Hall|]. exists c, rest. split; [reflexivity | exact Hs].
Qed.

Lemma tiles_whitespace : forall I (input : jsstring) i c (tokens : list (token I)),
  nth_error input i = Some c -> isWhitespaceChar c = true ->
  tiles input (i + 1) tokens -> tiles input i tokens.
Proof.
  intros I input i c tokens Hc Hw H. destruct tokens as [|t rest]; simpl in *.
  - rewrite (skipn_nth_error _ _ _ _ Hc). simpl. rewrite Hw.
    rewrite Nat.add_1_r in H. exact H.
  - destruct H as (H1 & H2 & H3 & H4 & H5).
    repeat split; try lia; try assumption.
    unfold substring in *. rewrite (skipn_nth_error _ _ _ _ Hc).
    rewrite Nat.add_1_r in H4.
    replace (start t - i) with (S (start t - S i)) by lia.
    cbn [firstn forallb]. rewrite Hw. exact H4.
Qed.

Lemma substring_empty : forall (s : jsstring) i, substring s i i = [].
Proof. intros. unfold substring. rewrite Nat.sub_diag. reflexivity. Qed.

(** The loop of [preliminaryScan]: the tokens it adds tile the rest of
    the input and carry their texts. *)
Lemma preliminaryScanLoop_tiles : forall input : jsstring,
  ~ In 36%N input ->
  forall fuel i variableSet tokens tokens' variableSet',
    i <= length input ->
    preliminaryScanLoop fuel (input ++ kScannerConstants.EOF) i variableSet tokens
    = Return (tokens', variableSet') ->
    exists new, tokens' = tokens ++ new ++ [eofToken (length input)]
                /\ tiles input i new
                /\ Forall (preliminaryLexeme input) new.
Proof.
  intros input Hno. induction fuel as [|fuel IH]; intros i vs toks toks' vs' Hi H.
  - discriminate.
  - cbn [preliminaryScanLoop] in H.
    destruct (Nat.eq_dec i (length input)) as [E|NE].
    + assert (Hc : charAt (input ++ kScannerConstants.EOF) i = Some 36%N).
      { unfold charAt. rewrite nth_error_app2 by lia.
        replace (i - length input) with 0 by lia. reflexivity. }
      rewrite Hc in H. cbn [charStr] in H. rewrite jseqb_refl in H.
      inversion H; subst toks' vs'. exists []. subst i.
      split; [reflexivity|]. split; [|constructor].
      simpl. rewrite skipn_all. reflexivity.
    + assert (Hlt : i < length input) by lia.
      assert (Hc : exists c, nth_error input i = Some c /\ c <> 36%N).
      { destruct (nth_error input i) as [c|] eqn:Hc.
        - exists c. split; [reflexivity|]. intro; subst c.
          apply Hno. eapply nth_error_In. exact Hc.
        - apply nth_error_None in Hc. lia. }
      destruct Hc as (c & Hc & Hne).
      assert (Hc' : charAt (input ++ kScannerConstants.EOF) i = Some c).
      { unfold charAt. rewrite nth_error_app1 by exact Hlt. exact Hc. }
      rewrite Hc' in H. cbn [charStr] in H.
      assert (Hnot : jseqb [c] kScannerConstants.EOF = false).
      { apply jseqb_neq. intro E. inversion E. contradiction. }
      rewrite Hnot in H.
      unfold isVariableStart, scanVariable in H.
      destruct (tryReadVariableName (input ++ kScannerConstants.EOF) i) as [name|] eqn:Hv.
      * destruct (tryReadVariableName_bounds _ _ _ Hv) as [H1 H2].
        destruct (tryReadVariableName_text _ _ _ Hv) as [Ht Hn].
        apply IH in H; [|lia]. destruct H as (new & Hnew & Htiles & Hlex).
        exists (makeVariableToken name i (i + length name) :: new).
        split; [rewrite Hnew, <- app_assoc; reflexivity|]. split.
        -- simpl. rewrite substring_empty. repeat split; try lia; exact Htiles.
        -- constructor; [|exact Hlex].
           unfold preliminaryLexeme, lexeme. simpl type. rewrite jseqb_refl.
           simpl. rewrite Ht. split; [reflexivity | exact Hn].
      * unfold isOperatorStart in H.
        destruct (tryReadOperator (input ++ kScannerConstants.EOF) i) as [op|] eqn:Ho.
        -- destruct (tryReadOperator_bounds _ _ _ Hno Ho) as (H1 & H2 & H3 & H4).
           pose proof (tryReadOperator_text _ _ _ Hno Ho) as Ht.
           apply IH in H; [|lia]. destruct H as (new & Hnew & Htiles & Hlex).
           exists (makeIdentityToken op i :: new).
           split; [rewrite Hnew, <- app_assoc; reflexivity|]. split.
           ++ simpl. rewrite substring_empty. repeat split; try lia; exact Htiles.
           ++ constructor; [|exact Hlex].
              unfold preliminaryLexeme, lexeme. simpl. rewrite H4, Ht.
              repeat split. eapply tryReadOperator_not_name. exact Ho.
        -- destruct (isWhitespace (Some c)) eqn:Hw; [|discriminate].
           apply IH in H; [|lia]. destruct H as (new & Hnew & Htiles & Hlex).
           exists new. split; [exact Hnew|]. split; [|exact Hlex].
           eapply tiles_whitespace; eassumption.
Qed.

Lemma objSet_keys : forall o k v k',
  In k' (forIn (objSet o k v)) -> k' = k \/ In k' (forIn o).
Proof.
  intros o k v k' H. unfold objSet in H.
  destruct (jseqb k (js "__proto__")); [right; exact H|].
  apply objUpdate_In in H. exact H.
Qed.

(** Every name of the variable set was put there for a variable token. *)
Lemma preliminaryScanLoop_variables : forall fuel input i vs toks toks' vs',
  preliminaryScanLoop fuel input i vs toks = Return (toks', vs') ->
  (forall t, In t toks -> In t toks')
  /\ forall k, In k (forIn vs') ->
       In k (forIn vs)
       \/ exists t, In t toks' /\ type t = js "variable" /\ index t = Some k.
Proof.
  induction fuel as [|fuel IH]; intros input i vs toks toks' vs' H.
  - discriminate.
  - cbn [preliminaryScanLoop] in H.
    destruct (jseqb (charStr (charAt input i)) kScannerConstants.EOF).
    { inversion H; subst toks' vs'. split.
      - intros t Ht. apply in_or_app. left. exact Ht.
      - intros k Hk. left. exact Hk. }
    unfold isVariableStart, scanVariable in H.
    destruct (tryReadVariableName input i) as [name|].
    { apply IH in H. destruct H as [Hmono Hk]. split.
      - intros t Ht. apply Hmono. apply in_or_app. left. exact Ht.
      - intros k Hin. destruct (Hk k Hin) as [Hset | Htok]; [|right; exact Htok].
        apply objSet_keys in Hset. destruct Hset as [E | Hold]; [|left; exact Hold].
        subst k. right. exists (makeVariableToken name i (i + length name)).
        split; [|split; reflexivity].
        apply Hmono. apply in_or_app. right. left. reflexivity. }
    unfold isOperatorStart in H.
    destruct (tryReadOperator input i) as [op|].
    { apply IH in H. destruct H as [Hmono Hk]. split.
      - intros t Ht. apply Hmono. apply in_or_app. left. exact Ht.
      - exact Hk. }
    destruct (isWhitespace (charAt input i)); [|discriminate].
    apply IH in H. exact H.
Qed.

Lemma tiles_map : forall (input : jsstring) (f : token jsstring -> tok) l i,
  (forall t, start (f t) = start t /\ end' (f t) = end' t) ->
  tiles input i l -> tiles input i (map f l).
Proof.
  intros input f l. induction l as [|t l IH]; intros i Hf H; simpl in *.
  - exact H.
  - destruct (Hf t) as [E1 E2]. rewrite E1, E2.
    destruct H as (H1 & H2 & H3 & H4 & H5).
    repeat split; try assumption. apply IH; assumption.
Qed.

Lemma renumberToken_lexeme : forall vs (input : jsstring) t,
  lexeme input (renumberToken vs t) = lexeme input t.
Proof.
  intros vs input t. unfold lexeme.
  destruct (renumberToken_fields vs t) as (_ & E2 & E3). rewrite E2, E3.
  reflexivity.
Qed.

Lemma renumberToken_scanned : forall (input : jsstring) vs t,
  variableSetOK vs -> namedIn vs t ->
  preliminaryLexeme input t ->
  scannedLexeme input (sort (forIn vs))
                (renumberToken (invertVariables (sort (forIn vs)) 0 vs) t).
Proof.
  intros input vs t Hok Hnamed Hlex.
  unfold scannedLexeme, preliminaryLexeme in *.
  rewrite renumberToken_lexeme.
  destruct (renumberToken_fields (invertVariables (sort (forIn vs)) 0 vs) t)
    as (E1 & _ & _).
  rewrite E1.
  destruct (type t === "variable") eqn:Hv.
  - destruct Hlex as [Hidx Hname]. split; [exact Hname|].
    destruct (renumberToken_numbered vs t Hok Hnamed Hv)
      as (name & v & Hi & Hi' & Hcases).
    rewrite Hidx in Hi. inversion Hi; subst name.
    destruct Hcases as [[Hp Hv'] | (j & Hj & Hnth)].
    + left. subst v. split; assumption.
    + right. exists j. subst v. split; assumption.
  - destruct Hlex as (Hty & Hidx & Hname). split; [exact Hty|].
    split; [|exact Hname].
    unfold renumberToken. rewrite Hv. reflexivity.
Qed.

(** What [scan] returns, unfolded down to the loop of the preliminary scan. *)
Lemma scan_Return : forall (input : jsstring) tokens vars,
  scan input = Return (tokens, vars) ->
  forallb okayChars input = true
  /\ exists ptoks vs,
       preliminaryScanLoop (S (length (input ++ kScannerConstants.EOF)))
                           (input ++ kScannerConstants.EOF) 0 [] []
       = Return (ptoks, vs)
       /\ tokens = map (renumberToken (invertVariables (sort (forIn vs)) 0 vs)) ptoks
       /\ vars = sort (forIn vs).
Proof.
  intros input tokens vars H. unfold scan, checkIntegrity in H.
  pose proof (checkIntegrityFrom_spec input 0) as Hci.
  destruct (checkIntegrityFrom input 0) as [u|e|f]; simpl in H; try discriminate.
  split; [exact Hci|].
  unfold preliminaryScan in H.
  destruct (preliminaryScanLoop _ _ 0 [] []) as [[ptoks vs]|e|f]; simpl in H;
    try discriminate.
  exists ptoks, vs. inversion H. repeat split.
Qed.

Lemma variableSetOK_empty : variableSetOK [].
Proof. split; [constructor | intros []]. Qed.

(** The tokens and the variable list of [scan]. *)
Lemma scan_tokens : forall (input : jsstring) tokens vars,
  scan input = Return (tokens, vars) ->
  exists inner,
    tokens = inner ++ [mkToken kScannerConstants.EOF None
                               (length input) (length input + 1)]
    /\ tiles input 0 inner
    /\ Forall (scannedLexeme input vars) inner
    /\ forall name, In name vars ->
         name <> js "__proto__"
         /\ exists t, In t inner /\ type t = js "variable" /\ lexeme input t = name.
Proof.
  intros input tokens vars H.
  destruct (scan_Return _ _ _ H) as (Hok & ptoks & vs & Hloop & Htok & Hvars).
  pose proof (okayChars_not_EOF _ Hok) as Hno.
  destruct (preliminaryScanLoop_names _ _ _ _ _ _ _ variableSetOK_empty
              (Forall_nil _) Hloop) as [Hvs Hnamed].
  destruct (preliminaryScanLoop_variables _ _ _ _ _ _ _ Hloop) as [_ Hkeys].
  destruct (preliminaryScanLoop_tiles input Hno _ _ _ _ _ _ (Nat.le_0_l _) Hloop)
    as (new & Hnew & Htiles & Hlex).
  simpl in Hnew. subst ptoks.
  exists (map (renumberToken (invertVariables (sort (forIn vs)) 0 vs)) new).
  split; [|split; [|split]].
  - rewrite Htok, map_app. reflexivity.
  - apply tiles_map; [|exact Htiles]. intro t.
    destruct (renumberToken_fields (invertVariables (sort (forIn vs)) 0 vs) t)
      as (_ & E2 & E3). split; assumption.
  - subst vars. apply Forall_map.
    apply Forall_app in Hnamed. destruct Hnamed as [Hnamed _].
    rewrite Forall_forall in *. intros t Ht.
    apply renumberToken_scanned; auto.
  - intros name Hin. subst vars.
    destruct (sorted_names vs Hvs) as [_ Hproto].
    split; [intro E; subst name; contradiction|].
    assert (Hk : In name (forIn vs)).
    { eapply Permutation_in; [apply sort_perm | exact Hin]. }
    destruct (Hkeys name Hk) as [[] | (pt & Hpt & Hty & Hidx)].
    apply in_app_or in Hpt. destruct Hpt as [Hpt | [Hpt | []]].
    + exists (renumberToken (invertVariables (sort (forIn vs)) 0 vs) pt).
      split; [apply in_map; exact Hpt|].
      destruct (renumberToken_fields (invertVariables (sort (forIn vs)) 0 vs) pt)
        as (E1 & _ & _).
      split; [rewrite E1; exact Hty|].
      rewrite renumberToken_lexeme.
      rewrite Forall_forall in Hlex. specialize (Hlex pt Hpt).
      unfold preliminaryLexeme in Hlex. rewrite Hty, jseqb_refl in Hlex.
      destruct Hlex as [Hi _]. congruence.
    + subst pt. simpl in Hty. discriminate.
Qed.

(** X1 (scan, preliminaryScan, makeIdentityToken, makeVariableToken,
    numberVariables): when [scan] returns, its tokens are, in order,
    non-empty ranges of the input that do not overlap, with nothing but
    whitespace before, between and after them, followed by one EOF token
    placed at the end of the input.  A variable token carries the position
    of its text in the variable list (or [Object.prototype] for the text
    [__proto__]); the type of any other token is the translation of its
    text. *)
Theorem scan_tokens_tile_input : forall (input : jsstring) tokens vars,
  scan input = Return (tokens, vars) ->
  exists inner,
    tokens = inner ++ [mkToken kScannerConstants.EOF None
                               (length input) (length input + 1)]
    /\ tiles input 0 inner
    /\ Forall (scannedLexeme input vars) inner.
Proof.
  intros input tokens vars H.
  destruct (scan_tokens input tokens vars H) as (inner & H1 & H2 & H3 & _).
  exists inner. repeat split; assumption.
Qed.

Lemma scan_tokens_tile_input_witness :
  scan (js "p and  q")
  = Return ([ mkToken (js "variable") (Some (PNum 0)) 0 1;
              mkToken (js "/\") None 2 5;
              mkToken (js "variable") (Some (PNum 1)) 7 8;
              mkToken kScannerConstants.EOF None 8 9 ],
            [js "p"; js "q"])
  /\ exists inner,
       [ mkToken (js "variable") (Some (PNum 0)) 0 1;
         mkToken (js "/\") None 2 5;
         mkToken (js "variable") (Some (PNum 1)) 7 8;
         mkToken kScannerConstants.EOF None 8 9 ]
       = inner ++ [mkToken kScannerConstants.EOF None
                           (length (js "p and  q")) (length (js "p and  q") + 1)]
       /\ tiles (js "p and  q") 0 inner
       /\ Forall (scannedLexeme (js "p and  q") [js "p"; js "q"]) inner.
Proof.
  assert (H : scan (js "p and  q")
              = Return ([ mkToken (js "variable") (Some (PNum 0)) 0 1;
                          mkToken (js "/\") None 2 5;
                          mkToken (js "variable") (Some (PNum 1)) 7 8;
                          mkToken kScannerConstants.EOF None 8 9 ],
                        [js "p"; js "q"]))
    by (vm_compute; reflexivity).
  exact (conj H (scan_tokens_tile_input _ _ _ H)).
Defined.

(** X2 (scan, scanVariable, tryReadVariableName, isReservedWord,
    numberVariables): the variable list [scan] returns holds exactly the
    texts of the variable tokens other than [__proto__], and each of them
    is a variable name: a letter or underscore followed by letters, digits
    and underscores, and no reserved word. *)
Theorem scan_variables_are_the_names : forall (input : jsstring) tokens vars,
  scan input = Return (tokens, vars) ->
  forall name,
    (In name vars <->
     name <> js "__proto__"
     /\ exists t, In t tokens /\ type t = js "variable" /\ lexeme input t = name)
    /\ (In name vars -> isVariableName name = true).
Proof.
  intros input tokens vars H name.
  destruct (scan_tokens input tokens vars H)
    as (inner & Htok & _ & Hlex & Hnames).
  assert (Hto : In name vars ->
                name <> js "__proto__"
                /\ exists t, In t tokens /\ type t = js "variable"
                             /\ lexeme input t = name
                             /\ isVariableName name = true).
  { intro Hin. destruct (Hnames name Hin) as (Hne & t & Ht & Hty & Hl).
    split; [exact Hne|]. exists t. repeat split; try assumption.
    - subst tokens. apply in_or_app. left. exact Ht.
    - rewrite Forall_forall in Hlex. specialize (Hlex t Ht).
      unfold scannedLexeme in Hlex. rewrite Hty, jseqb_refl in Hlex.
      rewrite Hl in Hlex. apply Hlex. }
  split; [split|].
  - intro Hin. destruct (Hto Hin) as (Hne & t & Ht & Hty & Hl & _).
    split; [exact Hne|]. exists t. repeat split; assumption.
  - intros (Hne & t & Ht & Hty & Hl).
    subst tokens. apply in_app_or in Ht. destruct Ht as [Ht | [Ht | []]].
    + rewrite Forall_forall in Hlex. specialize (Hlex t Ht).
      unfold scannedLexeme in Hlex. rewrite Hty, jseqb_refl in Hlex.
      rewrite Hl in Hlex.
      destruct Hlex as (_ & [[Hp _] | (j & _ & Hnth)]); [contradiction|].
      eapply nth_error_In. exact Hnth.
    + subst t. simpl in Hty. discriminate.
  - intro Hin. destruct (Hto Hin) as (_ & t & _ & _ & _ & Hv). exact Hv.
Qed.

Lemma scan_variables_are_the_names_witness :
  scan (js "q1 -> not p")
  = Return ([ mkToken (js "variable") (Some (PNum 1)) 0 2;
              mkToken (js "->") None 3 5;
              mkToken (js "~") None 6 9;
              mkToken (js "variable") (Some (PNum 0)) 10 11;
              mkToken kScannerConstants.EOF None 11 12 ],
            [js "p"; js "q1"])
  /\ (In (js "q1") [js "p"; js "q1"] <->
      js "q1" <> js "__proto__"
      /\ exists t : tok,
           In t [ mkToken (js "variable") (Some (PNum 1)) 0 2;
                  mkToken (js "->") None 3 5;
                  mkToken (js "~") None 6 9;
                  mkToken (js "variable") (Some (PNum 0)) 10 11;
                  mkToken kScannerConstants.EOF None 11 12 ]
           /\ type t = js "variable"
           /\ lexeme (js "q1 -> not p") t = js "q1")
  /\ (In (js "q1") [js "p"; js "q1"] -> isVariableName (js "q1") = true).
Proof.
  assert (H : scan (js "q1 -> not p")
              = Return ([ mkToken (js "variable") (Some (PNum 1)) 0 2;
                          mkToken (js "->") None 3 5;
                          mkToken (js "~") None 6 9;
                          mkToken (js "variable") (Some (PNum 0)) 10 11;
                          mkToken kScannerConstants.EOF None 11 12 ],
                        [js "p"; js "q1"]))
    by (vm_compute; reflexivity).
  exact (conj H (scan_variables_are_the_names _ _ _ H (js "q1"))).
Defined.

(* ------------------------------------------------------------------ *)
(** *** Lexical errors *)

Lemma checkIntegrityFrom_first : forall (pre : jsstring) c rest k,
  forallb okayChars pre = true -> okayChars c = false ->
  checkIntegrityFrom (pre ++ c :: rest) k
  = Throw {| description := js "Illegal character";
             start_ := k + length pre; end_ := k + length pre + 1 |}.
Proof.
  induction pre as [|x pre IH]; intros c rest k Hpre Hc; simpl.
  - rewrite Hc. simpl. unfold scannerFail. rewrite Nat.add_0_r. reflexivity.
  - simpl in Hpre. apply andb_true_iff in Hpre. destruct Hpre as [Hx Hpre].
    rewrite Hx. simpl. rewrite IH by assumption.
    f_equal. f_equal; lia.
Qed.

Lemma nth_error_split_at : forall (A : Type) (l : list A) i c,
  nth_error l i = Some c -> l = firstn i l ++ c :: skipn (S i) l.
Proof.
  intros A l i c H. rewrite <- (firstn_skipn i l) at 1.
  rewrite (skipn_nth_error _ _ _ _ H). reflexivity.
Qed.

Lemma reserved_words : forall w : jsstring,
  isReservedWord w = true ->
  exists kind sps sp, In (kind, sps) spellingTable /\ In sp sps /\ w = js sp.
Proof.
  intros w H. unfold isReservedWord in H.
  rewrite !orb_true_iff in H.
  repeat match type of H with _ \/ _ => destruct H as [H | H] end;
    apply jseqb_eq in H.
  - exists "T"%string, ["T"; "true"; "⊤"; "\top"]%string, "T"%string.
    split; [|split; [|exact H]]; simpl; tauto.
  - exists "F"%string, ["F"; "false"; "⊥"; "\bot"]%string, "F"%string.
    split; [|split; [|exact H]]; simpl; tauto.
  - exists "/\"%string, ["/\"; "&&"; "and"; "^"; "∧"; "\land"; "\wedge"]%string, "and"%string.
    split; [|split; [|exact H]]; simpl; tauto.
  - exists "\/"%string, ["\/"; "||"; "or"; "∨"; "\lor"; "\vee"]%string, "or"%string.
    split; [|split; [|exact H]]; simpl; tauto.
  - exists "~"%string, ["~"; "!"; "not"; "¬"; "\lnot"; "\neg"]%string, "not"%string.
    split; [|split; [|exact H]]; simpl; tauto.
  - exists "<->"%string,
      ["<->"; "<=>"; "iff"; "↔"; "\leftrightarrow"; "\Leftrightarrow"]%string, "iff"%string.
    split; [|split; [|exact H]]; simpl; tauto.
  - exists "->"%string,
      ["->"; "=>"; "implies"; "→"; "\to"; "\rightarrow"; "\Rightarrow"]%string, "implies"%string.
    split; [|split; [|exact H]]; simpl; tauto.
  - exists "T"%string, ["T"; "true"; "⊤"; "\top"]%string, "true"%string.
    split; [|split; [|exact H]]; simpl; tauto.
  - exists "F"%string, ["F"; "false"; "⊥"; "\bot"]%string, "false"%string.
    split; [|split; [|exact H]]; simpl; tauto.
Qed.

(** Where neither a variable name nor an operator can be read, the
    character does not start a variable name: a reserved word is read as
    an operator. *)
Lemma no_token_no_letter : forall (input : jsstring) i c,
  charAt input i = Some c ->
  tryReadVariableName input i = None ->
  tryReadOperator input i = None ->
  isVariableStartChar c = false /\ isSingleCharOperator c = false.
Proof.
  intros input i c Hc Hv Ho. split.
  - destruct (isVariableStartChar c) eqn:Hs; [exfalso | reflexivity].
    unfold tryReadVariableName in Hv. rewrite Hc, Hs in Hv. simpl in Hv.
    destruct (isReservedWord (readVariableChars (skipn i input))) eqn:Hr;
      [|discriminate].
    destruct (reserved_words _ Hr) as (kind & sps & sp & Hin & Hsp & Hw).
    assert (Hocc : occursAt (js sp) input i).
    { unfold occursAt. rewrite <- Hw.
      destruct (readVariableChars_prefix (skipn i input)) as [rest Hrest].
      eapply substring_prefix. exact Hrest. }
    destruct (tryReadOperator_longest _ _ _ _ _ Hin Hsp Hocc) as (op & Hop & _).
    congruence.
  - unfold tryReadOperator in Ho.
    destruct (firstCase operatorSpellings input i); [discriminate|].
    unfold singleCharCase in Ho. rewrite Hc in Ho.
    destruct (isSingleCharOperator c); [discriminate | reflexivity].
Qed.

Lemma strayChar_spec : forall c,
  okayChars c = true -> isWhitespaceChar c = false ->
  isVariableStartChar c = false -> isSingleCharOperator c = false ->
  strayChar c = true.
Proof.
  intros c Hok Hw Hv Hs.
  unfold okayChars, isVariableChar in Hok. unfold isVariableStartChar in Hv.
  unfold isSingleCharOperator in Hs. unfold strayChar.
  rewrite Hw in Hok.
  destruct (inRange 65 90 c); [discriminate|].
  destruct (inRange 97 122 c); [discriminate|].
  destruct (c =? 95)%N; [discriminate|].
  destruct (c =? 40)%N; [discriminate|].
  destruct (c =? 41)%N; [discriminate|].
  destruct (c =? 126)%N; [discriminate|].
  destruct (c =? 84)%N; [discriminate|].
  destruct (c =? 70)%N; [discriminate|].
  destruct (c =? 94)%N; [discriminate|].
  destruct (c =? 33)%N; [discriminate|].
  destruct (isGlyph c); [discriminate|].
  simpl in Hok. rewrite !orb_false_r in Hok.
  exact Hok.
Qed.

(** The error of the loop of [preliminaryScan]. *)
Lemma preliminaryScanLoop_Throw : forall input : jsstring,
  forallb okayChars input = true ->
  forall fuel i variableSet tokens e,
    i <= length input ->
    preliminaryScanLoop fuel (input ++ kScannerConstants.EOF) i variableSet tokens
    = Throw e ->
    exists c, nth_error input (start_ e) = Some c
              /\ end_ e = start_ e + 1
              /\ description e = js "O carácter " ++ [c] ++ js " não deveria estar aqui."
              /\ strayChar c = true.
Proof.
  intros input Hok. pose proof (okayChars_not_EOF _ Hok) as Hno.
  induction fuel as [|fuel IH]; intros i vs toks e Hi H.
  - discriminate.
  - cbn [preliminaryScanLoop] in H.
    destruct (Nat.eq_dec i (length input)) as [E|NE].
    + assert (Hc : charAt (input ++ kScannerConstants.EOF) i = Some 36%N).
      { unfold charAt. rewrite nth_error_app2 by lia.
        replace (i - length input) with 0 by lia. reflexivity. }
      rewrite Hc in H. cbn [charStr] in H. rewrite jseqb_refl in H. discriminate.
    + assert (Hlt : i < length input) by lia.
      assert (Hc : exists c, nth_error input i = Some c /\ c <> 36%N).
      { destruct (nth_error input i) as [c|] eqn:Hc.
        - exists c. split; [reflexivity|]. intro; subst c.
          apply Hno. eapply nth_error_In. exact Hc.
        - apply nth_error_None in Hc. lia. }
      destruct Hc as (c & Hc & Hne).
      assert (Hc' : charAt (input ++ kScannerConstants.EOF) i = Some c).
      { unfold charAt. rewrite nth_error_app1 by exact Hlt. exact Hc. }
      rewrite Hc' in H. cbn [charStr] in H.
      assert (Hnot : jseqb [c] kScannerConstants.EOF = false).
      { apply jseqb_neq. intro E. inversion E. contradiction. }
      rewrite Hnot in H.
      unfold isVariableStart, scanVariable in H.
      destruct (tryReadVariableName (input ++ kScannerConstants.EOF) i) as [name|] eqn:Hv.
      * destruct (tryReadVariableName_bounds _ _ _ Hv) as [H1 H2].
        apply IH in H; [exact H | lia].
      * unfold isOperatorStart in H.
        destruct (tryReadOperator (input ++ kScannerConstants.EOF) i) as [op|] eqn:Ho.
        -- destruct (tryReadOperator_bounds _ _ _ Hno Ho) as (H1 & H2 & _).
           apply IH in H; [exact H | lia].
        -- destruct (isWhitespace (Some c)) eqn:Hw.
           ++ apply IH in H; [exact H | lia].
           ++ unfold scannerFail in H. inversion H; subst e. simpl.
              exists c. repeat split; try assumption.
              destruct (no_token_no_letter _ _ _ Hc' Hv Ho) as [Hs Hsingle].
              apply strayChar_spec; try assumption.
              rewrite forallb_forall in Hok. apply Hok.
              eapply nth_error_In. exact Hc.
Qed.

(** X3 (checkIntegrity, scan, parse): a character outside the
    alphabet makes [parse] fail with the message "Illegal character" at
    the first such character, whatever else the input holds. *)
Theorem illegal_character_reported_first : forall (input : jsstring) i c,
  nth_error input i = Some c ->
  okayChars c = false ->
  forallb okayChars (firstn i input) = true ->
  parse input = Throw {| description := js "Illegal character";
                         start_ := i; end_ := i + 1 |}.
Proof.
  intros input i c Hc Hbad Hpre.
  unfold parse, scan, checkIntegrity.
  rewrite (nth_error_split_at _ _ _ _ Hc).
  rewrite (checkIntegrityFrom_first _ _ _ 0 Hpre Hbad).
  assert (Hi : i < length input) by (apply nth_error_Some; congruence).
  rewrite length_firstn. replace (Nat.min i (length input)) with i by lia.
  reflexivity.
Qed.

Lemma illegal_character_reported_first_witness :
  nth_error (js "1 + p") 2 = Some 43%N
  /\ okayChars 43%N = false
  /\ forallb okayChars (firstn 2 (js "1 + p")) = true
  /\ parse (js "1 + p") = Throw {| description := js "Illegal character";
                                   start_ := 2; end_ := 2 + 1 |}.
Proof.
  assert (H1 : nth_error (js "1 + p") 2 = Some 43%N) by (vm_compute; reflexivity).
  assert (H2 : okayChars 43%N = false) by (vm_compute; reflexivity).
  assert (H3 : forallb okayChars (firstn 2 (js "1 + p")) = true)
    by (vm_compute; reflexivity).
  exact (conj H1 (conj H2 (conj H3
           (illegal_character_reported_first _ _ _ H1 H2 H3)))).
Defined.

(** X4 (preliminaryScan, scannerFail, isVariableStart, isOperatorStart,
    isWhitespace): when every character of the input is of the alphabet
    and [scan] still fails, the error covers exactly one character of the
    input, its message names that character, and the character is a digit
    or one of [\ / < > - & | =]. *)
Theorem stray_character_error : forall (input : jsstring) e,
  forallb okayChars input = true ->
  scan input = Throw e ->
  exists c, nth_error input (start_ e) = Some c
            /\ end_ e = start_ e + 1
            /\ description e = js "O carácter " ++ [c] ++ js " não deveria estar aqui."
            /\ strayChar c = true.
Proof.
  intros input e Hok H. unfold scan, checkIntegrity in H.
  rewrite (checkIntegrityFrom_okay _ 0 Hok) in H. cbn [bind] in H.
  unfold preliminaryScan in H.
  destruct (preliminaryScanLoop _ _ 0 [] []) as [[ptoks vs]|e'|f] eqn:Hl;
    cbn [bind] in H; try discriminate.
  inversion H; subst e'.
  eapply preliminaryScanLoop_Throw; [exact Hok | | exact Hl]. lia.
Qed.

Lemma stray_character_error_witness :
  forallb okayChars (js "p - q") = true
  /\ scan (js "p - q") = Throw strayExample
  /\ exists c, nth_error (js "p - q") (start_ strayExample) = Some c
               /\ end_ strayExample = start_ strayExample + 1
               /\ description strayExample
                  = js "O carácter " ++ [c] ++ js " não deveria estar aqui."
               /\ strayChar c = true.
Proof.
  assert (H1 : forallb okayChars (js "p - q") = true) by (vm_compute; reflexivity).
  assert (H2 : scan (js "p - q") = Throw strayExample) by (vm_compute; reflexivity).
  exact (conj H1 (conj H2 (stray_character_error _ _ H1 H2))).
Defined.

(* ------------------------------------------------------------------ *)
(** *** Variable names in the input *)

Lemma readVariableChars_end : forall rest : jsstring,
  endsName rest -> readVariableChars rest = [].
Proof.
  intros [|c rest] H; [reflexivity|]. simpl in *. rewrite H. reflexivity.
Qed.

(** One round of the loop at a variable name. *)
Lemma preliminaryScanLoop_variable :
  forall (name input : jsstring) i fuel variableSet tokens,
    isVariableName name = true ->
    occursAt name input i ->
    endsName (skipn (i + length name) input) ->
    preliminaryScanLoop (S fuel) input i variableSet tokens
    = preliminaryScanLoop fuel input (i + length name)
        (objSet variableSet name PTrue)
        (tokens ++ [makeVariableToken name i (i + length name)]).
Proof.
  intros name input i fuel vs toks Hname Hocc Hend.
  destruct (occursAt_skipn _ _ _ Hocc) as [rest Hrest].
  assert (Htail : skipn (i + length name) input = rest).
  { rewrite Nat.add_comm, <- skipn_skipn, Hrest.
    rewrite skipn_app, Nat.sub_diag, skipn_all. reflexivity. }
  rewrite Htail in Hend.
  destruct (variableName_chars _ Hname) as (Hall & c & name' & E & Hs).
  assert (Hc : charAt input i = Some c).
  { unfold charAt. rewrite <- (Nat.add_0_r i), <- nth_error_skipn, Hrest, E.
    reflexivity. }
  assert (Hread : tryReadVariableName input i = Some name).
  { unfold tryReadVariableName. rewrite Hc, Hs. cbn [negb].
    rewrite Hrest, (readVariableChars_name _ _ Hall), (readVariableChars_end _ Hend).
    rewrite app_nil_r.
    unfold isVariableName in Hname. rewrite E in Hname.
    rewrite !andb_true_iff in Hname. destruct Hname as [_ Hr].
    apply negb_true_iff in Hr. rewrite <- E in Hr. rewrite Hr. reflexivity. }
  cbn [preliminaryScanLoop]. rewrite Hc. cbn [charStr].
  assert (Hnot : jseqb [c] kScannerConstants.EOF = false).
  { apply jseqb_neq. intro Heq. inversion Heq; subst c. discriminate. }
  rewrite Hnot. unfold isVariableStart, scanVariable. rewrite Hread. reflexivity.
Qed.

(** The names of the variable set after [variableSet[name] = true]. *)
Lemma objSet_names : forall o name v k,
  In k (forIn (objSet o name v))
  <-> In k (forIn o) \/ (k = name /\ name <> js "__proto__").
Proof.
  intros o name v k. split.
  - intro H. destruct (jseqb name (js "__proto__")) eqn:E.
    + left. unfold objSet in H. rewrite E in H. exact H.
    + apply jseqb_neq in E. destruct (objSet_keys _ _ _ _ H) as [Hk | Hk].
      * right. split; assumption.
      * left. exact Hk.
  - intros [H | [Hk Hp]].
    + apply objSet_In. exact H.
    + subst k. apply objSet_added. exact Hp.
Qed.

(** X5 (preliminaryScan, isVariableStart, scanVariable,
    tryReadVariableName, isReservedWord): a variable name that occurs in
    the input, followed by the end or by a character that cannot continue
    it, is read as one variable token over its whole length, also when it
    starts with a reserved word or holds the spelling of an operator, as
    [or] in [orange].  The round goes on with the variable set after
    [variableSet[name] = true]: its names are those it had and the name
    read, unless the name read is [__proto__], which the assignment does
    not enter into the set. *)
Theorem identifier_read_whole :
  forall (name input : jsstring) i fuel variableSet tokens,
    isVariableName name = true ->
    occursAt name input i ->
    endsName (skipn (i + length name) input) ->
    preliminaryScanLoop (S fuel) input i variableSet tokens
    = preliminaryScanLoop fuel input (i + length name)
        (objSet variableSet name PTrue)
        (tokens ++ [makeVariableToken name i (i + length name)])
    /\ (forall k, In k (forIn (objSet variableSet name PTrue))
                  <-> In k (forIn variableSet)
                      \/ (k = name /\ name <> js "__proto__"))
    /\ (name = js "__proto__" -> objSet variableSet name PTrue = variableSet).
Proof.
  intros name input i fuel vs toks Hname Hocc Hend.
  split; [apply preliminaryScanLoop_variable; assumption|].
  split; [intro k; apply objSet_names|].
  intro E. subst name. reflexivity.
Qed.

Lemma identifier_read_whole_witness :
  isVariableName (js "orange") = true
  /\ occursAt (js "orange") (js "p -> orange)$") 5
  /\ endsName (skipn (5 + length (js "orange")) (js "p -> orange)$"))
  /\ forall fuel variableSet tokens,
       preliminaryScanLoop (S fuel) (js "p -> orange)$") 5 variableSet tokens
       = preliminaryScanLoop fuel (js "p -> orange)$") (5 + length (js "orange"))
           (objSet variableSet (js "orange") PTrue)
           (tokens ++ [makeVariableToken (js "orange") 5 (5 + length (js "orange"))])
       /\ (forall k, In k (forIn (objSet variableSet (js "orange") PTrue))
                     <-> In k (forIn variableSet)
                         \/ (k = js "orange" /\ js "orange" <> js "__proto__"))
       /\ (js "orange" = js "__proto__"
           -> objSet variableSet (js "orange") PTrue = variableSet).
Proof.
  assert (H1 : isVariableName (js "orange") = true) by (vm_compute; reflexivity).
  assert (H2 : occursAt (js "orange") (js "p -> orange)$") 5)
    by (vm_compute; reflexivity).
  assert (H3 : endsName (skipn (5 + length (js "orange")) (js "p -> orange)$")))
    by (vm_compute; reflexivity).
  exact (conj H1 (conj H2 (conj H3
           (fun fuel variableSet tokens =>
              identifier_read_whole _ _ _ fuel variableSet tokens H1 H2 H3)))).
Defined.

(* ------------------------------------------------------------------ *)
(** *** The rounds of the scanning loop *)

Lemma runs_refl : forall input st, runs input 0 st st.
Proof. intros input st fuel. reflexivity. Qed.

Lemma runs_trans : forall input k1 k2 st1 st2 st3,
  runs input k1 st1 st2 -> runs input k2 st2 st3 ->
  runs input (k1 + k2) st1 st3.
Proof.
  intros input k1 k2 st1 st2 st3 H1 H2 fuel.
  rewrite <- Nat.add_assoc, H1, H2. reflexivity.
Qed.

Lemma single_starts_no_spelling : forall c,
  isSingleCharOperator c = true -> isVariableStartChar c = false ->
  startsSpelling c = false.
Proof.
  intros c H Hv.
  assert (Hc : In c [40; 41; 126; 94; 33; 8743; 8744; 8594; 8596; 8868; 8869; 172]%N).
  { class_to_prop H. cbn [In].
    repeat match type of H with _ \/ _ => destruct H as [H | H] end;
      subst c; try discriminate; tauto. }
  cbn [In] in Hc.
  repeat match type of Hc with _ \/ _ => destruct Hc as [Hc | Hc] end;
    try contradiction; subst c; vm_compute; reflexivity.
Qed.

Lemma firstCase_starts : forall (input : jsstring) i c,
  charAt input i = Some c -> startsSpelling c = false ->
  firstCase operatorSpellings input i = None.
Proof.
  intros input i c Hc Hs.
  destruct (firstCase operatorSpellings input i) as [op|] eqn:Hf; [|reflexivity].
  exfalso.
  destruct (firstCase_Some _ _ _ _ Hf) as (n & sps & s & Hin & Hsin & Hop & Hsub & Hfit).
  pose proof (spelling_in_table _ _ _ Hin Hsin) as Hok. unfold spellingOK in Hok.
  rewrite !andb_true_iff in Hok.
  destruct Hok as ((((Hlen & Hn) & _) & _) & _).
  apply Nat.eqb_eq in Hlen. apply Nat.leb_le in Hn.
  assert (H0 : nth_error op 0 = Some c).
  { rewrite Hsub. rewrite substring_nth_error by lia.
    rewrite Nat.add_0_r. exact Hc. }
  assert (Hex : startsSpelling c = true).
  { unfold startsSpelling. apply existsb_exists. exists (n, sps).
    split; [exact Hin|]. cbn [snd]. apply existsb_exists. exists s.
    split; [exact Hsin|]. rewrite <- Hop.
    destruct op as [|h op]; [discriminate|]. cbn [nth_error] in H0.
    inversion H0. apply N.eqb_refl. }
  congruence.
Qed.

(** One round of the loop at a parenthesis, a negation sign or a glyph. *)
Lemma preliminaryScanLoop_single : forall (input : jsstring) i c variableSet tokens,
  charAt input i = Some c ->
  isSingleCharOperator c = true ->
  isVariableStartChar c = false ->
  runs input 1 (i, variableSet, tokens)
       (i + 1, variableSet, tokens ++ [makeIdentityToken [c] i]).
Proof.
  intros input i c vs toks Hc Hs Hv fuel.
  cbn [Nat.add scanFrom preliminaryScanLoop]. rewrite Hc. cbn [charStr].
  assert (Hnot : jseqb [c] kScannerConstants.EOF = false).
  { apply jseqb_neq. intro E. inversion E; subst c. discriminate. }
  rewrite Hnot.
  unfold isVariableStart, tryReadVariableName. rewrite Hc, Hv. cbn [negb].
  unfold isOperatorStart, tryReadOperator.
  rewrite (firstCase_starts _ _ _ Hc (single_starts_no_spelling _ Hs Hv)).
  unfold singleCharCase. rewrite Hc, Hs. reflexivity.
Qed.

(** One round of the loop at a whitespace character. *)
Lemma preliminaryScanLoop_space : forall (input : jsstring) i c variableSet tokens,
  charAt input i = Some c ->
  isWhitespaceChar c = true ->
  runs input 1 (i, variableSet, tokens) (i + 1, variableSet, tokens).
Proof.
  intros input i c vs toks Hc Hw fuel.
  cbn [Nat.add scanFrom preliminaryScanLoop]. rewrite Hc. cbn [charStr].
  destruct (whitespace_facts c Hw) as (Hv & _ & _ & Hne).
  assert (Hnot : jseqb [c] kScannerConstants.EOF = false).
  { apply jseqb_neq. intro E. inversion E. contradiction. }
  rewrite Hnot.
  unfold isVariableStart, tryReadVariableName. rewrite Hc, Hv. cbn [negb].
  unfold isOperatorStart. rewrite (tryReadOperator_whitespace _ _ _ Hc Hw).
  cbn [isWhitespace]. rewrite Hw. reflexivity.
Qed.

(** One round of the loop at a variable name. *)
Lemma preliminaryScanLoop_name : forall (name input : jsstring) i variableSet tokens,
  isVariableName name = true ->
  occursAt name input i ->
  endsName (skipn (i + length name) input) ->
  runs input 1 (i, variableSet, tokens)
       (i + length name, objSet variableSet name PTrue,
        tokens ++ [makeVariableToken name i (i + length name)]).
Proof.
  intros name input i vs toks Hname Hocc Hend fuel.
  cbn [Nat.add scanFrom]. apply preliminaryScanLoop_variable; assumption.
Qed.

(** The round of the loop at the EOF marker. *)
Lemma preliminaryScanLoop_EOF : forall (input : jsstring) i fuel variableSet tokens,
  charAt input i = Some 36%N ->
  scanFrom (S fuel) input (i, variableSet, tokens)
  = Return (tokens ++ [makeIdentityToken kScannerConstants.EOF i], variableSet).
Proof.
  intros input i fuel vs toks Hc.
  cbn [scanFrom preliminaryScanLoop]. rewrite Hc. cbn [charStr].
  rewrite jseqb_refl. reflexivity.
Qed.

(** The character at the end of a prefix, and the text that occurs there. *)
Lemma charAt_middle : forall (pre rest : jsstring) c,
  charAt (pre ++ c :: rest) (length pre) = Some c.
Proof.
  intros pre rest c. unfold charAt. rewrite nth_error_app2 by lia.
  rewrite Nat.sub_diag. reflexivity.
Qed.

Lemma occursAt_middle : forall (pre s rest : jsstring),
  occursAt s (pre ++ s ++ rest) (length pre).
Proof.
  intros pre s rest. unfold occursAt, substring.
  rewrite skipn_app, Nat.sub_diag, skipn_all. cbn [skipn app].
  replace (length pre + length s - length pre) with (length s) by lia.
  rewrite firstn_app, Nat.sub_diag, firstn_all. cbn [firstn].
  apply app_nil_r.
Qed.

Lemma skipn_middle : forall (pre s rest : jsstring),
  skipn (length pre + length s) (pre ++ s ++ rest) = rest.
Proof.
  intros pre s rest. rewrite app_assoc, <- length_app.
  rewrite skipn_app, Nat.sub_diag, skipn_all. reflexivity.
Qed.

(* ------------------------------------------------------------------ *)
(** *** Operator spellings *)

(** X16 (translate): the token types are fixed points of
    [translate]: translating twice is translating once. *)
Theorem translate_idempotent : forall s : jsstring,
  translate (translate s) = translate s.
Proof.
  intro s.
  assert (H : translate s = s
              \/ In (translate s)
                    [js "/\"; js "\/"; js "->"; js "<->"; js "~"; js "T"; js "F"]).
  { unfold translate.
    repeat match goal with
           | |- context [if ?b then _ else _] => destruct b
           end; simpl; tauto. }
  destruct H as [H | H].
  - rewrite H. exact H.
  - simpl in H.
    repeat match type of H with _ \/ _ => destruct H as [H | H] end;
      try contradiction; rewrite <- H; reflexivity.
Qed.

(* ------------------------------------------------------------------ *)
(** *** Priorities and negations *)

Lemma priorityOf_no_throw : forall t e, priorityOf t <> Throw e.
Proof.
  intros t e. unfold priorityOf.
  repeat match goal with
         | |- context [if ?b then _ else _] => destruct b
         end; discriminate.
Qed.

Lemma createOperatorNode_no_throw : forall l t r e, createOperatorNode l t r <> Throw e.
Proof.
  intros l t r e. unfold createOperatorNode.
  repeat match goal with
         | |- context [if ?b then _ else _] => destruct b
         end; discriminate.
Qed.

Lemma wrapOperand_no_throw : forall t e, wrapOperand t <> Throw e.
Proof.
  intros t e. unfold wrapOperand.
  repeat match goal with
         | |- context [if ?b then _ else _] => destruct b
         end; discriminate.
Qed.

Lemma step_operand : forall t n rest ops rands,
  wrapOperand t = Return n ->
  parseLoop (t :: rest) (mkState ops rands true)
  = parseLoop rest (mkState (snd (addOperand n rands ops))
                            (fst (addOperand n rands ops)) false).
Proof.
  intros t n rest ops rands H. cbn [parseLoop]. unfold parseToken.
  cbn [needOperand operators operands].
  rewrite (wrapOperand_isOperand _ _ H), H. cbn [bind].
  destruct (addOperand n rands ops) as [rands' ops']. reflexivity.
Qed.

Lemma step_push : forall t rest ops rands,
  isOperand t = false ->
  (type t === "(") || (type t === "~") = true ->
  parseLoop (t :: rest) (mkState ops rands true)
  = parseLoop rest (mkState (t :: ops) rands true).
Proof.
  intros t rest ops rands H1 H2. cbn [parseLoop]. unfold parseToken.
  cbn [needOperand operators operands]. rewrite H1, H2. reflexivity.
Qed.

Lemma step_binary : forall t rest ops rands ops' rands',
  isBinaryOperator t = true ->
  evaluateHigherPriority (S (length ops)) t ops rands = Return (ops', rands') ->
  parseLoop (t :: rest) (mkState ops rands false)
  = parseLoop rest (mkState (t :: ops') rands' true).
Proof.
  intros t rest ops rands ops' rands' H1 H2. cbn [parseLoop]. unfold parseToken.
  cbn [needOperand operators operands]. rewrite H1. cbn [orb].
  rewrite H2. cbn [bind].
  destruct (binary_facts t H1) as (_ & _ & _ & _ & _ & He & _). rewrite He.
  reflexivity.
Qed.

Lemma step_eof : forall t rest ops rands ops' rands',
  isEOF t = true ->
  evaluateHigherPriority (S (length ops)) t ops rands = Return (ops', rands') ->
  parseLoop (t :: rest) (mkState ops rands false)
  = Return (mkState (t :: ops') rands' true).
Proof.
  intros t rest ops rands ops' rands' H1 H2. cbn [parseLoop]. unfold parseToken.
  cbn [needOperand operators operands]. rewrite H1, orb_true_r.
  rewrite H2. reflexivity.
Qed.

Lemma evaluate_stop : forall fuel curr top rest rands pt pc,
  type top === "(" = false ->
  priorityOf top = Return pt -> priorityOf curr = Return pc ->
  (pt <=? pc)%Z = true ->
  evaluateHigherPriority (S fuel) curr (top :: rest) rands
  = Return (top :: rest, rands).
Proof.
  intros fuel curr top rest rands pt pc H1 H2 H3 H4.
  cbn [evaluateHigherPriority]. rewrite H1, H2, H3. cbn [bind]. rewrite H4.
  reflexivity.
Qed.

Lemma evaluate_pop : forall fuel curr top rest rhs lhs rands pt pc n,
  type top === "(" = false ->
  priorityOf top = Return pt -> priorityOf curr = Return pc ->
  (pt <=? pc)%Z = false ->
  createOperatorNode lhs top rhs = Return n ->
  evaluateHigherPriority (S fuel) curr (top :: rest) (rhs :: lhs :: rands)
  = evaluateHigherPriority fuel curr (snd (addOperand n rands rest))
                           (fst (addOperand n rands rest)).
Proof.
  intros fuel curr top rest rhs lhs rands pt pc n H1 H2 H3 H4 H5.
  cbn [evaluateHigherPriority]. rewrite H1, H2, H3. cbn [bind]. rewrite H4.
  cbn [popOperand bind]. rewrite H5. cbn [bind].
  destruct (addOperand n rands rest) as [rands' ops']. reflexivity.
Qed.

Lemma evaluate_empty : forall fuel curr rands,
  evaluateHigherPriority (S fuel) curr [] rands = Return ([], rands).
Proof. reflexivity. Qed.

Lemma parseTokens_finish : forall tokens vars eof a rest,
  parseLoop tokens initialState = Return (mkState [eof] (a :: rest) true) ->
  isEOF eof = true ->
  parseTokens tokens vars = Return {| ast := a; variables := vars |}.
Proof.
  intros tokens vars eof a rest H He. unfold parseTokens. rewrite H.
  cbn [bind operators operands length Nat.eqb negb assert]. rewrite He.
  reflexivity.
Qed.

(** The position of a connective in [connectives] is its strength: the
    priority [priorityOf] gives it is 3 minus the position. *)
Lemma connective_strength : forall i ty mk,
  nth_error connectives i = Some (ty, mk) ->
  forall t : tok, type t = js ty ->
    priorityOf t = Return (3 - Z.of_nat i)%Z
    /\ (forall l r, createOperatorNode l t r = Return (mk l r))
    /\ isBinaryOperator t = true
    /\ type t === "(" = false
    /\ type t === "~" = false
    /\ isEOF t = false
    /\ isOperand t = false.
Proof.
  intros i ty mk H t Ht.
  unfold priorityOf, createOperatorNode, isBinaryOperator, isEOF, isOperand.
  rewrite Ht.
  destruct i as [|[|[|[|i]]]]; simpl in H; try (destruct i; discriminate);
    inversion H; subst ty mk; repeat split.
Qed.

Lemma addOperand_no_negation : forall n rands top rest,
  type top === "~" = false ->
  addOperand n rands (top :: rest) = (n :: rands, top :: rest).
Proof. intros n rands top rest H. cbn [addOperand]. rewrite H. reflexivity. Qed.

(** The tokens [x o1 y o2 z] and the end: the connective of higher
    priority is evaluated first; at equal priority the second one. *)
Lemma parseTokens_two_connectives :
  forall x y z o1 o2 eof nx ny nz p1 p2 mk1 mk2 vars,
    wrapOperand x = Return nx -> wrapOperand y = Return ny ->
    wrapOperand z = Return nz ->
    priorityOf o1 = Return p1 -> priorityOf o2 = Return p2 ->
    (0 <= p1)%Z -> (0 <= p2)%Z ->
    (forall l r, createOperatorNode l o1 r = Return (mk1 l r)) ->
    (forall l r, createOperatorNode l o2 r = Return (mk2 l r)) ->
    isBinaryOperator o1 = true -> isBinaryOperator o2 = true ->
    isEOF eof = true ->
    parseTokens [x; o1; y; o2; z; eof] vars
    = Return {| ast := if (p1 <=? p2)%Z then mk1 nx (mk2 ny nz)
                       else mk2 (mk1 nx ny) nz;
                variables := vars |}.
Proof.
  intros x y z o1 o2 eof nx ny nz p1 p2 mk1 mk2 vars
         Hx Hy Hz Hp1 Hp2 Hpos1 Hpos2 Hmk1 Hmk2 Hb1 Hb2 He.
  destruct (binary_facts o1 Hb1) as (_ & _ & Ho1 & Hn1 & _).
  destruct (binary_facts o2 Hb2) as (_ & _ & Ho2 & Hn2 & _).
  destruct (eof_facts eof He) as (Hpe & _).
  assert (Hlow1 : (p1 <=? -1)%Z = false) by (apply Z.leb_gt; lia).
  assert (Hlow2 : (p2 <=? -1)%Z = false) by (apply Z.leb_gt; lia).
  eapply parseTokens_finish; [|exact He].
  unfold initialState.
  rewrite (step_operand _ _ _ _ _ Hx). cbn [addOperand fst snd].
  rewrite (step_binary o1 _ [] [nx] [] [nx] Hb1 (evaluate_empty _ _ _)).
  rewrite (step_operand _ _ _ _ _ Hy).
  rewrite (addOperand_no_negation _ _ _ _ Hn1). cbn [fst snd].
  destruct (p1 <=? p2)%Z eqn:Hcmp.
  - rewrite (step_binary o2 _ [o1] [ny; nx] [o1] [ny; nx] Hb2
               (evaluate_stop _ _ _ _ _ _ _ Ho1 Hp1 Hp2 Hcmp)).
    rewrite (step_operand _ _ _ _ _ Hz).
    rewrite (addOperand_no_negation _ _ _ _ Hn2). cbn [fst snd].
    erewrite step_eof; [reflexivity | exact He |].
    cbn [length].
    rewrite (evaluate_pop _ _ _ _ _ _ _ _ _ _ Ho2 Hp2 Hpe Hlow2 (Hmk2 ny nz)).
    rewrite (addOperand_no_negation _ _ _ _ Hn1). cbn [fst snd].
    rewrite (evaluate_pop _ _ _ _ _ _ _ _ _ _ Ho1 Hp1 Hpe Hlow1 (Hmk1 nx _)).
    cbn [addOperand fst snd]. apply evaluate_empty.
  - assert (Hstep : evaluateHigherPriority (S (length [o1])) o2 [o1] [ny; nx]
                    = Return ([], [mk1 nx ny])).
    { cbn [length].
      rewrite (evaluate_pop _ _ _ _ _ _ _ _ _ _ Ho1 Hp1 Hp2 Hcmp (Hmk1 nx ny)).
      cbn [addOperand fst snd]. apply evaluate_empty. }
    rewrite (step_binary o2 _ _ _ _ _ Hb2 Hstep).
    rewrite (step_operand _ _ _ _ _ Hz).
    rewrite (addOperand_no_negation _ _ _ _ Hn2). cbn [fst snd].
    erewrite step_eof; [reflexivity | exact He |].
    cbn [length].
    rewrite (evaluate_pop _ _ _ _ _ _ _ _ _ _ Ho2 Hp2 Hpe Hlow2 (Hmk2 _ nz)).
    cbn [addOperand fst snd]. apply evaluate_empty.
Qed.

(** X8 (parse, priorityOf, createOperatorNode, isBinaryOperator):
    the connectives bind in the order and, or, implies, iff, from the
    tightest to the loosest.  For operands [x], [y], [z], a connective [a]
    and a connective [b] that comes later in this order, [x a y b z] is
    parsed as [(x a y) b z] and [x b y a z] as [x b (y a z)]. *)
Theorem tighter_connective_first :
  forall i j ta mka tb mkb,
    i < j ->
    nth_error connectives i = Some (ta, mka) ->
    nth_error connectives j = Some (tb, mkb) ->
    forall (x y z oa ob eof : tok) nx ny nz vars,
      wrapOperand x = Return nx ->
      wrapOperand y = Return ny ->
      wrapOperand z = Return nz ->
      type oa = js ta ->
      type ob = js tb ->
      isEOF eof = true ->
      parseTokens [x; oa; y; ob; z; eof] vars
      = Return {| ast := mkb (mka nx ny) nz; variables := vars |}
      /\ parseTokens [x; ob; y; oa; z; eof] vars
         = Return {| ast := mkb nx (mka ny nz); variables := vars |}.
Proof.
  intros i j ta mka tb mkb Hij Ha Hb x y z oa ob eof nx ny nz vars
         Hx Hy Hz Hoa Hob He.
  destruct (connective_strength _ _ _ Ha oa Hoa) as (Hpa & Hmka & Hba & _).
  destruct (connective_strength _ _ _ Hb ob Hob) as (Hpb & Hmkb & Hbb & _).
  assert (Hj : j < 4).
  { change 4 with (length connectives). apply nth_error_Some.
    rewrite Hb. discriminate. }
  split.
  - rewrite (parseTokens_two_connectives x y z oa ob eof nx ny nz _ _ mka mkb vars
               Hx Hy Hz Hpa Hpb); try assumption; try lia.
    replace (3 - Z.of_nat i <=? 3 - Z.of_nat j)%Z with false
      by (symmetry; apply Z.leb_gt; lia).
    reflexivity.
  - rewrite (parseTokens_two_connectives x y z ob oa eof nx ny nz _ _ mkb mka vars
               Hx Hy Hz Hpb Hpa); try assumption; try lia.
    replace (3 - Z.of_nat j <=? 3 - Z.of_nat i)%Z with true
      by (symmetry; apply Z.leb_le; lia).
    reflexivity.
Qed.

Lemma tighter_connective_first_witness :
  parseTokens [ mkToken (js "variable") (Some (PNum 0)) 0 1;
                mkToken (js "/\") None 2 4;
                mkToken (js "variable") (Some (PNum 1)) 5 6;
                mkToken (js "->") None 7 9;
                mkToken (js "variable") (Some (PNum 2)) 10 11;
                mkToken kScannerConstants.EOF None 11 12 ]
              [js "p"; js "q"; js "r"]
  = Return {| ast := impliesNode (andNode (variableNode (PNum 0))
                                          (variableNode (PNum 1)))
                                 (variableNode (PNum 2));
              variables := [js "p"; js "q"; js "r"] |}
  /\ parseTokens [ mkToken (js "variable") (Some (PNum 0)) 0 1;
                   mkToken (js "->") None 7 9;
                   mkToken (js "variable") (Some (PNum 1)) 5 6;
                   mkToken (js "/\") None 2 4;
                   mkToken (js "variable") (Some (PNum 2)) 10 11;
                   mkToken kScannerConstants.EOF None 11 12 ]
                 [js "p"; js "q"; js "r"]
     = Return {| ast := impliesNode (variableNode (PNum 0))
                                    (andNode (variableNode (PNum 1))
                                             (variableNode (PNum 2)));
                 variables := [js "p"; js "q"; js "r"] |}.
Proof.
  apply (tighter_connective_first 0 2 "/\"%string andNode "->"%string impliesNode);
    try reflexivity.
  lia.
Defined.

Lemma negation_facts : forall t : tok,
  type t = js "~" ->
  isOperand t = false /\ (type t === "(") || (type t === "~") = true
  /\ type t === "~" = true.
Proof.
  intros t H. unfold isOperand. rewrite H. repeat split.
Qed.

Lemma parseLoop_negations : forall negs rest ops rands,
  Forall (fun t : tok => type t = js "~") negs ->
  parseLoop (negs ++ rest) (mkState ops rands true)
  = parseLoop rest (mkState (rev negs ++ ops) rands true).
Proof.
  induction negs as [|t negs IH]; intros rest ops rands H.
  - reflexivity.
  - inversion H as [|? ? Ht Hnegs]; subst.
    destruct (negation_facts t Ht) as (H1 & H2 & _).
    cbn [app]. rewrite (step_push _ _ _ _ H1 H2). rewrite IH by exact Hnegs.
    cbn [rev]. rewrite <- app_assoc. reflexivity.
Qed.

Lemma negations_shift : forall k n, negations k (negateNode n) = negateNode (negations k n).
Proof.
  induction k as [|k IH]; intro n; cbn [negations]; [reflexivity|].
  rewrite IH. reflexivity.
Qed.

Lemma addOperand_negations : forall negs n rands ops,
  Forall (fun t : tok => type t = js "~") negs ->
  topNotNegation ops ->
  addOperand n rands (negs ++ ops) = (negations (length negs) n :: rands, ops).
Proof.
  induction negs as [|t negs IH]; intros n rands ops H Hops.
  - cbn [app length negations]. destruct ops as [|top ops]; [reflexivity|].
    simpl in Hops. cbn [addOperand]. rewrite Hops. reflexivity.
  - inversion H as [|? ? Ht Hnegs]; subst.
    destruct (negation_facts t Ht) as (_ & _ & H3).
    cbn [app addOperand length]. rewrite H3. rewrite IH by assumption.
    cbn [negations]. rewrite negations_shift. reflexivity.
Qed.

(** X9 (parse, addOperand, wrapOperand): negation binds tighter
    than every connective, and repeated negations nest: in
    [~...~ x op ~...~ y] each side is negated as many times as it has
    negation signs, and then the connective is applied. *)
Theorem negation_binds_tightest :
  forall opType mk,
    In (opType, mk) connectives ->
    forall (negs1 negs2 : list tok) (x y o eof : tok) nx ny vars,
      Forall (fun t : tok => type t = js "~") negs1 ->
      Forall (fun t : tok => type t = js "~") negs2 ->
      wrapOperand x = Return nx ->
      wrapOperand y = Return ny ->
      type o = js opType ->
      isEOF eof = true ->
      parseTokens (negs1 ++ [x; o] ++ negs2 ++ [y; eof]) vars
      = Return {| ast := mk (negations (length negs1) nx)
                            (negations (length negs2) ny);
                  variables := vars |}.
Proof.
  intros opType mk Hin negs1 negs2 x y o eof nx ny vars Hn1 Hn2 Hx Hy Ho He.
  destruct (connective_facts _ _ Hin) as (p & Hp & Hfacts).
  destruct (Hfacts o Ho) as (Hpo & Hmk & Hbin & Hopen & Hneg & _).
  destruct (eof_facts eof He) as (Hpe & _).
  assert (Hlow : (p <=? -1)%Z = false) by (apply Z.leb_gt; lia).
  eapply parseTokens_finish; [|exact He].
  unfold initialState.
  rewrite (parseLoop_negations _ _ _ _ Hn1). cbn [app].
  rewrite (step_operand _ _ _ _ _ Hx).
  rewrite (addOperand_negations (rev negs1) nx [] []);
    [|apply Forall_rev; exact Hn1 | exact I].
  rewrite length_rev. cbn [fst snd].
  rewrite (step_binary o _ [] _ [] _ Hbin (evaluate_empty _ _ _)).
  rewrite (parseLoop_negations _ _ _ _ Hn2).
  rewrite (step_operand _ _ _ _ _ Hy).
  rewrite (addOperand_negations (rev negs2) ny _ [o]);
    [|apply Forall_rev; exact Hn2 | exact Hneg].
  rewrite length_rev. cbn [fst snd].
  erewrite step_eof; [reflexivity | exact He |].
  cbn [length].
  rewrite (evaluate_pop _ _ _ _ _ _ _ _ _ _ Hopen Hpo Hpe Hlow (Hmk _ _)).
  cbn [addOperand fst snd]. apply evaluate_empty.
Qed.

Lemma negation_binds_tightest_witness :
  parseTokens ([ mkToken (js "~") None 0 1; mkToken (js "~") None 1 2 ]
               ++ [ mkToken (js "variable") (Some (PNum 0)) 2 3;
                    mkToken (js "\/") None 4 6 ]
               ++ [ mkToken (js "~") None 7 10 ]
               ++ [ mkToken (js "T") None 11 12;
                    mkToken kScannerConstants.EOF None 12 13 ])
              [js "p"]
  = Return {| ast := orNode (negations (length [ mkToken (js "~") (@None propval) 0 1;
                                                 mkToken (js "~") None 1 2 ])
                                       (variableNode (PNum 0)))
                            (negations (length [ mkToken (js "~") (@None propval) 7 10 ])
                                       trueNode);
              variables := [js "p"] |}.
Proof.
  apply (negation_binds_tightest "\/"%string orNode); try reflexivity.
  - simpl. tauto.
  - repeat constructor.
  - repeat constructor.
Defined.

(* ------------------------------------------------------------------ *)
(** *** The tokens in the tree *)

Lemma symbolOf_negation : forall t : tok,
  type t === "~" = true -> symbolOf t = [SNegation] /\ isBinaryOperator t = false.
Proof.
  intros t H. pose proof H as H'. apply jseqb_eq in H'.
  unfold symbolOf, isOperand, isBinaryOperator. rewrite H'. split; reflexivity.
Qed.

Lemma symbolOf_open : forall t : tok,
  type t === "(" = true -> symbolOf t = [] /\ isBinaryOperator t = false.
Proof.
  intros t H. apply jseqb_eq in H.
  unfold symbolOf, isOperand, isBinaryOperator. rewrite H. split; reflexivity.
Qed.

Lemma symbolOf_close : forall t : tok,
  type t === ")" = true -> symbolOf t = [] /\ isEOF t = false.
Proof.
  intros t H. apply jseqb_eq in H.
  unfold symbolOf, isOperand, isBinaryOperator, isEOF. rewrite H. split; reflexivity.
Qed.

Lemma symbolOf_binary : forall t : tok,
  isBinaryOperator t = true -> symbolOf t = [SConnective (type t)].
Proof.
  intros t H. destruct (binary_facts t H) as (_ & _ & _ & Hn & _ & _ & Ho).
  unfold symbolOf. rewrite Ho, Hn, H. reflexivity.
Qed.

Lemma symbolOf_EOF : forall t : tok, isEOF t = true -> symbolOf t = [].
Proof.
  intros t H. destruct (eof_facts t H) as (_ & Hb & Ho & _ & Hn).
  unfold symbolOf. rewrite Ho, Hn, Hb. reflexivity.
Qed.

Lemma wrapOperand_leaf : forall t n,
  wrapOperand t = Return n -> infix n = [SOperand n] /\ isEOF t = false.
Proof.
  unfold wrapOperand, isEOF. intros t n H.
  destruct (type t === "T") eqn:E1.
  { apply jseqb_eq in E1. rewrite E1. inversion H. split; reflexivity. }
  destruct (type t === "F") eqn:E2.
  { apply jseqb_eq in E2. rewrite E2. inversion H. split; reflexivity. }
  destruct (type t === "variable") eqn:E3; [|discriminate].
  apply jseqb_eq in E3. rewrite E3. inversion H. split; reflexivity.
Qed.

Lemma createOperatorNode_infix : forall l t r n,
  createOperatorNode l t r = Return n ->
  infix n = infix l ++ SConnective (type t) :: infix r
  /\ isBinaryOperator t = true.
Proof.
  unfold createOperatorNode, isBinaryOperator. intros l t r n H.
  destruct (type t === "<->") eqn:E1.
  { apply jseqb_eq in E1. rewrite E1. inversion H. split; reflexivity. }
  destruct (type t === "->") eqn:E2.
  { apply jseqb_eq in E2. rewrite E2. inversion H. split; reflexivity. }
  destruct (type t === "\/") eqn:E3.
  { apply jseqb_eq in E3. rewrite E3. inversion H. split; reflexivity. }
  destruct (type t === "/\") eqn:E4; [|discriminate].
  apply jseqb_eq in E4. rewrite E4. inversion H. split; reflexivity.
Qed.

Lemma addOperand_symbols : forall ops n rands,
  exists n' ops',
    addOperand n rands ops = (n' :: rands, ops')
    /\ pendingBefore ops' rands ++ infix n' = pendingBefore ops rands ++ infix n.
Proof.
  induction ops as [|top rest IH]; intros n rands.
  - exists n, []. split; reflexivity.
  - cbn [addOperand]. destruct (type top === "~") eqn:E.
    + destruct (IH (negateNode n) rands) as (n' & ops' & H1 & H2).
      exists n', ops'. split; [exact H1|]. rewrite H2.
      destruct (symbolOf_negation _ E) as [Hs Hb].
      cbn [pendingBefore infix]. rewrite Hb, Hs. rewrite <- app_assoc. reflexivity.
    + exists n, (top :: rest). split; reflexivity.
Qed.

Lemma evaluateHigherPriority_symbols : forall curr fuel ops rands ops' rands',
  evaluateHigherPriority fuel curr ops rands = Return (ops', rands') ->
  pendingSymbols (mkState ops' rands' false) = pendingSymbols (mkState ops rands false).
Proof.
  intro curr. induction fuel as [|fuel IH]; intros ops rands ops' rands' H.
  - discriminate.
  - cbn [evaluateHigherPriority] in H.
    destruct ops as [|top rest]; [inversion H; reflexivity|].
    destruct (type top === "("); [inversion H; reflexivity|].
    destruct (priorityOf top) as [pt| |]; cbn [bind] in H; try discriminate.
    destruct (priorityOf curr) as [pc| |]; cbn [bind] in H; try discriminate.
    destruct (pt <=? pc)%Z; [inversion H; reflexivity|].
    destruct rands as [|rhs [|lhs rands]]; cbn [popOperand bind] in H;
      try discriminate.
    destruct (createOperatorNode lhs top rhs) as [n| |] eqn:Hn; cbn [bind] in H;
      try discriminate.
    destruct (createOperatorNode_infix _ _ _ _ Hn) as [Hi Hb].
    destruct (addOperand_symbols rest n rands) as (n' & ops2 & Ha & Hp).
    rewrite Ha in H. apply IH in H. rewrite H.
    unfold pendingSymbols. cbn [needOperand operands operators pendingBefore].
    rewrite Hb, Hp, Hi. rewrite <- !app_assoc. reflexivity.
Qed.

Lemma popUntilOpenParenthesis_symbols : forall curr fuel ops rands ops' rands',
  popUntilOpenParenthesis fuel curr ops rands = Return (ops', rands') ->
  pendingSymbols (mkState ops' rands' false) = pendingSymbols (mkState ops rands false).
Proof.
  intro curr. induction fuel as [|fuel IH]; intros ops rands ops' rands' H.
  - discriminate.
  - cbn [popUntilOpenParenthesis] in H.
    destruct ops as [|top rest]; [discriminate|].
    destruct (type top === "(") eqn:Eo.
    { inversion H; subst.
      destruct (symbolOf_open _ Eo) as [Hs Hb].
      unfold pendingSymbols. cbn [needOperand operands operators pendingBefore].
      rewrite Hb, Hs. destruct rands'; rewrite app_nil_r; reflexivity. }
    destruct (type top === "~"); [discriminate|].
    destruct rands as [|rhs [|lhs rands]]; cbn [popOperand bind] in H;
      try discriminate.
    destruct (createOperatorNode lhs top rhs) as [n| |] eqn:Hn; cbn [bind] in H;
      try discriminate.
    destruct (createOperatorNode_infix _ _ _ _ Hn) as [Hi Hb].
    destruct (addOperand_symbols rest n rands) as (n' & ops2 & Ha & Hp).
    rewrite Ha in H. apply IH in H. rewrite H.
    unfold pendingSymbols. cbn [needOperand operands operators pendingBefore].
    rewrite Hb, Hp, Hi. rewrite <- !app_assoc. reflexivity.
Qed.

(** One round of the loop of [parse] adds the symbol of its token. *)
Lemma parseToken_symbols : forall t st c st',
  parseToken t st = Return (c, st') ->
  match c with
  | Continue => isEOF t = false
                /\ pendingSymbols st' = pendingSymbols st ++ symbolOf t
  | Break => isEOF t = true
             /\ exists top ops',
                  operators st' = top :: ops'
                  /\ pendingSymbols (mkState ops' (operands st') false)
                     = pendingSymbols st
  end.
Proof.
  intros t [ops rands need] c st' H. unfold parseToken in H.
  cbn [needOperand operators operands] in H.
  destruct need.
  - destruct (isOperand t) eqn:Hop.
    + destruct (wrapOperand t) as [n| |] eqn:Hw; cbn [bind] in H; try discriminate.
      destruct (addOperand_symbols ops n rands) as (n' & ops2 & Ha & Hp).
      rewrite Ha in H. inversion H; subst c st'.
      destruct (wrapOperand_leaf _ _ Hw) as [Hleaf He]. split; [exact He|].
      unfold pendingSymbols. cbn [needOperand operands operators].
      rewrite Hp, Hleaf. unfold symbolOf. rewrite Hop, Hw. reflexivity.
    + destruct ((type t === "(") || (type t === "~")) eqn:Hpush.
      * inversion H; subst c st'.
        unfold pendingSymbols. cbn [needOperand operands operators pendingBefore].
        apply orb_true_iff in Hpush. destruct Hpush as [Ho | Hn].
        -- destruct (symbolOf_open _ Ho) as [Hs Hb]. rewrite Hb, Hs.
           split; [|reflexivity].
           apply jseqb_eq in Ho. unfold isEOF. rewrite Ho. reflexivity.
        -- destruct (symbolOf_negation _ Hn) as [Hs Hb]. rewrite Hb, Hs.
           split; [|reflexivity].
           apply jseqb_eq in Hn. unfold isEOF. rewrite Hn. reflexivity.
      * destruct (isEOF t).
        -- destruct ops as [|top rest]; [discriminate|].
           cbn [topOf bind] in H. destruct (type top === "("); discriminate.
        -- discriminate.
  - destruct (isBinaryOperator t || isEOF t) eqn:Hbe.
    + destruct (evaluateHigherPriority (S (length ops)) t ops rands)
        as [[ops2 rands2]| |] eqn:Hev; cbn [bind] in H; try discriminate.
      apply evaluateHigherPriority_symbols in Hev.
      inversion H; subst c st'. clear H.
      destruct (isEOF t) eqn:He.
      * split; [reflexivity|]. exists t, ops2. split; [reflexivity|].
        cbn [operands]. exact Hev.
      * split; [reflexivity|]. rewrite orb_false_r in Hbe.
        rewrite <- Hev. rewrite (symbolOf_binary _ Hbe).
        unfold pendingSymbols. cbn [needOperand operands operators pendingBefore].
        rewrite Hbe. destruct rands2; [reflexivity|].
        rewrite <- app_assoc. reflexivity.
    + destruct (type t === ")") eqn:Hc; [|discriminate].
      destruct (popUntilOpenParenthesis (S (length ops)) t ops rands)
        as [[ops2 rands2]| |] eqn:Hpop; cbn [bind] in H; try discriminate.
      apply popUntilOpenParenthesis_symbols in Hpop.
      destruct rands2 as [|expr rands2]; cbn [popOperand bind] in H;
        try discriminate.
      destruct (addOperand_symbols ops2 expr rands2) as (n' & ops3 & Ha & Hp).
      rewrite Ha in H. inversion H; subst c st'.
      destruct (symbolOf_close _ Hc) as [Hs He]. split; [exact He|].
      rewrite Hs, app_nil_r. rewrite <- Hpop.
      unfold pendingSymbols. cbn [needOperand operands operators].
      exact Hp.
Qed.

Lemma parseLoop_symbols : forall inner eof st st',
  Forall (fun t => isEOF t = false) inner ->
  isEOF eof = true ->
  parseLoop (inner ++ [eof]) st = Return st' ->
  exists top ops',
    operators st' = top :: ops'
    /\ pendingSymbols (mkState ops' (operands st') false)
       = pendingSymbols st ++ flat_map symbolOf inner.
Proof.
  induction inner as [|t inner IH]; intros eof st st' Hin He H.
  - cbn [app parseLoop] in H.
    destruct (parseToken eof st) as [[c st1]| |] eqn:Hs; cbn [bind] in H;
      try discriminate.
    apply parseToken_symbols in Hs. destruct c.
    + destruct Hs as [Hs _]. congruence.
    + inversion H; subst st1. destruct Hs as (_ & top & ops' & H1 & H2).
      exists top, ops'. split; [exact H1|]. cbn [flat_map].
      rewrite app_nil_r. exact H2.
  - cbn [app parseLoop] in H. inversion Hin as [|? ? Ht Hin']; subst.
    destruct (parseToken t st) as [[c st1]| |] eqn:Hs; cbn [bind] in H;
      try discriminate.
    apply parseToken_symbols in Hs. destruct c.
    + destruct Hs as [_ Hs].
      destruct (IH _ _ _ Hin' He H) as (top & ops' & H1 & H2).
      exists top, ops'. split; [exact H1|]. rewrite H2, Hs.
      cbn [flat_map]. rewrite <- app_assoc. reflexivity.
    + destruct Hs as [Hs _]. congruence.
Qed.

Lemma parseTokens_symbols : forall inner eof vars r,
  Forall (fun t => isEOF t = false) inner ->
  isEOF eof = true ->
  parseTokens (inner ++ [eof]) vars = Return r ->
  infix (ast r) = flat_map symbolOf inner.
Proof.
  intros inner eof vars r Hin He H. unfold parseTokens in H.
  destruct (parseLoop (inner ++ [eof]) initialState) as [st| |] eqn:Hl;
    cbn [bind] in H; try discriminate.
  destruct (parseLoop_symbols _ _ _ _ Hin He Hl) as (top & ops' & H1 & H2).
  rewrite H1 in H. cbn [length Nat.eqb negb assert bind] in H.
  destruct (isEOF top); cbn [assert bind] in H; try discriminate.
  destruct ops' as [|m ops'].
  - destruct (operands st) as [|a rest]; cbn [popOperand bind] in H;
      try discriminate.
    inversion H; subst r. cbn [ast fst].
    unfold pendingSymbols in H2.
    cbn [needOperand operands operators pendingBefore initialState app] in H2.
    exact H2.
  - destruct (type m === "("); cbn [assert bind] in H; discriminate.
Qed.

Lemma tiles_ranges : forall I (input : jsstring) (l : list (token I)) i,
  tiles input i l ->
  Forall (fun t => start t < end' t /\ end' t <= length input) l.
Proof.
  intros I input l. induction l as [|t l IH]; intros i H; simpl in H.
  - constructor.
  - destruct H as (_ & H2 & H3 & _ & H5). constructor; [split; assumption|].
    eapply IH. exact H5.
Qed.

(** The tokens of [scan]: all but the last are no EOF token and have
    non-empty ranges in the input; the last is the EOF token. *)
Lemma scan_inner_tokens : forall (input : jsstring) tokens vars,
  scan input = Return (tokens, vars) ->
  exists inner eof,
    tokens = inner ++ [eof]
    /\ isEOF eof = true
    /\ Forall (fun t => isEOF t = false) inner
    /\ Forall (fun t => start t < end' t /\ end' t <= length input) inner.
Proof.
  intros input tokens vars H.
  destruct (scan_tokens _ _ _ H) as (inner & Htok & Htiles & _).
  pose proof (scan_spec input) as Hspec. rewrite H in Hspec.
  destruct Hspec as (inner' & last & Htok' & Hinner & Hlast & _).
  rewrite Htok in Htok'. apply app_inj_tail in Htok'. destruct Htok' as [E1 E2].
  subst inner' last.
  exists inner, (mkToken kScannerConstants.EOF None (length input) (length input + 1)).
  split; [exact Htok|]. split; [reflexivity|]. split.
  - eapply Forall_impl; [|exact Hinner]. intros t (_ & _ & Ht). exact Ht.
  - eapply tiles_ranges. exact Htiles.
Qed.

Lemma parse_of_scan : forall (input : jsstring) tokens vars,
  scan input = Return (tokens, vars) ->
  parse input = parseTokens tokens vars.
Proof. intros input tokens vars H. unfold parse. rewrite H. reflexivity. Qed.

(** X11 (parse, addOperand, createOperatorNode, wrapOperand): the
    tree [parse] returns holds the operands, negations and connectives of
    the token list, each once and in the order of the input: read in
    infix order, the tree gives back the tokens without the parentheses
    and the EOF token. *)
Theorem parse_keeps_the_tokens : forall (input : jsstring) tokens vars r,
  scan input = Return (tokens, vars) ->
  parse input = Return r ->
  infix (ast r) = flat_map symbolOf tokens.
Proof.
  intros input tokens vars r Hscan Hparse.
  rewrite (parse_of_scan _ _ _ Hscan) in Hparse.
  destruct (scan_inner_tokens _ _ _ Hscan) as (inner & eof & Htok & He & Hin & _).
  subst tokens. rewrite flat_map_app. cbn [flat_map].
  rewrite (symbolOf_EOF _ He), !app_nil_r.
  eapply parseTokens_symbols; eassumption.
Qed.

Lemma parse_keeps_the_tokens_witness :
  scan (js "~(p -> q) /\ p") = Return (infixExampleTokens, [js "p"; js "q"])
  /\ parse (js "~(p -> q) /\ p") = Return infixExampleResult
  /\ infix (ast infixExampleResult) = flat_map symbolOf infixExampleTokens.
Proof.
  assert (H1 : scan (js "~(p -> q) /\ p")
               = Return (infixExampleTokens, [js "p"; js "q"]))
    by (vm_compute; reflexivity).
  assert (H2 : parse (js "~(p -> q) /\ p") = Return infixExampleResult)
    by (vm_compute; reflexivity).
  exact (conj H1 (conj H2 (parse_keeps_the_tokens _ _ _ _ H1 H2))).
Defined.

(* ------------------------------------------------------------------ *)
(** *** Parentheses *)

(** What lies below an open parenthesis on the two stacks is not touched
    until the parenthesis is closed. *)
Lemma addOperand_frame : forall ops n rands below belowRands,
  topNotNegation below ->
  addOperand n (rands ++ belowRands) (ops ++ below)
  = (fst (addOperand n rands ops) ++ belowRands,
     snd (addOperand n rands ops) ++ below).
Proof.
  induction ops as [|top rest IH]; intros n rands below belowRands Hb.
  - cbn [app addOperand fst snd]. destruct below as [|b below]; [reflexivity|].
    simpl in Hb. cbn [addOperand]. rewrite Hb. reflexivity.
  - cbn [app addOperand]. destruct (type top === "~").
    + apply IH. exact Hb.
    + reflexivity.
Qed.

Lemma open_topNotNegation : forall (open : tok) base,
  type open = js "(" -> topNotNegation (open :: base).
Proof. intros open base H. simpl. rewrite H. reflexivity. Qed.

Lemma evaluateHigherPriority_frame : forall curr (open : tok) base belowRands,
  type open = js "(" ->
  forall fuel ops rands ops' rands' fuel',
    evaluateHigherPriority fuel curr ops rands = Return (ops', rands') ->
    fuel <= fuel' ->
    evaluateHigherPriority fuel' curr (ops ++ open :: base) (rands ++ belowRands)
    = Return (ops' ++ open :: base, rands' ++ belowRands).
Proof.
  intros curr open base belowRands Hopen.
  induction fuel as [|fuel IH]; intros ops rands ops' rands' fuel' H Hf.
  - discriminate.
  - destruct fuel' as [|fuel']; [lia|].
    cbn [evaluateHigherPriority] in H. destruct ops as [|top rest].
    + inversion H; subst. cbn [app evaluateHigherPriority].
      rewrite Hopen. reflexivity.
    + cbn [app evaluateHigherPriority].
      destruct (type top === "("); [inversion H; reflexivity|].
      destruct (priorityOf top) as [pt| |]; cbn [bind] in *; try discriminate.
      destruct (priorityOf curr) as [pc| |]; cbn [bind] in *; try discriminate.
      destruct (pt <=? pc)%Z; [inversion H; reflexivity|].
      destruct rands as [|rhs [|lhs rands]]; cbn [popOperand bind app] in *;
        try discriminate.
      destruct (createOperatorNode lhs top rhs) as [n| |]; cbn [bind] in *;
        try discriminate.
      rewrite addOperand_frame by (apply open_topNotNegation; exact Hopen).
      destruct (addOperand n rands rest) as [rands2 ops2]. cbn [fst snd].
      apply IH; [exact H | lia].
Qed.

Lemma popUntilOpenParenthesis_frame : forall curr (open : tok) base belowRands,
  type open = js "(" ->
  forall fuel ops rands ops' rands' fuel',
    popUntilOpenParenthesis fuel curr ops rands = Return (ops', rands') ->
    fuel <= fuel' ->
    popUntilOpenParenthesis fuel' curr (ops ++ open :: base) (rands ++ belowRands)
    = Return (ops' ++ open :: base, rands' ++ belowRands).
Proof.
  intros curr open base belowRands Hopen.
  induction fuel as [|fuel IH]; intros ops rands ops' rands' fuel' H Hf.
  - discriminate.
  - destruct fuel' as [|fuel']; [lia|].
    cbn [popUntilOpenParenthesis] in H. destruct ops as [|top rest]; [discriminate|].
    cbn [app popUntilOpenParenthesis].
    destruct (type top === "("); [inversion H; reflexivity|].
    destruct (type top === "~"); [discriminate|].
    destruct rands as [|rhs [|lhs rands]]; cbn [popOperand bind app] in *;
      try discriminate.
    destruct (createOperatorNode lhs top rhs) as [n| |]; cbn [bind] in *;
      try discriminate.
    rewrite addOperand_frame by (apply open_topNotNegation; exact Hopen).
    destruct (addOperand n rands rest) as [rands2 ops2]. cbn [fst snd].
    apply IH; [exact H | lia].
Qed.

Lemma parseToken_frame : forall (open : tok) base belowRands,
  type open = js "(" ->
  forall t ops rands need st',
    parseToken t (mkState ops rands need) = Return (Continue, st') ->
    parseToken t (mkState (ops ++ open :: base) (rands ++ belowRands) need)
    = Return (Continue, mkState (operators st' ++ open :: base)
                                (operands st' ++ belowRands)
                                (needOperand st')).
Proof.
  intros open base belowRands Hopen t ops rands need st' H.
  unfold parseToken in *. cbn [needOperand operators operands] in *.
  destruct need.
  - destruct (isOperand t).
    + destruct (wrapOperand t) as [n| |]; cbn [bind] in *; try discriminate.
      rewrite addOperand_frame by (apply open_topNotNegation; exact Hopen).
      destruct (addOperand n rands ops) as [rands2 ops2]. cbn [fst snd].
      inversion H; subst. reflexivity.
    + destruct ((type t === "(") || (type t === "~")).
      * inversion H; subst. reflexivity.
      * destruct (isEOF t); [|discriminate].
        destruct ops as [|top rest]; [discriminate|].
        cbn [topOf bind] in H. destruct (type top === "("); discriminate.
  - destruct (isBinaryOperator t || isEOF t).
    + destruct (evaluateHigherPriority (S (length ops)) t ops rands)
        as [[ops2 rands2]| |] eqn:Hev; cbn [bind] in H; try discriminate.
      rewrite (evaluateHigherPriority_frame t open base belowRands Hopen
                 _ _ _ _ _ (S (length (ops ++ open :: base))) Hev)
        by (rewrite length_app; lia).
      cbn [bind].
      destruct (isEOF t); [discriminate|].
      inversion H; subst. reflexivity.
    + destruct (type t === ")"); [|discriminate].
      destruct (popUntilOpenParenthesis (S (length ops)) t ops rands)
        as [[ops2 rands2]| |] eqn:Hpop; cbn [bind] in H; try discriminate.
      rewrite (popUntilOpenParenthesis_frame t open base belowRands Hopen
                 _ _ _ _ _ (S (length (ops ++ open :: base))) Hpop)
        by (rewrite length_app; lia).
      cbn [bind].
      destruct rands2 as [|expr rands2]; cbn [popOperand bind app] in *;
        try discriminate.
      rewrite addOperand_frame by (apply open_topNotNegation; exact Hopen).
      destruct (addOperand expr rands2 ops2) as [rands3 ops3]. cbn [fst snd].
      inversion H; subst. reflexivity.
Qed.

Lemma parseToken_Break : forall t st st',
  parseToken t st = Return (Break, st') ->
  isEOF t = true /\ needOperand st = false
  /\ exists ops2 rands2,
       evaluateHigherPriority (S (length (operators st))) t (operators st)
                              (operands st)
       = Return (ops2, rands2)
       /\ st' = mkState (t :: ops2) rands2 true.
Proof.
  intros t [ops rands need] st' H. unfold parseToken in H.
  cbn [needOperand operators operands] in *.
  destruct need.
  - destruct (isOperand t).
    + destruct (wrapOperand t) as [n| |]; cbn [bind] in H; try discriminate.
      destruct (addOperand n rands ops); discriminate.
    + destruct ((type t === "(") || (type t === "~")); [discriminate|].
      destruct (isEOF t); [|discriminate].
      destruct ops as [|top rest]; [discriminate|].
      cbn [topOf bind] in H. destruct (type top === "("); discriminate.
  - destruct (isBinaryOperator t || isEOF t).
    + destruct (evaluateHigherPriority (S (length ops)) t ops rands)
        as [[ops2 rands2]| |] eqn:Hev; cbn [bind] in H; try discriminate.
      destruct (isEOF t); [|discriminate].
      inversion H; subst. split; [reflexivity|]. split; [reflexivity|].
      exists ops2, rands2. split; reflexivity.
    + destruct (type t === ")"); [|discriminate].
      destruct (popUntilOpenParenthesis (S (length ops)) t ops rands)
        as [[ops2 rands2]| |]; cbn [bind] in H; try discriminate.
      destruct rands2 as [|expr rands2]; cbn [popOperand bind] in H;
        try discriminate.
      destruct (addOperand expr rands2 ops2); discriminate.
Qed.

(** The tokens before the EOF token, read below an open parenthesis. *)
Lemma parseLoop_frame : forall (open : tok) base belowRands,
  type open = js "(" ->
  forall inner more st st1,
    Forall (fun t => isEOF t = false) inner ->
    parseLoop inner st = Return st1 ->
    parseLoop (inner ++ more)
              (mkState (operators st ++ open :: base) (operands st ++ belowRands)
                       (needOperand st))
    = parseLoop more
                (mkState (operators st1 ++ open :: base)
                         (operands st1 ++ belowRands) (needOperand st1)).
Proof.
  intros open base belowRands Hopen.
  induction inner as [|t inner IH]; intros more st st1 Hin H.
  - cbn [parseLoop] in H. inversion H; subst. reflexivity.
  - inversion Hin as [|? ? Ht Hin']; subst.
    cbn [parseLoop app] in *.
    destruct (parseToken t st) as [[[|] st2]| |] eqn:Hs; cbn [bind] in H;
      try discriminate.
    + destruct st as [ops rands need]. cbn [operators operands needOperand].
      rewrite (parseToken_frame open base belowRands Hopen _ _ _ _ _ Hs).
      cbn [bind]. apply (IH more st2 st1 Hin' H).
    + apply parseToken_Break in Hs. destruct Hs as [He _]. congruence.
Qed.

Lemma parseLoop_inner : forall inner more st,
  Forall (fun t => isEOF t = false) inner ->
  parseLoop (inner ++ more) st
  = match parseLoop inner st with
    | Return st1 => parseLoop more st1
    | Throw e => Throw e
    | Failure f => Failure f
    end.
Proof.
  induction inner as [|t inner IH]; intros more st Hin.
  - reflexivity.
  - inversion Hin as [|? ? Ht Hin']; subst. cbn [parseLoop app].
    destruct (parseToken t st) as [[[|] st2]| |] eqn:Hs; cbn [bind];
      try reflexivity.
    + apply IH. exact Hin'.
    + apply parseToken_Break in Hs. destruct Hs as [He _]. congruence.
Qed.

(** Where the EOF token empties the operator stack, a close parenthesis
    empties it down to the open parenthesis, with the same operands. *)
Lemma close_like_EOF : forall (eof close open : tok) base belowRands,
  isEOF eof = true -> type open = js "(" ->
  forall fuel ops rands rands' fuel',
    evaluateHigherPriority fuel eof ops rands = Return ([], rands') ->
    fuel <= fuel' ->
    popUntilOpenParenthesis fuel' close (ops ++ open :: base) (rands ++ belowRands)
    = Return (base, rands' ++ belowRands).
Proof.
  intros eof close open base belowRands He Hopen.
  destruct (eof_facts eof He) as (Hpe & _).
  induction fuel as [|fuel IH]; intros ops rands rands' fuel' H Hf.
  - discriminate.
  - destruct fuel' as [|fuel']; [lia|].
    cbn [evaluateHigherPriority] in H. destruct ops as [|top rest].
    + inversion H; subst. cbn [app popUntilOpenParenthesis].
      rewrite Hopen. reflexivity.
    + cbn [app popUntilOpenParenthesis].
      destruct (type top === "("); [discriminate|].
      destruct (priorityOf top) as [pt| |]; cbn [bind] in H; try discriminate.
      rewrite Hpe in H. cbn [bind] in H.
      destruct (pt <=? -1)%Z; [discriminate|].
      destruct rands as [|rhs [|lhs rands]]; cbn [popOperand bind app] in *;
        try discriminate.
      destruct (createOperatorNode lhs top rhs) as [n| |] eqn:Hn; cbn [bind] in *;
        try discriminate.
      destruct (createOperatorNode_infix _ _ _ _ Hn) as [_ Hb].
      destruct (binary_facts top Hb) as (_ & _ & _ & Hneg & _).
      rewrite Hneg.
      rewrite addOperand_frame by (apply open_topNotNegation; exact Hopen).
      destruct (addOperand n rands rest) as [rands2 ops2]. cbn [fst snd].
      apply IH; [exact H | lia].
Qed.

Lemma always_good : forall t : tok,
  isEOF t = false -> goodToken (fun _ _ => True) t.
Proof. intros. exact I. Qed.

(** What the loop has done when [parseTokens] returns: the tokens before
    the EOF token left a state in which the EOF token empties the operator
    stack and leaves the tree as the one operand. *)
Lemma parseTokens_Return : forall inner eof vars r,
  Forall (fun t => isEOF t = false) inner ->
  isEOF eof = true ->
  parseTokens (inner ++ [eof]) vars = Return r ->
  variables r = vars
  /\ exists st1,
       parseLoop inner initialState = Return st1
       /\ needOperand st1 = false
       /\ evaluateHigherPriority (S (length (operators st1))) eof
                                 (operators st1) (operands st1)
          = Return ([], [ast r]).
Proof.
  intros inner eof vars r Hin He H.
  pose proof (parseLoop_spec (fun _ _ => True) I (inner ++ [eof]) initialState
                (invariant_initial _)) as Hspec.
  assert (Hall : Forall (fun t => isEOF t = false -> goodToken (fun _ _ => True) t)
                        (inner ++ [eof])).
  { apply Forall_forall. intros t _ _. exact I. }
  specialize (Hspec Hall). rewrite existsb_isEOF_last in Hspec by exact He.
  unfold parseTokens in H. rewrite (parseLoop_inner _ _ _ Hin) in H, Hspec.
  destruct (parseLoop inner initialState) as [st1| |] eqn:Hl; cbn [bind] in H;
    try discriminate.
  cbn [parseLoop] in H, Hspec.
  destruct (parseToken eof st1) as [[[|] st2]| |] eqn:Hs; cbn [bind] in H, Hspec;
    try discriminate.
  - (* the EOF token does not let the loop go on *)
    exfalso. destruct Hspec as (top & rest & Hops & Htop & _).
    pose proof (parseToken_spec (fun _ _ => True) I eof st1) as Hstep.
    assert (Hinv : invariant (fun _ _ => True) st1).
    { pose proof (parseLoop_spec (fun _ _ => True) I inner initialState
                    (invariant_initial _)) as Hi.
      assert (Hall' : Forall (fun t => isEOF t = false -> goodToken (fun _ _ => True) t)
                             inner).
      { apply Forall_forall. intros t _ _. exact I. }
      specialize (Hi Hall'). rewrite Hl in Hi.
      assert (Hno : existsb isEOF inner = false).
      { clear -Hin. induction Hin as [|t l Ht _ IH]; [reflexivity|].
        simpl. rewrite Ht, IH. reflexivity. }
      rewrite Hno in Hi. exact Hi. }
    specialize (Hstep Hinv (fun _ => I)). rewrite Hs in Hstep.
    destruct Hstep as [_ Hne]. congruence.
  - destruct (parseToken_Break _ _ _ Hs) as (_ & Hneed & ops2 & rands2 & Hev & Hst).
    subst st2. destruct Hspec as (top & rest & Hops & Htop & _ & Hlen & _).
    cbn [operators operands] in *. inversion Hops; subst top rest.
    cbn [length Nat.eqb negb assert bind] in H. rewrite Htop in H.
    cbn [assert bind] in H.
    destruct ops2 as [|m ops2].
    + destruct rands2 as [|a [|b rands2]]; cbn [popOperand bind] in H;
        try discriminate.
      inversion H; subst r. cbn [variables ast fst]. split; [reflexivity|].
      exists st1. repeat split; assumption.
    + destruct (type m === "("); cbn [assert bind] in H; discriminate.
Qed.

Lemma close_facts : forall t : tok,
  type t = js ")" ->
  isBinaryOperator t || isEOF t = false /\ type t === ")" = true.
Proof.
  intros t H. unfold isBinaryOperator, isEOF. rewrite H. split; reflexivity.
Qed.

Lemma open_facts : forall t : tok,
  type t = js "(" ->
  isOperand t = false /\ (type t === "(") || (type t === "~") = true.
Proof.
  intros t H. unfold isOperand. rewrite H. split; reflexivity.
Qed.

Lemma parenthesised_operand : forall inner (open close eof : tok) vars r,
  Forall (fun t => isEOF t = false) inner ->
  type open = js "(" ->
  type close = js ")" ->
  isEOF eof = true ->
  parseTokens (inner ++ [eof]) vars = Return r ->
  forall ops rands rest,
    parseLoop (open :: inner ++ close :: rest) (mkState ops rands true)
    = parseLoop rest (mkState (snd (addOperand (ast r) rands ops))
                              (fst (addOperand (ast r) rands ops)) false).
Proof.
  intros inner open close eof vars r Hin Hopen Hclose He H ops rands rest.
  destruct (parseTokens_Return _ _ _ _ Hin He H) as (_ & st1 & Hl & Hneed & Hev).
  destruct (open_facts _ Hopen) as [Ho1 Ho2].
  destruct (close_facts _ Hclose) as [Hc1 Hc2].
  rewrite (step_push _ _ _ _ Ho1 Ho2).
  pose proof (parseLoop_frame open ops rands Hopen inner (close :: rest)
                initialState st1 Hin Hl) as Hframe.
  cbn [initialState operators operands needOperand app] in Hframe.
  rewrite Hframe. rewrite Hneed.
  cbn [parseLoop]. unfold parseToken. cbn [needOperand operators operands].
  rewrite Hc1, Hc2.
  rewrite (close_like_EOF eof close open ops rands He Hopen _ _ _ _
             (S (length (operators st1 ++ open :: ops))) Hev)
    by (rewrite length_app; lia).
  cbn [bind app popOperand].
  destruct (addOperand (ast r) rands ops) as [rands2 ops2]. reflexivity.
Qed.

(** X10 (parse, addOperand): a formula in parentheses is read
    like one operand that stands for its tree.  If the tokens [inner]
    followed by the EOF token are parsed to a tree, then in any context
    the tokens [( inner )] leave the two stacks as [addOperand] does for
    that tree; in particular the whole formula in parentheses is parsed to
    the same tree. *)
Theorem parenthesised_formula_is_an_operand :
  forall inner (open close eof : tok) vars r,
    Forall (fun t => isEOF t = false) inner ->
    type open = js "(" ->
    type close = js ")" ->
    isEOF eof = true ->
    parseTokens (inner ++ [eof]) vars = Return r ->
    (forall ops rands rest,
       parseLoop (open :: inner ++ close :: rest) (mkState ops rands true)
       = parseLoop rest (mkState (snd (addOperand (ast r) rands ops))
                                 (fst (addOperand (ast r) rands ops)) false))
    /\ (forall eof', isEOF eof' = true ->
          parseTokens (open :: inner ++ [close; eof']) vars = Return r).
Proof.
  intros inner open close eof vars r Hin Hopen Hclose He H.
  pose proof (parenthesised_operand _ _ _ _ _ _ Hin Hopen Hclose He H) as Hop.
  split; [exact Hop|].
  intros eof' He'.
  destruct (parseTokens_Return _ _ _ _ Hin He H) as (Hvars & _).
  destruct r as [a vars']. cbn [variables ast] in *. subst vars'.
  eapply parseTokens_finish; [|exact He'].
  unfold initialState. rewrite (Hop [] [] [eof']). cbn [addOperand fst snd].
  apply step_eof; [exact He'|]. apply evaluate_empty.
Qed.

Lemma parenthesised_formula_is_an_operand_witness :
  (forall ops rands rest,
     parseLoop (openExample :: parenthesesExample ++ closeExample :: rest)
               (mkState ops rands true)
     = parseLoop rest
         (mkState (snd (addOperand (ast parenthesesExampleResult) rands ops))
                  (fst (addOperand (ast parenthesesExampleResult) rands ops))
                  false))
  /\ (forall eof', isEOF eof' = true ->
        parseTokens (openExample :: parenthesesExample ++ [closeExample; eof'])
                    [js "p"; js "q"]
        = Return parenthesesExampleResult).
Proof.
  apply (parenthesised_formula_is_an_operand
           parenthesesExample openExample closeExample eofExample).
  - repeat constructor.
  - reflexivity.
  - reflexivity.
  - reflexivity.
  - vm_compute. reflexivity.
Defined.

(* ------------------------------------------------------------------ *)
(** *** The tokens of a tree in parentheses *)

Lemma shape_not_EOF : forall a, Forall (fun t => isEOF t = false) (shape a).
Proof.
  induction a; cbn [shape];
    repeat first [ apply Forall_cons | apply Forall_app; split | apply Forall_nil
                 | assumption | reflexivity ].
Qed.

Section Shapes.

Variables l r : node.

Hypothesis parse_left : forall ops rands rest,
  parseLoop (shape l ++ rest) (mkState ops rands true)
  = parseLoop rest (mkState (snd (addOperand l rands ops))
                            (fst (addOperand l rands ops)) false).

Hypothesis parse_right : forall ops rands rest,
  parseLoop (shape r ++ rest) (mkState ops rands true)
  = parseLoop rest (mkState (snd (addOperand r rands ops))
                            (fst (addOperand r rands ops)) false).

Lemma parseTokens_binary_shape : forall i ty mk (op eof : tok) vars,
  nth_error connectives i = Some (ty, mk) ->
  type op = js ty ->
  isEOF eof = true ->
  parseTokens (shape l ++ op :: shape r ++ [eof]) vars
  = Return {| ast := mk l r; variables := vars |}.
Proof.
  intros i ty mk op eof vars Hc Hop Heof.
  destruct (connective_strength _ _ _ Hc op Hop) as (Hp & Hmk & Hb & Ho & Hn & _).
  destruct (eof_facts _ Heof) as (Hpe & _).
  apply parseTokens_finish with (eof := eof) (rest := []); [|exact Heof].
  unfold initialState. rewrite parse_left. cbn [addOperand fst snd].
  rewrite (step_binary op _ [] [l] [] [l] Hb (evaluate_empty _ _ _)).
  rewrite parse_right. rewrite (addOperand_no_negation _ _ _ _ Hn). cbn [fst snd].
  apply step_eof; [exact Heof|].
  cbn [length].
  eapply eq_trans.
  - apply (evaluate_pop 1 eof op [] r l [] _ _ (mk l r) Ho Hp Hpe); [|apply Hmk].
    apply Z.leb_gt.
    assert (i < length connectives) by (apply nth_error_Some; congruence).
    cbn [length connectives] in *. lia.
  - reflexivity.
Qed.

Lemma parseLoop_binary_shape : forall i ty mk (open op close : tok),
  nth_error connectives i = Some (ty, mk) ->
  type open = js "(" -> type op = js ty -> type close = js ")" ->
  forall ops rands rest,
    parseLoop (open :: shape l ++ op :: shape r ++ close :: rest)
              (mkState ops rands true)
    = parseLoop rest (mkState (snd (addOperand (mk l r) rands ops))
                              (fst (addOperand (mk l r) rands ops)) false).
Proof.
  intros i ty mk open op close Hc Hopen Hop Hclose ops rands rest.
  destruct (connective_strength _ _ _ Hc op Hop) as (_ & _ & _ & _ & _ & He & _).
  pose (eof := mkToken kScannerConstants.EOF (@None propval) 0 0).
  assert (Heof : isEOF eof = true) by reflexivity.
  replace (open :: shape l ++ op :: shape r ++ close :: rest)
    with (open :: (shape l ++ op :: shape r) ++ close :: rest)
    by (rewrite <- app_assoc; reflexivity).
  apply (parenthesised_operand (shape l ++ op :: shape r) open close eof []
           {| ast := mk l r; variables := [] |}); try assumption.
  - apply Forall_app. split; [apply shape_not_EOF|].
    apply Forall_cons; [exact He | apply shape_not_EOF].
  - rewrite <- app_assoc. cbn [app].
    apply (parseTokens_binary_shape i ty mk op eof [] Hc Hop Heof).
Qed.

End Shapes.

(** The tokens shown for a tree are parsed to the tree. *)
Lemma parseLoop_shape : forall a ops rands rest,
  parseLoop (shape a ++ rest) (mkState ops rands true)
  = parseLoop rest (mkState (snd (addOperand a rands ops))
                            (fst (addOperand a rands ops)) false).
Proof.
  induction a as [| |u IH|l IHl r IHr|l IHl r IHr|l IHl r IHr|l IHl r IHr|i];
    intros ops rands rest; cbn [shape app].
  - apply step_operand. reflexivity.
  - apply step_operand. reflexivity.
  - rewrite step_push by reflexivity. rewrite IH. reflexivity.
  - rewrite <- !app_assoc. cbn [app]. rewrite <- !app_assoc. cbn [app].
    apply (parseLoop_binary_shape l r IHl IHr 0 "/\"%string andNode); reflexivity.
  - rewrite <- !app_assoc. cbn [app]. rewrite <- !app_assoc. cbn [app].
    apply (parseLoop_binary_shape l r IHl IHr 1 "\/"%string orNode); reflexivity.
  - rewrite <- !app_assoc. cbn [app]. rewrite <- !app_assoc. cbn [app].
    apply (parseLoop_binary_shape l r IHl IHr 2 "->"%string impliesNode); reflexivity.
  - rewrite <- !app_assoc. cbn [app]. rewrite <- !app_assoc. cbn [app].
    apply (parseLoop_binary_shape l r IHl IHr 3 "<->"%string iffNode); reflexivity.
  - apply step_operand. reflexivity.
Qed.

Lemma parseTokens_shape : forall a (eof : tok) vars,
  isEOF eof = true ->
  parseTokens (shape a ++ [eof]) vars = Return {| ast := a; variables := vars |}.
Proof.
  intros a eof vars Heof.
  apply parseTokens_finish with (eof := eof) (rest := []); [|exact Heof].
  unfold initialState. rewrite parseLoop_shape. cbn [addOperand fst snd].
  apply step_eof; [exact Heof | apply evaluate_empty].
Qed.

(* ------------------------------------------------------------------ *)
(** *** The token an error marks *)

Lemma blamed_close_unmatched : forall t,
  blamed (js "Este parêntesis fechado não corresponde a nenhum parêntesis aberto.") t
  = type t === ")".
Proof. intro t. unfold blamed. rewrite jseqb_refl. reflexivity. Qed.

Lemma blamed_open_unmatched : forall t,
  blamed (js "Este parêntesis aberto não tem parêntesis fechado correspondente.") t
  = type t === "(".
Proof.
  intro t. unfold blamed.
  replace (js "Este parêntesis aberto não tem parêntesis fechado correspondente."
           === "Este parêntesis fechado não corresponde a nenhum parêntesis aberto.")
    with false by (vm_compute; reflexivity).
  rewrite jseqb_refl. reflexivity.
Qed.

Lemma blamed_open_left : forall t,
  blamed (js "Não há parêntesis fechado correspondente para este parêntesis aberto.") t
  = type t === "(".
Proof.
  intro t. unfold blamed.
  replace (js "Não há parêntesis fechado correspondente para este parêntesis aberto."
           === "Este parêntesis fechado não corresponde a nenhum parêntesis aberto.")
    with false by (vm_compute; reflexivity).
  replace (js "Não há parêntesis fechado correspondente para este parêntesis aberto."
           === "Este parêntesis aberto não tem parêntesis fechado correspondente.")
    with false by (vm_compute; reflexivity).
  rewrite jseqb_refl. reflexivity.
Qed.

Lemma blamed_missing_operand : forall t,
  blamed (js "Falta um operando a este operador.") t
  = isBinaryOperator t || (type t === "~").
Proof.
  intro t. unfold blamed.
  replace (js "Falta um operando a este operador."
           === "Este parêntesis fechado não corresponde a nenhum parêntesis aberto.")
    with false by (vm_compute; reflexivity).
  replace (js "Falta um operando a este operador."
           === "Este parêntesis aberto não tem parêntesis fechado correspondente.")
    with false by (vm_compute; reflexivity).
  replace (js "Falta um operando a este operador."
           === "Não há parêntesis fechado correspondente para este parêntesis aberto.")
    with false by (vm_compute; reflexivity).
  rewrite jseqb_refl. reflexivity.
Qed.

Lemma blamed_expected_operand : forall t,
  blamed (js "Esperávamos aqui uma variável, uma constante ou um parêntesis aberto.") t
  = negb (isOperand t) && negb (type t === "(") && negb (type t === "~")
    && negb (isEOF t).
Proof.
  intro t. unfold blamed.
  replace (js "Esperávamos aqui uma variável, uma constante ou um parêntesis aberto."
           === "Este parêntesis fechado não corresponde a nenhum parêntesis aberto.")
    with false by (vm_compute; reflexivity).
  replace (js "Esperávamos aqui uma variável, uma constante ou um parêntesis aberto."
           === "Este parêntesis aberto não tem parêntesis fechado correspondente.")
    with false by (vm_compute; reflexivity).
  replace (js "Esperávamos aqui uma variável, uma constante ou um parêntesis aberto."
           === "Não há parêntesis fechado correspondente para este parêntesis aberto.")
    with false by (vm_compute; reflexivity).
  replace (js "Esperávamos aqui uma variável, uma constante ou um parêntesis aberto."
           === "Falta um operando a este operador.")
    with false by (vm_compute; reflexivity).
  rewrite jseqb_refl. reflexivity.
Qed.

Lemma blamed_expected_operator : forall t,
  blamed (js "Esperávamos aqui um parêntesis fechado ou um conectivo binário.") t
  = negb (isBinaryOperator t) && negb (isEOF t) && negb (type t === ")").
Proof.
  intro t. unfold blamed.
  replace (js "Esperávamos aqui um parêntesis fechado ou um conectivo binário."
           === "Este parêntesis fechado não corresponde a nenhum parêntesis aberto.")
    with false by (vm_compute; reflexivity).
  replace (js "Esperávamos aqui um parêntesis fechado ou um conectivo binário."
           === "Este parêntesis aberto não tem parêntesis fechado correspondente.")
    with false by (vm_compute; reflexivity).
  replace (js "Esperávamos aqui um parêntesis fechado ou um conectivo binário."
           === "Não há parêntesis fechado correspondente para este parêntesis aberto.")
    with false by (vm_compute; reflexivity).
  replace (js "Esperávamos aqui um parêntesis fechado ou um conectivo binário."
           === "Falta um operando a este operador.")
    with false by (vm_compute; reflexivity).
  replace (js "Esperávamos aqui um parêntesis fechado ou um conectivo binário."
           === "Esperávamos aqui uma variável, uma constante ou um parêntesis aberto.")
    with false by (vm_compute; reflexivity).
  rewrite jseqb_refl. reflexivity.
Qed.

Lemma addOperand_members : forall ops n rands x,
  In x (snd (addOperand n rands ops)) -> In x ops.
Proof.
  intros ops n rands x H.
  destruct (addOperand_spec ops n rands) as (n' & negs & ops' & Ha & Hsplit & _).
  rewrite Ha in H. cbn [snd] in H. rewrite Hsplit. apply in_or_app. right. exact H.
Qed.

Lemma evaluateHigherPriority_members : forall curr fuel ops rands ops' rands',
  evaluateHigherPriority fuel curr ops rands = Return (ops', rands') ->
  forall x, In x ops' -> In x ops.
Proof.
  intro curr. induction fuel as [|fuel IH]; intros ops rands ops' rands' H x Hx.
  - discriminate.
  - cbn [evaluateHigherPriority] in H.
    destruct ops as [|top rest]; [inversion H; subst; exact Hx|].
    destruct (type top === "("); [inversion H; subst; exact Hx|].
    destruct (priorityOf top) as [pt| |]; cbn [bind] in H; try discriminate.
    destruct (priorityOf curr) as [pc| |]; cbn [bind] in H; try discriminate.
    destruct (pt <=? pc)%Z; [inversion H; subst; exact Hx|].
    destruct rands as [|rhs [|lhs rands]]; cbn [popOperand bind] in H;
      try discriminate.
    destruct (createOperatorNode lhs top rhs) as [n| |]; cbn [bind] in H;
      try discriminate.
    pose proof (addOperand_members rest n rands) as Hm.
    destruct (addOperand n rands rest) as [rands2 ops2]. cbn [snd] in Hm.
    right. apply Hm. eapply IH; eassumption.
Qed.

Lemma popUntilOpenParenthesis_members : forall curr fuel ops rands ops' rands',
  popUntilOpenParenthesis fuel curr ops rands = Return (ops', rands') ->
  forall x, In x ops' -> In x ops.
Proof.
  intro curr. induction fuel as [|fuel IH]; intros ops rands ops' rands' H x Hx.
  - discriminate.
  - cbn [popUntilOpenParenthesis] in H.
    destruct ops as [|top rest]; [discriminate|].
    destruct (type top === "("); [inversion H; subst; right; exact Hx|].
    destruct (type top === "~"); [discriminate|].
    destruct rands as [|rhs [|lhs rands]]; cbn [popOperand bind] in H;
      try discriminate.
    destruct (createOperatorNode lhs top rhs) as [n| |]; cbn [bind] in H;
      try discriminate.
    pose proof (addOperand_members rest n rands) as Hm.
    destruct (addOperand n rands rest) as [rands2 ops2]. cbn [snd] in Hm.
    right. apply Hm. eapply IH; eassumption.
Qed.

(** The error thrown is the given one. *)
Ltac thrown H :=
  unfold parseError in H; injection H as H; subst;
  unfold marks, emptyInputError, nothingNegated; cbn [description start_ end_].

Lemma popUntilOpenParenthesis_error : forall curr fuel ops rands e,
  type curr === ")" = true ->
  popUntilOpenParenthesis fuel curr ops rands = Throw e ->
  nothingNegated e \/ exists c, (c = curr \/ In c ops) /\ marks e c.
Proof.
  intros curr. induction fuel as [|fuel IH]; intros ops rands e Hc H.
  - discriminate.
  - cbn [popUntilOpenParenthesis] in H. destruct ops as [|top rest].
    + thrown H. right. exists curr. split; [left; reflexivity|].
      rewrite blamed_close_unmatched. repeat split. exact Hc.
    + destruct (type top === "("); [discriminate|].
      destruct (type top === "~").
      * thrown H. left. reflexivity.
      * destruct rands as [|rhs [|lhs rands]]; cbn [popOperand bind] in H;
          try discriminate.
        destruct (createOperatorNode lhs top rhs) as [n|e'|] eqn:Hn;
          cbn [bind] in H; try discriminate.
        -- pose proof (addOperand_members rest n rands) as Hm.
           destruct (addOperand n rands rest) as [rands2 ops2]. cbn [snd] in Hm.
           destruct (IH _ _ _ Hc H) as [Hneg | (c & [Hcurr | Hin] & Hmarks)].
           ++ left. exact Hneg.
           ++ right. exists c. split; [left; exact Hcurr | exact Hmarks].
           ++ right. exists c. split; [right; right; apply Hm; exact Hin | exact Hmarks].
        -- destruct (createOperatorNode_no_throw _ _ _ _ Hn).
Qed.

Lemma parseToken_members : forall t st c st',
  parseToken t st = Return (c, st') ->
  forall x, In x (operators st') -> x = t \/ In x (operators st).
Proof.
  intros t [ops rands need] c st' H x Hx. unfold parseToken in H.
  cbn [needOperand operators operands] in *.
  destruct need.
  - destruct (isOperand t).
    + destruct (wrapOperand t) as [n| |]; cbn [bind] in H; try discriminate.
      pose proof (addOperand_members ops n rands) as Hm.
      destruct (addOperand n rands ops) as [rands2 ops2]. cbn [snd] in Hm.
      inversion H; subst. right. apply Hm. exact Hx.
    + destruct ((type t === "(") || (type t === "~")).
      * inversion H; subst. destruct Hx as [Hx | Hx]; [left; symmetry|right]; exact Hx.
      * destruct (isEOF t); [|discriminate].
        destruct ops as [|top rest]; [discriminate|].
        cbn [topOf bind] in H. destruct (type top === "("); discriminate.
  - destruct (isBinaryOperator t || isEOF t).
    + destruct (evaluateHigherPriority (S (length ops)) t ops rands)
        as [[ops2 rands2]| |] eqn:Hev; cbn [bind] in H; try discriminate.
      inversion H; subst. destruct Hx as [Hx | Hx]; [left; symmetry; exact Hx|].
      right. eapply evaluateHigherPriority_members; eassumption.
    + destruct (type t === ")"); [|discriminate].
      destruct (popUntilOpenParenthesis (S (length ops)) t ops rands)
        as [[ops2 rands2]| |] eqn:Hpop; cbn [bind] in H; try discriminate.
      destruct rands2 as [|expr rands2]; cbn [popOperand bind] in H;
        try discriminate.
      pose proof (addOperand_members ops2 expr rands2) as Hm.
      destruct (addOperand expr rands2 ops2) as [rands3 ops3]. cbn [snd] in Hm.
      inversion H; subst. right.
      eapply popUntilOpenParenthesis_members; [exact Hpop|]. apply Hm. exact Hx.
Qed.

Lemma parseToken_error : forall t st e,
  Forall (fun c => stackToken c = true) (operators st) ->
  parseToken t st = Throw e ->
  emptyInputError e \/ nothingNegated e
  \/ exists c, (c = t \/ In c (operators st)) /\ marks e c.
Proof.
  intros t [ops rands need] e Hstack H. unfold parseToken in H.
  cbn [needOperand operators operands] in *.
  destruct need.
  - destruct (isOperand t) eqn:Hop.
    + destruct (wrapOperand t) as [n|e'|] eqn:Hw; cbn [bind] in H; try discriminate.
      * destruct (addOperand n rands ops); discriminate.
      * destruct (wrapOperand_no_throw _ _ Hw).
    + destruct ((type t === "(") || (type t === "~")) eqn:Hpush; [discriminate|].
      apply orb_false_iff in Hpush. destruct Hpush as [Ho Hn].
      destruct (isEOF t) eqn:He.
      * destruct ops as [|top rest].
        -- thrown H. left. repeat split.
        -- cbn [topOf bind] in H. inversion Hstack as [|? ? Htop _]; subst.
           destruct (type top === "(") eqn:Hopen.
           ++ thrown H. right. right. exists top. split; [right; left; reflexivity|].
              rewrite blamed_open_unmatched. repeat split. exact Hopen.
           ++ thrown H. right. right. exists top. split; [right; left; reflexivity|].
              rewrite blamed_missing_operand. repeat split.
              unfold stackToken in Htop. rewrite Hopen, orb_false_r in Htop.
              exact Htop.
      * thrown H. right. right. exists t. split; [left; reflexivity|].
        rewrite blamed_expected_operand, Hop, Ho, Hn, He. repeat split.
  - destruct (isBinaryOperator t || isEOF t) eqn:Hbe.
    + destruct (evaluateHigherPriority (S (length ops)) t ops rands)
        as [[ops2 rands2]|e'|] eqn:Hev; cbn [bind] in H; try discriminate.
      destruct (evaluateHigherPriority_no_throw _ _ _ _ _ Hev).
    + apply orb_false_iff in Hbe. destruct Hbe as [Hb He].
      destruct (type t === ")") eqn:Hc.
      * destruct (popUntilOpenParenthesis (S (length ops)) t ops rands)
          as [[ops2 rands2]|e'|] eqn:Hpop; cbn [bind] in H; try discriminate.
        -- destruct rands2 as [|expr rands2]; cbn [popOperand bind] in H;
             try discriminate.
           destruct (addOperand expr rands2 ops2); discriminate.
        -- injection H as H. subst e'.
           destruct (popUntilOpenParenthesis_error _ _ _ _ _ Hc Hpop)
             as [Hneg | Hmarks]; [right; left; exact Hneg | right; right; exact Hmarks].
      * thrown H. right. right. exists t. split; [left; reflexivity|].
        rewrite blamed_expected_operator, Hb, He, Hc. repeat split.
Qed.

Lemma invariant_stackTokens : forall st,
  invariant (fun _ _ => True) st ->
  Forall (fun c => stackToken c = true) (operators st).
Proof.
  intros st (Hgood & _). eapply Forall_impl; [|exact Hgood].
  intros c [Hc _]. exact Hc.
Qed.

(** The loop of [parse]: the operator stack holds tokens read, and an
    error marks a token read. *)
Lemma parseLoop_errors : forall tokens st seen,
  invariant (fun _ _ => True) st ->
  (forall x, In x (operators st) -> In x seen) ->
  match parseLoop tokens st with
  | Return st' => forall x, In x (operators st') -> In x (seen ++ tokens)
  | Throw e => emptyInputError e \/ nothingNegated e
               \/ exists c, In c (seen ++ tokens) /\ marks e c
  | Failure _ => True
  end.
Proof.
  induction tokens as [|t tokens IH]; intros st seen Hinv Hseen.
  - cbn [parseLoop]. intros x Hx. rewrite app_nil_r. apply Hseen. exact Hx.
  - cbn [parseLoop].
    pose proof (parseToken_spec (fun _ _ => True) I t st Hinv (fun _ => I)) as Hspec.
    destruct (parseToken t st) as [[c st1]|e|f] eqn:Hs; cbn [bind]; [| |exact I].
    + assert (Hmem : forall x, In x (operators st1) -> In x (seen ++ [t])).
      { intros x Hx. apply in_or_app.
        destruct (parseToken_members _ _ _ _ Hs x Hx) as [E | Hin].
        - right. left. symmetry. exact E.
        - left. apply Hseen. exact Hin. }
      destruct c.
      * destruct Hspec as [Hinv1 _].
        specialize (IH st1 (seen ++ [t]) Hinv1 Hmem).
        rewrite <- app_assoc in IH. exact IH.
      * intros x Hx. specialize (Hmem x Hx). apply in_app_or in Hmem.
        apply in_or_app. destruct Hmem as [Hin | [E | []]].
        -- left. exact Hin.
        -- right. left. exact E.
    + destruct (parseToken_error _ _ _ (invariant_stackTokens _ Hinv) Hs)
        as [He | [Hn | (c & [E | Hin] & Hm)]].
      * left. exact He.
      * right. left. exact Hn.
      * right. right. exists c. split; [|exact Hm]. subst c.
        apply in_or_app. right. left. reflexivity.
      * right. right. exists c. split; [|exact Hm].
        apply in_or_app. left. apply Hseen. exact Hin.
Qed.

Lemma parseTokens_errors : forall tokens vars e,
  parseTokens tokens vars = Throw e ->
  emptyInputError e \/ nothingNegated e \/ exists c, In c tokens /\ marks e c.
Proof.
  intros tokens vars e H. unfold parseTokens in H.
  pose proof (parseLoop_errors tokens initialState [] (invariant_initial _)
                (fun x (Hx : In x []) => Hx)) as Hl.
  cbn [app] in Hl.
  destruct (parseLoop tokens initialState) as [[ops rands need]|e'|f];
    cbn [bind operators operands] in *; try discriminate.
  - destruct ops as [|top rest]; cbn [length Nat.eqb negb assert bind] in H;
      [discriminate|].
    destruct (isEOF top); cbn [assert bind] in H; [|discriminate].
    destruct rest as [|m rest].
    + destruct rands; discriminate.
    + destruct (type m === "(") eqn:Hm; cbn [assert bind] in H; [|discriminate].
      thrown H. right. right. exists m. split.
      * apply Hl. right. left. reflexivity.
      * rewrite blamed_open_left. repeat split. exact Hm.
  - injection H as H. subst e'. exact Hl.
Qed.

Lemma blamed_not_EOF : forall why t, blamed why t = true -> isEOF t = false.
Proof.
  intros why t H. unfold blamed in H.
  assert (Hclose : type t === ")" = true -> isEOF t = false).
  { intro E. apply jseqb_eq in E. unfold isEOF. rewrite E. reflexivity. }
  assert (Hopen : type t === "(" = true -> isEOF t = false).
  { intro E. apply jseqb_eq in E. unfold isEOF. rewrite E. reflexivity. }
  assert (Hneg : type t === "~" = true -> isEOF t = false).
  { intro E. apply jseqb_eq in E. unfold isEOF. rewrite E. reflexivity. }
  repeat match type of H with
         | (if ?b then _ else _) = true => destruct b
         end; try discriminate; auto.
  - apply orb_true_iff in H. destruct H as [H | H]; [|auto].
    apply (binary_facts t H).
  - rewrite !andb_true_iff in H. destruct H as [_ H]. apply negb_true_iff in H.
    exact H.
  - rewrite !andb_true_iff in H. destruct H as [[_ H] _]. apply negb_true_iff in H.
    exact H.
Qed.

(** X12 (parse, parseError, topOf): an error of the parser
    marks exactly the characters of one token of the input, and its
    message fits the token: the message about a close parenthesis marks a
    close parenthesis, the two about an open parenthesis mark an open
    parenthesis, the one about a missing operand marks a connective or a
    negation, the one that expects an operand marks a token that starts
    none, and the one that expects a connective or a close parenthesis
    marks a token that is neither.  The one exception is the error of the
    input without tokens, which has the empty message and the empty range
    at the start. *)
Theorem syntax_error_marks_the_token : forall (input : jsstring) tokens vars e,
  scan input = Return (tokens, vars) ->
  parse input = Throw e ->
  emptyInputError e
  \/ exists t, In t tokens /\ isEOF t = false /\ marks e t
               /\ start t < end' t /\ end' t <= length input.
Proof.
  intros input tokens vars e Hscan Hparse.
  pose proof (parse_outcome input) as Hout. rewrite Hparse in Hout.
  destruct Hout as (_ & _ & Hnada).
  rewrite (parse_of_scan _ _ _ Hscan) in Hparse.
  destruct (scan_inner_tokens _ _ _ Hscan) as (inner & eof & Htok & He & _ & Hr).
  destruct (parseTokens_errors _ _ _ Hparse) as [Hempty | [Hn | (t & Ht & Hm)]].
  - left. exact Hempty.
  - contradiction.
  - right. exists t. pose proof Hm as (_ & _ & Hb).
    apply blamed_not_EOF in Hb.
    split; [exact Ht|]. split; [exact Hb|]. split; [exact Hm|].
    subst tokens. apply in_app_or in Ht. destruct Ht as [Ht | [Ht | []]].
    + rewrite Forall_forall in Hr. apply Hr. exact Ht.
    + subst t. congruence.
Qed.

Lemma syntax_error_marks_the_token_witness :
  scan (js "p and (q or") = Return (errorExampleTokens, [js "p"; js "q"])
  /\ parse (js "p and (q or") = Throw errorExample
  /\ (emptyInputError errorExample
      \/ exists t, In t errorExampleTokens /\ isEOF t = false /\ marks errorExample t
                   /\ start t < end' t /\ end' t <= length (js "p and (q or")).
Proof.
  assert (H1 : scan (js "p and (q or") = Return (errorExampleTokens, [js "p"; js "q"]))
    by (vm_compute; reflexivity).
  assert (H2 : parse (js "p and (q or") = Throw errorExample)
    by (vm_compute; reflexivity).
  exact (conj H1 (conj H2 (syntax_error_marks_the_token _ _ _ _ H1 H2))).
Defined.

(* ------------------------------------------------------------------ *)
(** *** Token texts and positions *)

(** The variable list of [scan] is strictly sorted. *)
Lemma scan_sorted : forall (input : jsstring) tokens vars,
  scan input = Return (tokens, vars) ->
  StronglySorted (fun a b => jsltb a b = true) vars.
Proof.
  intros input tokens vars H.
  destruct (scan_Return _ _ _ H) as (_ & ptoks & vs & Hloop & _ & Hvars).
  destruct (preliminaryScanLoop_names _ _ _ _ _ _ _ variableSetOK_empty
              (Forall_nil _) Hloop) as [Hvs _].
  subst vars. apply sorted_strict.
  - apply (sorted_names vs Hvs).
  - apply sort_sorted.
Qed.

Lemma strictly_sorted_NoDup : forall l : list jsstring,
  StronglySorted (fun a b => jsltb a b = true) l -> NoDup l.
Proof.
  induction l as [|x l IH]; intro H; [constructor|].
  inversion H as [|? ? Hl Hx]; subst. constructor; [|apply IH; exact Hl].
  intro Hin. rewrite Forall_forall in Hx. specialize (Hx _ Hin).
  rewrite jsltb_irrefl in Hx. discriminate.
Qed.

(** Two strictly sorted lists with the same elements are equal. *)
Lemma strictly_sorted_unique : forall l1 l2 : list jsstring,
  StronglySorted (fun a b => jsltb a b = true) l1 ->
  StronglySorted (fun a b => jsltb a b = true) l2 ->
  (forall x, In x l1 <-> In x l2) ->
  l1 = l2.
Proof.
  induction l1 as [|a l1 IH]; intros l2 H1 H2 Hiff.
  - destruct l2 as [|b l2]; [reflexivity|].
    exfalso. apply (proj2 (Hiff b)). left. reflexivity.
  - destruct l2 as [|b l2].
    { exfalso. apply (proj1 (Hiff a)). left. reflexivity. }
    inversion H1 as [|? ? Hl1 Ha]; subst. inversion H2 as [|? ? Hl2 Hb]; subst.
    rewrite Forall_forall in Ha, Hb.
    assert (E : a = b).
    { destruct (proj1 (Hiff a) (or_introl eq_refl)) as [E | Hin2]; [symmetry; exact E|].
      destruct (proj2 (Hiff b) (or_introl eq_refl)) as [E | Hin1]; [exact E|].
      pose proof (Ha _ Hin1) as Hab. pose proof (Hb _ Hin2) as Hba.
      pose proof (jsltb_trans _ _ _ Hab Hba) as Haa.
      rewrite jsltb_irrefl in Haa. discriminate. }
    subst b. f_equal. apply IH; try assumption.
    intro x. split; intro Hx.
    + destruct (proj1 (Hiff x) (or_intror Hx)) as [E | Hin]; [|exact Hin].
      subst x. specialize (Ha _ Hx). rewrite jsltb_irrefl in Ha. discriminate.
    + destruct (proj2 (Hiff x) (or_intror Hx)) as [E | Hin]; [|exact Hin].
      subst x. specialize (Hb _ Hx). rewrite jsltb_irrefl in Hb. discriminate.
Qed.

(** The variable list in terms of the texts of the tokens alone. *)
Lemma scan_variables_by_text : forall (input : jsstring) inner vars,
  Forall (scannedLexeme input vars) inner ->
  (forall name, In name vars ->
     name <> js "__proto__"
     /\ exists t, In t inner /\ type t = js "variable" /\ lexeme input t = name) ->
  forall name,
    In name vars <->
    name <> js "__proto__" /\ isVariableName name = true
    /\ In name (map (lexeme input) inner).
Proof.
  intros input inner vars Hlex Hnames name. rewrite Forall_forall in Hlex. split.
  - intro Hin. destruct (Hnames name Hin) as (Hne & t & Ht & Hty & Hl).
    split; [exact Hne|]. specialize (Hlex t Ht). unfold scannedLexeme in Hlex.
    rewrite Hty, jseqb_refl, Hl in Hlex. split; [apply Hlex|].
    rewrite <- Hl. apply in_map. exact Ht.
  - intros (Hne & Hname & Hin). apply in_map_iff in Hin.
    destruct Hin as (t & Hl & Ht). specialize (Hlex t Ht).
    unfold scannedLexeme in Hlex. rewrite Hl in Hlex.
    destruct (type t === "variable").
    + destruct Hlex as (_ & [[Hp _] | (j & _ & Hnth)]); [contradiction|].
      eapply nth_error_In. exact Hnth.
    + destruct Hlex as (_ & _ & Hno). congruence.
Qed.

(** The type and the index of a token follow from its text and the
    variable list. *)
Lemma scannedLexeme_shape : forall (in1 in2 : jsstring) vars (t1 t2 : tok),
  NoDup vars -> ~ In (js "__proto__") vars ->
  scannedLexeme in1 vars t1 -> scannedLexeme in2 vars t2 ->
  lexeme in1 t1 = lexeme in2 t2 ->
  type t1 = type t2 /\ index t1 = index t2.
Proof.
  intros in1 in2 vars t1 t2 Hnd Hproto H1 H2 Hl.
  unfold scannedLexeme in H1, H2. rewrite <- Hl in H2.
  destruct (type t1 === "variable") eqn:E1; destruct (type t2 === "variable") eqn:E2.
  - apply jseqb_eq in E1, E2. split; [congruence|].
    destruct H1 as (_ & [[Hp1 Hi1] | (j1 & Hi1 & Hn1)]);
      destruct H2 as (_ & [[Hp2 Hi2] | (j2 & Hi2 & Hn2)]).
    + congruence.
    + exfalso. apply Hproto. rewrite <- Hp1. eapply nth_error_In. exact Hn2.
    + exfalso. apply Hproto. rewrite <- Hp2. eapply nth_error_In. exact Hn1.
    + rewrite Hi1, Hi2. f_equal. f_equal.
      rewrite NoDup_nth_error in Hnd. apply Hnd.
      * apply nth_error_Some. rewrite Hn1. discriminate.
      * congruence.
  - destruct H1 as (Hn & _). destruct H2 as (_ & _ & Hno). congruence.
  - destruct H2 as (Hn & _). destruct H1 as (_ & _ & Hno). congruence.
  - destruct H1 as (Hty1 & Hi1 & _). destruct H2 as (Hty2 & Hi2 & _).
    split; congruence.
Qed.

Lemma same_texts_same_shapes : forall (in1 in2 : jsstring) vars (l1 l2 : list tok),
  NoDup vars -> ~ In (js "__proto__") vars ->
  Forall (scannedLexeme in1 vars) l1 -> Forall (scannedLexeme in2 vars) l2 ->
  map (lexeme in1) l1 = map (lexeme in2) l2 ->
  map erasePosition l1 = map erasePosition l2.
Proof.
  intros in1 in2 vars l1. induction l1 as [|t1 l1 IH]; intros l2 Hnd Hp H1 H2 Hl;
    destruct l2 as [|t2 l2]; try discriminate; [reflexivity|].
  inversion H1; subst. inversion H2; subst. cbn [map] in *.
  inversion Hl as [[Hhead Htail]].
  destruct (scannedLexeme_shape in1 in2 vars t1 t2) as [Ety Eidx]; try assumption.
  unfold erasePosition at 1 3. rewrite Ety, Eidx. f_equal.
  apply IH; assumption.
Qed.

Lemma addOperand_erase : forall ops n rands,
  addOperand n rands (map erasePosition ops)
  = (fst (addOperand n rands ops), map erasePosition (snd (addOperand n rands ops))).
Proof.
  induction ops as [|top rest IH]; intros n rands.
  - reflexivity.
  - cbn [map addOperand]. change (type (erasePosition top)) with (type top).
    destruct (type top === "~"); [apply IH | reflexivity].
Qed.

Lemma evaluateHigherPriority_erase : forall curr fuel ops rands,
  evaluateHigherPriority fuel (erasePosition curr) (map erasePosition ops) rands
  = eraseOutcome (fun p => (map erasePosition (fst p), snd p))
                 (evaluateHigherPriority fuel curr ops rands).
Proof.
  intro curr. induction fuel as [|fuel IH]; intros ops rands.
  - reflexivity.
  - cbn [evaluateHigherPriority]. destruct ops as [|top rest]; [reflexivity|].
    cbn [map]. change (type (erasePosition top)) with (type top).
    change (priorityOf (erasePosition top)) with (priorityOf top).
    change (priorityOf (erasePosition curr)) with (priorityOf curr).
    destruct (type top === "("); [reflexivity|].
    destruct (priorityOf top) as [pt|e|] eqn:Hpt; cbn [bind eraseOutcome];
      [|destruct (priorityOf_no_throw _ _ Hpt)|reflexivity].
    destruct (priorityOf curr) as [pc|e|] eqn:Hpc; cbn [bind eraseOutcome];
      [|destruct (priorityOf_no_throw _ _ Hpc)|reflexivity].
    destruct (pt <=? pc)%Z; [reflexivity|].
    destruct rands as [|rhs [|lhs rands]]; cbn [popOperand bind eraseOutcome];
      try reflexivity.
    change (createOperatorNode lhs (erasePosition top) rhs)
      with (createOperatorNode lhs top rhs).
    destruct (createOperatorNode lhs top rhs) as [n|e|] eqn:Hn;
      cbn [bind eraseOutcome];
      [|destruct (createOperatorNode_no_throw _ _ _ _ Hn)|reflexivity].
    rewrite addOperand_erase.
    destruct (addOperand n rands rest) as [rands2 ops2]. cbn [fst snd].
    apply IH.
Qed.

(** Both sides are the same once the projections are computed. *)
Ltac same_after_erasure :=
  unfold parseError, eraseOutcome, eraseError, eraseState;
  cbn [description start_ end_ start end' erasePosition type index fst snd bind
       operators operands needOperand map assert popOperand topOf];
  reflexivity.

Lemma popUntilOpenParenthesis_erase : forall curr fuel ops rands,
  popUntilOpenParenthesis fuel (erasePosition curr) (map erasePosition ops) rands
  = eraseOutcome (fun p => (map erasePosition (fst p), snd p))
                 (popUntilOpenParenthesis fuel curr ops rands).
Proof.
  intro curr. induction fuel as [|fuel IH]; intros ops rands.
  - same_after_erasure.
  - cbn [popUntilOpenParenthesis]. destruct ops as [|top rest]; [same_after_erasure|].
    cbn [map]. change (type (erasePosition top)) with (type top).
    destruct (type top === "("); [same_after_erasure|].
    destruct (type top === "~"); [same_after_erasure|].
    destruct rands as [|rhs [|lhs rands]]; cbn [popOperand bind eraseOutcome];
      [same_after_erasure | same_after_erasure |].
    change (createOperatorNode lhs (erasePosition top) rhs)
      with (createOperatorNode lhs top rhs).
    destruct (createOperatorNode lhs top rhs) as [n|e|] eqn:Hn;
      cbn [bind eraseOutcome];
      [|destruct (createOperatorNode_no_throw _ _ _ _ Hn)|same_after_erasure].
    rewrite addOperand_erase.
    destruct (addOperand n rands rest) as [rands2 ops2]. cbn [fst snd].
    apply IH.
Qed.

Lemma parseToken_erase : forall t st,
  parseToken (erasePosition t) (eraseState st)
  = eraseOutcome (fun p => (fst p, eraseState (snd p))) (parseToken t st).
Proof.
  intros t [ops rands need]. unfold parseToken, eraseState.
  cbn [needOperand operators operands].
  change (isOperand (erasePosition t)) with (isOperand t).
  change (wrapOperand (erasePosition t)) with (wrapOperand t).
  change (type (erasePosition t)) with (type t).
  change (isEOF (erasePosition t)) with (isEOF t).
  change (isBinaryOperator (erasePosition t)) with (isBinaryOperator t).
  destruct need.
  - destruct (isOperand t).
    + destruct (wrapOperand t) as [n|e|] eqn:Hw; cbn [bind eraseOutcome];
        [|destruct (wrapOperand_no_throw _ _ Hw)|same_after_erasure].
      rewrite addOperand_erase.
      destruct (addOperand n rands ops) as [rands2 ops2]. same_after_erasure.
    + destruct ((type t === "(") || (type t === "~")); [same_after_erasure|].
      destruct (isEOF t); [|same_after_erasure].
      destruct ops as [|top rest]; [same_after_erasure|].
      cbn [map topOf bind]. change (type (erasePosition top)) with (type top).
      destruct (type top === "("); same_after_erasure.
  - rewrite length_map.
    destruct (isBinaryOperator t || isEOF t).
    + rewrite evaluateHigherPriority_erase.
      destruct (evaluateHigherPriority (S (length ops)) t ops rands)
        as [[ops2 rands2]|e|] eqn:Hev; [same_after_erasure| |same_after_erasure].
      destruct (evaluateHigherPriority_no_throw _ _ _ _ _ Hev).
    + destruct (type t === ")"); [|same_after_erasure].
      rewrite popUntilOpenParenthesis_erase.
      destruct (popUntilOpenParenthesis (S (length ops)) t ops rands)
        as [[ops2 rands2]| |]; cbn [eraseOutcome bind fst snd];
        [|same_after_erasure|same_after_erasure].
      destruct rands2 as [|expr rands2]; cbn [popOperand bind eraseOutcome];
        [same_after_erasure|].
      rewrite addOperand_erase.
      destruct (addOperand expr rands2 ops2) as [rands3 ops3]. same_after_erasure.
Qed.

Lemma parseLoop_erase : forall tokens st,
  parseLoop (map erasePosition tokens) (eraseState st)
  = eraseOutcome eraseState (parseLoop tokens st).
Proof.
  induction tokens as [|t tokens IH]; intro st.
  - same_after_erasure.
  - cbn [map parseLoop]. rewrite parseToken_erase.
    destruct (parseToken t st) as [[[|] st1]| |]; cbn [eraseOutcome bind fst snd];
      [|same_after_erasure|same_after_erasure|same_after_erasure].
    apply IH.
Qed.

(** [parseTokens] reads the positions of the tokens for the ranges of
    its errors only. *)
Lemma parseTokens_erase : forall tokens vars,
  parseTokens (map erasePosition tokens) vars
  = eraseOutcome (fun r => r) (parseTokens tokens vars).
Proof.
  intros tokens vars. unfold parseTokens.
  change initialState with (eraseState initialState) at 1.
  rewrite parseLoop_erase.
  destruct (parseLoop tokens initialState) as [[ops rands need]| |];
    cbn [eraseOutcome bind eraseState operators operands];
    [|same_after_erasure|same_after_erasure].
  rewrite length_map.
  destruct ops as [|top rest]; [same_after_erasure|].
  cbn [length Nat.eqb negb assert bind map].
  change (isEOF (erasePosition top)) with (isEOF top).
  destruct (isEOF top); cbn [assert bind eraseOutcome]; [|same_after_erasure].
  destruct rest as [|m rest].
  - cbn [map]. destruct rands as [|a rands]; same_after_erasure.
  - cbn [map]. change (type (erasePosition m)) with (type m).
    destruct (type m === "("); same_after_erasure.
Qed.

Lemma same_shapes_same_outcome : forall (l1 l2 : list tok) vars,
  map erasePosition l1 = map erasePosition l2 ->
  match parseTokens l1 vars, parseTokens l2 vars with
  | Return r1, Return r2 => r1 = r2
  | Throw e1, Throw e2 => description e1 = description e2
  | Failure f1, Failure f2 => f1 = f2
  | _, _ => False
  end.
Proof.
  intros l1 l2 vars H.
  pose proof (parseTokens_erase l1 vars) as H1.
  pose proof (parseTokens_erase l2 vars) as H2.
  rewrite H in H1. rewrite H1 in H2. clear H1.
  destruct (parseTokens l1 vars) as [r1|e1|f1];
    destruct (parseTokens l2 vars) as [r2|e2|f2];
    cbn [eraseOutcome] in H2; try discriminate; inversion H2; reflexivity.
Qed.

(** X7 (scan, parse, makeIdentityToken, makeVariableToken,
    numberVariables): what [parse] returns depends only on the texts of
    the tokens, in their order: two inputs whose tokens have the same
    texts, however the whitespace between them differs, give the same
    tree and the same variable list, or fail with the same message. *)
Theorem parse_depends_on_token_texts :
  forall (in1 in2 : jsstring) tokens1 tokens2 vars1 vars2,
    scan in1 = Return (tokens1, vars1) ->
    scan in2 = Return (tokens2, vars2) ->
    map (lexeme in1) tokens1 = map (lexeme in2) tokens2 ->
    vars1 = vars2
    /\ match parse in1, parse in2 with
       | Return r1, Return r2 => r1 = r2
       | Throw e1, Throw e2 => description e1 = description e2
       | _, _ => False
       end.
Proof.
  intros in1 in2 tokens1 tokens2 vars1 vars2 H1 H2 Htexts.
  destruct (scan_tokens _ _ _ H1) as (inner1 & Ht1 & _ & Hlex1 & Hn1).
  destruct (scan_tokens _ _ _ H2) as (inner2 & Ht2 & _ & Hlex2 & Hn2).
  pose proof (scan_sorted _ _ _ H1) as Hs1.
  pose proof (scan_sorted _ _ _ H2) as Hs2.
  assert (Hinner : map (lexeme in1) inner1 = map (lexeme in2) inner2).
  { rewrite Ht1, Ht2, !map_app in Htexts. cbn [map] in Htexts.
    apply app_inj_tail in Htexts. apply Htexts. }
  assert (Hvars : vars1 = vars2).
  { apply strictly_sorted_unique; try assumption. intro name.
    rewrite (scan_variables_by_text _ _ _ Hlex1 Hn1 name).
    rewrite (scan_variables_by_text _ _ _ Hlex2 Hn2 name).
    rewrite Hinner. reflexivity. }
  split; [exact Hvars|]. subst vars2.
  assert (Hnd : NoDup vars1) by (apply strictly_sorted_NoDup; exact Hs1).
  assert (Hproto : ~ In (js "__proto__") vars1).
  { intro Hin. destruct (Hn1 _ Hin) as [Hne _]. apply Hne. reflexivity. }
  assert (Hshape : map erasePosition tokens1 = map erasePosition tokens2).
  { rewrite Ht1, Ht2, !map_app. f_equal.
    eapply same_texts_same_shapes; eassumption. }
  rewrite (parse_of_scan _ _ _ H1), (parse_of_scan _ _ _ H2).
  pose proof (same_shapes_same_outcome _ _ vars1 Hshape) as Hsame.
  pose proof (parse_outcome in1) as Hp. rewrite (parse_of_scan _ _ _ H1) in Hp.
  destruct (parseTokens tokens1 vars1) as [r1|e1|f1];
    destruct (parseTokens tokens2 vars1) as [r2|e2|f2];
    try exact Hsame; try contradiction.
Qed.

Lemma parse_depends_on_token_texts_witness :
  scan (js "p and ~q") = Return (textsExampleTokens1, [js "p"; js "q"])
  /\ scan (js "  p and   ~ q ") = Return (textsExampleTokens2, [js "p"; js "q"])
  /\ map (lexeme (js "p and ~q")) textsExampleTokens1
     = map (lexeme (js "  p and   ~ q ")) textsExampleTokens2
  /\ [js "p"; js "q"] = [js "p"; js "q"]
  /\ match parse (js "p and ~q"), parse (js "  p and   ~ q ") with
     | Return r1, Return r2 => r1 = r2
     | Throw e1, Throw e2 => description e1 = description e2
     | _, _ => False
     end.
Proof.
  assert (H1 : scan (js "p and ~q") = Return (textsExampleTokens1, [js "p"; js "q"]))
    by (vm_compute; reflexivity).
  assert (H2 : scan (js "  p and   ~ q ")
               = Return (textsExampleTokens2, [js "p"; js "q"]))
    by (vm_compute; reflexivity).
  assert (H3 : map (lexeme (js "p and ~q")) textsExampleTokens1
               = map (lexeme (js "  p and   ~ q ")) textsExampleTokens2)
    by (vm_compute; reflexivity).
  exact (conj H1 (conj H2 (conj H3
           (parse_depends_on_token_texts _ _ _ _ _ _ H1 H2 H3)))).
Defined.

(* ------------------------------------------------------------------ *)
(** *** Token types the parser does not know *)

Lemma operatorSpellings_translated :
  forallb (fun c => forallb translatedOrLneg (snd c)) operatorSpellings = true.
Proof. vm_compute. reflexivity. Qed.

Lemma singleCharOperator_translated : forall c,
  isSingleCharOperator c = true -> knownType (translate [c]) = true.
Proof.
  intros c H. unfold isSingleCharOperator, isGlyph in H.
  rewrite !orb_true_iff, !N.eqb_eq in H.
  repeat match type of H with _ \/ _ => destruct H as [H | H] end;
    subst c; reflexivity.
Qed.

Lemma tryReadOperator_translated : forall (input : jsstring) i op,
  tryReadOperator input i = Some op ->
  knownType (translate op) = true \/ op = js "\lneg".
Proof.
  intros input i op H. unfold tryReadOperator in H.
  destruct (firstCase operatorSpellings input i) as [r|] eqn:Hf.
  - inversion H; subst r.
    destruct (firstCase_Some _ _ _ _ Hf) as (n & sps & s & Hin & Hs & Hop & _).
    pose proof operatorSpellings_translated as Hall.
    rewrite forallb_forall in Hall. specialize (Hall _ Hin). simpl in Hall.
    rewrite forallb_forall in Hall. specialize (Hall _ Hs).
    unfold translatedOrLneg in Hall. rewrite <- Hop in Hall.
    apply orb_true_iff in Hall. destruct Hall as [Hk | Hl].
    + left. exact Hk.
    + right. apply jseqb_eq. exact Hl.
  - unfold singleCharCase in H.
    destruct (charAt input i) as [c|]; [|discriminate].
    destruct (isSingleCharOperator c) eqn:Hs; [|discriminate].
    inversion H; subst op. left. apply singleCharOperator_translated. exact Hs.
Qed.

(** The types of the tokens of the preliminary scan. *)
Lemma preliminaryScanLoop_types : forall fuel input i vs toks toks' vs',
  Forall (fun t => knownType (type t) = true \/ type t = js "\lneg") toks ->
  preliminaryScanLoop fuel input i vs toks = Return (toks', vs') ->
  Forall (fun t => knownType (type t) = true \/ type t = js "\lneg") toks'.
Proof.
  induction fuel as [|fuel IH]; intros input i vs toks toks' vs' Hall H.
  - discriminate.
  - cbn [preliminaryScanLoop] in H.
    destruct (jseqb (charStr (charAt input i)) kScannerConstants.EOF) eqn:Heof.
    { inversion H; subst toks' vs'. apply Forall_app. split; [exact Hall|].
      constructor; [|constructor]. left. apply jseqb_eq in Heof.
      cbn [makeIdentityToken type]. rewrite Heof. reflexivity. }
    unfold isVariableStart, scanVariable in H.
    destruct (tryReadVariableName input i) as [name|].
    { eapply IH; [|exact H]. apply Forall_app. split; [exact Hall|].
      constructor; [|constructor]. left. reflexivity. }
    unfold isOperatorStart in H.
    destruct (tryReadOperator input i) as [op|] eqn:Ho.
    { eapply IH; [|exact H]. apply Forall_app. split; [exact Hall|].
      constructor; [|constructor]. cbn [makeIdentityToken type].
      destruct (tryReadOperator_translated _ _ _ Ho) as [Hk | Hl]; [left; exact Hk|].
      right. subst op. reflexivity. }
    destruct (isWhitespace (charAt input i)); [|discriminate].
    eapply IH; eassumption.
Qed.

Lemma scan_types : forall (input : jsstring) tokens vars,
  scan input = Return (tokens, vars) ->
  Forall (fun t : tok => knownType (type t) = true \/ type t = js "\lneg") tokens.
Proof.
  intros input tokens vars H.
  destruct (scan_Return _ _ _ H) as (_ & ptoks & vs & Hloop & Htok & _).
  pose proof (preliminaryScanLoop_types _ _ _ _ _ _ _ (Forall_nil _) Hloop) as Hty.
  subst tokens. apply Forall_map. eapply Forall_impl; [|exact Hty].
  intros t Ht.
  destruct (renumberToken_fields (invertVariables (sort (forIn vs)) 0 vs) t)
    as (E & _). rewrite E. exact Ht.
Qed.

(** A token of a type the parser does not know ends the loop with an
    error, whatever the state. *)
Lemma parseToken_unknown : forall t st,
  knownType (type t) = false -> exists e, parseToken t st = Throw e.
Proof.
  intros t [ops rands need] H. unfold knownType in H.
  rewrite !orb_false_iff in H.
  destruct H as ((((((((((H1 & H2) & H3) & H4) & H5) & H6) & H7) & H8) & H9) & H10) & H11).
  unfold parseToken, isOperand, isBinaryOperator, isEOF.
  cbn [needOperand operators operands].
  rewrite H1, H2, H3, H4, H5, H6, H7, H8, H9, H10, H11. cbn [orb].
  destruct need; eexists; reflexivity.
Qed.

Lemma parseLoop_unknown : forall tokens t st st',
  In t tokens -> knownType (type t) = false ->
  Forall (fun c => isEOF c = false) tokens ->
  forall rest, parseLoop (tokens ++ rest) st <> Return st'.
Proof.
  induction tokens as [|c tokens IH]; intros t st st' Hin Hunknown Hall rest H.
  - destruct Hin.
  - inversion Hall as [|? ? Hc Hall']; subst. cbn [app parseLoop] in H.
    destruct Hin as [E | Hin].
    + subst c. destruct (parseToken_unknown t st Hunknown) as [e He].
      rewrite He in H. discriminate.
    + destruct (parseToken c st) as [[[|] st1]| |] eqn:Hs; cbn [bind] in H;
        try discriminate.
      * eapply IH; eassumption.
      * apply parseToken_Break in Hs. destruct Hs as [He _]. congruence.
Qed.

(** X6 (tryReadOperator, translate, parse): every token of [scan] has
    a type the parser knows, with one exception: the spelling [\lneg] is
    read as a token, but [translate] has no type for it.  The parser knows
    no token of the type [\lneg]: an input in which this spelling is read
    as a token is never accepted. *)
Theorem lneg_is_read_but_never_parsed :
  (forall (input : jsstring) tokens vars,
     scan input = Return (tokens, vars) ->
     Forall (fun t : tok => knownType (type t) = true \/ type t = js "\lneg") tokens)
  /\ (forall (input : jsstring) tokens vars t,
        scan input = Return (tokens, vars) ->
        In t tokens -> type t = js "\lneg" ->
        exists e, parse input = Throw e)
  /\ scan (js "\lneg p")
     = Return ([ mkToken (js "\lneg") None 0 5;
                 mkToken (js "variable") (Some (PNum 0)) 6 7;
                 mkToken kScannerConstants.EOF None 7 8 ],
               [js "p"])
  /\ scan (js "\lnot p")
     = Return ([ mkToken (js "~") None 0 5;
                 mkToken (js "variable") (Some (PNum 0)) 6 7;
                 mkToken kScannerConstants.EOF None 7 8 ],
               [js "p"]).
Proof.
  split; [exact scan_types|]. split; [|split; vm_compute; reflexivity].
  intros input tokens vars t Hscan Hin Hty.
  pose proof (parse_outcome input) as Hout.
  destruct (parse input) as [r|e|f] eqn:Hparse; [|exists e; reflexivity|contradiction].
  exfalso. rewrite (parse_of_scan _ _ _ Hscan) in Hparse.
  destruct (scan_inner_tokens _ _ _ Hscan) as (inner & eof & Htok & He & Hinner & _).
  subst tokens. apply in_app_or in Hin. destruct Hin as [Hin | [E | []]].
  - unfold parseTokens in Hparse.
    destruct (parseLoop (inner ++ [eof]) initialState) as [st'| |] eqn:Hl;
      cbn [bind] in Hparse; try discriminate.
    eapply (parseLoop_unknown inner t); try eassumption.
    rewrite Hty. reflexivity.
  - subst t. unfold isEOF in He. rewrite Hty in He. discriminate.
Qed.

(* ------------------------------------------------------------------ *)
(** *** The text of a tree *)

Lemma render_true : forall vars, render trueNode vars = [38; 35; 56; 56; 54; 56; 59]%N.
Proof. reflexivity. Qed.

Lemma render_false : forall vars, render falseNode vars = [38; 35; 56; 56; 54; 57; 59]%N.
Proof. reflexivity. Qed.

Lemma render_negate : forall u vars,
  render (negateNode u) vars = [38; 110; 111; 116; 59]%N ++ render u vars.
Proof. reflexivity. Qed.

Lemma render_and : forall l r vars,
  render (andNode l r) vars
  = 40%N :: render l vars ++ [32; 38; 97; 110; 100; 59; 32]%N ++ render r vars ++ [41%N].
Proof. reflexivity. Qed.

Lemma render_or : forall l r vars,
  render (orNode l r) vars
  = 40%N :: render l vars ++ [32; 38; 111; 114; 59; 32]%N ++ render r vars ++ [41%N].
Proof. reflexivity. Qed.

Lemma render_implies : forall l r vars,
  render (impliesNode l r) vars
  = 40%N :: render l vars ++ [32; 38; 114; 97; 114; 114; 59; 32]%N
         ++ render r vars ++ [41%N].
Proof. reflexivity. Qed.

Lemma render_iff : forall l r vars,
  render (iffNode l r) vars
  = 40%N :: render l vars ++ [32; 38; 104; 97; 114; 114; 59; 32]%N
         ++ render r vars ++ [41%N].
Proof. reflexivity. Qed.

Lemma names_prefix : forall (n1 n2 x y : jsstring),
  forallb isVariableChar n1 = true -> forallb isVariableChar n2 = true ->
  endsName x -> endsName y ->
  n1 ++ x = n2 ++ y -> n1 = n2 /\ x = y.
Proof.
  induction n1 as [|c1 n1 IH]; intros [|c2 n2] x y H1 H2 Hx Hy H; cbn [app] in H.
  - split; [reflexivity | exact H].
  - exfalso. subst x. simpl in Hx, H2. rewrite Hx in H2. discriminate.
  - exfalso. subst y. simpl in Hy, H1. rewrite Hy in H1. discriminate.
  - inversion H; subst c2. simpl in H1, H2.
    apply andb_true_iff in H1, H2. destruct H1 as [_ H1]. destruct H2 as [_ H2].
    destruct (IH n2 x y H1 H2 Hx Hy) as [E1 E2]; [assumption|].
    subst. split; reflexivity.
Qed.

Section Rendering.

Variable vars : list jsstring.
Hypothesis vars_NoDup : NoDup vars.
Hypothesis vars_names : Forall (fun v => isVariableName v = true) vars.

Lemma render_variable : forall idx,
  indicesBelow (length vars) (variableNode idx) ->
  exists i name, idx = PNum i /\ nth_error vars i = Some name
                 /\ render (variableNode idx) vars = name
                 /\ isVariableName name = true.
Proof.
  intros idx H. destruct idx as [|i| | |]; simpl in H; try contradiction.
  destruct (nth_error vars i) as [name|] eqn:Hn.
  - exists i, name. repeat split; try assumption.
    + unfold render. cbn [toString arrayGet]. rewrite Hn. reflexivity.
    + rewrite Forall_forall in vars_names. apply vars_names.
      eapply nth_error_In. exact Hn.
  - apply nth_error_None in Hn. lia.
Qed.

(** The text of a variable does not start like the text of another kind
    of node. *)
Lemma name_head : forall (name x rest : jsstring) c,
  isVariableName name = true ->
  isVariableStartChar c = false ->
  name ++ x = c :: rest -> False.
Proof.
  intros name x rest c Hn Hc H.
  destruct (variableName_chars _ Hn) as (_ & c' & rest' & E & Hs). subst name.
  inversion H; subst c'. congruence.
Qed.

Ltac normalise H :=
  rewrite ?render_true, ?render_false, ?render_negate, ?render_and, ?render_or,
    ?render_implies, ?render_iff in H;
  repeat (progress (cbn [app] in H; rewrite <- ?app_assoc in H)).

Ltac variable_left Ha H :=
  let i := fresh "i" in let name := fresh "name" in
  let Hn := fresh "Hn" in
  destruct (render_variable _ Ha) as (i & name & ? & ? & Hr & Hn);
  rewrite Hr in H; normalise H;
  exfalso; eapply (name_head name); [exact Hn | | exact H]; reflexivity.

Ltac variable_right Hb H :=
  let i := fresh "i" in let name := fresh "name" in
  let Hn := fresh "Hn" in
  destruct (render_variable _ Hb) as (i & name & ? & ? & Hr & Hn);
  rewrite Hr in H; normalise H;
  exfalso; eapply (name_head name); [exact Hn | | symmetry; exact H]; reflexivity.

Ltac binary_case IHl IHr Ha Hb H :=
  let Hal := fresh "Hal" in let Har := fresh "Har" in
  let Hbl := fresh "Hbl" in let Hbr := fresh "Hbr" in
  let E1 := fresh "E" in let E2 := fresh "E" in
  let E3 := fresh "E" in let E4 := fresh "E" in
  injection H as H; destruct Ha as [Hal Har]; destruct Hb as [Hbl Hbr];
  apply IHl in H; [|assumption|assumption|reflexivity|reflexivity];
  destruct H as [E1 E2];
  first [ discriminate E2
        | subst; injection E2 as E2;
          apply IHr in E2; [|assumption|assumption|reflexivity|reflexivity];
          destruct E2 as [E3 E4]; subst; injection E4 as E4;
          split; [reflexivity | exact E4] ].

(** The text of a tree is followed, in the text of a larger tree, by a
    blank or a close parenthesis: it can be read off in one way only. *)
Lemma render_prefix_free : forall a b x y,
  indicesBelow (length vars) a -> indicesBelow (length vars) b ->
  endsName x -> endsName y ->
  render a vars ++ x = render b vars ++ y ->
  a = b /\ x = y.
Proof.
  induction a as [| |u IH|l IHl r IHr|l IHl r IHr|l IHl r IHr|l IHl r IHr|idx];
    intros b x y Ha Hb Hx Hy H;
    destruct b as [| |u'|l' r'|l' r'|l' r'|l' r'|idx'];
    try (variable_right Hb H); try (variable_left Ha H);
    normalise H; try discriminate H.
  1-2: inversion H; split; reflexivity.
  1: injection H as H; destruct (IH u' x y Ha Hb Hx Hy H) as [E1 E2];
     subst; split; reflexivity.
  1-16: binary_case IHl IHr Ha Hb H.
  destruct (render_variable _ Ha) as (i & n1 & Ei & Hi & Hr1 & Hn1).
  destruct (render_variable _ Hb) as (j & n2 & Ej & Hj & Hr2 & Hn2).
  rewrite Hr1, Hr2 in H.
  destruct (variableName_chars _ Hn1) as [Hc1 _].
  destruct (variableName_chars _ Hn2) as [Hc2 _].
  destruct (names_prefix _ _ _ _ Hc1 Hc2 Hx Hy H) as [E1 E2].
  split; [|exact E2]. subst idx idx' n2. f_equal. f_equal.
  pose proof vars_NoDup as Hnd. rewrite NoDup_nth_error in Hnd. apply Hnd.
  - apply nth_error_Some. rewrite Hi. discriminate.
  - congruence.
Qed.

End Rendering.

(** X13 (toString of every node type): the text [toString] gives
    determines the tree.  Over a list of pairwise different variable
    names, two trees whose variable nodes refer to the list and whose
    texts are equal are the same tree. *)
Theorem toString_unambiguous : forall vars a b,
  NoDup vars ->
  Forall (fun v => isVariableName v = true) vars ->
  indicesBelow (length vars) a ->
  indicesBelow (length vars) b ->
  toString a vars = toString b vars ->
  a = b.
Proof.
  intros vars a b Hnd Hnames Ha Hb H.
  destruct (render_prefix_free vars Hnd Hnames a b [] [] Ha Hb I I) as [E _].
  - unfold render. rewrite H. reflexivity.
  - exact E.
Qed.

Lemma toString_unambiguous_witness :
  NoDup [js "p"; js "q"]
  /\ Forall (fun v => isVariableName v = true) [js "p"; js "q"]
  /\ impliesNode (variableNode (PNum 0)) (negateNode (variableNode (PNum 1)))
     = impliesNode (variableNode (PNum 0)) (negateNode (variableNode (PNum 1))).
Proof.
  assert (H1 : NoDup [js "p"; js "q"]).
  { repeat constructor; simpl; intuition discriminate. }
  assert (H2 : Forall (fun v => isVariableName v = true) [js "p"; js "q"]).
  { repeat constructor. }
  refine (conj H1 (conj H2 (toString_unambiguous [js "p"; js "q"] _ _ H1 H2 _ _ eq_refl))).
  - simpl. lia.
  - simpl. lia.
Defined.

(* ------------------------------------------------------------------ *)
(** *** Evaluation and the binary counter *)

(** X15 (nextAssignment): [nextAssignment] is the successor of the
    binary counter.  On an assignment that is all true it returns false
    and leaves the assignment as it is; on any other it returns true and
    leaves an assignment of the same length whose value as a binary
    number is one more. *)
Theorem nextAssignment_successor : forall v,
  (forallb (fun b : bool => b) v = true ->
     nextAssignment v = (false, v))
  /\ (forallb (fun b : bool => b) v = false ->
        exists v', nextAssignment v = (true, v')
                   /\ length v' = length v
                   /\ binaryValue v' = binaryValue v + 1).
Proof.
  intro v.
  assert (Hall : forall m, forallb (fun b : bool => b) (repeat true m) = true).
  { induction m as [|m IH]; [reflexivity | exact IH]. }
  destruct (last_false_decomposition v) as [Ht | (pre & m & Hf)].
  - split.
    + intros _. rewrite Ht at 1. rewrite nextAssignment_all_true.
      rewrite <- Ht. reflexivity.
    + intro H. rewrite Ht, Hall in H. discriminate.
  - split.
    + intro H. rewrite Hf, forallb_app in H. simpl in H.
      rewrite andb_false_r in H. discriminate.
    + intros _. destruct (nextAssignment_spec v) as [[Hn _] | Hs]; [|exact Hs].
      exfalso. rewrite Hf in Hn at 1. rewrite nextAssignment_last_false in Hn.
      discriminate.
Qed.

(** X14 (evaluate of every node type): the value of a tree depends
    only on the entries of the assignment its variable nodes refer to. *)
Theorem evaluate_reads_only_its_variables : forall a v w,
  (forall i, occursIn i a -> nth_error v i = nth_error w i) ->
  evaluate a v = evaluate a w.
Proof.
  induction a as [| |u IH|l IHl r IHr|l IHl r IHr|l IHl r IHr|l IHl r IHr|idx];
    intros v w H; cbn [evaluate]; try reflexivity.
  - rewrite (IH v w H). reflexivity.
  - rewrite (IHl v w), (IHr v w); [reflexivity | |]; intros i Hi; apply H; simpl; tauto.
  - rewrite (IHl v w), (IHr v w); [reflexivity | |]; intros i Hi; apply H; simpl; tauto.
  - rewrite (IHl v w), (IHr v w); [reflexivity | |]; intros i Hi; apply H; simpl; tauto.
  - rewrite (IHl v w), (IHr v w); [reflexivity | |]; intros i Hi; apply H; simpl; tauto.
  - destruct idx as [|j| | |]; try reflexivity.
    cbn [arrayGet]. apply H. reflexivity.
Qed.

Lemma evaluate_reads_only_its_variables_witness :
  (forall i, occursIn i (orNode (variableNode (PNum 0)) (negateNode (variableNode (PNum 2)))) ->
             nth_error [true; false; false] i = nth_error [true; true; false; true] i)
  /\ evaluate (orNode (variableNode (PNum 0)) (negateNode (variableNode (PNum 2))))
              [true; false; false]
     = evaluate (orNode (variableNode (PNum 0)) (negateNode (variableNode (PNum 2))))
                [true; true; false; true].
Proof.
  assert (H : forall i,
             occursIn i (orNode (variableNode (PNum 0))
                                (negateNode (variableNode (PNum 2)))) ->
             nth_error [true; false; false] i = nth_error [true; true; false; true] i).
  { intros i [Hi | Hi]; simpl in Hi; subst i; reflexivity. }
  exact (conj H (evaluate_reads_only_its_variables _ _ _ H)).
Defined.

(* ------------------------------------------------------------------ *)
(** *** The renderer *)

Lemma fold_cells : forall (A : Type) (arr : list A) (mk : option A -> element)
                          t c b (rest pre : list A) ch,
  arr = pre ++ rest ->
  fold_left (fun el i => appendChild el (mk (nth_error arr i)))
            (seq (length pre) (length rest)) (Element t c b ch)
  = Element t c b (ch ++ map (fun x => mk (Some x)) rest).
Proof.
  intros A arr mk t c b. induction rest as [|x rest IH]; intros pre ch H.
  - cbn. rewrite app_nil_r. reflexivity.
  - cbn [length seq fold_left map appendChild].
    assert (Hx : nth_error arr (length pre) = Some x).
    { subst arr. rewrite nth_error_app2 by lia. rewrite Nat.sub_diag. reflexivity. }
    rewrite Hx.
    specialize (IH (pre ++ [x]) (ch ++ [mk (Some x)])).
    rewrite length_app in IH. cbn [length] in IH. rewrite Nat.add_1_r in IH.
    rewrite IH by (rewrite <- app_assoc; exact H).
    rewrite <- app_assoc. reflexivity.
Qed.

Lemma createTableHeader_headerRow : forall table pr,
  createTableHeader table pr = appendChild table (headerRow pr).
Proof.
  intros table pr. unfold createTableHeader, headerRow. f_equal.
  unfold createElement, setClassName.
  rewrite (fold_cells _ (variables pr)
             (fun o => setInnerHTML (Element (js "th") (js "variable") NoContent []) o)
             _ _ _ (variables pr) [] []) by reflexivity.
  reflexivity.
Qed.

Lemma outputRow_bodyRow : forall a assignment table,
  outputRow assignment (evaluate a assignment) table
  = appendChild table (bodyRow a assignment).
Proof.
  intros a assignment table. unfold outputRow, bodyRow. f_equal.
  unfold createElement.
  rewrite (fold_cells _ assignment
             (fun o => setInnerHTML (Element (js "td") [] NoContent [])
                         (Some (if truthy o then js "T" else js "F")))
             _ _ _ assignment [] []) by reflexivity.
  reflexivity.
Qed.

Lemma sinkCalls_outputRow : forall a rows t c b ch,
  sinkCalls outputRow a rows (Element t c b ch)
  = Element t c b (ch ++ map (bodyRow a) rows).
Proof.
  intros a. unfold sinkCalls. induction rows as [|v rows IH]; intros t c b ch.
  - cbn. rewrite app_nil_r. reflexivity.
  - cbn [fold_left map]. rewrite outputRow_bodyRow. cbn [appendChild].
    rewrite IH. rewrite <- app_assoc. reflexivity.
Qed.

(** With enough rounds, [generateTruthTable] calls the callback on the
    assignments in the order of the binary counter. *)
Lemma generateTruthTable_sinkCalls :
  forall (St : Type) (callback : list bool -> jsbool -> St -> St) st pr fuel,
    2 ^ length (variables pr) <= fuel ->
    generateTruthTable callback fuel pr st
    = Return (sinkCalls callback (ast pr)
                        (binaryCounterOrder (length (variables pr))) st).
Proof.
  intros St callback st pr fuel Hfuel.
  set (n := length (variables pr)) in *.
  assert (Hpos : 0 < 2 ^ n) by (apply Nat.neq_0_lt_0, Nat.pow_nonzero; lia).
  unfold generateTruthTable. rewrite initial_assignment. fold n.
  rewrite (truthTableLoop_spec _ callback (ast pr) n (2 ^ n - 1)).
  - rewrite binaryValue_repeat_false. unfold binaryCounterOrder.
    replace (2 ^ n - 1 + 1) with (2 ^ n) by lia. reflexivity.
  - apply repeat_length.
  - rewrite binaryValue_repeat_false. lia.
  - lia.
Qed.

Lemma removeChildren_empty : forall ch, removeChildren ch = [].
Proof. induction ch as [|x ch IH]; [reflexivity | exact IH]. Qed.

Lemma showObject_spec : forall object doc,
  showObject object doc
  = {| expressionInput := expressionInput doc;
       tableTarget := withChildren (tableTarget doc) [object] |}.
Proof.
  intros object [input [t c b ch]]. unfold showObject. cbn.
  rewrite removeChildren_empty. reflexivity.
Qed.

Lemma prettyPrintTruthTable_spec : forall pr doc fuel,
  2 ^ length (variables pr) <= fuel ->
  prettyPrintTruthTable fuel pr doc
  = Return (showing doc (tableHolder (truthTable pr))).
Proof.
  intros pr doc fuel Hfuel. unfold prettyPrintTruthTable.
  rewrite (generateTruthTable_sinkCalls _ _ _ _ _ Hfuel).
  rewrite createTableHeader_headerRow. unfold createTableElement.
  cbn [createElement setClassName appendChild app bind].
  rewrite sinkCalls_outputRow. unfold displayTable.
  rewrite showObject_spec. reflexivity.
Qed.

Lemma displayCompileError_spec : forall (input : jsstring) e doc,
  start_ e <= end_ e ->
  displayCompileError input e doc = showing doc (errorHolder input e).
Proof.
  intros input e doc H. unfold displayCompileError. rewrite showObject_spec.
  unfold showing, errorHolder, createHighlightedErrorBox, createDescriptionBox,
    substring2, substringFrom, spanOf.
  rewrite Nat.min_0_l, Nat.max_0_l.
  rewrite (Nat.min_l _ _ H), (Nat.max_r _ _ H). reflexivity.
Qed.

Lemma three_spans : forall (input : jsstring) s e,
  s <= e -> e <= length input ->
  substring input 0 s ++ substring input s e ++ skipn e input = input
  /\ length (substring input 0 s) = s
  /\ length (substring input s e) = e - s.
Proof.
  intros input s e H1 H2. unfold substring. rewrite Nat.sub_0_r. cbn [skipn].
  split; [|split].
  - rewrite <- (firstn_skipn s input) at 4.
    f_equal.
    rewrite <- (firstn_skipn (e - s) (skipn s input)) at 2.
    f_equal. rewrite skipn_skipn. f_equal. lia.
  - rewrite length_firstn. lia.
  - rewrite length_firstn, length_skipn. lia.
Qed.

(** X17 (prettyPrintTruthTable, createTableElement, createTableHeader,
    outputRow, displayTable, showObject, generateTruthTable): with enough
    rounds for the loop, [prettyPrintTruthTable] replaces what the output
    box held by one holder with one table: a header row with one cell
    per variable and one for the formula, then 2^n rows, the k-th showing
    the n binary digits of k as T and F and then the value of the formula
    under them; every row has n + 1 cells. *)
Theorem truth_table_displayed : forall pr doc fuel,
  2 ^ length (variables pr) <= fuel ->
  prettyPrintTruthTable fuel pr doc
  = Return (showing doc (tableHolder (truthTable pr)))
  /\ length (children (truthTable pr)) = 1 + 2 ^ length (variables pr)
  /\ nth_error (children (truthTable pr)) 0 = Some (headerRow pr)
  /\ (forall k, k < 2 ^ length (variables pr) ->
        nth_error (children (truthTable pr)) (S k)
        = Some (bodyRow (ast pr) (bitsMSB (length (variables pr)) k)))
  /\ (forall row, In row (children (truthTable pr)) ->
        length (children row) = length (variables pr) + 1).
Proof.
  intros pr doc fuel Hfuel.
  split; [apply prettyPrintTruthTable_spec; exact Hfuel|].
  unfold truthTable. cbn [children].
  split; [|split; [|split]].
  - cbn [length]. rewrite length_map, binaryCounterOrder_length. reflexivity.
  - reflexivity.
  - intros k Hk. cbn [nth_error]. rewrite nth_error_map.
    rewrite (binaryCounterOrder_nth _ _ Hk). reflexivity.
  - intros row [Hrow | Hrow].
    + subst row. unfold headerRow. cbn [children].
      rewrite length_app, length_map. reflexivity.
    + apply in_map_iff in Hrow. destruct Hrow as (v & Hv & Hin). subst row.
      apply binaryCounterOrder_In in Hin.
      unfold bodyRow. cbn [children]. rewrite length_app, length_map, Hin.
      reflexivity.
Qed.

Lemma truth_table_displayed_witness :
  2 ^ length (variables tableExample) <= 4
  /\ prettyPrintTruthTable 4 tableExample pageExample
     = Return (showing pageExample (tableHolder (truthTable tableExample)))
  /\ length (children (truthTable tableExample))
     = 1 + 2 ^ length (variables tableExample)
  /\ nth_error (children (truthTable tableExample)) 0
     = Some (headerRow tableExample)
  /\ (forall k, k < 2 ^ length (variables tableExample) ->
        nth_error (children (truthTable tableExample)) (S k)
        = Some (bodyRow (ast tableExample)
                        (bitsMSB (length (variables tableExample)) k)))
  /\ (forall row, In row (children (truthTable tableExample)) ->
        length (children row) = length (variables tableExample) + 1).
Proof.
  assert (H : 2 ^ length (variables tableExample) <= 4) by (simpl; lia).
  exact (conj H (truth_table_displayed tableExample pageExample 4 H)).
Defined.

(** X18 (displayCompileError, createHighlightedErrorBox,
    createDescriptionBox, showObject): for an error thrown by [parse],
    [displayCompileError] replaces what the output box held by one holder
    with the input in three spans and the description; the three spans
    together are the input, the first has [start] characters and the
    marked one [end - start]. *)
Theorem error_box_shows_the_input : forall (input : jsstring) e doc,
  parse input = Throw e ->
  displayCompileError input e doc = showing doc (errorHolder input e)
  /\ substring input 0 (start_ e) ++ substring input (start_ e) (end_ e)
       ++ skipn (end_ e) input = input
  /\ length (substring input 0 (start_ e)) = start_ e
  /\ length (substring input (start_ e) (end_ e)) = end_ e - start_ e.
Proof.
  intros input e doc H.
  pose proof (parse_outcome input) as Hp. rewrite H in Hp.
  destruct Hp as (H1 & H2 & _).
  split; [apply displayCompileError_spec; exact H1|].
  apply three_spans; assumption.
Qed.

Lemma error_box_shows_the_input_witness :
  parse (js "p q") = Throw boxExample
  /\ displayCompileError (js "p q") boxExample pageExample
     = showing pageExample (errorHolder (js "p q") boxExample)
  /\ substring (js "p q") 0 (start_ boxExample)
       ++ substring (js "p q") (start_ boxExample) (end_ boxExample)
       ++ skipn (end_ boxExample) (js "p q") = js "p q"
  /\ length (substring (js "p q") 0 (start_ boxExample)) = start_ boxExample
  /\ length (substring (js "p q") (start_ boxExample) (end_ boxExample))
     = end_ boxExample - start_ boxExample.
Proof.
  assert (H : parse (js "p q") = Throw boxExample) by (vm_compute; reflexivity).
  exact (conj H (error_box_shows_the_input _ _ pageExample H)).
Defined.

(* ------------------------------------------------------------------ *)
(** *** The round trip through the page *)

Lemma textFrom_skip : forall (s rest : jsstring),
  textFrom (length s) (s ++ rest) = textFrom 0 rest.
Proof.
  induction s as [|c s IH]; intro rest.
  - destruct rest; reflexivity.
  - cbn [length app textFrom]. apply IH.
Qed.

Lemma textFrom_reference : forall (name : string) (ch : jschar) (rest : jsstring),
  In (name, ch) characterReferences ->
  textFrom 0 (js name ++ rest) = ch :: textFrom 0 rest.
Proof.
  intros name ch rest Hin. cbn [characterReferences In] in Hin.
  repeat match type of Hin with _ \/ _ => destruct Hin as [Hin | Hin] end;
    try contradiction; inversion Hin; subst name ch; clear Hin;
    match goal with
    | |- textFrom 0 (js ?s ++ rest) = _ =>
        let l := eval vm_compute in (js s) in
        change (js s) with l
    end;
    cbn [app textFrom];
    match goal with
    | |- context [characterReference ?h] =>
        let r := eval vm_compute in (characterReference h) in
        change (characterReference h) with r
    end;
    cbn [Nat.sub textFrom]; reflexivity.
Qed.













Lemma listed_name : forall vars i n,
  variableNames vars -> indicesBelow n (variableNode i) -> n = length vars ->
  exists j name, i = PNum j /\ nth_error vars j = Some name
                 /\ isVariableName name = true /\ name <> js "__proto__".
Proof.
  intros vars i n [Hall Hno] Hi Hn. destruct i as [|j| | |]; try contradiction.
  cbn [indicesBelow] in Hi. subst n.
  destruct (nth_error vars j) as [name|] eqn:E;
    [|apply nth_error_None in E; lia].
  exists j, name. split; [reflexivity|]. split; [exact E|].
  pose proof (nth_error_In _ _ E) as Hin.
  rewrite Forall_forall in Hall. split; [apply Hall; exact Hin|].
  intro Heq. subst name. contradiction.
Qed.

Ltac flatten_lists :=
  repeat (progress (cbn [app]; rewrite <- ?app_assoc)); reflexivity.



Lemma runs_to : forall input k st st1 st2,
  runs input k st st1 -> st1 = st2 -> runs input k st st2.
Proof. intros input k st st1 st2 H E. subst st2. exact H. Qed.

Lemma run_single : forall (input p q : jsstring) c variableSet tokens,
  input = p ++ c :: q ->
  isSingleCharOperator c = true ->
  isVariableStartChar c = false ->
  runs input 1 (length p, variableSet, tokens)
       (length (p ++ [c]), variableSet,
        tokens ++ [makeIdentityToken [c] (length p)]).
Proof.
  intros input p q c vs toks E Hs Hv. subst input.
  rewrite length_app. cbn [length].
  apply preliminaryScanLoop_single; [apply charAt_middle | assumption..].
Qed.

Lemma run_space : forall (input p q : jsstring) c variableSet tokens,
  input = p ++ c :: q ->
  isWhitespaceChar c = true ->
  runs input 1 (length p, variableSet, tokens) (length (p ++ [c]), variableSet, tokens).
Proof.
  intros input p q c vs toks E Hw. subst input.
  rewrite length_app. cbn [length].
  apply preliminaryScanLoop_space with (c := c); [apply charAt_middle | assumption].
Qed.

Lemma run_name : forall (input p name q : jsstring) variableSet tokens,
  input = p ++ name ++ q ->
  isVariableName name = true ->
  endsName q ->
  runs input 1 (length p, variableSet, tokens)
       (length (p ++ name), objSet variableSet name PTrue,
        tokens ++ [makeVariableToken name (length p) (length p + length name)]).
Proof.
  intros input p name q vs toks E Hn Hq. subst input.
  rewrite length_app.
  apply preliminaryScanLoop_name; [assumption | apply occursAt_middle|].
  rewrite skipn_middle. exact Hq.
Qed.

Lemma scansTo_single : forall vars a c ty,
  shown a vars = [c] ->
  namesOf a vars = [] ->
  preliminaryShape a vars = [mkToken (js ty) None 0 0] ->
  isSingleCharOperator c = true ->
  isVariableStartChar c = false ->
  translate [c] = js ty ->
  scansTo vars a.
Proof.
  intros vars a c ty Hs Hn Hp H1 H2 Ht input pre rest vs toks E Hend.
  rewrite Hs, Hn, Hp in *. cbn [app] in E.
  exists 1, [makeIdentityToken [c] (length pre)].
  split; [cbn [length]; lia|]. split.
  - apply (run_single input pre rest c vs toks E H1 H2).
  - cbn [map]. unfold withoutPosition, makeIdentityToken. cbn [type index].
    rewrite Ht. reflexivity.
Qed.

Section ScanBinary.

Variable vars : list jsstring.
Variables l r : node.
Hypothesis scan_left : scansTo vars l.
Hypothesis scan_right : scansTo vars r.

Lemma scansTo_binary : forall a g ty,
  shown a vars = 40%N :: shown l vars ++ [32%N; g; 32%N] ++ shown r vars ++ [41%N] ->
  namesOf a vars = namesOf l vars ++ namesOf r vars ->
  preliminaryShape a vars
  = mkToken (js "(") None 0 0
    :: preliminaryShape l vars
       ++ mkToken (js ty) None 0 0
       :: preliminaryShape r vars ++ [mkToken (js ")") None 0 0] ->
  isSingleCharOperator g = true ->
  isVariableStartChar g = false ->
  translate [g] = js ty ->
  scansTo vars a.
Proof.
  intros a g ty Hs Hn Hp H1 H2 Ht input pre rest vs toks E Hend.
  rewrite Hs, Hn, Hp in *. clear Hs Hn Hp.
  set (sl := shown l vars) in *. set (sr := shown r vars) in *.
  (* the open parenthesis *)
  assert (R1 := run_single input pre (sl ++ [32%N; g; 32%N] ++ sr ++ [41%N] ++ rest)
                  40%N vs toks).
  specialize (R1 ltac:(rewrite E; flatten_lists) eq_refl eq_refl).
  (* the left side *)
  destruct (scan_left input (pre ++ [40%N]) ([32%N; g; 32%N] ++ sr ++ [41%N] ++ rest)
              vs (toks ++ [makeIdentityToken [40%N] (length pre)]))
    as (kl & newl & Hkl & R2 & Hshl).
  { rewrite E. fold sl. flatten_lists. }
  { reflexivity. }
  fold sl in R2, Hkl.
  (* the space, the glyph and the space *)
  assert (R3 := run_space input ((pre ++ [40%N]) ++ sl) (g :: 32%N :: sr ++ [41%N] ++ rest)
                  32%N (enterNames (namesOf l vars) vs)
                  ((toks ++ [makeIdentityToken [40%N] (length pre)]) ++ newl)).
  specialize (R3 ltac:(rewrite E; flatten_lists) eq_refl).
  assert (R4 := run_single input (((pre ++ [40%N]) ++ sl) ++ [32%N])
                  (32%N :: sr ++ [41%N] ++ rest) g
                  (enterNames (namesOf l vars) vs)
                  ((toks ++ [makeIdentityToken [40%N] (length pre)]) ++ newl)).
  specialize (R4 ltac:(rewrite E; flatten_lists) H1 H2).
  set (tg := makeIdentityToken [g] (length (((pre ++ [40%N]) ++ sl) ++ [32%N]))) in *.
  assert (R5 := run_space input ((((pre ++ [40%N]) ++ sl) ++ [32%N]) ++ [g])
                  (sr ++ [41%N] ++ rest) 32%N
                  (enterNames (namesOf l vars) vs)
                  (((toks ++ [makeIdentityToken [40%N] (length pre)]) ++ newl) ++ [tg])).
  specialize (R5 ltac:(rewrite E; flatten_lists) eq_refl).
  (* the right side *)
  destruct (scan_right input (((((pre ++ [40%N]) ++ sl) ++ [32%N]) ++ [g]) ++ [32%N])
              ([41%N] ++ rest)
              (enterNames (namesOf l vars) vs)
              (((toks ++ [makeIdentityToken [40%N] (length pre)]) ++ newl) ++ [tg]))
    as (kr & newr & Hkr & R6 & Hshr).
  { rewrite E. fold sr. flatten_lists. }
  { reflexivity. }
  fold sr in R6, Hkr.
  (* the close parenthesis *)
  set (p6 := (((((pre ++ [40%N]) ++ sl) ++ [32%N]) ++ [g]) ++ [32%N]) ++ sr) in *.
  assert (R7 := run_single input p6 rest 41%N
                  (enterNames (namesOf r vars) (enterNames (namesOf l vars) vs))
                  ((((toks ++ [makeIdentityToken [40%N] (length pre)]) ++ newl)
                      ++ [tg]) ++ newr)).
  specialize (R7 ltac:(rewrite E; unfold p6; flatten_lists) eq_refl eq_refl).
  exists (1 + (kl + (1 + (1 + (1 + (kr + 1)))))),
         (makeIdentityToken [40%N] (length pre)
          :: newl ++ tg :: newr ++ [makeIdentityToken [41%N] (length p6)]).
  split; [|split].
  - repeat (progress (cbn [length app]; rewrite ?length_app)). lia.
  - eapply runs_to.
    + eapply runs_trans; [exact R1|]. eapply runs_trans; [exact R2|].
      eapply runs_trans; [exact R3|]. eapply runs_trans; [exact R4|].
      eapply runs_trans; [exact R5|]. eapply runs_trans; [exact R6|]. exact R7.
    + unfold enterNames. rewrite fold_left_app. f_equal; [f_equal|].
      * f_equal. unfold p6. flatten_lists.
      * flatten_lists.
  - cbn [map]. rewrite !map_app. cbn [map]. rewrite map_app. cbn [map].
    rewrite Hshl, Hshr.
    unfold tg, withoutPosition, makeIdentityToken. cbn [type index].
    rewrite Ht. reflexivity.
Qed.

End ScanBinary.

(** The loop of [preliminaryScan] on the text shown for a tree. *)
Lemma scan_shown : forall vars a,
  variableNames vars ->
  indicesBelow (length vars) a ->
  scansTo vars a.
Proof.
  intros vars a Hv.
  induction a as [| |u IH|l IHl r IHr|l IHl r IHr|l IHl r IHr|l IHl r IHr|i];
    intro Hi; cbn [indicesBelow] in Hi.
  - apply (scansTo_single vars trueNode 8868%N "T"); reflexivity.
  - apply (scansTo_single vars falseNode 8869%N "F"); reflexivity.
  - intros input pre rest vs toks E Hend. cbn [shown namesOf preliminaryShape] in *.
    assert (R1 := run_single input pre (shown u vars ++ rest) 172%N vs toks).
    specialize (R1 ltac:(rewrite E; flatten_lists) eq_refl eq_refl).
    destruct (IH Hi input (pre ++ [172%N]) rest vs
                 (toks ++ [makeIdentityToken [172%N] (length pre)]))
      as (k & new & Hk & R2 & Hsh).
    { rewrite E. flatten_lists. }
    { exact Hend. }
    exists (1 + k), (makeIdentityToken [172%N] (length pre) :: new).
    split; [cbn [length]; lia|]. split.
    + eapply runs_to; [eapply runs_trans; [exact R1 | exact R2]|].
      f_equal; [f_equal|].
      * f_equal. flatten_lists.
      * flatten_lists.
    + cbn [map]. rewrite Hsh. reflexivity.
  - destruct Hi as [Hl Hr].
    apply (scansTo_binary vars l r (IHl Hl) (IHr Hr) (andNode l r) 8743%N "/\");
      reflexivity.
  - destruct Hi as [Hl Hr].
    apply (scansTo_binary vars l r (IHl Hl) (IHr Hr) (orNode l r) 8744%N "\/");
      reflexivity.
  - destruct Hi as [Hl Hr].
    apply (scansTo_binary vars l r (IHl Hl) (IHr Hr) (impliesNode l r) 8594%N "->");
      reflexivity.
  - destruct Hi as [Hl Hr].
    apply (scansTo_binary vars l r (IHl Hl) (IHr Hr) (iffNode l r) 8596%N "<->");
      reflexivity.
  - destruct (listed_name vars i _ Hv Hi eq_refl) as (j & name & Ei & Hn & Hname & _).
    subst i.
    intros input pre rest vs toks E Hend.
    cbn [shown namesOf preliminaryShape arrayGet] in *. rewrite Hn in *.
    cbn [toStr] in *.
    exists 1, [makeVariableToken name (length pre) (length pre + length name)].
    split.
    { destruct (variableName_chars _ Hname) as (_ & c & rest' & En & _).
      rewrite En. cbn [length]. lia. }
    split.
    + apply (run_name input pre name rest vs toks E Hname Hend).
    + reflexivity.
Qed.

Lemma shown_okay : forall vars a,
  variableNames vars ->
  indicesBelow (length vars) a ->
  forallb okayChars (shown a vars) = true.
Proof.
  intros vars a Hv.
  induction a as [| |u IH|l IHl r IHr|l IHl r IHr|l IHl r IHr|l IHl r IHr|i];
    intro Hi; cbn [indicesBelow shown] in *;
    try reflexivity;
    try (destruct Hi as [Hl Hr]; cbn [forallb]; rewrite !forallb_app;
         rewrite (IHl Hl), (IHr Hr); reflexivity).
  - cbn [forallb]. rewrite (IH Hi). reflexivity.
  - destruct (listed_name vars i _ Hv Hi eq_refl) as (j & name & Ei & Hn & Hname & _).
    subst i. cbn [arrayGet]. rewrite Hn. cbn [toStr].
    destruct (variableName_chars _ Hname) as (Hall & _).
    rewrite forallb_forall in *. intros c Hc. apply variableChar_okay. auto.
Qed.

Lemma enterNames_OK : forall names vs,
  variableSetOK vs -> variableSetOK (enterNames names vs).
Proof.
  induction names as [|n names IH]; intros vs H; cbn [enterNames fold_left].
  - exact H.
  - apply IH. apply objSet_OK. exact H.
Qed.

Lemma enterNames_names : forall names vs k,
  ~ In (js "__proto__") names ->
  (In k (forIn (enterNames names vs)) <-> In k (forIn vs) \/ In k names).
Proof.
  induction names as [|n names IH]; intros vs k Hno; cbn [enterNames fold_left].
  - cbn [In]. tauto.
  - fold (enterNames names (objSet vs n PTrue)).
    rewrite IH by (intro H; apply Hno; right; exact H).
    rewrite objSet_names. cbn [In].
    assert (n <> js "__proto__") by (intro E; apply Hno; left; exact E).
    split.
    + intros [[H1 | [H1 _]] | H1]; auto.
    + intros [H1 | [H1 | H1]]; auto.
Qed.

(** The names written for a tree are those of the variables that occur
    in it. *)
Lemma namesOf_listed : forall vars a name,
  indicesBelow (length vars) a ->
  (In name (namesOf a vars)
   <-> exists j, occursIn j a /\ nth_error vars j = Some name).
Proof.
  intros vars a name.
  induction a as [| |u IH|l IHl r IHr|l IHl r IHr|l IHl r IHr|l IHl r IHr|i];
    intro Hi; cbn [indicesBelow namesOf occursIn] in *;
    try (split; [intros [] | intros (j & [] & _)]);
    try (apply IH; exact Hi);
    try (destruct Hi as [Hl Hr]; rewrite in_app_iff, (IHl Hl), (IHr Hr);
         split; [intros [(j & H1 & H2) | (j & H1 & H2)]; exists j; tauto
                | intros (j & [H1 | H1] & H2); [left | right]; exists j; tauto]).
  destruct i as [|j| | |]; try contradiction. cbn [arrayGet].
  destruct (nth_error vars j) as [n|] eqn:E; [|apply nth_error_None in E; lia].
  cbn [toStr In]. split.
  - intros [H | []]. subst n. exists j. split; [reflexivity | exact E].
  - intros (j' & Hj & Hn). subst j'. left. congruence.
Qed.

Lemma erasePosition_renumberToken : forall o t,
  erasePosition (renumberToken o t)
  = erasePosition (renumberToken o (withoutPosition t)).
Proof.
  intros o t. unfold renumberToken, withoutPosition. cbn [type index].
  destruct (jseqb (type t) (js "variable")); reflexivity.
Qed.

(** The numbered tokens of the text shown for a tree. *)
Lemma renumbered_shape : forall vars o a,
  NoDup vars -> variableNames vars ->
  indicesBelow (length vars) a ->
  map (fun t => erasePosition (renumberToken (invertVariables vars 0 o) t))
      (preliminaryShape a vars)
  = shape a.
Proof.
  intros vars o a Hnd Hv.
  induction a as [| |u IH|l IHl r IHr|l IHl r IHr|l IHl r IHr|l IHl r IHr|i];
    intro Hi; cbn [indicesBelow preliminaryShape shape map] in *;
    try reflexivity;
    try (destruct Hi as [Hl Hr]; rewrite map_app; cbn [map]; rewrite map_app;
         rewrite (IHl Hl), (IHr Hr); reflexivity).
  - rewrite (IH Hi). reflexivity.
  - destruct (listed_name vars i _ Hv Hi eq_refl) as (j & name & Ei & Hn & Hname & _).
    subst i. cbn [arrayGet]. rewrite Hn. cbn [toStr].
    unfold renumberToken. cbn [type index start end']. rewrite jseqb_refl.
    unfold objGet.
    rewrite (invertVariables_position vars 0 o j name Hnd (proj2 Hv) Hn).
    reflexivity.
Qed.

Lemma parseTokens_positions : forall tokens vars r,
  parseTokens (map erasePosition tokens) vars = Return r ->
  parseTokens tokens vars = Return r.
Proof.
  intros tokens vars r H. rewrite parseTokens_erase in H.
  destruct (parseTokens tokens vars); cbn [eraseOutcome] in H;
    [exact H | discriminate | discriminate].
Qed.

(** The text shown for a tree whose variables are the listed ones is
    parsed to the tree and the list. *)
Lemma parse_shown : forall vars a,
  StronglySorted (fun x y => jsltb x y = true) vars ->
  variableNames vars ->
  indicesBelow (length vars) a ->
  (forall j, j < length vars -> occursIn j a) ->
  parse (shown a vars) = Return {| ast := a; variables := vars |}.
Proof.
  intros vars a Hsorted Hv Hi Hocc.
  pose proof (strictly_sorted_NoDup _ Hsorted) as Hnd.
  set (text := shown a vars).
  (* the preliminary scan *)
  destruct (scan_shown vars a Hv Hi (text ++ kScannerConstants.EOF) [] kScannerConstants.EOF
              [] [] eq_refl eq_refl) as (k & new & Hk & Hrun & Hshape).
  fold text in Hk, Hrun. cbn [app length] in Hrun.
  set (vs := enterNames (namesOf a vars) []) in *.
  assert (Hpre : preliminaryScan text
                 = Return (new ++ [makeIdentityToken kScannerConstants.EOF (length text)],
                           vs)).
  { unfold preliminaryScan.
    replace (S (length (text ++ kScannerConstants.EOF)))
      with (k + S (length (text ++ kScannerConstants.EOF) - k))
      by (rewrite length_app; cbn [length kScannerConstants.EOF]; lia).
    specialize (Hrun (S (length (text ++ kScannerConstants.EOF) - k))).
    cbn [scanFrom] in Hrun. rewrite Hrun.
    apply (preliminaryScanLoop_EOF (text ++ kScannerConstants.EOF) (length text)).
    apply charAt_middle. }
  (* the variable list *)
  assert (Hok : variableSetOK vs) by (apply enterNames_OK, variableSetOK_empty).
  assert (Hnames : forall name, In name (namesOf a vars) <-> In name vars).
  { intro name. rewrite (namesOf_listed vars a name Hi). split.
    - intros (j & _ & Hn). apply (nth_error_In _ _ Hn).
    - intro Hin. apply In_nth_error in Hin. destruct Hin as [j Hj].
      exists j. split; [|exact Hj]. apply Hocc. apply nth_error_Some. congruence. }
  assert (Hvars : sort (forIn vs) = vars).
  { apply strictly_sorted_unique.
    - apply sorted_strict; [apply (sorted_names _ Hok) | apply sort_sorted].
    - exact Hsorted.
    - intro x. split; intro Hx.
      + apply (Permutation_in _ (sort_perm _)) in Hx.
        unfold vs in Hx. rewrite enterNames_names in Hx.
        * destruct Hx as [[] | Hx]. apply Hnames. exact Hx.
        * intro Hp. apply Hnames in Hp. exact (proj2 Hv Hp).
      + apply (Permutation_in _ (Permutation_sym (sort_perm _))).
        unfold vs. rewrite enterNames_names.
        * right. apply Hnames. exact Hx.
        * intro Hp. apply Hnames in Hp. exact (proj2 Hv Hp). }
  (* the tokens *)
  unfold parse, scan, checkIntegrity.
  rewrite (checkIntegrityFrom_okay text 0 (shown_okay vars a Hv Hi)). cbn [bind].
  rewrite Hpre. cbn [bind]. unfold numberVariables. cbn [fst snd].
  rewrite Hvars.
  apply parseTokens_positions.
  rewrite map_map, map_app, (map_ext _ _ (erasePosition_renumberToken _)).
  rewrite <- (map_map withoutPosition
                (fun t => erasePosition (renumberToken (invertVariables vars 0 vs) t))).
  rewrite Hshape, (renumbered_shape vars vs a Hnd Hv Hi).
  apply parseTokens_shape. reflexivity.
Qed.






(** What [parse] returns, in terms of the tokens of [scan]. *)
Lemma parse_Return : forall (input : jsstring) r,
  parse input = Return r ->
  exists inner,
    scan input = Return (inner ++ [mkToken kScannerConstants.EOF None
                                           (length input) (length input + 1)],
                         variables r)
    /\ infix (ast r) = flat_map symbolOf inner
    /\ Forall (scannedLexeme input (variables r)) inner
    /\ tiles input 0 inner
    /\ forall name, In name (variables r) ->
         name <> js "__proto__" /\ isVariableName name = true
         /\ exists t, In t inner /\ type t = js "variable" /\ lexeme input t = name.
Proof.
  intros input r H. unfold parse in H.
  destruct (scan input) as [[tokens vars]|e|f] eqn:Hscan; cbn [bind fst snd] in H;
    try discriminate.
  destruct (scan_tokens _ _ _ Hscan) as (inner & Htok & Htiles & Hlex & Hnames).
  destruct (scan_inner_tokens _ _ _ Hscan) as (inner' & eof & Htok' & He & Hin & _).
  assert (E : inner' = inner /\ eof = mkToken kScannerConstants.EOF None
                                        (length input) (length input + 1)).
  { rewrite Htok in Htok'. apply app_inj_tail in Htok'. destruct Htok'. split; congruence. }
  destruct E as [E1 E2]. rewrite E1 in Hin. rewrite E2 in He. clear E1 E2 Htok'.
  rewrite Htok in *. clear Htok.
  destruct (parseTokens_Return _ _ _ _ Hin He H) as (Hvars & _).
  rewrite Hvars. exists inner. split; [reflexivity|].
  split; [eapply parseTokens_symbols; eassumption|].
  split; [exact Hlex|]. split; [exact Htiles|].
  intros name Hname. destruct (Hnames name Hname) as (Hp & t & Ht & Hty & Hl).
  split; [exact Hp|]. split; [|exists t; auto].
  rewrite Forall_forall in Hlex. specialize (Hlex t Ht). unfold scannedLexeme in Hlex.
  rewrite Hty, jseqb_refl in Hlex. rewrite <- Hl. apply Hlex.
Qed.









(* ------------------------------------------------------------------ *)
(** *** The call stack *)

Lemma depth_positive : forall a, 1 <= depth a.
Proof. destruct a; cbn [depth]; lia. Qed.

Lemma toStringOn_spec : forall stack n vars,
  toStringOn stack n vars
  = if depth n <=? stack then Normal (toString n vars) else RangeError.
Proof.
  induction stack as [|stack IH]; intros n vars.
  - pose proof (depth_positive n) as Hd.
    destruct (Nat.leb_spec (depth n) 0); [lia | reflexivity].
  - destruct n as [| |u|l r|l r|l r|l r|i];
      cbn [toStringOn depth toString Nat.leb]; try reflexivity;
      rewrite ?IH;
      try (destruct (Nat.leb_spec (depth u) stack); reflexivity);
      destruct (Nat.leb_spec (depth l) stack) as [Hl|Hl];
      destruct (Nat.leb_spec (depth r) stack) as [Hr|Hr];
      destruct (Nat.leb_spec (Nat.max (depth l) (depth r)) stack);
      try lia; reflexivity.
Qed.

Lemma evaluateOn_fits : forall stack n assignment,
  depth n <= stack ->
  evaluateOn stack n assignment = Normal (evaluate n assignment).
Proof.
  induction stack as [|stack IH]; intros n assignment Hd.
  - pose proof (depth_positive n). lia.
  - destruct n as [| |u|l r|l r|l r|l r|i];
      cbn [evaluateOn depth evaluate] in *; try reflexivity.
    + rewrite IH by lia. reflexivity.
    + rewrite IH by lia. cbn [andThen]. unfold jsand.
      destruct (truthy (evaluate l assignment)); [apply IH; lia | reflexivity].
    + rewrite IH by lia. cbn [andThen]. unfold jsor.
      destruct (truthy (evaluate l assignment)); [reflexivity | apply IH; lia].
    + rewrite IH by lia. cbn [andThen]. unfold jsor.
      destruct (truthy (jsnot (evaluate l assignment))); [reflexivity | apply IH; lia].
    + rewrite !IH by lia. reflexivity.
Qed.

Lemma createTableHeaderOn_spec : forall stack table pr,
  createTableHeaderOn stack table pr
  = if depth (ast pr) <=? stack then Normal (createTableHeader table pr)
    else RangeError.
Proof.
  intros stack table pr. unfold createTableHeaderOn, createTableHeader.
  rewrite toStringOn_spec. destruct (depth (ast pr) <=? stack); reflexivity.
Qed.

Lemma truthTableLoopOn_fits :
  forall (St : Type) (callback : list bool -> jsbool -> St -> St)
         stack fuel a assignment st,
    depth a <= stack ->
    truthTableLoopOn callback stack fuel a assignment st
    = completed (truthTableLoop callback fuel a assignment st).
Proof.
  intros St callback stack fuel a. induction fuel as [|fuel IH];
    intros assignment st Hd; cbn [truthTableLoopOn truthTableLoop].
  - reflexivity.
  - rewrite (evaluateOn_fits _ _ _ Hd). cbn [andThen].
    destruct (nextAssignment assignment) as [more assignment'].
    destruct more; [apply IH; exact Hd | reflexivity].
Qed.

Lemma evaluateOn_cases : forall stack n assignment,
  evaluateOn stack n assignment = Normal (evaluate n assignment)
  \/ evaluateOn stack n assignment = RangeError.
Proof.
  induction stack as [|stack IH]; intros n assignment; [right; reflexivity|].
  destruct n as [| |u|l r|l r|l r|l r|i]; cbn [evaluateOn evaluate];
    try (left; reflexivity).
  - destruct (IH u assignment) as [E | E]; rewrite E; [left | right]; reflexivity.
  - destruct (IH l assignment) as [E | E]; rewrite E; cbn [andThen];
      [|right; reflexivity].
    unfold jsand. destruct (truthy (evaluate l assignment)); [apply IH | left; reflexivity].
  - destruct (IH l assignment) as [E | E]; rewrite E; cbn [andThen];
      [|right; reflexivity].
    unfold jsor. destruct (truthy (evaluate l assignment)); [left; reflexivity | apply IH].
  - destruct (IH l assignment) as [E | E]; rewrite E; cbn [andThen];
      [|right; reflexivity].
    unfold jsor. destruct (truthy (jsnot (evaluate l assignment)));
      [left; reflexivity | apply IH].
  - destruct (IH l assignment) as [E | E]; rewrite E; cbn [andThen];
      [|right; reflexivity].
    destruct (IH r assignment) as [E' | E']; rewrite E'; [left | right]; reflexivity.
Qed.

Lemma truthTableLoopOn_cases :
  forall (St : Type) (callback : list bool -> jsbool -> St -> St)
         stack fuel a assignment st,
    truthTableLoopOn callback stack fuel a assignment st
    = completed (truthTableLoop callback fuel a assignment st)
    \/ truthTableLoopOn callback stack fuel a assignment st = RangeError.
Proof.
  intros St callback stack fuel a. induction fuel as [|fuel IH];
    intros assignment st; cbn [truthTableLoopOn truthTableLoop].
  - left. reflexivity.
  - destruct (evaluateOn_cases stack a assignment) as [E | E]; rewrite E;
      cbn [andThen]; [|right; reflexivity].
    destruct (nextAssignment assignment) as [more assignment'].
    destruct more; [apply IH | left; reflexivity].
Qed.

(** The table is built as without the bounds, or a call of one of the
    two methods ends with the [RangeError]: the one of [toString] for
    the header on a tree higher than its bound, none on a tree that is
    within both bounds. *)
Lemma prettyPrintTruthTableOn_spec : forall toStringStack evaluateStack fuel pr doc,
  (prettyPrintTruthTableOn toStringStack evaluateStack fuel pr doc
   = completed (prettyPrintTruthTable fuel pr doc)
   \/ prettyPrintTruthTableOn toStringStack evaluateStack fuel pr doc = RangeError)
  /\ (depth (ast pr) <= toStringStack -> depth (ast pr) <= evaluateStack ->
      prettyPrintTruthTableOn toStringStack evaluateStack fuel pr doc
      = completed (prettyPrintTruthTable fuel pr doc))
  /\ (toStringStack < depth (ast pr) ->
      prettyPrintTruthTableOn toStringStack evaluateStack fuel pr doc = RangeError).
Proof.
  intros ts es fuel pr doc.
  unfold prettyPrintTruthTableOn, prettyPrintTruthTable.
  rewrite createTableHeaderOn_spec.
  unfold generateTruthTableOn, generateTruthTable.
  destruct (Nat.leb_spec (depth (ast pr)) ts) as [Hd|Hd]; cbn [andThen].
  - pose proof (truthTableLoopOn_cases _ outputRow es fuel (ast pr)
                  (map (fun _ => false) (variables pr))
                  (createTableHeader createTableElement pr)) as Hc.
    pose proof (truthTableLoopOn_fits _ outputRow es fuel (ast pr)
                  (map (fun _ => false) (variables pr))
                  (createTableHeader createTableElement pr)) as Hf.
    destruct (truthTableLoop outputRow fuel (ast pr)
                (map (fun _ => false) (variables pr))
                (createTableHeader createTableElement pr)) as [t|e|f];
      cbn [completed bind] in *.
    + split; [|split; [|lia]].
      * destruct Hc as [E | E]; rewrite E; [left | right]; reflexivity.
      * intros _ He. rewrite (Hf He). reflexivity.
    + split; [|split; [|lia]].
      * destruct Hc as [E | E]; rewrite E; [left | right]; reflexivity.
      * intros _ He. rewrite (Hf He). reflexivity.
    + split; [|split; [|lia]].
      * destruct Hc as [E | E]; rewrite E; [left | right]; reflexivity.
      * intros _ He. rewrite (Hf He). reflexivity.
  - split; [right; reflexivity|]. split; [lia | reflexivity].
Qed.

Lemma depth_infix : forall a, depth a <= length (infix a).
Proof.
  induction a; cbn [depth infix length]; rewrite ?length_app; cbn [length]; lia.
Qed.

Lemma symbolOf_length : forall t, length (symbolOf t) <= 1.
Proof.
  intro t. unfold symbolOf.
  destruct (isOperand t); [destruct (wrapOperand t); cbn [length]; lia|].
  destruct (type t === "~"); [cbn [length]; lia|].
  destruct (isBinaryOperator t); cbn [length]; lia.
Qed.

Lemma flat_map_symbolOf_length : forall l, length (flat_map symbolOf l) <= length l.
Proof.
  induction l as [|t l IH]; cbn [flat_map length]; [lia|].
  rewrite length_app. pose proof (symbolOf_length t). lia.
Qed.

Lemma tiles_length : forall I (input : jsstring) (l : list (token I)) i,
  tiles input i l -> i + length l <= length input \/ l = [].
Proof.
  intros I input l. induction l as [|t l IH]; intros i H; cbn [tiles length] in *.
  - right. reflexivity.
  - left. destruct H as (H1 & H2 & H3 & _ & H5).
    destruct (IH _ H5) as [H | H]; [lia|]. subst l. cbn [length]. lia.
Qed.

(** The tree is not deeper than the input is long. *)
Lemma parse_depth : forall (input : jsstring) r,
  parse input = Return r -> depth (ast r) <= length input.
Proof.
  intros input r H.
  destruct (parse_Return _ _ H) as (inner & _ & Hinfix & _ & Htiles & _).
  pose proof (depth_infix (ast r)) as H1. rewrite Hinfix in H1.
  pose proof (flat_map_symbolOf_length inner) as H2.
  assert (Hl : 0 + @length tok inner <= length input \/ inner = [])
    by exact (tiles_length _ _ _ _ Htiles).
  destruct Hl as [H3 | H3]; [lia|].
  subst inner. cbn [length] in *.
  pose proof (depth_positive (ast r)). lia.
Qed.

Lemma depth_negations : forall n a, depth (negations n a) = n + depth a.
Proof.
  induction n as [|n IH]; intro a; cbn [negations depth Nat.add]; [reflexivity|].
  rewrite IH. reflexivity.
Qed.

Lemma shown_negations : forall n a vars,
  shown (negations n a) vars = repeat 172%N n ++ shown a vars.
Proof.
  induction n as [|n IH]; intros a vars; cbn [negations shown repeat app];
    [reflexivity|]. rewrite IH. reflexivity.
Qed.

(** [n] negation signs and a variable are parsed to [n] nested negations. *)
Lemma parse_deepInput : forall n, parse (deepInput n) = Return (deepExample n).
Proof.
  intro n.
  assert (E : deepInput n = shown (ast (deepExample n)) (variables (deepExample n))).
  { unfold deepInput, deepExample. cbn [ast variables].
    rewrite shown_negations. reflexivity. }
  rewrite E. clear E. unfold deepExample. cbn [ast variables].
  apply parse_shown.
  - repeat constructor.
  - split; [repeat constructor | intros [H | []]; discriminate].
  - induction n as [|n IH]; cbn [negations indicesBelow length]; [lia | exact IH].
  - intros j Hj. cbn [length] in Hj. assert (j = 0) by lia. subst j.
    induction n as [|n IH]; cbn [negations occursIn]; [reflexivity | exact IH].
Qed.

(** X19 (go, prettyPrintTruthTable, createTableHeader, toString,
    evaluate): where the stack of the host has room for [toStringStack]
    nested calls of [toString] and [evaluateStack] of [evaluate], [go]
    ends in one of three ways.  When [parse] throws, it shows the error
    box.  When [parse] returns, it shows the truth table (given the 2^n
    rounds the table needs), or the [RangeError] of one of the two
    methods is thrown again before anything is shown: the table for a
    tree whose height is within both bounds, the exception for a tree
    higher than the bound of [toString].  The output box then holds the
    one element shown.  No [Error] of [assert] or [unreachable] leaves
    [go].  The tree is never higher than the input is long; and for
    every bound the input of as many negation signs and a variable, one
    character more, ends with the [RangeError]. *)
Theorem go_shows_table_or_error :
  (forall doc toStringStack evaluateStack,
     match parse (expressionInput doc) with
     | Return pr =>
         depth (ast pr) <= length (expressionInput doc)
         /\ forall fuel, 2 ^ length (variables pr) <= fuel ->
              (go toStringStack evaluateStack fuel doc
               = Normal (showing doc (tableHolder (truthTable pr)))
               \/ go toStringStack evaluateStack fuel doc = RangeError)
              /\ (depth (ast pr) <= toStringStack ->
                  depth (ast pr) <= evaluateStack ->
                  go toStringStack evaluateStack fuel doc
                  = Normal (showing doc (tableHolder (truthTable pr))))
              /\ (toStringStack < depth (ast pr) ->
                  go toStringStack evaluateStack fuel doc = RangeError)
     | Throw e =>
         forall fuel,
           go toStringStack evaluateStack fuel doc
           = Normal (showing doc (errorHolder (expressionInput doc) e))
     | Failure _ => False
     end)
  /\ (forall toStringStack evaluateStack fuel target,
        length (deepInput toStringStack) = toStringStack + 1
        /\ go toStringStack evaluateStack fuel
              {| expressionInput := deepInput toStringStack; tableTarget := target |}
           = RangeError).
Proof.
  split.
  - intros doc ts es. pose proof (parse_outcome (expressionInput doc)) as Hp.
    pose proof (parse_depth (expressionInput doc)) as Hdepth.
    unfold go.
    destruct (parse (expressionInput doc)) as [pr|e|f]; cbn [completed andThen].
    + split; [apply Hdepth; reflexivity|].
      intros fuel Hfuel.
      destruct (prettyPrintTruthTableOn_spec ts es fuel pr doc) as (H1 & H2 & H3).
      rewrite (prettyPrintTruthTable_spec _ _ _ Hfuel) in H1, H2.
      cbn [completed] in H1, H2.
      split; [|split].
      * destruct H1 as [E | E]; rewrite E; [left | right]; reflexivity.
      * intros Ht He. rewrite (H2 Ht He). reflexivity.
      * intro Ht. rewrite (H3 Ht). reflexivity.
    + intro fuel. destruct Hp as (H1 & _).
      rewrite (displayCompileError_spec _ _ _ H1). reflexivity.
    + exact Hp.
  - intros ts es fuel target. split.
    + unfold deepInput. rewrite length_app, repeat_length. reflexivity.
    + unfold go. cbn [expressionInput]. rewrite parse_deepInput.
      cbn [completed andThen].
      destruct (prettyPrintTruthTableOn_spec ts es fuel (deepExample ts)
                  {| expressionInput := deepInput ts; tableTarget := target |})
        as (_ & _ & H3).
      rewrite H3; [reflexivity|].
      unfold deepExample. cbn [ast]. rewrite depth_negations. cbn [depth]. lia.
Qed.
